(** * The deferred heap of gcpp ([deferred_heap.h]), embedded in Rocq

    The development follows the header from top to bottom: the destructor
    registry ([destructors]), the tracked pointers ([deferred_ptr_void]),
    the pages of the heap ([dhpage]), registration, allocation and
    construction, and the collector ([mark], [collect]).

    Conventions.
    - An address is an integer; the null pointer is 0.
    - [std::size_t] is a 64-bit unsigned integer; its arithmetic wraps and
      the wrap-around is written out ([SizeT]).
    - [assert] aborts the process in a debug build and is compiled out when
      [NDEBUG] is defined; the build is a parameter ([ndebug]).
    - Constructors and destructors of user types are code the heap calls
      through a pointer; they are parameters of the model and may change
      the whole heap (they can reenter it).
    - [gpage] (gpage.h) is an external component; the heap is modelled over
      its interface ([gpage_ops]), and a reference model written from the
      specification is given for concrete runs ([SpecPage]).
    - The memory of a new page is granted by the operating system; the
      exception that a refusal raises is modelled apart ([allocate_exn],
      [make_exn]). *)

From Stdlib Require Import ZArith Lia String.
From stdpp Require Import base list gmap.

Local Open Scope Z_scope.

(** ** Machine integers *)

Module SizeT.
Definition modulus : Z := 2 ^ 64.

Definition wrap (x : Z) : Z := x mod modulus.

(** [++x] *)
Definition incr (x : Z) : Z := wrap (x + 1).

(** [x - 1] *)
Definition decr (x : Z) : Z := wrap (x - 1).

(** [x * y] *)
Definition mul (x y : Z) : Z := wrap (x * y).


End SizeT.

(** ** The double-precision product [sizeof(Hint) * n * 2.62]

  A positive binary64 number is [mant * 2 ^ expo] with [mant < 2 ^ 53].
  Only what the page constructor uses is modelled: the conversion of a
  [size_t] to [double], the literal [2.62], the product (rounded to
  nearest, ties to even) and the conversion back (truncation). The values
  at hand are far from the exponent limits of the format. *)

Module Double.
Record t : Type := mk { mant : Z; expo : Z }.

Definition nearest_even (q r half : Z) : Z :=
  if r <? half then q
  else if half <? r then q + 1
  else if Z.even q then q else q + 1.

(** [m * 2 ^ e], rounded to 53 significant bits *)
Definition round (m e : Z) : t :=
  if m <? 2 ^ 53 then mk m e
  else
    let sh := Z.log2 m - 52 in
    mk (nearest_even (m / 2 ^ sh) (m mod 2 ^ sh) (2 ^ (sh - 1))) (e + sh).

Definition of_size_t (k : Z) : t := round k 0.

(** the literal [2.62]: the multiple of [2 ^ -51] nearest to 262/100 *)
Definition lit_2_62 : t :=
  Eval vm_compute in
    mk (nearest_even (262 * 2 ^ 51 / 100) (2 * (262 * 2 ^ 51 mod 100)) 100)
       (-51).

Definition mul (a b : t) : t := round (mant a * mant b) (expo a + expo b).

(** conversion to [size_t] truncates *)
Definition to_size_t (a : t) : Z :=
  if 0 <=? expo a then mant a * 2 ^ expo a else mant a / 2 ^ (- expo a).



End Double.

(** ** Addresses, object types and the page interface *)

Abbreviation addr := Z (only parsing).

Definition null : addr := 0.

(** A pointer to a function, as stored in [destructor::destroy]. *)
Abbreviation fnptr := nat (only parsing).

(** What the templates read off their type argument [T]: [sizeof(T)],
  [std::is_trivially_destructible<T>::value], and the captureless lambda
  calling [~T()] on its argument, whose address [store<T>] keeps. *)
Record ctype : Type := {
sizeof : Z;
trivially_destructible : bool;
dtor : fnptr
}.

Inductive gpage_find_result : Type :=
| not_in_range
| in_range_unallocated
| in_range_allocated_middle
| in_range_allocated_start.

Global Instance gpage_find_result_eq_dec : EqDecision gpage_find_result.
Proof. solve_decision. Defined.

Record contains_info_ret : Type := {
found : gpage_find_result;
start_location : nat
}.

Record location_info_ret : Type := {
is_start : bool;
pointer : addr
}.

(** The members of [gpage] that the heap calls. [page_allocate] is
  [allocate<T>(n)]: it returns the pointer (null when the page cannot
  satisfy the request) and the page afterwards. *)
Class gpage_ops : Type := {
gpage : Type;
page_contains : gpage -> addr -> bool;
page_contains_info : gpage -> addr -> contains_info_ret;
page_allocate : gpage -> ctype -> Z -> addr * gpage;
page_deallocate : gpage -> addr -> gpage;
page_locations : gpage -> nat;
page_location_info : gpage -> nat -> location_info_ret
}.

(** ** A reference model of [gpage]

    Modelled from the spec: gpage.h is not among the sources, so the page
    is written from what the specification says of it (section 3, "Page"):
    a contiguous byte region divided into locations of the minimum chunk
    size, each one free, the start of an allocation or the middle of one.
    The specification leaves open where in a page an allocation is placed
    (the first free run that is long enough is taken here), what
    [start_location] is for an address that is not allocated (its own
    location here) and what a request for zero bytes returns (null here).
    Alignment beyond the chunk size is not modelled. The heap itself is
    modelled over the interface [gpage_ops], not over this page. *)

Module SpecPage.

Inductive chunk : Type := Free | Start | Middle.

Global Instance chunk_eq_dec : EqDecision chunk.
Proof. solve_decision. Defined.

Record t : Type := {
  base : addr;
  min_alloc : Z;
  chunks : list chunk
}.

Definition set_chunks (f : list chunk -> list chunk) (g : t) : t :=
  {| base := base g; min_alloc := min_alloc g; chunks := f (chunks g) |}.

(** the page constructor, once the operating system has chosen [base] *)
Definition ctor (base : addr) (total_size min_alloc : Z) : t :=
  {| base := base; min_alloc := min_alloc;
     chunks := replicate (Z.to_nat (total_size / min_alloc)) Free |}.

Definition locations (g : t) : nat := length (chunks g).

Definition total_size (g : t) : Z := min_alloc g * Z.of_nat (locations g).

Definition contains (g : t) (x : addr) : bool :=
  (base g <=? x) && (x <? base g + total_size g).

Definition location_of (g : t) (x : addr) : nat :=
  Z.to_nat ((x - base g) / min_alloc g).

(** the start of the allocation that covers location [i] *)
Fixpoint start_of (cs : list chunk) (i : nat) : nat :=
  match cs !! i with
  | Some Start => i
  | _ => match i with
         | O => O
         | S i' => start_of cs i'
         end
  end.

Definition contains_info (g : t) (x : addr) : contains_info_ret :=
  if contains g x then
    let i := location_of g x in
    match chunks g !! i with
    | Some Start =>
        {| found := in_range_allocated_start; start_location := i |}
    | Some Middle =>
        {| found := in_range_allocated_middle;
           start_location := start_of (chunks g) i |}
    | _ => {| found := in_range_unallocated; start_location := i |}
    end
  else {| found := not_in_range; start_location := 0 |}.

(** the first location from which [k] locations are free *)
Fixpoint first_fit (cs : list chunk) (k : nat) (i : nat) : option nat :=
  match cs with
  | [] => None
  | _ :: cs' =>
      if (k <=? length cs)%nat && forallb (fun c => bool_decide (c = Free)) (take k cs)
      then Some i
      else first_fit cs' k (S i)
  end.

Definition allocate (g : t) (T : ctype) (n : Z) : addr * t :=
  let k := Z.to_nat ((n * sizeof T + min_alloc g - 1) / min_alloc g) in
  match k with
  | O => (null, g)
  | S k' =>
      match first_fit (chunks g) k 0 with
      | Some i =>
          (base g + Z.of_nat i * min_alloc g,
           set_chunks (fun cs => take i cs ++ Start :: replicate k' Middle
                                   ++ drop (i + k) cs) g)
      | None => (null, g)
      end
  end.

Fixpoint free_middles (cs : list chunk) : list chunk :=
  match cs with
  | Middle :: cs' => Free :: free_middles cs'
  | _ => cs
  end.

Definition deallocate (g : t) (x : addr) : t :=
  if contains g x then
    let i := location_of g x in
    match chunks g !! i with
    | Some Start =>
        set_chunks (fun cs => take i cs ++ Free :: free_middles (drop (S i) cs))
                   g
    | _ => g
    end
  else g.

Definition location_info (g : t) (i : nat) : location_info_ret :=
  {| is_start := bool_decide (chunks g !! i = Some Start);
     pointer := base g + Z.of_nat i * min_alloc g |}.

Definition ops : gpage_ops :=
  {| gpage := t;
     page_contains := contains;
     page_contains_info := contains_info;
     page_allocate := allocate;
     page_deallocate := deallocate;
     page_locations := locations;
     page_location_info := location_info |}.

End SpecPage.

(** ** Outcomes of a call *)

Inductive result (A : Type) : Type :=
| Ok (a : A)
| Fatal (msg : string)
| Timeout.

Arguments Ok {A} a.
Arguments Fatal {A} msg.
Arguments Timeout {A}.

Definition is_ok {A} (r : result A) : bool :=
match r with Ok _ => true | _ => false end.

(** ** The data of the heap *)

Section heap.
Context {page_ops : gpage_ops}.

(** [struct destructors::destructor] *)
Record destructor : Type := {
  d_p : addr;
  d_size : Z;
  d_n : Z;
  d_destroy : fnptr
}.

(** [struct nonroot]: the address of a [deferred_ptr_void] that lives
    inside the heap, and its marking level. *)
Record nonroot : Type := {
  nr_p : addr;
  level : Z
}.

(** [struct dhpage] *)
Record dhpage : Type := {
  page : gpage;
  live_starts : list bool;
  deferred_ptrs : list nonroot
}.

(** [class deferred_heap], together with the [p] members of the
    [deferred_ptr_void] objects of the program ([memory], keyed by the
    address of the object): the heap reads and resets them through the
    addresses it has registered. *)
Record deferred_heap : Type := {
  pages : list dhpage;
  roots : gset Z;
  dtors : list destructor;
  is_destroying : bool;
  collect_before_expand : bool;
  memory : gmap Z Z
}.

Definition set_page (f : gpage -> gpage) (pg : dhpage) : dhpage :=
  {| page := f (page pg); live_starts := live_starts pg;
     deferred_ptrs := deferred_ptrs pg |}.

Definition set_live_starts (f : list bool -> list bool) (pg : dhpage)
  : dhpage :=
  {| page := page pg; live_starts := f (live_starts pg);
     deferred_ptrs := deferred_ptrs pg |}.

Definition set_deferred_ptrs (f : list nonroot -> list nonroot)
    (pg : dhpage) : dhpage :=
  {| page := page pg; live_starts := live_starts pg;
     deferred_ptrs := f (deferred_ptrs pg) |}.

Definition set_level (l : Z) (dp : nonroot) : nonroot :=
  {| nr_p := nr_p dp; level := l |}.

Definition set_pages (f : list dhpage -> list dhpage) (h : deferred_heap)
  : deferred_heap :=
  {| pages := f (pages h); roots := roots h; dtors := dtors h;
     is_destroying := is_destroying h;
     collect_before_expand := collect_before_expand h;
     memory := memory h |}.

Definition set_roots (f : gset Z -> gset Z) (h : deferred_heap)
  : deferred_heap :=
  {| pages := pages h; roots := f (roots h); dtors := dtors h;
     is_destroying := is_destroying h;
     collect_before_expand := collect_before_expand h;
     memory := memory h |}.

Definition set_dtors (f : list destructor -> list destructor)
    (h : deferred_heap) : deferred_heap :=
  {| pages := pages h; roots := roots h; dtors := f (dtors h);
     is_destroying := is_destroying h;
     collect_before_expand := collect_before_expand h;
     memory := memory h |}.

Definition set_memory (f : gmap Z Z -> gmap Z Z) (h : deferred_heap)
  : deferred_heap :=
  {| pages := pages h; roots := roots h; dtors := dtors h;
     is_destroying := is_destroying h;
     collect_before_expand := collect_before_expand h;
     memory := f (memory h) |}.

(** [deferred_heap() = default] *)
Definition empty_heap : deferred_heap :=
  {| pages := []; roots := ∅; dtors := []; is_destroying := false;
     collect_before_expand := false; memory := ∅ |}.

(** ** What a call leaves behind

    Besides its value and the heap, a call leaves the list of the steps
    the heap itself took, in order. Code of the user that runs in between
    cannot touch this list. *)

Inductive event : Type :=
| EvConstruct (T : ctype) (x : addr)
    (** [::new (x) T{...}] *)
| EvDestroy (f : fnptr) (x : addr) (before : deferred_heap)
    (** [d.destroy(x)], with the heap as the destructor finds it *)
| EvReset (tp : addr)
    (** the collector's [reset()] of the [deferred_ptr] at [tp] *)
| EvStore (d : destructor)
    (** [dtors.push_back(d)] *)
| EvDeallocate (pg : nat) (x : addr).
    (** [pages[pg].page.deallocate(x)] *)

Record out (A : Type) : Type := Out {
  val : A;
  post : deferred_heap;
  log : list event
}.

Arguments Out {A} val post log.
Arguments val {A} o.
Arguments post {A} o.
Arguments log {A} o.

Definition M (A : Type) : Type := deferred_heap -> result (out A).

Global Instance M_ret : MRet M := fun A a h => Ok (Out a h []).

Global Instance M_bind : MBind M := fun A B f m h =>
  match m h with
  | Ok o =>
      match f (val o) (post o) with
      | Ok o' => Ok (Out (val o') (post o') (log o ++ log o'))
      | Fatal s => Fatal s
      | Timeout => Timeout
      end
  | Fatal s => Fatal s
  | Timeout => Timeout
  end.

Definition gets {A} (f : deferred_heap -> A) : M A :=
  fun h => Ok (Out (f h) h []).

Definition modify (f : deferred_heap -> deferred_heap) : M unit :=
  fun h => Ok (Out tt (f h) []).

Definition emit (e : event) : M unit := fun h => Ok (Out tt h [e]).

Definition timeout {A} : M A := fun _ => Timeout.

(** [for (auto& x : l) body(x);] *)
Fixpoint for_each {A} (l : list A) (body : A -> M unit) : M unit :=
  match l with
  | [] => mret tt
  | x :: l' => body x;; for_each l' body
  end.

(** [0, 1, ..., n - 1], the values of [i] in
    [for (std::size_t i = 0; i < n; ++i)] *)
Definition iota (n : Z) : list Z := Z.of_nat <$> seq 0 (Z.to_nat n).

(** *** The build and the code of the user *)

Variable ndebug : bool.

(** the call of [~T()] behind a stored function pointer *)
Variable destroy_body : fnptr -> addr -> deferred_heap -> result deferred_heap.

(** the constructor that [::new (x) T{...}] runs *)
Variable construct_body : ctype -> addr -> deferred_heap -> result deferred_heap.

(** the constructor of [gpage]: total size and minimum chunk size in, page
    out; where the page lies is up to the operating system *)
Variable gpage_ctor : deferred_heap -> Z -> Z -> gpage.

Definition assert (c : bool) (msg : string) : M unit :=
  fun h => if ndebug || c then Ok (Out tt h []) else Fatal msg.

Definition call_destroy (f : fnptr) (x : addr) : M unit :=
  fun h =>
    match destroy_body f x h with
    | Ok h' => Ok (Out tt h' [EvDestroy f x h])
    | Fatal s => Fatal s
    | Timeout => Timeout
    end.

Definition call_construct (T : ctype) (x : addr) : M unit :=
  fun h =>
    match construct_body T x h with
    | Ok h' => Ok (Out tt h' [EvConstruct T x])
    | Fatal s => Fatal s
    | Timeout => Timeout
    end.

(** ** [class destructors] *)

(** [store<T>(p, num)] *)
Definition store (T : ctype) (p : addr) (num : Z) : M unit :=
  assert (negb (p =? null) && (0 <? num))
    "no object to register for destruction";;
  if trivially_destructible T then mret tt
  else
    let d := {| d_p := p; d_size := sizeof T; d_n := num;
                d_destroy := dtor T |} in
    modify (set_dtors (fun ds => ds ++ [d]));;
    emit (EvStore d).

(** [is_stored<T>(p)] *)
Definition is_stored (T : ctype) (p : addr) (h : deferred_heap) : bool :=
  trivially_destructible T
  || existsb (fun x => d_p x =? p) (dtors h).

(** the test of the first loop of [run] *)
Definition in_range (begin end_ : addr) (d : destructor) : bool :=
  (begin <=? d_p d) && (d_p d <? end_).

(** The first loop of [run]: walk [dtors]; an entry in the range is
    appended to [to_destroy] and erased, [ret] becomes true. The result is
    what is left of [dtors], [to_destroy], and [ret]. *)
Fixpoint run_scan (begin end_ : addr) (it : list destructor)
  : list destructor * list destructor * bool :=
  match it with
  | [] => ([], [], false)
  | d :: it' =>
      let '(kept, to_destroy, ret) := run_scan begin end_ it' in
      if in_range begin end_ d then (kept, d :: to_destroy, true)
      else (d :: kept, to_destroy, ret)
  end.

(** the inner loop over the elements of one entry *)
Definition destroy_elements (d : destructor) : M unit :=
  for_each (iota (d_n d))
    (fun i => call_destroy (d_destroy d) (d_p d + SizeT.mul (d_size d) i)).

(** [run(begin, end)] *)
Definition run (begin end_ : addr) : M bool :=
  assert (begin <? end_) "begin must precede end";;
  ds ← gets dtors;
  let '(kept, to_destroy, ret) := run_scan begin end_ ds in
  modify (set_dtors (fun _ => kept));;
  for_each to_destroy destroy_elements;;
  mret ret.

(** [run_all()]: the registry itself is walked while the destructors run,
    and cleared at the end. *)
Definition run_all : M unit :=
  ds ← gets dtors;
  for_each ds destroy_elements;;
  modify (set_dtors (fun _ => [])).

(** ** Registration of tracked pointers *)

(** [find_dhpage_of(p)]: the index of the first page that contains [p] *)
Fixpoint find_dhpage_of (x : addr) (pgs : list dhpage) : option nat :=
  match pgs with
  | [] => None
  | pg :: rest =>
      if page_contains (page pg) x then Some 0%nat
      else S <$> find_dhpage_of x rest
  end.

(** [find_dhpage_info(p)]: the last page whose [contains_info] is in
    range, with that information *)
Fixpoint find_dhpage_info (x : addr) (pgs : list dhpage) (i : nat)
    (ret : option (nat * contains_info_ret))
  : option (nat * contains_info_ret) :=
  match pgs with
  | [] => ret
  | pg :: rest =>
      let info := page_contains_info (page pg) x in
      find_dhpage_info x rest (S i)
        (if decide (found info = not_in_range) then ret
         else Some (i, info))
  end.

(** [nonroot(const deferred_ptr_void* p_)] *)
Definition mk_nonroot (tp : addr) : nonroot := {| nr_p := tp; level := 0 |}.

(** [enregister(p)], [tp] being the address of [p] *)
Definition enregister (tp : addr) : M unit :=
  destroying ← gets is_destroying;
  assert (negb destroying)
    "cannot allocate new objects on a deferred_heap that is being destroyed";;
  pgs ← gets pages;
  match find_dhpage_of tp pgs with
  | Some i =>
      modify (set_pages
                (alter (set_deferred_ptrs (fun l => l ++ [mk_nonroot tp])) i))
  | None => modify (set_roots (fun r => {[tp]} ∪ r))
  end.

(** the index found by [find_if] from [rbegin()]: the last record for [tp] *)
Fixpoint rfind (tp : addr) (l : list nonroot) : option nat :=
  match l with
  | [] => None
  | dp :: l' =>
      match rfind tp l' with
      | Some j => Some (S j)
      | None => if nr_p dp =? tp then Some 0%nat else None
      end
  end.

(** [*j = back(); pop_back();] *)
Definition swap_remove (j : nat) (l : list nonroot) : list nonroot :=
  match last l with
  | Some b => take (length l - 1) (<[j := b]> l)
  | None => l
  end.

(** the loop over the pages in [deregister]; [None] when no page has a
    record for [tp] *)
Fixpoint deregister_scan (tp : addr) (pgs : list dhpage)
  : option (list dhpage) :=
  match pgs with
  | [] => None
  | pg :: rest =>
      match rfind tp (deferred_ptrs pg) with
      | Some j => Some (set_deferred_ptrs (swap_remove j) pg :: rest)
      | None => cons pg <$> deregister_scan tp rest
      end
  end.

(** [deregister(p)], [tp] being the address of [p] *)
Definition deregister (tp : addr) : M unit :=
  destroying ← gets is_destroying;
  if (destroying : bool) then mret tt
  else
    rs ← gets roots;
    let erased_count := if decide (tp ∈ rs) then 1 else 0 in
    modify (set_roots (fun r => r ∖ {[tp]}));;
    assert (erased_count <? 2) "duplicate registration";;
    if 0 <? erased_count then mret tt
    else
      pgs ← gets pages;
      match deregister_scan tp pgs with
      | Some pgs' => modify (set_pages (fun _ => pgs'))
      | None =>
          assert false "attempt to deregister an unregistered deferred_ptr"
      end.

(** ** [class deferred_ptr_void]

    A tracked pointer is named by its own address [tp]. *)

(** [get()] *)
Definition get (tp : addr) (h : deferred_heap) : addr := memory h !!! tp.

(** [set(p_)] *)
Definition set (tp : addr) (p_ : addr) : M unit :=
  modify (set_memory (insert tp p_)).

(** [reset()] *)
Definition reset (tp : addr) : M unit := set tp null.

(** [deferred_ptr_void(void* p_)], for the object at [tp] *)
Definition deferred_ptr_ctor (tp : addr) (p_ : addr) : M unit :=
  set tp p_;;
  enregister tp.

(** [deferred_ptr_void(const deferred_ptr_void& that)] *)
Definition deferred_ptr_copy (tp that : addr) : M unit :=
  p_ ← gets (get that);
  deferred_ptr_ctor tp p_.

(** [operator=(const deferred_ptr_void& that)], defaulted *)
Definition deferred_ptr_assign (tp that : addr) : M unit :=
  p_ ← gets (get that);
  set tp p_.

(** [~deferred_ptr_void()] *)
Definition deferred_ptr_dtor (tp : addr) : M unit := deregister tp.

(** [deferred_ptr<T>::pointer_to(t)]: the tracked pointer returned, built
    at [tp], holds the address [t] of the argument. *)
Definition pointer_to (tp : addr) (t : addr) : M unit :=
  deferred_ptr_ctor tp t.

(** [found] is one of the two allocated cases *)
Definition is_allocated (f : gpage_find_result) : bool :=
  bool_decide (f = in_range_allocated_middle)
  || bool_decide (f = in_range_allocated_start).

(** [find_dhpage_info_ret]: the page (by index) and the information; when
    no page is in range the page is null and the information is as
    initialised by default. *)
Definition info_of (r : option (nat * contains_info_ret)) : contains_info_ret :=
  match r with
  | Some (_, info) => info
  | None => {| found := not_in_range; start_location := 0 |}
  end.

(** [operator+=(offset)] of [deferred_ptr<T>], for the tracked pointer at
    [tp]. The checks are compiled in a debug build only;
    [found > gpage::in_range_unallocated] reads "allocated, middle or
    start". *)
Definition add_assign (T : ctype) (tp : addr) (offset : Z) : M unit :=
  x ← gets (get tp);
  assert (negb (x =? null))
    "bad deferred_ptr arithmetic: can't perform arithmetic on a null pointer";;
  pgs ← gets pages;
  let this_info := find_dhpage_info x pgs 0 None in
  assert (bool_decide (is_Some this_info))
    "corrupt non-null deferred_ptr, not pointing into deferred heap";;
  assert (is_allocated (found (info_of this_info)))
    "corrupt non-null deferred_ptr, pointing to unallocated memory";;
  let temp := x + offset * sizeof T in
  let temp_info := find_dhpage_info temp pgs 0 None in
  assert (bool_decide (fst <$> this_info = fst <$> temp_info))
    "bad deferred_ptr arithmetic: attempt to leave dhpage";;
  assert ((bool_decide (found (info_of this_info) = in_range_allocated_start)
           && ((offset =? 0) || (offset =? 1)))
          || (bool_decide (start_location (info_of this_info)
                           = start_location (info_of temp_info))
              && is_allocated (found (info_of temp_info))))
    "bad deferred_ptr arithmetic: attempt to go outside the allocation";;
  set tp temp.

(** ** The collector *)

Global Instance result_ret : MRet result := fun A a => Ok a.

Global Instance result_bind : MBind result := fun A B f r =>
  match r with
  | Ok a => f a
  | Fatal s => Fatal s
  | Timeout => Timeout
  end.

(** [assert], where the heap is not at hand *)
Definition check (c : bool) (msg : string) : result unit :=
  if ndebug || c then Ok tt else Fatal msg.

(** The loop of [mark] over the [deferred_ptrs] of the page it has found:
    a record in the allocation that starts at [start] and still at level
    0 gets the level [lvl]. *)
Fixpoint mark_ptrs (g : gpage) (start : nat) (lvl : Z)
    (dps : list nonroot) : result (list nonroot) :=
  match dps with
  | [] => Ok []
  | dp :: rest =>
      let dp_where := page_contains_info g (nr_p dp) in
      check (is_allocated (found dp_where)) "points to unallocated memory";;
      rest' ← mark_ptrs g start lvl rest;
      Ok ((if bool_decide (start_location dp_where = start)
              && (level dp =? 0)
           then set_level lvl dp else dp) :: rest')
  end.

(** The loop of [mark] over the pages; it stops at the first page whose
    [contains_info] is in range. *)
Fixpoint mark_pages (x : addr) (lvl : Z) (pgs : list dhpage)
  : result (list dhpage) :=
  match pgs with
  | [] => Ok []
  | pg :: rest =>
      let where_ := page_contains_info (page pg) x in
      check (negb (bool_decide (found where_ = in_range_unallocated)))
        "must not point to unallocated memory";;
      if bool_decide (found where_ = not_in_range) then
        rest' ← mark_pages x lvl rest;
        Ok (pg :: rest')
      else
        dps ← mark_ptrs (page pg) (start_location where_) lvl
                (deferred_ptrs pg);
        Ok ({| page := page pg;
               live_starts := <[start_location where_ := true]>
                                (live_starts pg);
               deferred_ptrs := dps |} :: rest)
  end.

(** [mark(p, level)] *)
Definition mark (x : addr) (lvl : Z) : M unit :=
  if x =? null then mret tt
  else
    fun h =>
      match mark_pages x lvl (pages h) with
      | Ok pgs' => Ok (Out tt (set_pages (fun _ => pgs') h) [])
      | Fatal s => Fatal s
      | Timeout => Timeout
      end.

(** Phase 1, for one page: [live_starts.set_all(false)] and every level
    back to 0 *)
Definition reset_marks (pg : dhpage) : dhpage :=
  {| page := page pg;
     live_starts := replicate (length (live_starts pg)) false;
     deferred_ptrs := set_level 0 <$> deferred_ptrs pg |}.

(** Phase 2, the roots *)
Definition mark_roots : M unit :=
  rs ← gets roots;
  for_each (elements rs) (fun tp => x ← gets (get tp); mark x 1).

(** The positions (page, record) that one pass of the marking loop
    visits, in order. [mark] changes levels and bits only, so the
    positions are those present when the pass begins; what is at a
    position is read when the loop gets there. *)
Definition record_indices (pgs : list dhpage) : list (nat * nat) :=
  mjoin (imap (fun i pg => pair i <$> seq 0 (length (deferred_ptrs pg)))
              pgs).

Definition lookup_record (i j : nat) (pgs : list dhpage) : option nonroot :=
  pg ← pgs !! i; deferred_ptrs pg !! j.

(** The two [for] loops inside [while (!done)]; the value is [done]. *)
Fixpoint mark_pass_from (lvl : Z) (ixs : list (nat * nat)) (done : bool)
  : M bool :=
  match ixs with
  | [] => mret done
  | (i, j) :: rest =>
      pgs ← gets pages;
      match lookup_record i j pgs with
      | Some dp =>
          if level dp =? SizeT.decr lvl then
            x ← gets (get (nr_p dp));
            mark x lvl;;
            mark_pass_from lvl rest false
          else mark_pass_from lvl rest done
      | None => mark_pass_from lvl rest done
      end
  end.

Definition mark_pass (lvl : Z) : M bool :=
  pgs ← gets pages;
  mark_pass_from lvl (record_indices pgs) true.

(** [while (!done) { done = true; ++level; ... }], entered with [level]
    equal to [lvl]. The value is the number of passes made. *)
Fixpoint mark_loop (fuel : nat) (lvl : Z) : M nat :=
  match fuel with
  | O => timeout
  | S fuel' =>
      done ← mark_pass (SizeT.incr lvl);
      if (done : bool) then mret 1%nat
      else n ← mark_loop fuel' (SizeT.incr lvl); mret (S n)
  end.

(** Phase 3 *)
Definition null_unreached : M unit :=
  pgs ← gets pages;
  for_each pgs (fun pg =>
    for_each (deferred_ptrs pg) (fun dp =>
      if level dp =? 0 then reset (nr_p dp);; emit (EvReset (nr_p dp))
      else mret tt)).

(** [destroy_objects(start, end)] *)
Definition destroy_objects (start end_ : addr) : M bool := run start end_.

(** Phase 4, "find the end of the allocation": [end_i] runs up to
    [locations()], [count] locations being left. *)
Fixpoint find_end (g : gpage) (end_i count : nat) : addr :=
  match count with
  | O => pointer (page_location_info g (page_locations g))
  | S count' =>
      let info := page_location_info g end_i in
      if is_start info then pointer info
      else find_end g (S end_i) count'
  end.

(** Phase 4, the body of the loop over the locations of page [pi] *)
Definition sweep_location (pi i : nat) : M unit :=
  pgs ← gets pages;
  match pgs !! pi with
  | None => mret tt
  | Some pg =>
      let start := page_location_info (page pg) i in
      if is_start start && negb (default false (live_starts pg !! i)) then
        let end_ :=
          find_end (page pg) (S i) (page_locations (page pg) - S i) in
        destroy_objects (pointer start) end_;;
        modify (set_pages
                  (alter (set_page (fun g => page_deallocate g (pointer start)))
                         pi));;
        emit (EvDeallocate pi (pointer start))
      else mret tt
  end.

(** Phase 4, [for (auto& pg : pages)], from page [pi] on. [pages] is a
    [std::list]: a page that a destructor has appended meanwhile is
    visited too. The number of locations of a page is fixed when the
    page is built. *)
Fixpoint sweep_pages (fuel : nat) (pi : nat) : M unit :=
  match fuel with
  | O => timeout
  | S fuel' =>
      pgs ← gets pages;
      match pgs !! pi with
      | None => mret tt
      | Some pg =>
          for_each (seq 0 (page_locations (page pg))) (sweep_location pi);;
          sweep_pages fuel' (S pi)
      end
  end.

(** Phases 1 and 2 of [collect()]; the value is the number of passes of
    the marking loop. *)
Definition collect_mark (fuel : nat) : M nat :=
  modify (set_pages (fmap reset_marks));;
  mark_roots;;
  mark_loop fuel 1.

(** [collect()] *)
Definition collect (fuel : nat) : M unit :=
  collect_mark fuel;;
  null_unreached;;
  sweep_pages fuel 0.

(** ** Allocation and construction *)

(** the first argument of the [gpage] constructor in [dhpage(hint, n)]:
    [std::max<size_t>(sizeof(Hint) * n * 2.62, 4096)] *)
Definition dhpage_total_size (T : ctype) (n : Z) : Z :=
  Z.max (Double.to_size_t
           (Double.mul (Double.of_size_t (SizeT.mul (sizeof T) n))
                       Double.lit_2_62))
        4096.

(** its second argument: [std::max<size_t>(sizeof(Hint), 4)] *)
Definition dhpage_min_alloc (T : ctype) : Z := Z.max (sizeof T) 4.

(** [dhpage(const Hint*, size_t n)] *)
Definition dhpage_ctor (T : ctype) (n : Z) (h : deferred_heap) : dhpage :=
  let g := gpage_ctor h (dhpage_total_size T n) (dhpage_min_alloc T) in
  {| page := g;
     live_starts := replicate (page_locations g) false;
     deferred_ptrs := [] |}.

(** the loop of [allocate_from_existing_pages<T>(n)] *)
Fixpoint allocate_from_pages (T : ctype) (n : Z) (pgs : list dhpage)
  : addr * list dhpage :=
  match pgs with
  | [] => (null, [])
  | pg :: rest =>
      let '(p, g) := page_allocate (page pg) T n in
      if p =? null then
        let '(p', rest') := allocate_from_pages T n rest in
        (p', set_page (fun _ => g) pg :: rest')
      else (p, set_page (fun _ => g) pg :: rest)
  end.

Definition allocate_from_existing_pages (T : ctype) (n : Z) : M addr :=
  fun h =>
    let '(p, pgs') := allocate_from_pages T n (pages h) in
    Ok (Out p (set_pages (fun _ => pgs') h) []).

(** [pages.emplace_back(hint, n); p = pages.back().page.allocate<T>(n);] *)
Definition allocate_from_new_page (T : ctype) (n : Z) : M addr :=
  fun h =>
    let pg := dhpage_ctor T n h in
    let '(p, g) := page_allocate (page pg) T n in
    Ok (Out p (set_pages (fun pgs => pgs ++ [set_page (fun _ => g) pg]) h)
            []).

(** [allocate<T>(n)]. The [deferred_ptr<T>] it returns is built from the
    raw pointer at the address [slot] (the caller's variable). *)
Definition allocate (fuel : nat) (T : ctype) (n : Z) (slot : addr)
  : M unit :=
  p ← allocate_from_existing_pages T n;
  cbe ← gets collect_before_expand;
  p ← (if (p =? null) && cbe
       then collect fuel;; allocate_from_existing_pages T n
       else mret p);
  p ← (if p =? null then allocate_from_new_page T n else mret p);
  assert (negb (p =? null))
    "failed to allocate but didn't throw an exception";;
  deferred_ptr_ctor slot p.

(** [construct(p, args...)] *)
Definition construct (T : ctype) (p : addr) : M unit :=
  assert (negb (p =? null)) "construction at null location";;
  destroy_objects p (p + sizeof T);;
  call_construct T p;;
  store T p 1.

(** [construct_array(p, n)]: the loop runs [::new (p) T{}] at every
    turn. *)
Definition construct_array (T : ctype) (p : addr) (n : Z) : M unit :=
  assert (negb (p =? null)) "construction at null location";;
  destroy_objects p (p + n * sizeof T);;
  for_each (iota n) (fun _ => call_construct T p);;
  store T p n.

(** [destroy(p)] *)
Definition destroy (T : ctype) (p : addr) : M unit :=
  h ← gets id;
  assert ((p =? null) || is_stored T p h)
    "attempt to destroy an object whose destructor is not registered".

(** [make<T>(args...)]; the result is the tracked pointer at [slot]. *)
Definition make (fuel : nat) (T : ctype) (slot : addr) : M unit :=
  allocate fuel T 1 slot;;
  p ← gets (get slot);
  if p =? null then mret tt else construct T p.

(** [make_array<T>(n)]; the result is the tracked pointer at [slot]. *)
Definition make_array (fuel : nat) (T : ctype) (n : Z) (slot : addr)
  : M unit :=
  allocate fuel T n slot;;
  p ← gets (get slot);
  if p =? null then mret tt else construct_array T p n.

(** [set_collect_before_expand(enable)] *)
Definition set_collect_before_expand (enable : bool) : M unit :=
  modify (fun h =>
    {| pages := pages h; roots := roots h; dtors := dtors h;
       is_destroying := is_destroying h;
       collect_before_expand := enable;
       memory := memory h |}).

(** * Facts *)

(** ** Machine arithmetic *)

Lemma wrap_small x : 0 <= x < SizeT.modulus -> SizeT.wrap x = x.
Proof. intros H. unfold SizeT.wrap. now apply Z.mod_small. Qed.

Lemma wrap_range x : 0 <= SizeT.wrap x < SizeT.modulus.
Proof. unfold SizeT.wrap. apply Z.mod_pos_bound. reflexivity. Qed.

Lemma lit_2_62_mant : Double.mant Double.lit_2_62 = 5899715511855350 /\ Double.expo Double.lit_2_62 = -51.
Proof. split; reflexivity. Qed.

Lemma nearest_even_ge q r half : q <= Double.nearest_even q r half.
Proof.
  unfold Double.nearest_even.
  destruct (r <? half); [lia|].
  destruct (half <? r); [lia|].
  destruct (Z.even q); lia.
Qed.

(** Truncating the rounded product by 2.62 never falls below the
    truncated exact product, as long as the integer is below [2 ^ 51]. *)
Lemma mul_2_62_lower (k : Z) :
  0 <= k < 2 ^ 51 ->
  262 * k / 100 <= Double.to_size_t (Double.mul (Double.of_size_t k) Double.lit_2_62).
Proof.
  intros Hk.
  assert (Hk53 : (k <? 2 ^ 53) = true) by (apply Z.ltb_lt; lia).
  assert (Hof : Double.of_size_t k = Double.mk k 0).
  { unfold Double.of_size_t, Double.round. now rewrite Hk53. }
  rewrite Hof. unfold Double.mul. cbn [Double.mant Double.expo]. rewrite Z.add_0_l.
  set (m := Double.mant Double.lit_2_62).
  assert (Hm : m = 5899715511855350) by reflexivity.
  change (Double.expo Double.lit_2_62) with (-51).
  set (P := k * m).
  assert (HP0 : 0 <= P) by (subst P; lia).
  assert (HMP : (262 * k / 100) * 2 ^ 51 <= P).
  { pose proof (Z.mul_div_le (262 * k) 100 ltac:(lia)) as Hd.
    subst P. rewrite Hm.
    change (2 ^ 51) with 2251799813685248. lia. }
  assert (Hlow : 262 * k / 100 <= P / 2 ^ 51).
  { apply Z.div_le_lower_bound; [reflexivity | lia]. }
  unfold Double.round.
  destruct (P <? 2 ^ 53) eqn:HP53.
  - unfold Double.to_size_t. cbn [Double.mant Double.expo]. cbn [Z.leb Z.compare Z.opp].
    exact Hlow.
  - apply Z.ltb_ge in HP53.
    assert (Hlog : 53 <= Z.log2 P < 104).
    { split.
      - apply Z.log2_le_pow2; lia.
      - apply Z.log2_lt_pow2; [lia|].
        subst P. rewrite Hm.
        change (2 ^ 104) with (2 ^ 51 * 2 ^ 53).
        change (2 ^ 53) with 9007199254740992.
        change (2 ^ 51) with 2251799813685248 in *. nia. }
    set (sh := Z.log2 P - 52) in *.
    assert (Hsh : 1 <= sh <= 51) by (subst sh; lia).
    unfold Double.to_size_t. cbn [Double.mant Double.expo].
    assert (Hneg : (0 <=? -51 + sh) = (sh =? 51)).
    { destruct (Z.eqb_spec sh 51); [apply Z.leb_le | apply Z.leb_gt]; lia. }
    rewrite Hneg.
    pose proof (nearest_even_ge (P / 2 ^ sh) (P mod 2 ^ sh) (2 ^ (sh - 1)))
      as Hge.
    set (q' := Double.nearest_even _ _ _) in *.
    assert (Hdd : P / 2 ^ 51 = P / 2 ^ sh / 2 ^ (51 - sh)).
    { assert (0 < 2 ^ sh) by (apply Z.pow_pos_nonneg; lia).
      assert (0 < 2 ^ (51 - sh)) by (apply Z.pow_pos_nonneg; lia).
      rewrite Z.div_div by lia.
      rewrite <- Z.pow_add_r by lia. f_equal. f_equal. lia. }
    destruct (Z.eqb_spec sh 51) as [E|NE].
    + replace (-51 + sh) with 0 by lia. rewrite Z.pow_0_r, Z.mul_1_r.
      rewrite Hdd in Hlow. replace (51 - sh) with 0 in Hlow by lia.
      rewrite Z.pow_0_r, Z.div_1_r in Hlow. lia.
    + replace (- (-51 + sh)) with (51 - sh) by lia.
      etransitivity; [exact Hlow|]. rewrite Hdd.
      apply Z.div_le_mono; [apply Z.pow_pos_nonneg; lia | exact Hge].
Qed.

Lemma nearest_even_le q r half : Double.nearest_even q r half <= q + 1.
Proof.
  unfold Double.nearest_even.
  destruct (r <? half); [lia|].
  destruct (half <? r); [lia|].
  destruct (Z.even q); lia.
Qed.

(** Below [2 ^ 45] the rounding of the product and of the literal stay
    under the distance of [2.62 * k] to the next integer: the truncated
    product is the truncated exact product. *)
Lemma mul_2_62_upper (k : Z) :
  0 <= k < 2 ^ 45 ->
  Double.to_size_t (Double.mul (Double.of_size_t k) Double.lit_2_62)
    <= 262 * k / 100.
Proof.
  intros Hk.
  assert (Hk53 : (k <? 2 ^ 53) = true) by (apply Z.ltb_lt; lia).
  assert (Hof : Double.of_size_t k = Double.mk k 0).
  { unfold Double.of_size_t, Double.round. now rewrite Hk53. }
  rewrite Hof. unfold Double.mul. cbn [Double.mant Double.expo].
  rewrite Z.add_0_l.
  set (m := Double.mant Double.lit_2_62).
  assert (Hm : m = 5899715511855350) by reflexivity.
  change (Double.expo Double.lit_2_62) with (-51).
  set (P := k * m).
  set (q := 262 * k / 100).
  assert (HP0 : 0 <= P) by (subst P; lia).
  pose proof (Z.div_mod (262 * k) 100 ltac:(lia)) as Hdm.
  pose proof (Z.mod_pos_bound (262 * k) 100 ltac:(lia)) as Hr.
  fold q in Hdm. set (r := (262 * k) mod 100) in *.
  assert (Hr98 : r <= 98) by lia.
  assert (H100P : 100 * P = 2 ^ 51 * (100 * q + r) + 24 * k).
  { subst P. rewrite Hm, <- Hdm. change (2 ^ 51) with 2251799813685248. lia. }
  unfold Double.round.
  destruct (P <? 2 ^ 53) eqn:HP53.
  - unfold Double.to_size_t. cbn [Double.mant Double.expo].
    cbn [Z.leb Z.compare Z.opp].
    apply Z.lt_succ_r. apply Z.div_lt_upper_bound; [reflexivity|].
    change (2 ^ 51) with 2251799813685248 in *.
    change (2 ^ 45) with 35184372088832 in *. lia.
  - apply Z.ltb_ge in HP53.
    assert (Hlog : 53 <= Z.log2 P < 98).
    { split.
      - apply Z.log2_le_pow2; lia.
      - apply Z.log2_lt_pow2; [lia|].
        subst P. rewrite Hm.
        change (2 ^ 98) with (2 ^ 45 * 2 ^ 53).
        change (2 ^ 53) with 9007199254740992.
        change (2 ^ 45) with 35184372088832 in *. nia. }
    set (sh := Z.log2 P - 52) in *.
    assert (Hsh : 1 <= sh <= 45) by (subst sh; lia).
    unfold Double.to_size_t. cbn [Double.mant Double.expo].
    assert (Hneg : (0 <=? -51 + sh) = false) by (apply Z.leb_gt; lia).
    rewrite Hneg.
    pose proof (nearest_even_le (P / 2 ^ sh) (P mod 2 ^ sh) (2 ^ (sh - 1)))
      as Hle.
    set (q' := Double.nearest_even _ _ _) in *.
    replace (- (-51 + sh)) with (51 - sh) by lia.
    assert (Hs : 0 < 2 ^ sh) by (apply Z.pow_pos_nonneg; lia).
    assert (Hd : 0 < 2 ^ (51 - sh)) by (apply Z.pow_pos_nonneg; lia).
    assert (Hsd : 2 ^ sh * 2 ^ (51 - sh) = 2 ^ 51).
    { rewrite <- Z.pow_add_r by lia. f_equal. lia. }
    assert (Hs45 : 2 ^ sh <= 2 ^ 45) by (apply Z.pow_le_mono_r; lia).
    pose proof (Z.mul_div_le P (2 ^ sh) Hs) as Hfl.
    apply Z.lt_succ_r. apply Z.div_lt_upper_bound; [exact Hd|].
    (* q' * 2^sh <= P + 2^sh < (q + 1) * 2^51 *)
    assert (Hq' : 2 ^ sh * q' <= P + 2 ^ sh) by nia.
    assert (Hlt : P + 2 ^ sh < 2 ^ 51 * (q + 1)).
    { change (2 ^ 51) with 2251799813685248 in *.
      change (2 ^ 45) with 35184372088832 in *. lia. }
    apply (Z.mul_lt_mono_pos_l (2 ^ sh)); [exact Hs|].
    rewrite Z.mul_assoc, Hsd. lia.
Qed.

(** ** Reasoning about calls *)

Lemma bind_Ok {A B} (m : M A) (f : A -> M B) h o :
  (m ≫= f) h = Ok o ->
  exists o1 o2,
    m h = Ok o1 /\ f (val o1) (post o1) = Ok o2 /\
    o = Out (val o2) (post o2) (log o1 ++ log o2).
Proof.
  unfold mbind, M_bind. intros Hb.
  destruct (m h) as [o1| |]; try discriminate.
  destruct (f (val o1) (post o1)) as [o2| |] eqn:E2; try discriminate.
  injection Hb as <-. exists o1, o2. auto.
Qed.

Lemma bind_Ok_intro {A B} (m : M A) (f : A -> M B) h o1 o2 :
  m h = Ok o1 -> f (val o1) (post o1) = Ok o2 ->
  (m ≫= f) h = Ok (Out (val o2) (post o2) (log o1 ++ log o2)).
Proof. unfold mbind, M_bind. intros -> ->. reflexivity. Qed.

Lemma ret_Ok {A} (a : A) h o : (mret a : M A) h = Ok o -> o = Out a h [].
Proof. unfold mret, M_ret. now intros [= <-]. Qed.

Lemma gets_Ok {A} (f : deferred_heap -> A) h o :
  gets f h = Ok o -> o = Out (f h) h [].
Proof. unfold gets. now intros [= <-]. Qed.

Lemma modify_Ok f h o : modify f h = Ok o -> o = Out tt (f h) [].
Proof. unfold modify. now intros [= <-]. Qed.

Lemma emit_Ok e h o : emit e h = Ok o -> o = Out tt h [e].
Proof. unfold emit. now intros [= <-]. Qed.

Lemma assert_Ok c msg h o :
  assert c msg h = Ok o -> o = Out tt h [] /\ (ndebug = true \/ c = true).
Proof.
  unfold assert. destruct ndebug, c; cbn; intros [= <-]; auto.
Qed.

Lemma assert_true msg h : assert true msg h = Ok (Out tt h []).
Proof. unfold assert. now rewrite orb_true_r. Qed.

Lemma assert_debug_false msg h :
  ndebug = false -> assert false msg h = Fatal msg.
Proof. unfold assert. now intros ->. Qed.

Lemma call_destroy_Ok f x h o :
  call_destroy f x h = Ok o ->
  exists h', destroy_body f x h = Ok h' /\ o = Out tt h' [EvDestroy f x h].
Proof.
  unfold call_destroy. destruct (destroy_body f x h); try discriminate.
  intros [= <-]. eauto.
Qed.

Lemma call_construct_Ok T x h o :
  call_construct T x h = Ok o ->
  exists h', construct_body T x h = Ok h' /\ o = Out tt h' [EvConstruct T x].
Proof.
  unfold call_construct. destruct (construct_body T x h); try discriminate.
  intros [= <-]. eauto.
Qed.

(** Take apart the hypotheses that say a sequence of steps has returned. *)
Ltac inv_M :=
  repeat
    (match goal with
     | H : (_ ≫= _) _ = Ok _ |- _ =>
         let o1 := fresh "o" in
         let o2 := fresh "o" in
         apply bind_Ok in H as (o1 & o2 & ? & ? & ->)
     | H : mret _ _ = Ok _ |- _ => apply ret_Ok in H as ->
     | H : gets _ _ = Ok _ |- _ => apply gets_Ok in H as ->
     | H : modify _ _ = Ok _ |- _ => apply modify_Ok in H as ->
     | H : emit _ _ = Ok _ |- _ => apply emit_Ok in H as ->
     | H : assert _ _ _ = Ok _ |- _ => apply assert_Ok in H as [-> ?]
     | H : call_destroy _ _ _ = Ok _ |- _ =>
         let h' := fresh "h" in
         apply call_destroy_Ok in H as (h' & ? & ->)
     | H : call_construct _ _ _ = Ok _ |- _ =>
         let h' := fresh "h" in
         apply call_construct_Ok in H as (h' & ? & ->)
     end; cbn [val post log] in *).

(** ** The registry *)

(** the calls the second loop of [run] makes for one entry *)
Definition calls_of (d : destructor) : list (fnptr * addr) :=
  (fun i => (d_destroy d, d_p d + i * d_size d)) <$> iota (d_n d).

(** the destructor calls in a list of steps *)
Definition destroy_calls (l : list event) : list (fnptr * addr) :=
  omap (fun e => match e with
                 | EvDestroy f x _ => Some (f, x)
                 | _ => None
                 end) l.

Definition is_destroy (e : event) : Prop :=
  match e with EvDestroy _ _ _ => True | _ => False end.

(** an array of [d_n] elements of [d_size] bytes that fits the address
    space *)
Definition fits (d : destructor) : Prop :=
  0 <= d_size d /\ d_size d * d_n d < SizeT.modulus.

Lemma run_scan_filter begin end_ ds :
  run_scan begin end_ ds =
    (filter (fun d => in_range begin end_ d = false) ds,
     filter (fun d => in_range begin end_ d = true) ds,
     bool_decide (filter (fun d => in_range begin end_ d = true) ds <> [])).
Proof.
  induction ds as [|d ds IH]; [reflexivity|].
  cbn [run_scan]. rewrite IH.
  destruct (in_range begin end_ d) eqn:E.
  - rewrite (filter_cons_False _ d) by (rewrite E; discriminate).
    rewrite (filter_cons_True _ d) by exact E.
    reflexivity.
  - rewrite (filter_cons_True _ d) by exact E.
    rewrite (filter_cons_False _ d) by (rewrite E; discriminate).
    reflexivity.
Qed.

Lemma destroy_calls_app l1 l2 :
  destroy_calls (l1 ++ l2) = destroy_calls l1 ++ destroy_calls l2.
Proof. apply omap_app. Qed.

Lemma iota_range n i : i ∈ iota n -> 0 <= i < n.
Proof.
  unfold iota. intros Hi. apply list_elem_of_fmap in Hi as (k & -> & Hk).
  apply elem_of_seq in Hk. lia.
Qed.

(** [first_sees h l h']: a run of destructor calls with steps [l] that
    starts from the heap [h] and ends in [h'] hands [h] to its first
    destructor; when it calls none, it leaves [h] as it is. *)
Definition first_sees (h : deferred_heap) (l : list event)
    (h' : deferred_heap) : Prop :=
  match l with
  | [] => h' = h
  | EvDestroy _ _ before :: _ => before = h
  | _ => False
  end.

Lemma first_sees_app h l1 h1 l2 h2 :
  first_sees h l1 h1 -> first_sees h1 l2 h2 -> first_sees h (l1 ++ l2) h2.
Proof.
  destruct l1 as [|e l1]; cbn.
  - now intros ->.
  - destruct e; auto.
Qed.

Lemma for_each_nil {A} (body : A -> M unit) h :
  for_each [] body h = Ok (Out tt h []).
Proof. reflexivity. Qed.

Lemma for_each_cons_Ok {A} (body : A -> M unit) x l h o :
  for_each (x :: l) body h = Ok o ->
  exists o1 o2,
    body x h = Ok o1 /\ for_each l body (post o1) = Ok o2 /\
    o = Out (val o2) (post o2) (log o1 ++ log o2).
Proof.
  cbn [for_each]. intros Hb. inv_M. eauto 10.
Qed.

(** A loop of destructor calls: the calls made, and what the first one is
    handed. *)
Lemma for_each_call_destroy {A} (l : list A) (f : A -> fnptr)
    (g : A -> addr) h o :
  for_each l (fun a => call_destroy (f a) (g a)) h = Ok o ->
  destroy_calls (log o) = (fun a => (f a, g a)) <$> l /\
  Forall is_destroy (log o) /\
  first_sees h (log o) (post o).
Proof.
  revert h o. induction l as [|a l IH]; intros h o Hr.
  - rewrite for_each_nil in Hr. injection Hr as <-. cbn. auto.
  - apply for_each_cons_Ok in Hr as (o1 & o2 & H1 & H2 & ->).
    inv_M. destruct (IH _ _ H2) as (Hc & Hd & Hf).
    rewrite destroy_calls_app, Hc. repeat split; auto.
    constructor; [exact I | exact Hd].
Qed.

Lemma destroy_elements_Ok d h o :
  fits d ->
  destroy_elements d h = Ok o ->
  destroy_calls (log o) = calls_of d /\
  Forall is_destroy (log o) /\
  first_sees h (log o) (post o).
Proof.
  intros [Hs Hn] Hr. unfold destroy_elements in Hr.
  apply (for_each_call_destroy _ (fun _ => d_destroy d)
           (fun i => d_p d + SizeT.mul (d_size d) i)) in Hr
    as (Hc & Hd & Hf).
  repeat split; auto. rewrite Hc. unfold calls_of.
  apply list_fmap_ext. intros k i Hi.
  apply list_elem_of_lookup_2, iota_range in Hi.
  f_equal. f_equal. unfold SizeT.mul. rewrite wrap_small; [lia|].
  split; [nia|]. assert (d_size d * i <= d_size d * d_n d) by nia. lia.
Qed.

Lemma for_each_destroy_elements ds h o :
  Forall fits ds ->
  for_each ds destroy_elements h = Ok o ->
  destroy_calls (log o) = ds ≫= calls_of /\
  Forall is_destroy (log o) /\
  first_sees h (log o) (post o).
Proof.
  revert h o. induction ds as [|d ds IH]; intros h o Hfit Hr.
  - rewrite for_each_nil in Hr. injection Hr as <-. cbn. auto.
  - apply for_each_cons_Ok in Hr as (o1 & o2 & H1 & H2 & ->).
    apply Forall_cons in Hfit as [Hd Hds].
    apply destroy_elements_Ok in H1 as (Hc1 & Hd1 & Hf1); [|exact Hd].
    destruct (IH _ _ Hds H2) as (Hc2 & Hd2 & Hf2).
    cbn [val post log]. rewrite destroy_calls_app, Hc1, Hc2.
    repeat split; auto.
    + apply Forall_app; auto.
    + eapply first_sees_app; eauto.
Qed.

(** When every destructor returns, so does a loop of destructor calls. *)
Lemma for_each_returns {A} (l : list A) (body : A -> M unit) :
  (forall a h, exists o, body a h = Ok o) ->
  forall h, exists o, for_each l body h = Ok o.
Proof.
  intros Hb. induction l as [|a l IH]; intros h.
  - eexists. reflexivity.
  - cbn [for_each]. destruct (Hb a h) as [o1 H1].
    destruct (IH (post o1)) as [o2 H2].
    eexists. unfold mbind, M_bind. rewrite H1, H2. reflexivity.
Qed.

Lemma call_destroy_returns :
  (forall f x h, exists h', destroy_body f x h = Ok h') ->
  forall f x h, exists o, call_destroy f x h = Ok o.
Proof.
  intros Hd f x h. destruct (Hd f x h) as [h' Hh].
  unfold call_destroy. rewrite Hh. eauto.
Qed.

(** What every destructor preserves, a loop of destructor calls
    preserves. *)
Lemma for_each_preserves {A} (P : deferred_heap -> Prop) (l : list A)
    (body : A -> M unit) :
  (forall a h o, body a h = Ok o -> P h -> P (post o)) ->
  forall h o, for_each l body h = Ok o -> P h -> P (post o).
Proof.
  intros Hb. induction l as [|a l IH]; intros h o Hr Hp.
  - rewrite for_each_nil in Hr. now injection Hr as <-.
  - apply for_each_cons_Ok in Hr as (o1 & o2 & H1 & H2 & ->). cbn [post].
    eauto.
Qed.

Lemma destroy_elements_preserves (P : deferred_heap -> Prop) d h o :
  (forall f x h1 h2, destroy_body f x h1 = Ok h2 -> P h1 -> P h2) ->
  destroy_elements d h = Ok o -> P h -> P (post o).
Proof.
  intros Hk. unfold destroy_elements. apply for_each_preserves.
  intros i h0 o0 Hc Hp. inv_M. eauto.
Qed.


Lemma run_log begin end_ h o :
  run begin end_ h = Ok o -> Forall is_destroy (log o).
Proof.
  intros Hr. unfold run in Hr. inv_M.
  destruct (run_scan begin end_ (dtors h)) as [[kept to_destroy] ret].
  inv_M. rewrite app_nil_r. cbn.
  match goal with
  | Hm : for_each to_destroy _ ?h0 = Ok ?o0 |- _ =>
      revert Hm; generalize h0 o0
  end.
  induction to_destroy as [|d ds IH]; intros h0 o0 Hm.
  - rewrite for_each_nil in Hm. injection Hm as <-. constructor.
  - apply for_each_cons_Ok in Hm as (? & ? & H1 & H2 & ->).
    cbn [log]. apply Forall_app. split; [|eauto].
    unfold destroy_elements in H1.
    now apply (for_each_call_destroy _ (fun _ => d_destroy d)
                 (fun i => d_p d + SizeT.mul (d_size d) i)) in H1
      as (_ & ? & _).
Qed.

(** ** Construction *)

(** the addresses at which a list of steps constructs an object *)
Definition constructed (l : list event) : list addr :=
  omap (fun e => match e with
                 | EvConstruct _ x => Some x
                 | _ => None
                 end) l.

Lemma constructed_app l1 l2 :
  constructed (l1 ++ l2) = constructed l1 ++ constructed l2.
Proof. apply omap_app. Qed.

Lemma constructed_destroys l : Forall is_destroy l -> constructed l = [].
Proof.
  induction 1 as [|e l He _ IH]; [reflexivity|].
  destruct e; try contradiction. exact IH.
Qed.

Lemma constructed_replicate k T p :
  constructed (replicate k (EvConstruct T p)) = replicate k p.
Proof. induction k as [|k IH]; [reflexivity|]. cbn. now f_equal. Qed.

Lemma for_each_construct_same {A} (l : list A) T p h o :
  for_each l (fun _ => call_construct T p) h = Ok o ->
  log o = replicate (length l) (EvConstruct T p).
Proof.
  revert h o. induction l as [|a l IH]; intros h o Hr.
  - rewrite for_each_nil in Hr. now injection Hr as <-.
  - apply for_each_cons_Ok in Hr as (o1 & o2 & H1 & H2 & ->).
    inv_M. cbn. f_equal. eauto.
Qed.

Lemma length_iota n : length (iota n) = Z.to_nat n.
Proof. unfold iota. now rewrite length_fmap, length_seq. Qed.

Lemma store_log T p n h o :
  store T p n h = Ok o ->
  log o = if trivially_destructible T then []
          else [EvStore {| d_p := p; d_size := sizeof T; d_n := n;
                           d_destroy := dtor T |}].
Proof.
  unfold store. intros Hs. inv_M.
  destruct (trivially_destructible T); inv_M; reflexivity.
Qed.

(** C1, [construct_array(p, n)] as the code has it. Whenever the call
    returns, its steps are, in this order: the destructor calls of
    [destroy_objects]; then [n] constructions, every one of them at [p]
    itself, none at [p + i * sizeof(T)] for [i > 0]; then the registration
    of the one entry [{p, sizeof(T), n}] (unless [T] is trivially
    destructible). *)
Theorem construct_array_constructs_at_p (T : ctype) (p : addr) (n : Z)
    (h : deferred_heap) (o : out unit) :
  construct_array T p n h = Ok o ->
  exists l,
    Forall is_destroy l /\
    log o = l ++ replicate (Z.to_nat n) (EvConstruct T p)
              ++ (if trivially_destructible T then []
                  else [EvStore {| d_p := p; d_size := sizeof T; d_n := n;
                                   d_destroy := dtor T |}]) /\
    constructed (log o) = replicate (Z.to_nat n) p.
Proof.
  intros Hc. unfold construct_array, destroy_objects in Hc. inv_M.
  repeat match goal with
         | Hr : run _ _ _ = Ok _ |- _ => apply run_log in Hr
         | Hf : for_each (iota n) _ _ = Ok _ |- _ =>
             apply for_each_construct_same in Hf; rewrite length_iota in Hf
         | Hs : store _ _ _ _ = Ok _ |- _ => apply store_log in Hs
         end.
  match goal with
  | Hr : Forall is_destroy ?l |- _ => exists l
  end.
  cbn [app]. split; [done|].
  match goal with
  | Hf : log _ = replicate _ _, Hs : log _ = (if _ then _ else _) |- _ =>
      rewrite Hf, Hs
  end.
  split; [done|].
  rewrite !constructed_app.
  match goal with
  | Hr : Forall is_destroy ?l |- _ => rewrite (constructed_destroys l Hr)
  end.
  cbn [app]. rewrite constructed_replicate.
  destruct (trivially_destructible T); cbn; now rewrite app_nil_r.
Qed.

(** ** The size of a new page *)

(** [⌈2.62 · n⌉], the number of objects the specification gives a new
    page room for *)
Definition ceil_2_62 (n : Z) : Z := (262 * n + 99) / 100.

(** C6, as the code has it. The page that [allocate<T>(n)] appends is built
    by the [gpage] constructor from a total size and a minimum chunk size.
    For a request below [2 ^ 51] bytes the total size is at least 4096 and
    at least [⌊2.62 · n · sizeof(T)⌋]: 2.62 times the bytes of the request
    rounded down, which is room for [⌊2.62 · n⌋] objects, not for
    [⌈2.62 · n⌉]. Below [2 ^ 45] bytes the product in [double] is exact
    after truncation, and the total size is
    [max(⌊2.62 · n · sizeof(T)⌋, 4096)]. The minimum chunk size is
    [max(sizeof(T), 4)]. *)
Theorem dhpage_ctor_sizes (T : ctype) (n : Z) (h : deferred_heap) :
  0 <= n -> 0 <= sizeof T -> sizeof T * n < 2 ^ 51 ->
  let bytes := sizeof T * n in
  page (dhpage_ctor T n h)
    = gpage_ctor h (dhpage_total_size T n) (dhpage_min_alloc T) /\
  4096 <= dhpage_total_size T n /\
  262 * bytes / 100 <= dhpage_total_size T n /\
  (262 * n / 100) * sizeof T <= dhpage_total_size T n /\
  (bytes < 2 ^ 45 ->
   dhpage_total_size T n = Z.max (262 * bytes / 100) 4096) /\
  dhpage_min_alloc T = Z.max (sizeof T) 4.
Proof.
  intros Hn Hs Hlt bytes. split; [reflexivity|].
  assert (Hk : 0 <= bytes < 2 ^ 51) by (subst bytes; nia).
  assert (Hw : SizeT.mul (sizeof T) n = bytes).
  { unfold SizeT.mul. apply wrap_small. unfold SizeT.modulus.
    assert (2 ^ 51 < 2 ^ 64) by (apply Z.pow_lt_mono_r; lia). lia. }
  pose proof (mul_2_62_lower _ Hk) as Hlow.
  assert (Hobj : 262 * n / 100 * sizeof T <= 262 * bytes / 100).
  { apply Z.div_le_lower_bound; [lia|].
    pose proof (Z.mul_div_le (262 * n) 100 ltac:(lia)). subst bytes. nia. }
  unfold dhpage_total_size, dhpage_min_alloc. rewrite Hw.
  split; [lia|]. split; [lia|]. split; [lia|]. split; [|reflexivity].
  intros H45. pose proof (mul_2_62_upper bytes ltac:(lia)) as Hup.
  f_equal. lia.
Qed.

(** ** Calls that do not return *)

Lemma bind_Fatal {A B} (m : M A) (f : A -> M B) h s :
  (m ≫= f) h = Fatal s ->
  m h = Fatal s \/ exists o1, m h = Ok o1 /\ f (val o1) (post o1) = Fatal s.
Proof.
  unfold mbind, M_bind. intros Hb.
  destruct (m h) as [o1| |]; try discriminate; [|left; congruence].
  right. exists o1. split; [done|].
  destruct (f (val o1) (post o1)); congruence.
Qed.

Lemma bind_Timeout {A B} (m : M A) (f : A -> M B) h :
  (m ≫= f) h = Timeout ->
  m h = Timeout \/ exists o1, m h = Ok o1 /\ f (val o1) (post o1) = Timeout.
Proof.
  unfold mbind, M_bind. intros Hb.
  destruct (m h) as [o1| |]; try discriminate; [|left; congruence].
  right. exists o1. split; [done|].
  destruct (f (val o1) (post o1)); congruence.
Qed.

Lemma bind_Fatal_l {A B} (m : M A) (f : A -> M B) h s :
  m h = Fatal s -> (m ≫= f) h = Fatal s.
Proof. unfold mbind, M_bind. now intros ->. Qed.

Lemma bind_Ok_l {A B} (m : M A) (f : A -> M B) h a h' :
  m h = Ok (Out a h' []) -> (m ≫= f) h = f a h'.
Proof.
  unfold mbind, M_bind. intros ->. cbn.
  destruct (f a h') as [[]| |]; reflexivity.
Qed.

Lemma assert_not_Timeout c msg h : assert c msg h <> Timeout.
Proof. unfold assert. now destruct (ndebug || c). Qed.

(** [run] on an empty range, in a debug build *)
Lemma run_empty_range begin end_ h :
  ndebug = false -> end_ <= begin ->
  run begin end_ h = Fatal "begin must precede end".
Proof.
  intros Hd Hle. unfold run. apply bind_Fatal_l.
  unfold assert. rewrite Hd. cbn.
  now destruct (Z.ltb_spec begin end_); [lia|].
Qed.

Lemma construct_array_zero T p h :
  ndebug = false ->
  construct_array T p 0 h =
    Fatal (if p =? null then "construction at null location"
           else "begin must precede end").
Proof.
  intros Hd. unfold construct_array.
  destruct (p =? null) eqn:Ep.
  - apply bind_Fatal_l. unfold assert. now rewrite Hd.
  - erewrite bind_Ok_l by apply assert_true.
    apply bind_Fatal_l. unfold destroy_objects.
    apply run_empty_range; [done | lia].
Qed.

(** ** Registration, step by step *)

Lemma enregister_Ok tp h o :
  enregister tp h = Ok o ->
  log o = [] /\
  memory (post o) = memory h /\
  dtors (post o) = dtors h /\
  (ndebug = true \/ is_destroying h = false).
Proof.
  unfold enregister. intros He. inv_M.
  destruct (find_dhpage_of tp (pages h)); inv_M; repeat split; auto;
    destruct H; auto; right; now apply negb_true_iff.
Qed.

Lemma deferred_ptr_ctor_Ok tp p h o :
  deferred_ptr_ctor tp p h = Ok o ->
  log o = [] /\ get tp (post o) = p /\ dtors (post o) = dtors h.
Proof.
  unfold deferred_ptr_ctor, set. intros Hc. inv_M.
  match goal with
  | He : enregister _ _ = Ok _ |- _ =>
      apply enregister_Ok in He as (-> & Hm & Hd & _)
  end.
  unfold get. rewrite Hm, Hd. cbn. split; [done|]. split; [|done].
  apply lookup_total_insert_eq.
Qed.

Lemma allocate_from_existing_pages_eq T n h :
  exists p pgs,
    allocate_from_existing_pages T n h
      = Ok (Out p (set_pages (fun _ => pgs) h) []).
Proof.
  unfold allocate_from_existing_pages.
  destruct (allocate_from_pages T n (pages h)) as [p pgs]. eauto.
Qed.

Lemma allocate_from_new_page_eq T n h :
  exists p pgs,
    allocate_from_new_page T n h
      = Ok (Out p (set_pages (fun _ => pgs) h) []).
Proof.
  unfold allocate_from_new_page.
  destruct (page_allocate (page (dhpage_ctor T n h)) T n) as [p g].
  eexists _, (pages h ++ [_]). reflexivity.
Qed.

(** ** Allocation *)

(** no page, present or to come, can serve [allocate<T>(n)] *)
Definition no_page_serves (T : ctype) (n : Z) : Prop :=
  forall g : gpage, (page_allocate g T n).1 = null.

Lemma allocate_from_pages_null T n pgs :
  no_page_serves T n -> (allocate_from_pages T n pgs).1 = null.
Proof.
  intros Hf. induction pgs as [|pg pgs IH]; [reflexivity|].
  cbn [allocate_from_pages]. specialize (Hf (page pg)).
  destruct (page_allocate (page pg) T n) as [p g]. cbn in Hf. subst p.
  cbn. now destruct (allocate_from_pages T n pgs).
Qed.

Lemma allocate_from_existing_pages_Ok T n h o :
  allocate_from_existing_pages T n h = Ok o ->
  log o = [] /\
  (exists pgs, post o = set_pages (fun _ => pgs) h) /\
  (no_page_serves T n -> val o = null).
Proof.
  unfold allocate_from_existing_pages. intros Ha.
  pose proof (allocate_from_pages_null T n (pages h)) as Hn.
  destruct (allocate_from_pages T n (pages h)) as [p pgs].
  injection Ha as <-. cbn. eauto.
Qed.

Lemma allocate_from_new_page_Ok T n h o :
  allocate_from_new_page T n h = Ok o ->
  log o = [] /\
  (exists pgs, post o = set_pages (fun _ => pgs) h) /\
  (no_page_serves T n -> val o = null).
Proof.
  unfold allocate_from_new_page. intros Ha.
  pose proof (fun Hf : no_page_serves T n =>
                Hf (page (dhpage_ctor T n h))) as Hn.
  destruct (page_allocate (page (dhpage_ctor T n h)) T n) as [p g].
  injection Ha as <-. cbn. eauto.
Qed.

(** What [allocate<T>(n)] has done when it returns: the tracked pointer at
    [slot] holds the pointer obtained, which is not null in a debug build
    and is null when no page can serve the request; without
    [collect_before_expand] the heap itself took no step worth recording. *)
Lemma allocate_Ok fuel T n slot h o :
  allocate fuel T n slot h = Ok o ->
  (ndebug = true \/ get slot (post o) <> null) /\
  (no_page_serves T n -> get slot (post o) = null) /\
  (collect_before_expand h = false -> log o = []).
Proof.
  unfold allocate. intros Ha. inv_M.
  rename H into Hex, H1 into Hgc, H2 into Hnew, H0 into Has, H4 into Hct.
  apply allocate_from_existing_pages_Ok in Hex as (Hl0 & [pgs0 Hp0] & Hn0).
  apply deferred_ptr_ctor_Ok in Hct as (Hl5 & Hg & _).
  rewrite Hg, Hl0, Hl5.
  assert (Hn1 : no_page_serves T n -> val o1 = null).
  { intros Hf. destruct ((val o0 =? null) && _).
    - inv_M.
      match goal with
      | Hx : allocate_from_existing_pages _ _ _ = Ok _ |- _ =>
          apply allocate_from_existing_pages_Ok in Hx as (_ & _ & Hx)
      end.
      auto.
    - apply ret_Ok in Hgc as ->. cbn. auto. }
  assert (Hl1 : collect_before_expand h = false -> log o1 = []).
  { intros Hcbe. rewrite Hp0 in Hgc. cbn in Hgc. rewrite Hcbe in Hgc.
    rewrite andb_false_r in Hgc. now apply ret_Ok in Hgc as ->. }
  assert (Hn2 : no_page_serves T n -> val o2 = null).
  { intros Hf. destruct (val o1 =? null) eqn:E1.
    - apply allocate_from_new_page_Ok in Hnew as (_ & _ & Hx). auto.
    - apply ret_Ok in Hnew as ->. cbn. auto. }
  assert (Hl2 : log o2 = []).
  { destruct (val o1 =? null).
    - now apply allocate_from_new_page_Ok in Hnew as (? & _).
    - now apply ret_Ok in Hnew as ->. }
  repeat split.
  - destruct Has as [?|Has]; [now left | right].
    apply negb_true_iff, Z.eqb_neq in Has. exact Has.
  - auto.
  - intros Hcbe. rewrite Hl1, Hl2 by done. reflexivity.
Qed.

Lemma allocate_from_existing_pages_run T n h :
  exists p pgs,
    allocate_from_existing_pages T n h
      = Ok (Out p (set_pages (fun _ => pgs) h) []) /\
    (no_page_serves T n -> p = null).
Proof.
  destruct (allocate_from_existing_pages_eq T n h) as (p & pgs & E).
  exists p, pgs. split; [exact E|].
  now apply allocate_from_existing_pages_Ok in E as (_ & _ & ?).
Qed.

Lemma allocate_from_new_page_run T n h :
  exists p pgs,
    allocate_from_new_page T n h
      = Ok (Out p (set_pages (fun _ => pgs) h) []) /\
    (no_page_serves T n -> p = null).
Proof.
  destruct (allocate_from_new_page_eq T n h) as (p & pgs & E).
  exists p, pgs. split; [exact E|].
  now apply allocate_from_new_page_Ok in E as (_ & _ & ?).
Qed.

Lemma enregister_run tp h :
  ndebug = true \/ is_destroying h = false ->
  exists h',
    enregister tp h = Ok (Out tt h' []) /\
    memory h' = memory h /\ dtors h' = dtors h.
Proof.
  intros Hd. unfold enregister.
  erewrite bind_Ok_l by reflexivity.
  assert (Ha : forall msg, assert (negb (is_destroying h)) msg h
                           = Ok (Out tt h [])).
  { intros msg. unfold assert.
    destruct Hd as [-> | ->]; [reflexivity | now rewrite orb_true_r]. }
  erewrite bind_Ok_l by apply Ha.
  erewrite bind_Ok_l by reflexivity.
  destruct (find_dhpage_of tp (pages h)); eexists; split; try reflexivity;
    split; reflexivity.
Qed.

(** [allocate<T>(n)] in a debug build, without [collect_before_expand]:
    it returns a tracked pointer that is not null, or stops at one of two
    assertions. *)
Lemma allocate_without_collect fuel T n slot h :
  ndebug = false -> collect_before_expand h = false ->
  (exists h', allocate fuel T n slot h = Ok (Out tt h' []) /\
              get slot h' <> null) \/
  allocate fuel T n slot h
    = Fatal "failed to allocate but didn't throw an exception" \/
  (is_destroying h = true /\
   allocate fuel T n slot h
     = Fatal "cannot allocate new objects on a deferred_heap that is being destroyed").
Proof.
  intros Hd Hcbe. unfold allocate.
  destruct (allocate_from_existing_pages_run T n h) as (p0 & pgs0 & E0 & _).
  rewrite (bind_Ok_l _ _ _ _ _ E0).
  erewrite bind_Ok_l by reflexivity.
  cbn [collect_before_expand set_pages]. rewrite Hcbe, andb_false_r.
  erewrite bind_Ok_l by reflexivity.
  assert (Hthird : exists p2 pgs2,
            (if p0 =? null then allocate_from_new_page T n else mret p0)
              (set_pages (fun _ => pgs0) h)
            = Ok (Out p2 (set_pages (fun _ => pgs2) h) [])).
  { destruct (p0 =? null).
    - destruct (allocate_from_new_page_run T n
                  (set_pages (fun _ => pgs0) h)) as (p1 & pgs1 & E1 & _).
      exists p1, pgs1. exact E1.
    - exists p0, pgs0. reflexivity. }
  destruct Hthird as (p2 & pgs2 & E2).
  rewrite (bind_Ok_l _ _ _ _ _ E2).
  destruct (p2 =? null) eqn:Ep2.
  { right. left. apply bind_Fatal_l. unfold assert. now rewrite Hd. }
  erewrite bind_Ok_l by apply assert_true.
  unfold deferred_ptr_ctor, set.
  erewrite bind_Ok_l by reflexivity.
  destruct (is_destroying h) eqn:Hdes.
  - right. right. split; [reflexivity|].
    unfold enregister. erewrite bind_Ok_l by reflexivity.
    apply bind_Fatal_l. cbn. rewrite Hdes. unfold assert. now rewrite Hd.
  - left.
    match goal with
    | |- context [enregister slot ?h0] =>
        destruct (enregister_run slot h0) as (h' & Er & Hm & _);
          [now right|]; rewrite Er
    end.
    exists h'. split; [reflexivity|]. unfold get. rewrite Hm. cbn.
    rewrite lookup_total_insert_eq. now apply Z.eqb_neq.
Qed.


(** ** Marking: what a call of [mark] can change *)

Lemma result_bind_Ok {A B} (r : result A) (f : A -> result B) b :
  r ≫= f = Ok b -> exists a, r = Ok a /\ f a = Ok b.
Proof. destruct r as [a| |]; cbn; try discriminate. eauto. Qed.

Lemma check_Ok c msg : check c msg = Ok tt -> ndebug = true \/ c = true.
Proof. unfold check. destruct ndebug, c; cbn; auto; discriminate. Qed.

Lemma check_not_Timeout c msg : check c msg <> Timeout.
Proof. unfold check. now destruct (ndebug || c). Qed.

(** all the records of the heap, page after page *)
Definition records (pgs : list dhpage) : list nonroot :=
  pgs ≫= deferred_ptrs.

(** [K], the number of non-root records *)
Definition nonroot_count (h : deferred_heap) : nat :=
  length (records (pages h)).

(** A record before and after marking: the same pointer; the level is as
    it was, or was 0 and is now one of the levels [P]. *)
Definition mark_rel (P : Z -> Prop) (r r' : nonroot) : Prop :=
  nr_p r' = nr_p r /\
  (level r' = level r \/ (level r = 0 /\ P (level r'))).

(** A page before and after: the same [gpage], bits only switched on,
    records related by [mark_rel]. *)
Definition page_rel (P : Z -> Prop) (pg pg' : dhpage) : Prop :=
  page pg' = page pg /\
  length (live_starts pg') = length (live_starts pg) /\
  (forall i, live_starts pg !! i = Some true ->
             live_starts pg' !! i = Some true) /\
  Forall2 (mark_rel P) (deferred_ptrs pg) (deferred_ptrs pg').

(** The heap before and after: nothing but the pages has changed. *)
Definition heap_rel (P : Z -> Prop) (h h' : deferred_heap) : Prop :=
  h' = set_pages (fun _ => pages h') h /\
  Forall2 (page_rel P) (pages h) (pages h').

Lemma mark_rel_refl P r : mark_rel P r r.
Proof. split; auto. Qed.

Lemma mark_rel_trans P r1 r2 r3 :
  mark_rel P r1 r2 -> mark_rel P r2 r3 -> mark_rel P r1 r3.
Proof.
  intros [Hp1 Hl1] [Hp2 Hl2]. split; [congruence|].
  destruct Hl1 as [E1|[Z1 E1]], Hl2 as [E2|[Z2 E2]]; try (left; congruence);
    right; split; congruence.
Qed.

Lemma page_rel_refl P pg : page_rel P pg pg.
Proof.
  repeat split; auto.
  apply Forall2_same_length_lookup_2; [done|].
  intros i r r' H1 H2. rewrite H1 in H2. injection H2 as <-.
  apply mark_rel_refl.
Qed.

Lemma Forall2_trans' {A} (R : A -> A -> Prop) l1 l2 l3 :
  (forall a b c, R a b -> R b c -> R a c) ->
  Forall2 R l1 l2 -> Forall2 R l2 l3 -> Forall2 R l1 l3.
Proof.
  intros Ht H12. revert l3. induction H12; intros l3 H23;
    inversion H23; subst; constructor; eauto.
Qed.

Lemma Forall2_refl' {A} (R : A -> A -> Prop) l :
  (forall a, R a a) -> Forall2 R l l.
Proof. intros Hr. induction l; constructor; auto. Qed.

Lemma page_rel_trans P pg1 pg2 pg3 :
  page_rel P pg1 pg2 -> page_rel P pg2 pg3 -> page_rel P pg1 pg3.
Proof.
  intros (Hg1 & Hn1 & Hb1 & Hr1) (Hg2 & Hn2 & Hb2 & Hr2).
  repeat split; [congruence | congruence | auto |].
  eapply Forall2_trans'; eauto using mark_rel_trans.
Qed.

Lemma heap_rel_refl P h : heap_rel P h h.
Proof.
  split; [now destruct h|].
  apply Forall2_refl', page_rel_refl.
Qed.

Lemma heap_rel_trans P h1 h2 h3 :
  heap_rel P h1 h2 -> heap_rel P h2 h3 -> heap_rel P h1 h3.
Proof.
  intros [E1 F1] [E2 F2]. split.
  - rewrite E2, E1. reflexivity.
  - eapply Forall2_trans'; eauto using page_rel_trans.
Qed.

Lemma mark_ptrs_rel g start lvl dps dps' :
  mark_ptrs g start lvl dps = Ok dps' -> Forall2 (mark_rel (eq lvl)) dps dps'.
Proof.
  revert dps'. induction dps as [|dp dps IH]; intros dps' Hm.
  - injection Hm as <-. constructor.
  - cbn [mark_ptrs] in Hm.
    apply result_bind_Ok in Hm as ([] & _ & Hm).
    apply result_bind_Ok in Hm as (rest' & Hr & Hm).
    injection Hm as <-. constructor; [|auto].
    destruct (bool_decide _ && (level dp =? 0)) eqn:E.
    + apply andb_true_iff in E as [_ E%Z.eqb_eq].
      split; [reflexivity|]. right. auto.
    + apply mark_rel_refl.
Qed.

Lemma mark_pages_rel x lvl pgs pgs' :
  mark_pages x lvl pgs = Ok pgs' -> Forall2 (page_rel (eq lvl)) pgs pgs'.
Proof.
  revert pgs'. induction pgs as [|pg pgs IH]; intros pgs' Hm.
  - injection Hm as <-. constructor.
  - cbn [mark_pages] in Hm.
    apply result_bind_Ok in Hm as ([] & _ & Hm).
    destruct (bool_decide (found _ = not_in_range)).
    + apply result_bind_Ok in Hm as (rest' & Hr & Hm).
      injection Hm as <-. constructor; [apply page_rel_refl | auto].
    + apply result_bind_Ok in Hm as (dps & Hd & Hm).
      injection Hm as <-. constructor.
      * repeat split; cbn.
        -- apply length_insert.
        -- intros i Hi.
           destruct (decide (start_location
                               (page_contains_info (page pg) x) = i))
             as [<-|Hne].
           ++ apply list_lookup_insert_eq. now apply lookup_lt_Some in Hi.
           ++ now rewrite list_lookup_insert_ne.
        -- eapply mark_ptrs_rel; eauto.
      * apply Forall2_refl', page_rel_refl.
Qed.

Lemma mark_Ok x lvl h o :
  mark x lvl h = Ok o -> log o = [] /\ heap_rel (eq lvl) h (post o).
Proof.
  unfold mark. destruct (x =? null).
  - intros Hr. apply ret_Ok in Hr as ->. split; [done|apply heap_rel_refl].
  - destruct (mark_pages x lvl (pages h)) as [pgs'| |] eqn:E; try discriminate.
    intros [= <-]. split; [done|]. split; [reflexivity|].
    now apply mark_pages_rel in E.
Qed.

Lemma mark_ptrs_not_Timeout g start lvl dps :
  mark_ptrs g start lvl dps <> Timeout.
Proof.
  induction dps as [|dp dps IH]; [discriminate|].
  cbn [mark_ptrs]. unfold check.
  destruct (ndebug || _); [|discriminate]. cbn.
  destruct (mark_ptrs g start lvl dps); [discriminate|discriminate|done].
Qed.

Lemma mark_pages_not_Timeout x lvl pgs : mark_pages x lvl pgs <> Timeout.
Proof.
  induction pgs as [|pg pgs IH]; [discriminate|].
  cbn [mark_pages]. unfold check.
  destruct (ndebug || _); [|discriminate]. cbn.
  destruct (bool_decide _).
  - destruct (mark_pages x lvl pgs); [discriminate|discriminate|done].
  - pose proof (mark_ptrs_not_Timeout (page pg)
                  (start_location (page_contains_info (page pg) x))
                  lvl (deferred_ptrs pg)).
    destruct (mark_ptrs _ _ _ _); [discriminate|discriminate|done].
Qed.

Lemma mark_not_Timeout x lvl h : mark x lvl h <> Timeout.
Proof.
  unfold mark. destruct (x =? null); [discriminate|].
  pose proof (mark_pages_not_Timeout x lvl (pages h)).
  destruct (mark_pages x lvl (pages h)); [discriminate|discriminate|done].
Qed.

Lemma heap_rel_memory P h h' : heap_rel P h h' -> memory h' = memory h.
Proof. intros [-> _]. reflexivity. Qed.

Lemma heap_rel_get P h h' tp : heap_rel P h h' -> get tp h' = get tp h.
Proof. intros Hr. unfold get. now rewrite (heap_rel_memory _ _ _ Hr). Qed.

Lemma heap_rel_roots P h h' : heap_rel P h h' -> roots h' = roots h.
Proof. intros [-> _]. reflexivity. Qed.

Lemma heap_rel_lookup P h h' i j r' :
  heap_rel P h h' ->
  lookup_record i j (pages h') = Some r' ->
  exists r, lookup_record i j (pages h) = Some r /\ mark_rel P r r'.
Proof.
  intros [_ Hf] Hl. unfold lookup_record in *.
  destruct (pages h' !! i) as [pg'|] eqn:Ei; [|discriminate]. cbn in Hl.
  destruct (Forall2_lookup_r _ _ _ _ _ Hf Ei) as (pg & Ei0 & Hpg).
  rewrite Ei0. cbn. destruct Hpg as (_ & _ & _ & Hrs).
  destruct (Forall2_lookup_r _ _ _ _ _ Hrs Hl) as (r & Ej & Hr). eauto.
Qed.

Lemma heap_rel_lookup_l P h h' i j r :
  heap_rel P h h' ->
  lookup_record i j (pages h) = Some r ->
  exists r', lookup_record i j (pages h') = Some r' /\ mark_rel P r r'.
Proof.
  intros [_ Hf] Hl. unfold lookup_record in *.
  destruct (pages h !! i) as [pg|] eqn:Ei; [|discriminate]. cbn in Hl.
  destruct (Forall2_lookup_l _ _ _ _ _ Hf Ei) as (pg' & Ei0 & Hpg).
  rewrite Ei0. cbn. destruct Hpg as (_ & _ & _ & Hrs).
  destruct (Forall2_lookup_l _ _ _ _ _ Hrs Hl) as (r' & Ej & Hr). eauto.
Qed.

Lemma lookup_record_records i j pgs r :
  lookup_record i j pgs = Some r -> r ∈ records pgs.
Proof.
  unfold lookup_record, records. intros Hl.
  destruct (pgs !! i) as [pg|] eqn:Ei; [|discriminate]. cbn in Hl.
  apply list_elem_of_bind. exists pg. split.
  - eapply list_elem_of_lookup_2; eauto.
  - eapply list_elem_of_lookup_2; eauto.
Qed.

Lemma Forall2_bind {A B} (R : A -> A -> Prop) (Q : B -> B -> Prop)
    (f : A -> list B) l l' :
  (forall a a', R a a' -> Forall2 Q (f a) (f a')) ->
  Forall2 R l l' -> Forall2 Q (l ≫= f) (l' ≫= f).
Proof.
  intros Hf. induction 1; cbn; [constructor|].
  apply Forall2_app; auto.
Qed.

Lemma heap_rel_records P h h' :
  heap_rel P h h' ->
  Forall2 (mark_rel P) (records (pages h)) (records (pages h')).
Proof.
  intros [_ Hf]. unfold records.
  eapply Forall2_bind; [|exact Hf].
  now intros pg pg' (_ & _ & _ & ?).
Qed.

Lemma heap_rel_count P h h' :
  heap_rel P h h' -> nonroot_count h' = nonroot_count h.
Proof.
  intros Hr. apply heap_rel_records in Hr. unfold nonroot_count.
  symmetry. eapply Forall2_length; eauto.
Qed.

(** ** One pass of the marking loop *)

(** the allocation (page index, start location) that [x] points into: as
    [mark] finds it, in the first page whose [contains_info] is in range *)
Fixpoint target (x : addr) (pgs : list dhpage) : option (nat * nat) :=
  match pgs with
  | [] => None
  | pg :: rest =>
      let where_ := page_contains_info (page pg) x in
      if bool_decide (found where_ = not_in_range)
      then prod_map S id <$> target x rest
      else Some (0%nat, start_location where_)
  end.

(** the start location of the allocation in which a record of the page
    lies, as [mark] computes it *)
Definition home (pg : dhpage) (r : nonroot) : nat :=
  start_location (page_contains_info (page pg) (nr_p r)).

(** What [mark(x, lvl)] leaves behind: the bit of the allocation that [x]
    points into is on, and no record of that allocation is at level 0. *)
Definition marked (x : addr) (h : deferred_heap) : Prop :=
  x = null \/
  forall i s, target x (pages h) = Some (i, s) ->
    exists pg, pages h !! i = Some pg /\
      (s < length (live_starts pg) -> live_starts pg !! s = Some true)%nat /\
      (forall r, r ∈ deferred_ptrs pg -> home pg r = s -> level r <> 0).

Lemma target_rel P pgs pgs' x :
  Forall2 (page_rel P) pgs pgs' -> target x pgs' = target x pgs.
Proof.
  induction 1 as [|pg pg' pgs pgs' (Hg & _) _ IH]; [reflexivity|].
  cbn [target]. rewrite Hg, IH. reflexivity.
Qed.

Lemma marked_rel P h h' x :
  (forall l, P l -> l <> 0) ->
  heap_rel P h h' -> marked x h -> marked x h'.
Proof.
  intros Hl [_ Hf] [Hx|Hm]; [now left|]. right.
  intros i s Ht. rewrite (target_rel _ _ _ _ Hf) in Ht.
  destruct (Hm i s Ht) as (pg & Ei & Hbit & Hlev).
  destruct (Forall2_lookup_l _ _ _ _ _ Hf Ei) as (pg' & Ei' & Hpg).
  destruct Hpg as (Hg & Hn & Hb & Hrs).
  exists pg'. split; [done|]. split.
  - intros Hs. apply Hb, Hbit. lia.
  - intros r' Hr' Hh.
    apply list_elem_of_lookup in Hr' as [j Hj].
    destruct (Forall2_lookup_r _ _ _ _ _ Hrs Hj) as (r & Hj0 & Hp & Hlv).
    assert (Hr0 : level r <> 0).
    { apply (Hlev r); [eapply list_elem_of_lookup_2; eauto|].
      unfold home in *. now rewrite <- Hg, <- Hp. }
    destruct Hlv as [E|[E _]]; congruence.
Qed.

Lemma mark_ptrs_level g start lvl dps dps' r' :
  lvl <> 0 ->
  mark_ptrs g start lvl dps = Ok dps' ->
  r' ∈ dps' -> start_location (page_contains_info g (nr_p r')) = start ->
  level r' <> 0.
Proof.
  intros Hl. revert dps'. induction dps as [|dp dps IH]; intros dps' Hm Hin Hs.
  - injection Hm as <-. inversion Hin.
  - cbn [mark_ptrs] in Hm.
    apply result_bind_Ok in Hm as ([] & _ & Hm).
    apply result_bind_Ok in Hm as (rest' & Hr & Hm).
    injection Hm as <-.
    apply elem_of_cons in Hin as [->|Hin]; [|eauto].
    destruct (bool_decide _ && (level dp =? 0)) eqn:E; [exact Hl|].
    cbn in Hs. apply andb_false_iff in E as [E|E].
    + apply bool_decide_eq_false in E. contradiction.
    + now apply Z.eqb_neq in E.
Qed.

Lemma mark_pages_marked x lvl pgs pgs' i s :
  lvl <> 0 ->
  mark_pages x lvl pgs = Ok pgs' ->
  target x pgs = Some (i, s) ->
  exists pg, pgs' !! i = Some pg /\
    (s < length (live_starts pg) -> live_starts pg !! s = Some true)%nat /\
    (forall r, r ∈ deferred_ptrs pg -> home pg r = s -> level r <> 0).
Proof.
  intros Hl. revert pgs' i. induction pgs as [|pg pgs IH]; intros pgs' i Hm Ht.
  - discriminate.
  - cbn [mark_pages] in Hm. cbn [target] in Ht.
    apply result_bind_Ok in Hm as ([] & _ & Hm).
    destruct (bool_decide (found _ = not_in_range)).
    + apply result_bind_Ok in Hm as (rest' & Hr & Hm).
      injection Hm as <-.
      destruct (target x pgs) as [[i0 s0]|] eqn:Et; [|discriminate].
      injection Ht as <- <-. cbn. eapply IH; eauto.
    + apply result_bind_Ok in Hm as (dps & Hd & Hm).
      injection Hm as <-. injection Ht as <- <-.
      eexists. split; [reflexivity|]. cbn. split.
      * intros Hs. rewrite length_insert in Hs.
        now apply list_lookup_insert_eq.
      * intros r Hr Hh. eapply mark_ptrs_level; eauto.
Qed.

Lemma mark_marked x lvl h o :
  lvl <> 0 -> mark x lvl h = Ok o -> marked x (post o).
Proof.
  intros Hl Hm. pose proof Hm as [_ [_ Hrel]]%mark_Ok.
  unfold mark in Hm. destruct (x =? null) eqn:Ex.
  - left. now apply Z.eqb_eq in Ex.
  - right. intros i s Ht.
    rewrite (target_rel _ _ _ _ Hrel) in Ht.
    destruct (mark_pages x lvl (pages h)) as [pgs'| |] eqn:E; try discriminate.
    injection Hm as <-. cbn.
    eapply mark_pages_marked; eauto.
Qed.

Lemma mark_rel_level_stable lvl k r r' :
  k <> 0 -> k <> lvl -> mark_rel (eq lvl) r r' -> (level r = k <-> level r' = k).
Proof. intros Hk0 Hkl [_ [E|[E0 E]]]; split; congruence. Qed.

(** The pass from a list of positions on: what it leaves behind. When the
    value is true nothing was marked; when it is false, [done] was already
    false or one of the positions held a record at level [lvl - 1]; and
    every position that held such a record has had its pointer marked. *)
Lemma mark_pass_from_Ok lvl ixs done h o :
  SizeT.decr lvl <> lvl -> SizeT.decr lvl <> 0 -> lvl <> 0 ->
  mark_pass_from lvl ixs done h = Ok o ->
  log o = [] /\
  heap_rel (eq lvl) h (post o) /\
  (val o = true ->
   done = true /\ post o = h /\
   forall i j r, (i, j) ∈ ixs -> lookup_record i j (pages h) = Some r ->
                 level r <> SizeT.decr lvl) /\
  (val o = false ->
   done = false \/
   exists i j r, (i, j) ∈ ixs /\ lookup_record i j (pages h) = Some r /\
                 level r = SizeT.decr lvl) /\
  (forall i j r, (i, j) ∈ ixs -> lookup_record i j (pages h) = Some r ->
                 level r = SizeT.decr lvl ->
                 marked (get (nr_p r) h) (post o)).
Proof.
  intros Hd Hd0 Hl0. revert done h o.
  induction ixs as [|[i j] rest IH]; intros done h o Hp.
  - apply ret_Ok in Hp as ->. cbn.
    split; [done|]. split; [apply heap_rel_refl|].
    split; [intros ->; repeat split; intros ? ? ? Hin; inversion Hin|].
    split; [intros ->; now left|].
    intros ? ? ? Hin. inversion Hin.
  - cbn [mark_pass_from] in Hp. inv_M.
    destruct (lookup_record i j (pages h)) as [dp|] eqn:Edp.
    + destruct (level dp =? SizeT.decr lvl) eqn:Elv.
      * apply Z.eqb_eq in Elv. inv_M.
        match goal with
        | Hm : mark _ _ _ = Ok ?o1, Hr : mark_pass_from _ _ _ _ = Ok ?o2 |- _ =>
            pose proof (mark_marked _ _ _ _ Hl0 Hm) as Hmk;
            apply mark_Ok in Hm as [-> Hrel1];
            apply IH in Hr as (-> & Hrel2 & Ht & Hf & Hall)
        end.
        split; [done|]. split; [eapply heap_rel_trans; eauto|].
        split; [intros Hv; now destruct (Ht Hv)|].
        split; [intros _; right; exists i, j, dp; repeat split; [left|done..]|].
        intros i' j' r Hin Hlk Hlr.
        apply elem_of_cons in Hin as [[= -> ->]|Hin].
        -- rewrite Edp in Hlk. injection Hlk as <-.
           eapply (marked_rel (eq lvl)); [by intros l <- | eauto | eauto].
        -- destruct (heap_rel_lookup_l _ _ _ _ _ _ Hrel1 Hlk)
             as (r1 & Hlk1 & Hr1).
           pose proof (proj1 (mark_rel_level_stable _ _ _ _ Hd0 Hd Hr1) Hlr).
           destruct Hr1 as [Hp1 _]. rewrite <- Hp1.
           rewrite <- (heap_rel_get _ _ _ _ Hrel1). eauto.
      * apply Z.eqb_neq in Elv.
        match goal with
        | Hr : mark_pass_from _ _ _ _ = Ok _ |- _ =>
            apply IH in Hr as (-> & Hrel2 & Ht & Hf & Hall)
        end.
        split; [done|]. split; [done|].
        split.
        { intros Hv. destruct (Ht Hv) as (? & ? & Hno). repeat split; auto.
          intros i' j' r Hin Hlk.
          apply elem_of_cons in Hin as [[= -> ->]|Hin]; [congruence|eauto]. }
        split.
        { intros Hv. destruct (Hf Hv) as [?|(i' & j' & r & ? & ? & ?)];
            [now left|right]. exists i', j', r. repeat split; auto. now right. }
        intros i' j' r Hin Hlk Hlr.
        apply elem_of_cons in Hin as [[= -> ->]|Hin]; [congruence|eauto].
    + match goal with
      | Hr : mark_pass_from _ _ _ _ = Ok _ |- _ =>
          apply IH in Hr as (-> & Hrel2 & Ht & Hf & Hall)
      end.
      split; [done|]. split; [done|].
      split.
      { intros Hv. destruct (Ht Hv) as (? & ? & Hno). repeat split; auto.
        intros i' j' r Hin Hlk.
        apply elem_of_cons in Hin as [[= -> ->]|Hin]; [congruence|eauto]. }
      split.
      { intros Hv. destruct (Hf Hv) as [?|(i' & j' & r & ? & ? & ?)];
          [now left|right]. exists i', j', r. repeat split; auto. now right. }
      intros i' j' r Hin Hlk Hlr.
      apply elem_of_cons in Hin as [[= -> ->]|Hin]; [congruence|eauto].
Qed.

Lemma mark_pass_from_not_Timeout lvl ixs done h :
  mark_pass_from lvl ixs done h <> Timeout.
Proof.
  revert done h. induction ixs as [|[i j] rest IH]; intros done h.
  - discriminate.
  - cbn [mark_pass_from]. intros Ht.
    apply bind_Timeout in Ht as [Ht|(o1 & Ho1 & Ht)]; [discriminate|].
    apply gets_Ok in Ho1 as ->. cbn in Ht.
    destruct (lookup_record i j (pages h)) as [dp|]; [|now apply IH in Ht].
    destruct (level dp =? SizeT.decr lvl); [|now apply IH in Ht].
    apply bind_Timeout in Ht as [Ht|(o1 & Ho1 & Ht)]; [discriminate|].
    apply gets_Ok in Ho1 as ->. cbn in Ht.
    apply bind_Timeout in Ht as [Ht|(o1 & Ho1 & Ht)];
      [now apply mark_not_Timeout in Ht | now apply IH in Ht].
Qed.

(** every position of the heap is in [record_indices] *)
Lemma record_indices_complete pgs i j r :
  lookup_record i j pgs = Some r -> (i, j) ∈ record_indices pgs.
Proof.
  unfold lookup_record, record_indices. intros Hl.
  destruct (pgs !! i) as [pg|] eqn:Ei; [|discriminate]. cbn in Hl.
  apply list_elem_of_join.
  exists (pair i <$> seq 0 (length (deferred_ptrs pg))). split.
  - apply list_elem_of_fmap. exists j. split; [done|].
    apply elem_of_seq. apply lookup_lt_Some in Hl. lia.
  - apply list_elem_of_lookup. exists i.
    rewrite list_lookup_imap, Ei. reflexivity.
Qed.

(** One pass. *)
Lemma mark_pass_Ok lvl h o :
  SizeT.decr lvl <> lvl -> SizeT.decr lvl <> 0 -> lvl <> 0 ->
  mark_pass lvl h = Ok o ->
  log o = [] /\
  heap_rel (eq lvl) h (post o) /\
  (val o = true ->
   post o = h /\ forall r, r ∈ records (pages h) -> level r <> SizeT.decr lvl) /\
  (val o = false ->
   exists r, r ∈ records (pages h) /\ level r = SizeT.decr lvl) /\
  (forall i j r, lookup_record i j (pages h) = Some r ->
                 level r = SizeT.decr lvl ->
                 marked (get (nr_p r) h) (post o)).
Proof.
  intros Hd Hd0 Hl0 Hp. unfold mark_pass in Hp. inv_M.
  apply mark_pass_from_Ok in H0 as (-> & Hrel & Ht & Hf & Hall); try done.
  split; [done|]. split; [done|]. split; [|split].
  - intros Hv. destruct (Ht Hv) as (_ & ? & Hno). split; [done|].
    intros r Hr. unfold records in Hr.
    apply list_elem_of_bind in Hr as (pg & Hr & Hpg).
    apply list_elem_of_lookup in Hpg as [i Hi].
    apply list_elem_of_lookup in Hr as [j Hj].
    assert (Hlk : lookup_record i j (pages h) = Some r).
    { unfold lookup_record. rewrite Hi. exact Hj. }
    eapply Hno; eauto using record_indices_complete.
  - intros Hv. destruct (Hf Hv) as [?|(i & j & r & _ & Hlk & Hlv)]; [done|].
    exists r. split; [|done]. eapply lookup_record_records; eauto.
  - intros i j r Hlk Hlv. eapply Hall; eauto using record_indices_complete.
Qed.

Lemma mark_pass_not_Timeout lvl h : mark_pass lvl h <> Timeout.
Proof.
  unfold mark_pass. intros Ht.
  apply bind_Timeout in Ht as [Ht|(o1 & Ho1 & Ht)]; [discriminate|].
  now apply mark_pass_from_not_Timeout in Ht.
Qed.

(** ** The marking loop *)

Lemma mark_rel_weaken (P Q : Z -> Prop) r r' :
  (forall l, P l -> Q l) -> mark_rel P r r' -> mark_rel Q r r'.
Proof. intros HPQ [Hp [E|[E0 E]]]; split; auto. Qed.

Lemma heap_rel_weaken (P Q : Z -> Prop) h h' :
  (forall l, P l -> Q l) -> heap_rel P h h' -> heap_rel Q h h'.
Proof.
  intros HPQ [E Hf]. split; [exact E|].
  eapply Forall2_impl; [exact Hf|].
  intros pg pg' (? & ? & ? & Hr). repeat split; auto.
  eapply Forall2_impl; [exact Hr|]. intros. eapply mark_rel_weaken; eauto.
Qed.

(** the records that the passes to come may still have to deal with, when
    the loop is entered with [level] equal to [lvl]: those at level 0
    and those at level [lvl] *)
Definition pending (lvl : Z) (pgs : list dhpage) : nat :=
  length (filter (fun r => level r = 0 \/ level r = lvl) (records pgs)).

Lemma filter_length_Forall2 {A} (R : A -> A -> Prop) (P Q : A -> Prop)
    `{!forall a, Decision (P a)} `{!forall a, Decision (Q a)} l l' :
  Forall2 R l l' -> (forall a b, a ∈ l -> R a b -> Q b -> P a) ->
  (length (filter Q l') <= length (filter P l))%nat.
Proof.
  intros HF. induction HF as [|a b l l' Hab _ IH]; intros HR; [done|].
  assert (IH' : (length (filter Q l') <= length (filter P l))%nat).
  { apply IH. intros a0 b0 Hin. apply HR. now right. }
  rewrite !filter_cons. destruct (decide (Q b)) as [Hq|Hq].
  - rewrite decide_True by (eapply HR; eauto; left). cbn. lia.
  - destruct (decide (P a)); cbn; lia.
Qed.

Lemma filter_length_le {A} (P Q : A -> Prop)
    `{!forall a, Decision (P a)} `{!forall a, Decision (Q a)} l :
  (forall a, P a -> Q a) ->
  (length (filter P l) <= length (filter Q l))%nat.
Proof.
  intros HPQ. induction l as [|b l IH]; [done|].
  rewrite !filter_cons. destruct (decide (P b)).
  - rewrite decide_True by auto. cbn. lia.
  - destruct (decide (Q b)); cbn; lia.
Qed.

Lemma filter_length_lt {A} (P Q : A -> Prop)
    `{!forall a, Decision (P a)} `{!forall a, Decision (Q a)} l x :
  x ∈ l -> ~ P x -> Q x -> (forall a, P a -> Q a) ->
  (length (filter P l) < length (filter Q l))%nat.
Proof.
  intros Hin Hnp Hq HPQ. induction l as [|a l IH]; [inversion Hin|].
  pose proof (filter_length_le P Q l HPQ) as Hle.
  rewrite !filter_cons. apply elem_of_cons in Hin as [<-|Hin].
  - rewrite decide_False, decide_True by done. cbn. lia.
  - specialize (IH Hin). destruct (decide (P a)).
    + rewrite decide_True by auto. cbn. lia.
    + destruct (decide (Q a)); cbn; lia.
Qed.

Lemma pending_le_count lvl pgs :
  (pending lvl pgs <= length (records pgs))%nat.
Proof. unfold pending. apply length_filter. Qed.

Lemma incr_small lvl :
  0 <= lvl -> lvl + 1 < SizeT.modulus -> SizeT.incr lvl = lvl + 1.
Proof. intros. unfold SizeT.incr. apply wrap_small. lia. Qed.

Lemma decr_small lvl :
  1 <= lvl < SizeT.modulus -> SizeT.decr lvl = lvl - 1.
Proof. intros. unfold SizeT.decr. apply wrap_small. lia. Qed.

(** A pass at level [lvl + 1] that has found a record at level [lvl]
    leaves fewer records pending. *)
Lemma pass_pending lvl h h1 r0 :
  1 <= lvl ->
  heap_rel (eq (lvl + 1)) h h1 ->
  (forall r, r ∈ records (pages h) -> 0 <= level r <= lvl) ->
  r0 ∈ records (pages h) -> level r0 = lvl ->
  (pending (lvl + 1) (pages h1) < pending lvl (pages h))%nat.
Proof.
  intros Hl Hrel Hrange Hr0 Hlr0.
  apply heap_rel_records in Hrel. unfold pending.
  eapply Nat.le_lt_trans.
  - apply (filter_length_Forall2 _ (fun r => level r = 0) _ _ _ Hrel).
    intros a b Ha [_ [E|[E0 E]]] Hb; [|done].
    specialize (Hrange a Ha). lia.
  - apply (filter_length_lt _ _ _ r0); auto; lia.
Qed.

Lemma pass_range lvl h h1 :
  0 <= lvl ->
  heap_rel (eq (lvl + 1)) h h1 ->
  (forall r, r ∈ records (pages h) -> 0 <= level r <= lvl) ->
  forall r, r ∈ records (pages h1) -> 0 <= level r <= lvl + 1.
Proof.
  intros Hl Hrel Hrange r1 Hr1.
  apply heap_rel_records in Hrel.
  apply list_elem_of_lookup in Hr1 as [k Hk].
  destruct (Forall2_lookup_r _ _ _ _ _ Hrel Hk) as (r & Hk0 & _ & Hlv).
  apply list_elem_of_lookup_2, Hrange in Hk0.
  destruct Hlv as [E|[E0 E]]; lia.
Qed.

(** One pass at level [lvl + 1], away from the wrap-around. *)
Lemma mark_pass_next lvl h o :
  1 <= lvl -> lvl + 1 < SizeT.modulus ->
  mark_pass (lvl + 1) h = Ok o ->
  log o = [] /\
  heap_rel (eq (lvl + 1)) h (post o) /\
  (val o = true ->
   post o = h /\ forall r, r ∈ records (pages h) -> level r <> lvl) /\
  (val o = false -> exists r, r ∈ records (pages h) /\ level r = lvl) /\
  (forall i j r, lookup_record i j (pages h) = Some r -> level r = lvl ->
                 marked (get (nr_p r) h) (post o)).
Proof.
  intros Hl Hb Hp.
  assert (HD : SizeT.decr (lvl + 1) = lvl) by (rewrite decr_small; lia).
  apply mark_pass_Ok in Hp; rewrite ?HD in *; [exact Hp|lia..].
Qed.

(** The loop, entered with [level] equal to [lvl], all levels between 0
    and [lvl], and every record at a level strictly between 0 and [lvl]
    already dealt with: it ends within [pending + 1] passes, and when it
    ends every record at a level other than 0 has been dealt with. *)
Lemma mark_loop_spec fuel : forall lvl h,
  1 <= lvl ->
  lvl + Z.of_nat (pending lvl (pages h)) + 1 < SizeT.modulus ->
  (forall r, r ∈ records (pages h) -> 0 <= level r <= lvl) ->
  (forall i j r, lookup_record i j (pages h) = Some r ->
                 0 < level r < lvl -> marked (get (nr_p r) h) h) ->
  (pending lvl (pages h) < fuel)%nat ->
  mark_loop fuel lvl h <> Timeout /\
  forall o, mark_loop fuel lvl h = Ok o ->
    log o = [] /\
    (1 <= val o <= S (pending lvl (pages h)))%nat /\
    heap_rel (fun l => lvl < l) h (post o) /\
    (forall i j r, lookup_record i j (pages (post o)) = Some r ->
                   level r <> 0 ->
                   marked (get (nr_p r) (post o)) (post o)).
Proof.
  induction fuel as [|fuel IH]; intros lvl h Hl Hb Hrange Hserved Hfuel;
    [lia|].
  assert (HL : SizeT.incr lvl = lvl + 1) by (apply incr_small; lia).
  cbn [mark_loop]. rewrite HL.
  assert (Hnext : forall o1, mark_pass (lvl + 1) h = Ok o1 -> val o1 = false ->
            1 <= lvl + 1 /\
            lvl + 1 + Z.of_nat (pending (lvl + 1) (pages (post o1))) + 1
              < SizeT.modulus /\
            (forall r, r ∈ records (pages (post o1)) ->
                       0 <= level r <= lvl + 1) /\
            (forall i j r, lookup_record i j (pages (post o1)) = Some r ->
                           0 < level r < lvl + 1 ->
                           marked (get (nr_p r) (post o1)) (post o1)) /\
            (pending (lvl + 1) (pages (post o1)) < fuel)%nat /\
            (pending (lvl + 1) (pages (post o1))
               < pending lvl (pages h))%nat).
  { intros o1 Ho1 Ev.
    apply mark_pass_next in Ho1 as (_ & Hrel & _ & Hf & Hall); [|lia..].
    destruct (Hf Ev) as (r0 & Hr0 & Hlr0).
    pose proof (pass_pending _ _ _ _ Hl Hrel Hrange Hr0 Hlr0) as Hpend.
    split; [lia|]. split; [lia|].
    split; [eapply pass_range; eauto; lia|].
    split; [|lia].
    intros i j r1 Hlk Hlv.
    destruct (heap_rel_lookup _ _ _ _ _ _ Hrel Hlk) as (r & Hlk0 & Hp1 & Hlr).
    rewrite (heap_rel_get _ _ _ _ Hrel), Hp1.
    assert (Hr : level r1 = level r) by (destruct Hlr as [E|[E0 E]]; lia).
    destruct (decide (level r = lvl)) as [E|NE]; [now apply (Hall i j)|].
    eapply (marked_rel (eq (lvl + 1))); [intros l <-; lia | exact Hrel |].
    apply (Hserved i j); [done|lia]. }
  split.
  - intros Ht. apply bind_Timeout in Ht as [Ht|(o1 & Ho1 & Ht)];
      [now apply mark_pass_not_Timeout in Ht|].
    destruct (val o1) eqn:Ev; [discriminate|].
    destruct (Hnext o1 Ho1 Ev) as (H1 & H2 & H3 & H4 & H5 & _).
    apply bind_Timeout in Ht as [Ht|(o2 & Ho2 & Ht)]; [|discriminate].
    revert Ht. now apply IH.
  - intros o Ho. inv_M.
    rename H into Ho1, H0 into Hk.
    destruct (val o0) eqn:Ev.
    + apply ret_Ok in Hk as ->. cbn.
      apply mark_pass_next in Ho1 as (-> & Hrel & Ht & _ & _); [|lia..].
      destruct (Ht Ev) as [Hpost Hno]. rewrite Hpost.
      split; [done|]. split; [lia|]. split; [apply heap_rel_refl|].
      intros i j r Hlk Hlv. apply (Hserved i j); [done|].
      pose proof (lookup_record_records _ _ _ _ Hlk) as Hin.
      specialize (Hrange r Hin). specialize (Hno r Hin). lia.
    + destruct (Hnext o0 Ho1 Ev) as (H1 & H2 & H3 & H4 & H5 & H6).
      inv_M.
      apply mark_pass_next in Ho1 as (-> & Hrel & _); [|lia..].
      match goal with
      | Hr : mark_loop _ _ _ = Ok _ |- _ =>
          apply IH in Hr as (-> & Hv & Hrel2 & Hall2); try done
      end.
      split; [done|]. split; [lia|]. split; [|done].
      eapply heap_rel_trans.
      * eapply heap_rel_weaken; [|exact Hrel]. intros l <-. lia.
      * eapply heap_rel_weaken; [|exact Hrel2]. cbn. intros l ?. lia.
Qed.

(** ** Phases 1 and 2 *)

Lemma mark_roots_from l h o :
  for_each l (fun tp => x ← gets (get tp); mark x 1) h = Ok o ->
  log o = [] /\
  heap_rel (eq 1) h (post o) /\
  (forall tp, tp ∈ l -> marked (get tp h) (post o)).
Proof.
  revert h o. induction l as [|tp l IH]; intros h o Hr.
  - rewrite for_each_nil in Hr. injection Hr as <-. cbn.
    split; [done|]. split; [apply heap_rel_refl|].
    intros ? Hin. inversion Hin.
  - apply for_each_cons_Ok in Hr as (o1 & o2 & H1 & H2 & ->). inv_M.
    assert (H10 : 1 <> 0) by lia.
    match goal with
    | Hm : mark _ _ _ = Ok _ |- _ =>
        pose proof (mark_marked _ _ _ _ H10 Hm) as Hmk;
        apply mark_Ok in Hm as [-> Hrel1]
    end.
    apply IH in H2 as (-> & Hrel2 & Hall).
    split; [done|]. split; [eapply heap_rel_trans; eauto|].
    intros tp' Hin. apply elem_of_cons in Hin as [->|Hin].
    + eapply (marked_rel (eq 1)); [intros ? <-; lia | eauto | eauto].
    + rewrite <- (heap_rel_get _ _ _ _ Hrel1). auto.
Qed.

Lemma mark_roots_Ok h o :
  mark_roots h = Ok o ->
  log o = [] /\
  heap_rel (eq 1) h (post o) /\
  (forall tp, tp ∈ roots h -> marked (get tp h) (post o)).
Proof.
  unfold mark_roots. intros Hr. inv_M.
  apply mark_roots_from in H0 as (-> & Hrel & Hall).
  split; [done|]. split; [done|].
  intros tp Hin. apply Hall. now apply elem_of_elements.
Qed.

Lemma for_each_not_Timeout {A} (l : list A) (body : A -> M unit) h :
  (forall a h', body a h' <> Timeout) -> for_each l body h <> Timeout.
Proof.
  intros Hb. revert h. induction l as [|a l IH]; intros h; [discriminate|].
  cbn [for_each]. intros Ht.
  apply bind_Timeout in Ht as [Ht|(o1 & _ & Ht)];
    [now apply Hb in Ht | now apply IH in Ht].
Qed.

Lemma mark_roots_not_Timeout h : mark_roots h <> Timeout.
Proof.
  unfold mark_roots. intros Ht.
  apply bind_Timeout in Ht as [Ht|(o1 & _ & Ht)]; [discriminate|].
  revert Ht. apply for_each_not_Timeout. intros tp h' Ht.
  apply bind_Timeout in Ht as [Ht|(o2 & _ & Ht)]; [discriminate|].
  now apply mark_not_Timeout in Ht.
Qed.

Lemma records_reset pgs :
  records (reset_marks <$> pgs) = set_level 0 <$> records pgs.
Proof.
  unfold records. induction pgs as [|pg pgs IH]; [reflexivity|].
  cbn. rewrite fmap_app. f_equal. exact IH.
Qed.

Lemma lookup_record_reset i j pgs :
  lookup_record i j (reset_marks <$> pgs)
    = set_level 0 <$> lookup_record i j pgs.
Proof.
  unfold lookup_record. rewrite list_lookup_fmap.
  destruct (pgs !! i) as [pg|]; [|reflexivity]. cbn.
  now rewrite list_lookup_fmap.
Qed.

(** Phases 1 and 2 together: they end within [K + 1] passes, and at the
    end every root and every record at a level other than 0 has had its
    pointer marked. *)
Lemma collect_mark_spec fuel h :
  Z.of_nat (nonroot_count h) + 2 < SizeT.modulus ->
  (nonroot_count h < fuel)%nat ->
  collect_mark fuel h <> Timeout /\
  forall o, collect_mark fuel h = Ok o ->
    log o = [] /\
    (1 <= val o <= S (nonroot_count h))%nat /\
    heap_rel (fun l => 1 <= l) (set_pages (fmap reset_marks) h) (post o) /\
    (forall tp, tp ∈ roots h -> marked (get tp h) (post o)) /\
    (forall i j r, lookup_record i j (pages (post o)) = Some r ->
                   level r <> 0 ->
                   marked (get (nr_p r) (post o)) (post o)).
Proof.
  intros Hb Hfuel.
  set (h1 := set_pages (fmap reset_marks) h).
  assert (Hcount : forall lvl h2, heap_rel (eq 1) h1 h2 ->
            (pending lvl (pages h2) <= nonroot_count h)%nat).
  { intros lvl h2 Hrel. etransitivity; [apply pending_le_count|].
    apply heap_rel_count in Hrel. unfold nonroot_count in *.
    rewrite Hrel. subst h1. cbn. now rewrite records_reset, length_fmap. }
  assert (Hloop : forall h2, heap_rel (eq 1) h1 h2 ->
            1 <= 1 /\
            1 + Z.of_nat (pending 1 (pages h2)) + 1 < SizeT.modulus /\
            (forall r, r ∈ records (pages h2) -> 0 <= level r <= 1) /\
            (forall i j r, lookup_record i j (pages h2) = Some r ->
                           0 < level r < 1 -> marked (get (nr_p r) h2) h2) /\
            (pending 1 (pages h2) < fuel)%nat).
  { intros h2 Hrel. specialize (Hcount 1 h2 Hrel).
    split; [lia|]. split; [lia|]. split; [|split; [intros; lia|lia]].
    intros r2 Hr2. apply heap_rel_records in Hrel.
    apply list_elem_of_lookup in Hr2 as [k Hk].
    destruct (Forall2_lookup_r _ _ _ _ _ Hrel Hk) as (r & Hk0 & _ & Hlv).
    assert (level r = 0).
    { apply list_elem_of_lookup_2 in Hk0. subst h1. cbn in Hk0.
      rewrite records_reset in Hk0.
      now apply list_elem_of_fmap in Hk0 as (? & -> & _). }
    destruct Hlv as [E|[E0 E]]; lia. }
  unfold collect_mark. split.
  - intros Ht.
    apply bind_Timeout in Ht as [Ht|(o1 & Ho1 & Ht)]; [discriminate|].
    apply modify_Ok in Ho1 as ->. cbn in Ht.
    apply bind_Timeout in Ht as [Ht|(o2 & Ho2 & Ht)];
      [now apply mark_roots_not_Timeout in Ht|].
    apply mark_roots_Ok in Ho2 as (_ & Hrel & _).
    destruct (Hloop _ Hrel) as (H1 & H2 & H3 & H4 & H5).
    revert Ht. now apply mark_loop_spec.
  - intros o Ho. inv_M.
    match goal with
    | Hr : mark_roots _ = Ok _ |- _ =>
        fold h1 in Hr; apply mark_roots_Ok in Hr as (-> & Hrel & Hroots)
    end.
    destruct (Hloop _ Hrel) as (L1 & L2 & L3 & L4 & L5).
    pose proof (Hcount 1 _ Hrel) as Hc.
    match goal with
    | Hr : mark_loop _ _ _ = Ok _ |- _ =>
        apply mark_loop_spec in Hr as (-> & Hv & Hrel2 & Hall); try done
    end.
    split; [done|]. split; [lia|]. split; [|split; [|done]].
    + eapply heap_rel_trans.
      * eapply heap_rel_weaken; [|exact Hrel]. intros l <-. lia.
      * eapply heap_rel_weaken; [|exact Hrel2]. cbn. intros l ?. lia.
    + intros tp Htp.
      eapply (marked_rel (fun l => 1 < l));
        [intros l ?; lia | exact Hrel2 |].
      apply (Hroots tp Htp).
Qed.

(** C7, as the code has it. The marking loop of [collect()] ends: on a
    heap with [K] non-root records (fewer than [2 ^ 64 - 2]) it makes at
    least one and at most [K + 1] passes. A pass that is not the last has
    found a record whose level is [level - 1], assigned by the pass before
    (it need not assign any level itself); and [mark] never changes a level
    other than 0, so that no level changes twice. *)
Theorem mark_loop_terminates (fuel : nat) (h : deferred_heap) :
  Z.of_nat (nonroot_count h) + 2 < SizeT.modulus ->
  (nonroot_count h < fuel)%nat ->
  (collect_mark fuel h <> Timeout /\
   forall o, collect_mark fuel h = Ok o ->
             (1 <= val o <= nonroot_count h + 1)%nat) /\
  (forall lvl h1 o, 1 < lvl < SizeT.modulus ->
     mark_pass lvl h1 = Ok o -> val o = false ->
     exists r, r ∈ records (pages h1) /\ level r = lvl - 1) /\
  (forall x lvl h1 o, mark x lvl h1 = Ok o ->
     Forall2 (fun r r' => nr_p r' = nr_p r /\
                          (level r <> 0 -> level r' = level r) /\
                          (level r = 0 -> level r' = 0 \/ level r' = lvl))
             (records (pages h1)) (records (pages (post o)))).
Proof.
  intros Hb Hfuel. split; [|split].
  - destruct (collect_mark_spec fuel h Hb Hfuel) as [Hn Hok].
    split; [exact Hn|]. intros o Ho.
    destruct (Hok o Ho) as (_ & Hv & _). lia.
  - intros lvl h1 o Hl Hp Hv.
    replace lvl with (lvl - 1 + 1) in Hp by lia.
    apply mark_pass_next in Hp as (_ & _ & _ & Hf & _); [auto|lia..].
  - intros x lvl h1 o Hm. apply mark_Ok in Hm as [_ Hrel].
    apply heap_rel_records in Hrel.
    eapply Forall2_impl; [exact Hrel|].
    intros r r' [Hp [E|[E0 E]]]; (split; [exact Hp|]); split.
    + intros _. exact E.
    + intros E0. left. congruence.
    + intros Hn. contradiction.
    + intros _. right. congruence.
Qed.

(** ** Phase 3 *)

(** the tracked pointers that phase 3 resets: those of the records at
    level 0, page after page *)
Definition unreached (pgs : list dhpage) : list addr :=
  pgs ≫= fun pg => nr_p <$> filter (fun dp => level dp = 0) (deferred_ptrs pg).

(** the heap once the tracked pointers at [l] have been reset *)
Definition null_all (l : list addr) (h : deferred_heap) : deferred_heap :=
  set_memory (fun m => foldl (fun m tp => <[tp := null]> m) m l) h.

Lemma null_all_nil h : null_all [] h = h.
Proof. now destruct h. Qed.

Lemma null_all_app l1 l2 h :
  null_all (l1 ++ l2) h = null_all l2 (null_all l1 h).
Proof. unfold null_all, set_memory. cbn. now rewrite foldl_app. Qed.

Lemma null_all_pages l h : pages (null_all l h) = pages h.
Proof. reflexivity. Qed.

Lemma null_all_roots l h : roots (null_all l h) = roots h.
Proof. reflexivity. Qed.

Lemma get_null_all tp l h :
  get tp (null_all l h) = if decide (tp ∈ l) then null else get tp h.
Proof.
  unfold get, null_all. cbn. generalize (memory h).
  induction l as [|a l IH]; intros m; cbn.
  - rewrite decide_False; [done|]. intros Hin. inversion Hin.
  - rewrite IH. destruct (decide (tp ∈ l)) as [Hin|Hin].
    + rewrite decide_True; [done|]. now right.
    + destruct (decide (a = tp)) as [->|Hne].
      * rewrite decide_True by left. apply lookup_total_insert_eq.
      * rewrite decide_False.
        -- now rewrite lookup_total_insert_ne.
        -- intros Hc. apply elem_of_cons in Hc as [->|Hc]; congruence.
Qed.

Lemma null_records dps h o :
  for_each dps (fun dp => if level dp =? 0
                          then reset (nr_p dp);; emit (EvReset (nr_p dp))
                          else mret tt) h = Ok o ->
  post o = null_all (nr_p <$> filter (fun dp => level dp = 0) dps) h /\
  log o = EvReset <$> (nr_p <$> filter (fun dp => level dp = 0) dps).
Proof.
  revert h o. induction dps as [|dp dps IH]; intros h o Hr.
  - rewrite for_each_nil in Hr. injection Hr as <-. cbn.
    now rewrite null_all_nil.
  - apply for_each_cons_Ok in Hr as (o1 & o2 & H1 & H2 & ->).
    apply IH in H2 as [Hp Hl]. cbn [post log]. rewrite Hp, Hl.
    rewrite filter_cons. destruct (Z.eqb_spec (level dp) 0) as [E|NE].
    + rewrite decide_True by done. unfold reset, set in H1. inv_M.
      cbn. split; [|done].
      change (nr_p dp :: ?l) with ([nr_p dp] ++ l).
      now rewrite null_all_app.
    + rewrite decide_False by done. apply ret_Ok in H1 as ->. done.
Qed.

Lemma null_pages pgs h o :
  for_each pgs (fun pg =>
    for_each (deferred_ptrs pg) (fun dp =>
      if level dp =? 0 then reset (nr_p dp);; emit (EvReset (nr_p dp))
      else mret tt)) h = Ok o ->
  post o = null_all (unreached pgs) h /\
  log o = EvReset <$> unreached pgs.
Proof.
  revert h o. induction pgs as [|pg pgs IH]; intros h o Hr.
  - rewrite for_each_nil in Hr. injection Hr as <-. cbn.
    now rewrite null_all_nil.
  - apply for_each_cons_Ok in Hr as (o1 & o2 & H1 & H2 & ->).
    apply null_records in H1 as [Hp1 Hl1].
    apply IH in H2 as [Hp2 Hl2]. cbn [post log].
    rewrite Hp2, Hl2, Hp1, Hl1. unfold unreached. cbn.
    now rewrite null_all_app, fmap_app.
Qed.

(** Phase 3 resets the tracked pointers of the records at level 0, and
    does nothing else. *)
Lemma null_unreached_Ok h o :
  null_unreached h = Ok o ->
  post o = null_all (unreached (pages h)) h /\
  log o = EvReset <$> unreached (pages h).
Proof.
  unfold null_unreached. intros Hr. inv_M.
  match goal with
  | Hf : for_each _ _ _ = Ok _ |- _ => apply null_pages in Hf as [-> ->]
  end.
  done.
Qed.

Lemma null_unreached_run h :
  null_unreached h
    = Ok (Out tt (null_all (unreached (pages h)) h)
              (EvReset <$> unreached (pages h))).
Proof.
  unfold null_unreached. erewrite bind_Ok_l by reflexivity.
  assert (Hin : forall dps h0, exists o,
            for_each dps (fun dp => if level dp =? 0
                            then reset (nr_p dp);; emit (EvReset (nr_p dp))
                            else mret tt) h0 = Ok o).
  { intros dps h0. apply for_each_returns. intros dp h1.
    destruct (level dp =? 0); eexists; reflexivity. }
  destruct (for_each_returns (pages h)
              (fun pg => for_each (deferred_ptrs pg) (fun dp =>
                 if level dp =? 0
                 then reset (nr_p dp);; emit (EvReset (nr_p dp))
                 else mret tt))
              (fun pg h0 => Hin (deferred_ptrs pg) h0) h) as [o Ho].
  rewrite Ho. apply null_pages in Ho as [Hp Hl].
  destruct o as [[] p l]. cbn in *. now subst.
Qed.

Lemma elem_of_unreached tp pgs :
  tp ∈ unreached pgs <-> exists r, r ∈ records pgs /\ level r = 0 /\ nr_p r = tp.
Proof.
  unfold unreached, records. split.
  - intros Hin. apply list_elem_of_bind in Hin as (pg & Hin & Hpg).
    apply list_elem_of_fmap in Hin as (r & -> & Hr).
    apply list_elem_of_filter in Hr as [Hl Hr].
    exists r. split; [|done]. apply list_elem_of_bind. eauto.
  - intros (r & Hr & Hl & <-).
    apply list_elem_of_bind in Hr as (pg & Hr & Hpg).
    apply list_elem_of_bind. exists pg. split; [|done].
    apply list_elem_of_fmap. exists r. split; [done|].
    now apply list_elem_of_filter.
Qed.

(** ** Phase 4 *)

Definition is_reset (e : event) : Prop :=
  match e with EvReset _ => True | _ => False end.

(** Steps of phase 4 under an invariant [I] of the heap: no step is a
    reset, and every destructor is handed a heap that satisfies [I]. *)
Definition sweep_steps (I : deferred_heap -> Prop) (l : list event) : Prop :=
  Forall (fun e => match e with
                   | EvDestroy _ _ before => I before
                   | EvDeallocate _ _ => True
                   | _ => False
                   end) l.

Section sweep_invariant.
Variable I : deferred_heap -> Prop.
Hypothesis I_dtors : forall f h, I h -> I (set_dtors f h).
Hypothesis I_page :
  forall g pi h, I h -> I (set_pages (alter (set_page g) pi) h).
Hypothesis I_destroy :
  forall f x h h', I h -> destroy_body f x h = Ok h' -> I h'.

Lemma for_each_inv {A} (l : list A) (body : A -> M unit) :
  (forall a h o, I h -> body a h = Ok o ->
                 I (post o) /\ sweep_steps I (log o)) ->
  forall h o, I h -> for_each l body h = Ok o ->
              I (post o) /\ sweep_steps I (log o).
Proof.
  intros Hb. induction l as [|a l IH]; intros h o Hi Hr.
  - rewrite for_each_nil in Hr. injection Hr as <-. split; [done|constructor].
  - apply for_each_cons_Ok in Hr as (o1 & o2 & H1 & H2 & ->).
    destruct (Hb _ _ _ Hi H1) as [Hi1 Hs1].
    destruct (IH _ _ Hi1 H2) as [Hi2 Hs2].
    split; [done|]. now apply Forall_app.
Qed.

Lemma call_destroy_inv f x h o :
  I h -> call_destroy f x h = Ok o -> I (post o) /\ sweep_steps I (log o).
Proof.
  intros Hi Hc. inv_M. split; [eauto|]. now repeat constructor.
Qed.

Lemma run_inv begin end_ h o :
  I h -> run begin end_ h = Ok o -> I (post o) /\ sweep_steps I (log o).
Proof.
  intros Hi Hr. unfold run in Hr. inv_M.
  destruct (run_scan begin end_ (dtors h)) as [[kept to_destroy] ret].
  inv_M. rewrite app_nil_r. cbn [app].
  match goal with
  | Hf : for_each to_destroy _ _ = Ok _ |- _ =>
      eapply for_each_inv in Hf; [exact Hf| |now apply I_dtors]
  end.
  intros d hd od Hid Hd. unfold destroy_elements in Hd.
  eapply for_each_inv in Hd; [exact Hd| |exact Hid].
  intros a hc oc Hic Hc. eapply call_destroy_inv; eauto.
Qed.

Lemma sweep_location_inv pi i h o :
  I h -> sweep_location pi i h = Ok o ->
  I (post o) /\ sweep_steps I (log o).
Proof.
  intros Hi Hs. unfold sweep_location in Hs. inv_M.
  destruct (pages h !! pi) as [pg|]; [|inv_M; split; [done|constructor]].
  destruct (is_start _ && _); [|inv_M; split; [done|constructor]].
  unfold destroy_objects in *. inv_M.
  match goal with
  | Hr : run _ _ _ = Ok _ |- _ => apply run_inv in Hr as [Hi1 Hs1]; [|done]
  end.
  split; [now apply I_page|].
  cbn [app]. apply Forall_app. split; [done|]. now repeat constructor.
Qed.

Lemma sweep_pages_inv fuel : forall pi h o,
  I h -> sweep_pages fuel pi h = Ok o ->
  I (post o) /\ sweep_steps I (log o).
Proof.
  induction fuel as [|fuel IH]; intros pi h o Hi Hs; [discriminate|].
  cbn [sweep_pages] in Hs. inv_M.
  destruct (pages h !! pi) as [pg|]; [|inv_M; split; [done|constructor]].
  inv_M.
  match goal with
  | Hf : for_each _ _ _ = Ok _ |- _ =>
      eapply for_each_inv in Hf as [Hi1 Hs1];
        [|intros; eapply sweep_location_inv; eauto|done]
  end.
  match goal with
  | Hr : sweep_pages _ _ _ = Ok _ |- _ => apply IH in Hr as [Hi2 Hs2]; [|done]
  end.
  split; [done|]. cbn [app]. now apply Forall_app.
Qed.
End sweep_invariant.

(** ** The order of phases 3 and 4 *)

(** [live_starts.get(s)] *)
Definition live_bit (pg : dhpage) (s : nat) : bool :=
  default false (live_starts pg !! s).

(** the allocation at location [s] of page [i] is one that phase 4
    destroys and deallocates *)
Definition condemned (h : deferred_heap) (i s : nat) : Prop :=
  exists pg, pages h !! i = Some pg /\
    (s < page_locations (page pg))%nat /\
    is_start (page_location_info (page pg) s) = true /\
    live_bit pg s = false.

(** the heap has a tracked pointer at [tp] on record *)
Definition registered (h : deferred_heap) (tp : addr) : Prop :=
  tp ∈ roots h \/ exists r, r ∈ records (pages h) /\ nr_p r = tp.

(** [severed h3 h]: in the heap [h], every tracked pointer on record that
    points into an allocation condemned in [h3] reads null. *)
Definition severed (h3 h : deferred_heap) : Prop :=
  forall tp i s,
    registered h tp ->
    target (get tp h) (pages h3) = Some (i, s) ->
    condemned h3 i s ->
    get tp h = null.

(** every bitmap is as long as its page has locations, as the constructor
    of [dhpage] makes it *)
Definition bitmaps_sized (h : deferred_heap) : Prop :=
  Forall (fun pg => length (live_starts pg) = page_locations (page pg))
         (pages h).

Lemma marked_not_condemned x h i s :
  marked x h -> target x (pages h) = Some (i, s) -> bitmaps_sized h ->
  condemned h i s -> x = null.
Proof.
  intros [Hx|Hm] Ht Hsz (pg & Hi & Hs & _ & Hb); [done|exfalso].
  destruct (Hm i s Ht) as (pg' & Hi' & Hbit & _).
  rewrite Hi in Hi'. injection Hi' as <-.
  unfold bitmaps_sized in Hsz. rewrite Forall_forall in Hsz.
  assert (Hlen : length (live_starts pg) = page_locations (page pg))
    by (apply Hsz; eapply list_elem_of_lookup_2; eauto).
  unfold live_bit in Hb. rewrite Hbit in Hb by lia. discriminate.
Qed.

Lemma records_lookup pgs r :
  r ∈ records pgs -> exists i j, lookup_record i j pgs = Some r.
Proof.
  unfold records, lookup_record. intros Hr.
  apply list_elem_of_bind in Hr as (pg & Hr & Hpg).
  apply list_elem_of_lookup in Hpg as [i Hi].
  apply list_elem_of_lookup in Hr as [j Hj].
  exists i, j. rewrite Hi. exact Hj.
Qed.

Lemma records_set_page g pi pgs :
  records (alter (set_page g) pi pgs) = records pgs.
Proof.
  unfold records. revert pi. induction pgs as [|pg pgs IH]; intros pi.
  - reflexivity.
  - destruct pi as [|pi]; cbn; [reflexivity|]. now rewrite IH.
Qed.

Lemma severed_dtors h3 f h : severed h3 h -> severed h3 (set_dtors f h).
Proof. intros Hs. exact Hs. Qed.

Lemma severed_page h3 g pi h :
  severed h3 h -> severed h3 (set_pages (alter (set_page g) pi) h).
Proof.
  intros Hs tp i s Hreg. apply (Hs tp i s).
  destruct Hreg as [Hr|(r & Hr & Hp)]; [now left|right].
  exists r. split; [|done]. cbn in Hr. now rewrite records_set_page in Hr.
Qed.

Lemma bitmaps_sized_rel P h h' :
  heap_rel P h h' -> bitmaps_sized h -> bitmaps_sized h'.
Proof.
  intros [_ Hf] Hs. unfold bitmaps_sized in *.
  induction Hf as [|pg pg' pgs pgs' (Hg & Hn & _) _ IH]; [constructor|].
  apply Forall_cons in Hs as [Hpg Hs]. constructor; [|auto]. congruence.
Qed.

Lemma bitmaps_sized_reset h :
  bitmaps_sized h -> bitmaps_sized (set_pages (fmap reset_marks) h).
Proof.
  unfold bitmaps_sized. cbn. intros Hs. apply Forall_fmap.
  eapply Forall_impl; [exact Hs|]. intros pg Hpg. cbn.
  now rewrite length_replicate.
Qed.

(** C2, as the code has it. Take a call of [collect()] that returns, on
    a heap whose bitmaps have the size of their pages and whose [K]
    records the marking loop can count ([K + 2 < 2 ^ 64]). Its steps are the resets of phase 3, of
    exactly the tracked pointers whose records are at level 0 when phase 2
    ends, followed by the steps of phase 4, among which there is no reset
    and all the destructor calls: every reset comes before every
    destructor call. When phase 3 ends, every tracked pointer it has reset
    reads null, and every tracked pointer on record (root or not) that
    points into a condemned allocation reads null. Phase 4 itself writes no
    tracked pointer: as long as the destructors do not themselves make a
    tracked pointer point into a condemned allocation, every destructor
    called in phase 4 finds the heap in that state. *)
Theorem collect_severs_before_destroying (fuel : nat) (h : deferred_heap)
    (o : out unit) :
  bitmaps_sized h ->
  Z.of_nat (nonroot_count h) + 2 < SizeT.modulus ->
  (nonroot_count h < fuel)%nat ->
  collect fuel h = Ok o ->
  exists o2 sweep,
    collect_mark fuel h = Ok o2 /\
    let h3 := null_all (unreached (pages (post o2))) (post o2) in
    log o = (EvReset <$> unreached (pages (post o2))) ++ sweep /\
    sweep_steps (fun _ => True) sweep /\
    (forall tp, tp ∈ unreached (pages (post o2)) -> get tp h3 = null) /\
    severed h3 h3 /\
    ((forall f x hb ha, severed h3 hb -> destroy_body f x hb = Ok ha ->
                        severed h3 ha) ->
     sweep_steps (severed h3) sweep).
Proof.
  intros Hsz Hb Hfuel Hc. unfold collect in Hc. inv_M.
  match goal with
  | Hm : collect_mark _ _ = Ok ?a, Hn : null_unreached _ = Ok ?b,
    Hs : sweep_pages _ _ _ = Ok ?c |- _ =>
      rename Hm into Hmark, Hn into Hnull, Hs into Hsweep;
      rename a into om, b into on, c into os
  end.
  destruct (collect_mark_spec fuel h Hb Hfuel) as [_ Hspec].
  destruct (Hspec _ Hmark) as (Hl & _ & Hrel & Hroots & Hrecs).
  apply null_unreached_Ok in Hnull as [Hp3 Hl3].
  rewrite Hl, Hl3, Hp3 in *. clear Hl Hl3 Hp3.
  exists om, (log os). split; [done|]. cbn zeta.
  set (h2 := post om) in *.
  set (h3 := null_all (unreached (pages h2)) h2) in *.
  assert (Hsz2 : bitmaps_sized h2).
  { eapply bitmaps_sized_rel; [exact Hrel|]. now apply bitmaps_sized_reset. }
  assert (Hget2 : forall tp, get tp h2 = get tp h).
  { intros tp. now rewrite (heap_rel_get _ _ _ tp Hrel). }
  assert (Hsev : severed h3 h3).
  { intros tp i s Hreg Ht Hcond. subst h3.
    rewrite get_null_all in *.
    destruct (decide (tp ∈ unreached (pages h2))) as [Hin|Hnin]; [done|].
    rewrite null_all_pages in Ht.
    apply (marked_not_condemned _ h2 i s); [|done|done|exact Hcond].
    destruct Hreg as [Hr|(r & Hr & <-)].
    - rewrite null_all_roots in Hr. subst h2.
      rewrite (heap_rel_roots _ _ _ Hrel) in Hr. cbn in Hr.
      rewrite Hget2. now apply Hroots.
    - rewrite null_all_pages in Hr.
      destruct (records_lookup _ _ Hr) as (i0 & j0 & Hlk).
      apply (Hrecs i0 j0 r Hlk). intros Hz. apply Hnin.
      apply elem_of_unreached. eauto. }
  split; [done|].
  split.
  { eapply (sweep_pages_inv (fun _ => True)) in Hsweep as [_ Hs]; auto. }
  split.
  { intros tp Hin. subst h3. rewrite get_null_all. now rewrite decide_True. }
  split; [exact Hsev|].
  intros Hdestroy.
  eapply (sweep_pages_inv (severed h3)) in Hsweep as [_ Hs];
    eauto using severed_dtors, severed_page.
Qed.

(** ** Registration: the invariant *)

Lemma find_dhpage_of_Some x pgs i :
  find_dhpage_of x pgs = Some i ->
  exists pg, pgs !! i = Some pg /\ page_contains (page pg) x = true /\
    forall i' pg', (i' < i)%nat -> pgs !! i' = Some pg' ->
                   page_contains (page pg') x = false.
Proof.
  revert i. induction pgs as [|pg pgs IH]; intros i Hf; [discriminate|].
  cbn [find_dhpage_of] in Hf.
  destruct (page_contains (page pg) x) eqn:E.
  - injection Hf as <-. exists pg. repeat split; auto. intros; lia.
  - destruct (find_dhpage_of x pgs) as [i0|]; [|discriminate].
    injection Hf as <-. destruct (IH i0 eq_refl) as (pg0 & H1 & H2 & H3).
    exists pg0. repeat split; auto.
    intros [|i'] pg' Hlt Hl; cbn in Hl; [congruence|].
    apply (H3 i'); [lia|done].
Qed.

Lemma find_dhpage_of_None x pgs :
  find_dhpage_of x pgs = None ->
  forall pg, pg ∈ pgs -> page_contains (page pg) x = false.
Proof.
  induction pgs as [|pg pgs IH]; intros Hf pg' Hin; [inversion Hin|].
  cbn [find_dhpage_of] in Hf.
  destruct (page_contains (page pg) x) eqn:E; [discriminate|].
  destruct (find_dhpage_of x pgs); [discriminate|].
  apply elem_of_cons in Hin as [->|Hin]; auto.
Qed.

Lemma rfind_Some tp l j :
  rfind tp l = Some j -> exists r, l !! j = Some r /\ nr_p r = tp.
Proof.
  revert j. induction l as [|dp l IH]; intros j Hf; [discriminate|].
  cbn [rfind] in Hf. destruct (rfind tp l) as [j0|].
  - injection Hf as <-. cbn. auto.
  - destruct (Z.eqb_spec (nr_p dp) tp); [|discriminate].
    injection Hf as <-. cbn. eauto.
Qed.

Lemma rfind_None tp l r : rfind tp l = None -> r ∈ l -> nr_p r <> tp.
Proof.
  induction l as [|dp l IH]; intros Hf Hin; [inversion Hin|].
  cbn [rfind] in Hf. destruct (rfind tp l) as [j0|]; [discriminate|].
  destruct (Z.eqb_spec (nr_p dp) tp); [discriminate|].
  apply elem_of_cons in Hin as [->|Hin]; auto.
Qed.

Lemma swap_remove_subset j l r : r ∈ swap_remove j l -> r ∈ l.
Proof.
  unfold swap_remove. destruct (last l) as [b|] eqn:Eb; [|done].
  intros Hin. apply list_elem_of_lookup in Hin as [k Hk].
  apply lookup_take_Some in Hk as [Hk Hlt].
  destruct (decide (j = k)) as [->|Hne].
  - rewrite list_lookup_insert_eq in Hk by lia. injection Hk as <-.
    rewrite last_lookup in Eb. eapply list_elem_of_lookup_2; eauto.
  - rewrite list_lookup_insert_ne in Hk by done.
    eapply list_elem_of_lookup_2; eauto.
Qed.

Lemma swap_remove_keeps j l r rj :
  l !! j = Some rj -> r ∈ l -> r <> rj -> r ∈ swap_remove j l.
Proof.
  intros Hj Hin Hne. unfold swap_remove.
  destruct (last l) as [b|] eqn:Eb.
  2:{ apply last_None in Eb. subst l. inversion Hin. }
  rewrite last_lookup in Eb.
  apply list_elem_of_lookup in Hin as [k Hk].
  assert (Hjl : (j < length l)%nat) by (eapply lookup_lt_Some; eauto).
  assert (Hkl : (k < length l)%nat) by (eapply lookup_lt_Some; eauto).
  destruct (decide (k = pred (length l))) as [->|Hklast].
  - (* r is the last record: it now sits at j *)
    rewrite Hk in Eb. injection Eb as <-.
    apply list_elem_of_lookup. exists j.
    apply lookup_take_Some. split.
    + now apply list_lookup_insert_eq.
    + destruct (decide (j = pred (length l))) as [->|]; [congruence|lia].
  - apply list_elem_of_lookup. exists k.
    apply lookup_take_Some. split; [|lia].
    rewrite list_lookup_insert_ne; [done|]. intros ->. congruence.
Qed.

Lemma deregister_scan_Some tp pgs pgs' :
  deregister_scan tp pgs = Some pgs' ->
  Forall2 (fun pg pg' =>
             page pg' = page pg /\ live_starts pg' = live_starts pg /\
             (forall r, r ∈ deferred_ptrs pg' -> r ∈ deferred_ptrs pg) /\
             (forall r, r ∈ deferred_ptrs pg -> nr_p r <> tp ->
                        r ∈ deferred_ptrs pg'))
          pgs pgs'.
Proof.
  revert pgs'. induction pgs as [|pg pgs IH]; intros pgs' Hs; [discriminate|].
  cbn [deregister_scan] in Hs.
  destruct (rfind tp (deferred_ptrs pg)) as [j|] eqn:Ej.
  - injection Hs as <-. constructor.
    + cbn. repeat split; auto.
      * intros r. apply swap_remove_subset.
      * intros r Hr Hne. apply rfind_Some in Ej as (rj & Hj & Hp).
        eapply swap_remove_keeps; eauto. congruence.
    + apply Forall2_refl'. intros pg0. repeat split; auto.
  - destruct (deregister_scan tp pgs) as [rest|]; [|discriminate].
    injection Hs as <-. constructor; [|auto]. repeat split; auto.
Qed.

(** A configuration: the heap, and the addresses of the tracked pointers
    that are alive (constructed and not yet destroyed). *)
Definition config : Type := deferred_heap * gset Z.

(** the non-root list of the page has a record for the tracked pointer *)
Definition on_list (pg : dhpage) (tp : addr) : Prop :=
  exists r, r ∈ deferred_ptrs pg /\ nr_p r = tp.

(** Two heaps with the same registrations: what the operations that
    neither register nor deregister leave alone (the root set, the
    teardown flag, the byte range of every page, the pointers on every
    non-root list), whatever they do to levels, bits, the occupancy of the
    pages, the tracked pointers' values and the destructor registry. *)
Definition same_registration (h h' : deferred_heap) : Prop :=
  roots h' = roots h /\
  is_destroying h' = is_destroying h /\
  Forall2 (fun pg pg' =>
             (forall x, page_contains (page pg') x = page_contains (page pg) x) /\
             nr_p <$> deferred_ptrs pg' = nr_p <$> deferred_ptrs pg)
          (pages h) (pages h').

(** The storage of a new page is new: it overlaps no page of the heap and
    holds no tracked pointer that is alive. *)
Definition fresh_page (g : gpage) (h : deferred_heap) (live : gset Z) : Prop :=
  forall x, page_contains g x = true ->
    (x ∉ live) /\ forall pg, pg ∈ pages h -> page_contains (page pg) x = false.

(** What the public operations, and the constructors and destructors they
    run, do to the registrations, one step at a time. *)
Inductive step : config -> config -> Prop :=
| step_enregister tp h live o :
    (** a tracked pointer is constructed at [tp] *)
    enregister tp h = Ok o ->
    step (h, live) (post o, {[tp]} ∪ live)
| step_deregister tp h live o :
    (** the tracked pointer at [tp] is destroyed *)
    deregister tp h = Ok o ->
    step (h, live) (post o, live ∖ {[tp]})
| step_new_page g bits h live :
    (** [allocate] appends a page *)
    fresh_page g h live ->
    step (h, live)
         (set_pages (fun pgs => pgs ++ [{| page := g; live_starts := bits;
                                           deferred_ptrs := [] |}]) h,
          live)
| step_other h h' live :
    (** anything else: allocation in a page, marking, resetting, sweeping,
        assignment, the destructor registry *)
    same_registration h h' ->
    step (h, live) (h', live).

(** sequences of steps *)
Inductive steps : config -> config -> Prop :=
| steps_nil c : steps c c
| steps_cons c1 c2 c3 : steps c1 c2 -> step c2 c3 -> steps c1 c3.

(** The invariant behind the claim: the heap is not being torn down; the
    roots are alive; no two pages overlap; a pointer on the list of a page
    lies in that page; a root lies in no page; every pointer that is alive
    is on record. *)
Definition registration_inv (c : config) : Prop :=
  is_destroying c.1 = false /\
  (forall tp, tp ∈ roots c.1 -> tp ∈ c.2) /\
  (forall i j pg pg' x,
     pages c.1 !! i = Some pg -> pages c.1 !! j = Some pg' ->
     page_contains (page pg) x = true -> page_contains (page pg') x = true ->
     i = j) /\
  (forall pg tp, pg ∈ pages c.1 -> on_list pg tp ->
                 page_contains (page pg) tp = true) /\
  (forall tp pg, tp ∈ roots c.1 -> pg ∈ pages c.1 ->
                 page_contains (page pg) tp = false) /\
  (forall tp, tp ∈ c.2 ->
     tp ∈ roots c.1 \/ exists pg, pg ∈ pages c.1 /\ on_list pg tp).

(** The claim: a tracked pointer that is alive is either a root and on no
    list, or no root and on the list of exactly one page, the only page
    that contains its address. *)
Definition recorded_once (c : config) : Prop :=
  forall tp, tp ∈ c.2 ->
    (tp ∈ roots c.1 /\ forall pg, pg ∈ pages c.1 -> ~ on_list pg tp) \/
    ((tp ∉ roots c.1) /\
     exists i pg,
       pages c.1 !! i = Some pg /\ on_list pg tp /\
       page_contains (page pg) tp = true /\
       (forall i' pg', pages c.1 !! i' = Some pg' -> on_list pg' tp -> i' = i) /\
       (forall i' pg', pages c.1 !! i' = Some pg' ->
                       page_contains (page pg') tp = true -> i' = i)).

Lemma registration_inv_recorded_once c :
  registration_inv c -> recorded_once c.
Proof.
  destruct c as [h live]. cbn.
  intros (_ & _ & Hdis & Hin & Hroot & Hreg) tp Hlive. cbn in *.
  destruct (Hreg tp Hlive) as [Hr|(pg & Hpg & Hon)].
  - left. split; [done|]. intros pg Hpg Hon.
    specialize (Hin pg tp Hpg Hon). specialize (Hroot tp pg Hr Hpg).
    congruence.
  - right. pose proof (Hin pg tp Hpg Hon) as Hc. split.
    + intros Hr. specialize (Hroot tp pg Hr Hpg). congruence.
    + apply list_elem_of_lookup in Hpg as [i Hi].
      exists i, pg. repeat split; auto.
      * intros i' pg' Hi' Hon'. eapply Hdis; eauto.
        eapply Hin; eauto. eapply list_elem_of_lookup_2; eauto.
      * intros i' pg' Hi' Hc'. eapply Hdis; eauto.
Qed.

Lemma inv_enregister tp h live o :
  enregister tp h = Ok o ->
  registration_inv (h, live) -> registration_inv (post o, {[tp]} ∪ live).
Proof.
  intros He (Hd & Hrl & Hdis & Hin & Hroot & Hreg). cbn in *.
  unfold enregister in He. inv_M.
  destruct (find_dhpage_of tp (pages h)) as [i|] eqn:Ef; inv_M.
  - apply find_dhpage_of_Some in Ef as (pgi & Hi & Hci & _).
    set (push := set_deferred_ptrs (fun l => l ++ [mk_nonroot tp])).
    assert (Hlk : forall k pg', alter push i (pages h) !! k = Some pg' ->
              exists pg, pages h !! k = Some pg /\ page pg' = page pg /\
                (forall x, on_list pg' x ->
                           on_list pg x \/ (k = i /\ x = tp)) /\
                (forall x, on_list pg x -> on_list pg' x)).
    { intros k pg' Hk. destruct (decide (k = i)) as [->|Hne].
      - rewrite list_lookup_alter_eq, Hi in Hk. injection Hk as <-.
        exists pgi. repeat split; auto.
        + intros x (r & Hr & Hp). cbn in Hr.
          apply elem_of_app in Hr as [Hr|Hr]; [left; exists r; auto|].
          apply list_elem_of_singleton in Hr as ->. now right.
        + intros x (r & Hr & Hp). exists r. split; [|done]. cbn.
          apply elem_of_app. now left.
      - rewrite list_lookup_alter_ne in Hk by done.
        exists pg'. repeat split; auto. }
    repeat split; cbn.
    + done.
    + intros x Hx. apply elem_of_union. right. auto.
    + intros k1 k2 pg1 pg2 x Hk1 Hk2 Hc1 Hc2.
      apply Hlk in Hk1 as (q1 & Hq1 & E1 & _).
      apply Hlk in Hk2 as (q2 & Hq2 & E2 & _).
      rewrite E1 in Hc1. rewrite E2 in Hc2. eauto.
    + intros pg' x Hpg' Hon. apply list_elem_of_lookup in Hpg' as [k Hk].
      apply Hlk in Hk as (q & Hq & E & Hback & _). rewrite E.
      destruct (Hback x Hon) as [Hq'|[-> ->]].
      * eapply Hin; eauto. eapply list_elem_of_lookup_2; eauto.
      * congruence.
    + intros x pg' Hx Hpg'. apply list_elem_of_lookup in Hpg' as [k Hk].
      apply Hlk in Hk as (q & Hq & E & _). rewrite E.
      eapply Hroot; eauto. eapply list_elem_of_lookup_2; eauto.
    + intros x Hx. apply elem_of_union in Hx as [Hx|Hx].
      * apply elem_of_singleton in Hx as ->. right.
        exists (push pgi). split.
        -- apply list_elem_of_lookup. exists i.
           now rewrite list_lookup_alter_eq, Hi.
        -- exists (mk_nonroot tp). split; [|done]. cbn.
           apply elem_of_app. right. now left.
      * destruct (Hreg x Hx) as [?|(pg & Hpg & Hon)]; [now left|right].
        apply list_elem_of_lookup in Hpg as [k Hk].
        destruct (decide (k = i)) as [->|Hne].
        -- exists (push pg). split.
           ++ apply list_elem_of_lookup. exists i.
              now rewrite list_lookup_alter_eq, Hk.
           ++ destruct Hon as (r & Hr & Hp). exists r. split; [|done].
              cbn. apply elem_of_app. now left.
        -- exists pg. split; [|done]. apply list_elem_of_lookup. exists k.
           now rewrite list_lookup_alter_ne.
  - pose proof (find_dhpage_of_None _ _ Ef) as Hnone.
    repeat split; cbn; auto.
    + intros x Hx. apply elem_of_union in Hx as [Hx|Hx];
        apply elem_of_union; [now left | right; auto].
    + intros x pg Hx Hpg. apply elem_of_union in Hx as [Hx|Hx]; [|eauto].
      apply elem_of_singleton in Hx as ->. auto.
    + intros x Hx. apply elem_of_union in Hx as [Hx|Hx].
      * left. apply elem_of_union. now left.
      * destruct (Hreg x Hx) as [?|?]; [left|now right].
        apply elem_of_union. now right.
Qed.

Ltac split_inv :=
  unfold registration_inv; cbn [fst snd];
  split; [|split; [|split; [|split; [|split]]]].

Lemma inv_deregister tp h live o :
  deregister tp h = Ok o ->
  registration_inv (h, live) -> registration_inv (post o, live ∖ {[tp]}).
Proof.
  intros He (Hd & Hrl & Hdis & Hin & Hroot & Hreg). cbn in *.
  unfold deregister in He. inv_M. rewrite Hd in *. inv_M.
  assert (Hlive : forall x, x ∈ roots h ∖ {[tp]} -> x ∈ live ∖ {[tp]}).
  { intros x Hx. apply elem_of_difference in Hx as [Hx Hne].
    apply elem_of_difference. auto. }
  destruct (decide (tp ∈ roots h)) as [Hr|Hr]; cbn in *.
  - (* it was a root *)
    inv_M. split_inv; cbn; auto.
    + intros x pg Hx. apply elem_of_difference in Hx as [Hx _]. eauto.
    + intros x Hx. apply elem_of_difference in Hx as [Hx Hne].
      destruct (Hreg x Hx) as [?|?]; [left|now right].
      apply elem_of_difference. auto.
  - inv_M. cbn [pages set_roots] in *.
    destruct (deregister_scan tp (pages h)) as [pgs'|] eqn:Es; inv_M.
    + apply deregister_scan_Some in Es.
      assert (Hlk : forall k pg', pgs' !! k = Some pg' ->
                exists pg, pages h !! k = Some pg /\ page pg' = page pg /\
                  (forall x, on_list pg' x -> on_list pg x)).
      { intros k pg' Hk.
        destruct (Forall2_lookup_r _ _ _ _ _ Es Hk)
          as (pg & Hk0 & E & _ & Hsub & _).
        exists pg. repeat split; auto.
        intros x (r & Hr0 & Hp). exists r. auto. }
      split_inv; cbn; auto.
      * intros k1 k2 pg1 pg2 x Hk1 Hk2 Hc1 Hc2.
        apply Hlk in Hk1 as (q1 & Hq1 & E1 & _).
        apply Hlk in Hk2 as (q2 & Hq2 & E2 & _).
        rewrite E1 in Hc1. rewrite E2 in Hc2. eauto.
      * intros pg' x Hpg' Hon. apply list_elem_of_lookup in Hpg' as [k Hk].
        apply Hlk in Hk as (q & Hq & E & Hback). rewrite E.
        eapply Hin; eauto. eapply list_elem_of_lookup_2; eauto.
      * intros x pg' Hx Hpg'. apply elem_of_difference in Hx as [Hx _].
        apply list_elem_of_lookup in Hpg' as [k Hk].
        apply Hlk in Hk as (q & Hq & E & _). rewrite E.
        eapply Hroot; eauto. eapply list_elem_of_lookup_2; eauto.
      * intros x Hx. apply elem_of_difference in Hx as [Hx Hne].
        assert (x <> tp) by (intros ->; apply Hne; now apply elem_of_singleton).
        destruct (Hreg x Hx) as [?|(pg & Hpg & r & Hr0 & Hp)].
        -- left. apply elem_of_difference. auto.
        -- right. apply list_elem_of_lookup in Hpg as [k Hk].
           destruct (Forall2_lookup_l _ _ _ _ _ Es Hk)
             as (pg' & Hk' & _ & _ & _ & Hkeep).
           exists pg'. split; [eapply list_elem_of_lookup_2; eauto|].
           exists r. split; [|done]. apply Hkeep; [done|congruence].
    + (* no record: only a release build gets here *)
      split_inv; cbn; auto.
      * intros x pg Hx. apply elem_of_difference in Hx as [Hx _]. eauto.
      * intros x Hx. apply elem_of_difference in Hx as [Hx Hne].
        destruct (Hreg x Hx) as [?|?]; [left|now right].
        apply elem_of_difference. auto.
Qed.

Lemma inv_new_page g bits h live :
  fresh_page g h live ->
  registration_inv (h, live) ->
  registration_inv
    (set_pages (fun pgs => pgs ++ [{| page := g; live_starts := bits;
                                      deferred_ptrs := [] |}]) h, live).
Proof.
  intros Hf (Hd & Hrl & Hdis & Hin & Hroot & Hreg). cbn in *.
  set (new := {| page := g; live_starts := bits; deferred_ptrs := [] |}).
  assert (Hlk : forall k pg, (pages h ++ [new]) !! k = Some pg ->
            pages h !! k = Some pg \/ (k = length (pages h) /\ pg = new)).
  { intros k pg Hk. apply lookup_app_Some in Hk as [Hk|[Hge Hk]]; [now left|].
    right. apply list_lookup_singleton_Some in Hk as [Hk <-].
    split; [lia|done]. }
  split_inv; cbn; auto.
  - intros k1 k2 pg1 pg2 x Hk1 Hk2 Hc1 Hc2.
    apply Hlk in Hk1 as [H1|[-> ->]]; apply Hlk in Hk2 as [H2|[-> ->]].
    + eauto.
    + exfalso. destruct (Hf x Hc2) as [_ Hno].
      rewrite (Hno pg1) in Hc1; [done|eapply list_elem_of_lookup_2; eauto].
    + exfalso. destruct (Hf x Hc1) as [_ Hno].
      rewrite (Hno pg2) in Hc2; [done|eapply list_elem_of_lookup_2; eauto].
    + done.
  - intros pg x Hpg Hon. apply elem_of_app in Hpg as [Hpg|Hpg]; [eauto|].
    apply list_elem_of_singleton in Hpg as ->.
    destruct Hon as (r & Hr & _). inversion Hr.
  - intros x pg Hx Hpg. apply elem_of_app in Hpg as [Hpg|Hpg]; [eauto|].
    apply list_elem_of_singleton in Hpg as ->. cbn.
    destruct (page_contains g x) eqn:E; [|done].
    destruct (Hf x E) as [Hnl _]. exfalso. auto.
  - intros x Hx. destruct (Hreg x Hx) as [?|(pg & Hpg & Hon)]; [now left|].
    right. exists pg. split; [|done]. apply elem_of_app. now left.
Qed.

Lemma inv_other h h' live :
  same_registration h h' ->
  registration_inv (h, live) -> registration_inv (h', live).
Proof.
  intros (Er & Ed & Hf) (Hd & Hrl & Hdis & Hin & Hroot & Hreg). cbn in *.
  assert (Hlk : forall k pg', pages h' !! k = Some pg' ->
            exists pg, pages h !! k = Some pg /\
              (forall x, page_contains (page pg') x
                         = page_contains (page pg) x) /\
              (forall x, on_list pg' x <-> on_list pg x)).
  { intros k pg' Hk.
    destruct (Forall2_lookup_r _ _ _ _ _ Hf Hk) as (pg & Hk0 & Hc & Hp).
    exists pg. repeat split; auto.
    - intros (r & Hr & <-).
      assert (Hm : nr_p r ∈ nr_p <$> deferred_ptrs pg)
        by (rewrite <- Hp; apply list_elem_of_fmap; eauto).
      apply list_elem_of_fmap in Hm as (r0 & E & Hr0). exists r0. auto.
    - intros (r & Hr & <-).
      assert (Hm : nr_p r ∈ nr_p <$> deferred_ptrs pg')
        by (rewrite Hp; apply list_elem_of_fmap; eauto).
      apply list_elem_of_fmap in Hm as (r0 & E & Hr0). exists r0. auto. }
  split_inv; rewrite ?Er, ?Ed; cbn; auto.
  - intros k1 k2 pg1 pg2 x Hk1 Hk2 Hc1 Hc2.
    apply Hlk in Hk1 as (q1 & Hq1 & E1 & _).
    apply Hlk in Hk2 as (q2 & Hq2 & E2 & _).
    rewrite E1 in Hc1. rewrite E2 in Hc2. eauto.
  - intros pg' x Hpg' Hon. apply list_elem_of_lookup in Hpg' as [k Hk].
    apply Hlk in Hk as (q & Hq & E & Hiff). rewrite E.
    eapply Hin; [eapply list_elem_of_lookup_2; eauto|]. now apply Hiff.
  - intros x pg' Hx Hpg'. apply list_elem_of_lookup in Hpg' as [k Hk].
    apply Hlk in Hk as (q & Hq & E & _). rewrite E.
    eapply Hroot; eauto. eapply list_elem_of_lookup_2; eauto.
  - intros x Hx. destruct (Hreg x Hx) as [?|(pg & Hpg & Hon)]; [now left|].
    right. apply list_elem_of_lookup in Hpg as [k Hk].
    destruct (Forall2_lookup_l _ _ _ _ _ Hf Hk) as (pg' & Hk' & _).
    exists pg'. split; [eapply list_elem_of_lookup_2; eauto|].
    destruct (Hlk k pg' Hk') as (q & Hq & _ & Hiff).
    rewrite Hk in Hq. injection Hq as <-. now apply Hiff.
Qed.

Lemma inv_step c c' : step c c' -> registration_inv c -> registration_inv c'.
Proof.
  destruct 1; eauto using inv_enregister, inv_deregister, inv_new_page,
                inv_other.
Qed.

Lemma inv_empty : registration_inv (empty_heap, ∅).
Proof.
  split_inv; cbn; try done.
  intros pg tp Hpg. inversion Hpg.
Qed.

(** C4. After any sequence of steps from the empty heap, every tracked
    pointer that is alive is either in the root set and on no non-root
    list, or not in the root set and on the non-root list of exactly one
    page, which is the only page whose byte range contains the pointer's
    own address. *)
Theorem registration_complete (h : deferred_heap) (live : gset Z) :
  steps (empty_heap, ∅) (h, live) -> recorded_once (h, live).
Proof.
  intros Hs. apply registration_inv_recorded_once.
  remember (empty_heap, ∅) as c0 eqn:E0.
  remember (h, live) as c eqn:E. clear E h live.
  induction Hs as [c|c1 c2 c3 Hs IH Hst].
  - subst c. apply inv_empty.
  - eapply inv_step; eauto.
Qed.

(** What the phases of [collect] that run no destructor do is a step of
    the last kind, and so is an assignment to a tracked pointer. *)
Lemma heap_rel_same_registration P h h' :
  heap_rel P h h' -> same_registration h h'.
Proof.
  intros [E Hf]. split; [now rewrite E|]. split; [now rewrite E|].
  eapply Forall2_impl; [exact Hf|].
  intros pg pg' (Hg & _ & _ & Hr). split; [now rewrite Hg|].
  induction Hr as [|r r' l l' [Hp _] _ IH]; [done|]. cbn. now f_equal.
Qed.

Lemma same_registration_refl h : same_registration h h.
Proof.
  repeat split. apply Forall2_refl'. intros pg. split; done.
Qed.

Lemma same_registration_trans h1 h2 h3 :
  same_registration h1 h2 -> same_registration h2 h3 ->
  same_registration h1 h3.
Proof.
  intros (Er1 & Ed1 & F1) (Er2 & Ed2 & F2).
  split; [congruence|]. split; [congruence|].
  eapply Forall2_trans'; [|exact F1|exact F2].
  intros a b c [Ha1 Ha2] [Hb1 Hb2]. split; [|congruence].
  intros x. now rewrite Hb1.
Qed.

Lemma same_registration_reset h :
  same_registration h (set_pages (fmap reset_marks) h).
Proof.
  repeat split. cbn. apply Forall2_fmap_r, Forall2_refl'.
  intros pg. split; [done|]. cbn. rewrite <- list_fmap_compose.
  now apply list_fmap_ext.
Qed.

Lemma collect_mark_same_registration fuel h o :
  Z.of_nat (nonroot_count h) + 2 < SizeT.modulus ->
  (nonroot_count h < fuel)%nat ->
  collect_mark fuel h = Ok o -> same_registration h (post o).
Proof.
  intros Hb Hfuel Hc.
  destruct (collect_mark_spec fuel h Hb Hfuel) as [_ Hspec].
  destruct (Hspec o Hc) as (_ & _ & Hrel & _).
  eapply same_registration_trans; [apply same_registration_reset|].
  eapply heap_rel_same_registration; eauto.
Qed.

Lemma null_unreached_same_registration h o :
  null_unreached h = Ok o -> same_registration h (post o).
Proof.
  intros Hn. apply null_unreached_Ok in Hn as [-> _].
  repeat split. apply Forall2_refl'. intros pg. split; done.
Qed.

Lemma set_same_registration tp x h o :
  set tp x h = Ok o -> same_registration h (post o).
Proof.
  unfold set. intros Hs. inv_M.
  repeat split. apply Forall2_refl'. intros pg. split; done.
Qed.

(** ** Where tracked pointers point *)

(** [x] lies in a location of some page that is recorded as allocated *)
Definition points_to_allocated (h : deferred_heap) (x : addr) : Prop :=
  exists pg, pg ∈ pages h /\
    is_allocated (found (page_contains_info (page pg) x)) = true.

(** every tracked pointer on record is null or points to an allocated
    location *)
Definition raws_valid (h : deferred_heap) : Prop :=
  forall tp, registered h tp ->
    get tp h = null \/ points_to_allocated h (get tp h).

Lemma enregister_registers tp h o :
  enregister tp h = Ok o ->
  registered (post o) tp /\
  Forall2 (fun pg pg' => page pg' = page pg) (pages h) (pages (post o)).
Proof.
  unfold enregister. intros He. inv_M.
  destruct (find_dhpage_of tp (pages h)) as [i|] eqn:Ef; inv_M; cbn.
  - apply find_dhpage_of_Some in Ef as (pgi & Hi & _). split.
    + right. exists (mk_nonroot tp). split; [|done].
      unfold records. apply list_elem_of_bind.
      exists (set_deferred_ptrs (fun l => l ++ [mk_nonroot tp]) pgi).
      split; [|apply list_elem_of_lookup; exists i; cbn [pages set_pages];
               now rewrite list_lookup_alter_eq, Hi].
      cbn. apply elem_of_app. right. now left.
    + apply Forall2_same_length_lookup_2; [now rewrite length_alter|].
      intros k pg pg' Hk Hk'. destruct (decide (k = i)) as [->|Hne].
      * rewrite list_lookup_alter_eq, Hk in Hk'. now injection Hk' as <-.
      * rewrite list_lookup_alter_ne in Hk' by done. congruence.
  - split; [left; apply elem_of_union; left; now apply elem_of_singleton|].
    apply Forall2_refl'. done.
Qed.

(** C8, what the code does. [pointer_to(t)] builds and registers a tracked
    pointer that holds the address of [t], whatever that address is: when
    [t] is not in an allocated location of a page (an object on the stack,
    say), the heap is left with a tracked pointer on record that is
    neither null nor inside an allocation. *)
Theorem pointer_to_any_object (tp t : addr) (h : deferred_heap) :
  t <> null -> ~ points_to_allocated h t -> is_destroying h = false ->
  exists h',
    pointer_to tp t h = Ok (Out tt h' []) /\
    registered h' tp /\ get tp h' = t /\
    ~ points_to_allocated h' t /\
    ~ raws_valid h'.
Proof.
  intros Ht Hout Hd. unfold pointer_to, deferred_ptr_ctor, set.
  erewrite bind_Ok_l by reflexivity.
  match goal with
  | |- context [enregister tp ?h0] =>
      destruct (enregister_run tp h0) as (h' & Er & Hm & _); [now right|];
        rewrite Er; pose proof (enregister_registers _ _ _ Er) as [Hreg Hpg]
  end.
  cbn in Hreg, Hpg.
  assert (Hget : get tp h' = t).
  { unfold get. rewrite Hm. cbn. apply lookup_total_insert_eq. }
  assert (Hout' : ~ points_to_allocated h' t).
  { intros (pg' & Hin & Ha). apply Hout.
    apply list_elem_of_lookup in Hin as [k Hk].
    destruct (Forall2_lookup_r _ _ _ _ _ Hpg Hk) as (pg & Hk0 & E).
    exists pg. split; [eapply list_elem_of_lookup_2; eauto|]. now rewrite <- E. }
  exists h'. repeat split; auto.
  intros Hv. destruct (Hv tp Hreg) as [Hn|Ha]; rewrite Hget in *; auto.
Qed.

(** A destructor that only destroys tracked pointers takes records away
    and writes nothing: what is severed stays severed. *)
Lemma deregister_registered tp h o :
  deregister tp h = Ok o ->
  memory (post o) = memory h /\
  forall x, registered (post o) x -> registered h x.
Proof.
  assert (Hroots : forall (f : list dhpage -> list dhpage) x,
            registered (set_pages f (set_roots (fun r => r ∖ {[tp]}) h)) x ->
            (forall r, r ∈ records (f (pages h)) -> r ∈ records (pages h)) ->
            registered h x).
  { intros f x [Hx|(r & Hin & Hp)] Hsub.
    - left. cbn in Hx. now apply elem_of_difference in Hx as [? _].
    - right. exists r. split; [|done]. now apply Hsub. }
  intros He. unfold deregister in He. inv_M.
  destruct (is_destroying h); inv_M; [split; [reflexivity|done]|].
  destruct (0 <? _); inv_M.
  - split; [reflexivity|]. intros x Hx.
    apply (Hroots (fun pgs => pgs) x); [|done]. now destruct h.
  - cbn [pages set_roots] in *.
    destruct (deregister_scan tp (pages h)) as [pgs'|] eqn:Es; inv_M.
    + split; [reflexivity|]. intros x Hx.
      apply (Hroots (fun _ => pgs') x); [exact Hx|].
      intros r Hin. apply deregister_scan_Some in Es. unfold records in *.
      apply list_elem_of_bind in Hin as (pg' & Hr' & Hpg').
      apply list_elem_of_lookup in Hpg' as [i Hi].
      destruct (Forall2_lookup_r _ _ _ _ _ Es Hi)
        as (pg & Hi0 & _ & _ & Hsub & _).
      apply list_elem_of_bind. exists pg. split; [now apply Hsub|].
      eapply list_elem_of_lookup_2; eauto.
    + split; [reflexivity|]. intros x Hx.
      apply (Hroots (fun pgs => pgs) x); [|done]. now destruct h.
Qed.

Lemma deregister_severed h3 tp h o :
  deregister tp h = Ok o -> severed h3 h -> severed h3 (post o).
Proof.
  intros He Hs. apply deregister_registered in He as [Hm Hreg].
  intros x i s Hx Ht Hc. unfold get in *. rewrite Hm in *.
  apply (Hs x i s); auto.
Qed.

(** ** Marking in closed form *)

(** the page that [mark] has found, once marked: the bit of the start
    location [s] is on, and the records of that allocation that were at
    level 0 are at level [lvl] *)
Definition mark_page_at (s : nat) (lvl : Z) (pg : dhpage) : dhpage :=
  {| page := page pg;
     live_starts := <[s := true]> (live_starts pg);
     deferred_ptrs :=
       (fun r => if bool_decide (home pg r = s) && (level r =? 0)
                 then set_level lvl r else r) <$> deferred_ptrs pg |}.

(** the pages after [mark(x, lvl)], when no assertion stops it *)
Definition mark_effect (x : addr) (lvl : Z) (pgs : list dhpage)
  : list dhpage :=
  match target x pgs with
  | Some (i, s) => alter (mark_page_at s lvl) i pgs
  | None => pgs
  end.

(** the assertions of the inner loop of [mark] hold *)
Definition ptrs_checks (pg : dhpage) : bool :=
  forallb (fun r => is_allocated (found (page_contains_info (page pg) (nr_p r))))
          (deferred_ptrs pg).

(** the assertions of [mark(x, _)] hold: no page up to the one found has
    [x] in range and unallocated, and the records of the page found lie in
    allocated locations *)
Fixpoint mark_checks (x : addr) (pgs : list dhpage) : bool :=
  match pgs with
  | [] => true
  | pg :: rest =>
      let where_ := page_contains_info (page pg) x in
      negb (bool_decide (found where_ = in_range_unallocated))
      && (if bool_decide (found where_ = not_in_range)
          then mark_checks x rest
          else ptrs_checks pg)
  end.

Lemma check_eq c msg : check c msg = if ndebug || c then Ok tt else Fatal msg.
Proof. reflexivity. Qed.

Lemma mark_ptrs_eq g start lvl dps :
  ndebug || forallb (fun r => is_allocated
                                (found (page_contains_info g (nr_p r)))) dps
    = true ->
  mark_ptrs g start lvl dps
    = Ok ((fun r => if bool_decide
                         (start_location (page_contains_info g (nr_p r))
                          = start)
                       && (level r =? 0)
                    then set_level lvl r else r) <$> dps).
Proof.
  intros Hc. induction dps as [|dp dps IH]; [reflexivity|].
  cbn [mark_ptrs forallb] in *. rewrite check_eq.
  assert (H1 : ndebug || is_allocated
                           (found (page_contains_info g (nr_p dp))) = true).
  { destruct ndebug; [done|]. cbn in *. now apply andb_true_iff in Hc. }
  rewrite H1. cbn. rewrite IH; [reflexivity|].
  destruct ndebug; [done|]. cbn in *. now apply andb_true_iff in Hc.
Qed.

Lemma mark_ptrs_checks g start lvl dps dps' :
  mark_ptrs g start lvl dps = Ok dps' ->
  ndebug || forallb (fun r => is_allocated
                                (found (page_contains_info g (nr_p r)))) dps
    = true.
Proof.
  revert dps'. induction dps as [|dp dps IH]; intros dps' Hm.
  - now rewrite orb_true_r.
  - cbn [mark_ptrs forallb] in *.
    apply result_bind_Ok in Hm as ([] & Hc & Hm).
    apply result_bind_Ok in Hm as (rest' & Hr & _).
    apply check_Ok in Hc. specialize (IH _ Hr).
    destruct ndebug; [done|]. cbn in *. destruct Hc as [?| ->]; [done|]. done.
Qed.

Lemma mark_pages_eq x lvl pgs :
  ndebug || mark_checks x pgs = true ->
  mark_pages x lvl pgs = Ok (mark_effect x lvl pgs).
Proof.
  unfold mark_effect. intros Hc.
  induction pgs as [|pg pgs IH]; [reflexivity|].
  cbn [mark_pages mark_checks target] in *. rewrite check_eq.
  assert (H1 : ndebug || negb (bool_decide
                 (found (page_contains_info (page pg) x)
                  = in_range_unallocated)) = true).
  { destruct ndebug; [done|]. cbn in *. now apply andb_true_iff in Hc. }
  rewrite H1. cbn.
  destruct (bool_decide (found _ = not_in_range)).
  - rewrite IH.
    + cbn. destruct (target x pgs) as [[i s]|]; reflexivity.
    + destruct ndebug; [done|]. cbn in *. now apply andb_true_iff in Hc.
  - rewrite mark_ptrs_eq; [reflexivity|].
    destruct ndebug; [done|]. cbn in *. now apply andb_true_iff in Hc.
Qed.

Lemma mark_pages_checks x lvl pgs pgs' :
  mark_pages x lvl pgs = Ok pgs' -> ndebug || mark_checks x pgs = true.
Proof.
  revert pgs'. induction pgs as [|pg pgs IH]; intros pgs' Hm.
  - now rewrite orb_true_r.
  - cbn [mark_pages mark_checks] in *.
    apply result_bind_Ok in Hm as ([] & Hc & Hm). apply check_Ok in Hc.
    destruct (bool_decide (found _ = not_in_range)).
    + apply result_bind_Ok in Hm as (rest' & Hr & _). specialize (IH _ Hr).
      destruct ndebug; [done|]. cbn in *. destruct Hc as [?| ->]; done.
    + apply result_bind_Ok in Hm as (dps & Hd & _).
      apply mark_ptrs_checks in Hd.
      destruct ndebug; [done|]. cbn in *. destruct Hc as [?| ->]; done.
Qed.

(** [mark(x, lvl)] returns exactly when its assertions hold or are
    compiled out, and then the pages are [mark_effect]. *)
Lemma mark_run x lvl h :
  x <> null -> ndebug || mark_checks x (pages h) = true ->
  mark x lvl h
    = Ok (Out tt (set_pages (fun _ => mark_effect x lvl (pages h)) h) []).
Proof.
  intros Hx Hc. unfold mark. apply Z.eqb_neq in Hx. rewrite Hx.
  now rewrite mark_pages_eq.
Qed.

Lemma mark_inv x lvl h o :
  x <> null -> mark x lvl h = Ok o ->
  ndebug || mark_checks x (pages h) = true /\
  o = Out tt (set_pages (fun _ => mark_effect x lvl (pages h)) h) [].
Proof.
  intros Hx Hm. unfold mark in Hm. apply Z.eqb_neq in Hx. rewrite Hx in Hm.
  destruct (mark_pages x lvl (pages h)) as [pgs'| |] eqn:E; try discriminate.
  pose proof (mark_pages_checks _ _ _ _ E) as Hc. split; [done|].
  rewrite mark_pages_eq in E by done. injection E as <-. now injection Hm as <-.
Qed.

(** pages that differ in levels and bits only *)
Definition same_shape (pgs pgs' : list dhpage) : Prop :=
  Forall2 (fun pg pg' =>
             page pg' = page pg /\
             length (live_starts pg') = length (live_starts pg) /\
             nr_p <$> deferred_ptrs pg' = nr_p <$> deferred_ptrs pg)
          pgs pgs'.

Lemma same_shape_refl pgs : same_shape pgs pgs.
Proof. apply Forall2_refl'. done. Qed.

Lemma same_shape_trans pgs1 pgs2 pgs3 :
  same_shape pgs1 pgs2 -> same_shape pgs2 pgs3 -> same_shape pgs1 pgs3.
Proof.
  apply Forall2_trans'. intros a b c (? & ? & ?) (? & ? & ?).
  repeat split; congruence.
Qed.

Lemma heap_rel_shape P h h' :
  heap_rel P h h' -> same_shape (pages h) (pages h').
Proof.
  intros [_ Hf]. eapply Forall2_impl; [exact Hf|].
  intros pg pg' (Hg & Hn & _ & Hr). repeat split; auto.
  induction Hr as [|r r' l l' [Hp _] _ IH]; [done|]. cbn. now f_equal.
Qed.

Lemma target_shape pgs pgs' x :
  same_shape pgs pgs' -> target x pgs' = target x pgs.
Proof.
  induction 1 as [|pg pg' pgs pgs' (Hg & _) _ IH]; [reflexivity|].
  cbn [target]. now rewrite Hg, IH.
Qed.

Lemma ptrs_checks_shape pg pg' :
  page pg' = page pg ->
  nr_p <$> deferred_ptrs pg' = nr_p <$> deferred_ptrs pg ->
  ptrs_checks pg' = ptrs_checks pg.
Proof.
  intros Hg Hp. unfold ptrs_checks. rewrite Hg.
  generalize dependent (deferred_ptrs pg').
  induction (deferred_ptrs pg) as [|r l IH]; intros [|r' l'] Hp;
    try discriminate; [reflexivity|].
  injection Hp as Hr Hl. cbn. now rewrite Hr, (IH l').
Qed.

Lemma mark_checks_shape pgs pgs' x :
  same_shape pgs pgs' -> mark_checks x pgs' = mark_checks x pgs.
Proof.
  induction 1 as [|pg pg' pgs pgs' (Hg & _ & Hp) _ IH]; [reflexivity|].
  cbn [mark_checks]. rewrite Hg, IH.
  now rewrite (ptrs_checks_shape pg pg').
Qed.

(** the pointers that a pass at level [lvl] marks, in order: those held by
    the records at level [lvl - 1], at the positions [ixs] *)
Definition pass_marks (lvl : Z) (h : deferred_heap) (ixs : list (nat * nat))
  : list addr :=
  omap (fun ij => r ← lookup_record ij.1 ij.2 (pages h);
                  if level r =? SizeT.decr lvl then Some (get (nr_p r) h)
                  else None) ixs.

(** the pages after marking the pointers [xs] at level [lvl], one after
    the other *)
Definition apply_marks (lvl : Z) (xs : list addr) (pgs : list dhpage)
  : list dhpage :=
  foldl (fun pgs x => if x =? null then pgs else mark_effect x lvl pgs)
        pgs xs.

(** the assertions of all these calls of [mark] hold *)
Definition marks_checks (xs : list addr) (pgs : list dhpage) : bool :=
  forallb (fun x => (x =? null) || mark_checks x pgs) xs.

Lemma marks_checks_shape pgs pgs' xs :
  same_shape pgs pgs' -> marks_checks xs pgs' = marks_checks xs pgs.
Proof.
  intros Hsh. induction xs as [|x xs IH]; [reflexivity|].
  unfold marks_checks in *. cbn [forallb].
  now rewrite IH, (mark_checks_shape _ _ x Hsh).
Qed.

Lemma pass_marks_cons lvl h i j ixs :
  pass_marks lvl h ((i, j) :: ixs)
  = match lookup_record i j (pages h) with
    | Some r => if level r =? SizeT.decr lvl
                then get (nr_p r) h :: pass_marks lvl h ixs
                else pass_marks lvl h ixs
    | None => pass_marks lvl h ixs
    end.
Proof.
  unfold pass_marks. cbn. destruct (lookup_record i j (pages h)) as [r|];
    [|reflexivity].
  cbn. now destruct (level r =? SizeT.decr lvl).
Qed.

Lemma pass_marks_rel lvl h h1 ixs :
  SizeT.decr lvl <> 0 -> SizeT.decr lvl <> lvl ->
  heap_rel (eq lvl) h h1 ->
  pass_marks lvl h1 ixs = pass_marks lvl h ixs.
Proof.
  intros Hd0 Hd Hrel.
  induction ixs as [|[i j] ixs IH]; [reflexivity|].
  rewrite !pass_marks_cons, IH. clear IH.
  destruct (lookup_record i j (pages h)) as [r|] eqn:E.
  - destruct (heap_rel_lookup_l _ _ _ _ _ _ Hrel E) as (r1 & E1 & Hr).
    rewrite E1.
    pose proof (mark_rel_level_stable _ _ _ _ Hd0 Hd Hr) as Hst.
    destruct Hr as [Hp _]. rewrite Hp, (heap_rel_get _ _ _ _ Hrel).
    destruct (Z.eqb_spec (level r) (SizeT.decr lvl)) as [El|Nl],
             (Z.eqb_spec (level r1) (SizeT.decr lvl)) as [El1|Nl1];
      try reflexivity; exfalso; tauto.
  - destruct (lookup_record i j (pages h1)) as [r1|] eqn:E1; [|reflexivity].
    destruct (heap_rel_lookup _ _ _ _ _ _ Hrel E1) as (r & E0 & _).
    congruence.
Qed.

Lemma mark_effect_shape x lvl pgs : same_shape pgs (mark_effect x lvl pgs).
Proof.
  unfold mark_effect. destruct (target x pgs) as [[i s]|];
    [|apply same_shape_refl].
  apply Forall2_same_length_lookup_2; [now rewrite length_alter|].
  intros k pg pg' Hk Hk'. destruct (decide (k = i)) as [->|Hne].
  - rewrite list_lookup_alter_eq, Hk in Hk'. injection Hk' as <-. cbn.
    repeat split; [apply length_insert|].
    rewrite <- list_fmap_compose. apply list_fmap_ext. intros ? r _. cbn.
    now destruct (_ && _).
  - rewrite list_lookup_alter_ne in Hk' by done.
    rewrite Hk in Hk'. now injection Hk' as <-.
Qed.

(** One pass is the marking of [pass_marks], read off the heap when the
    pass begins. *)
Lemma mark_pass_from_run lvl ixs : forall done h,
  SizeT.decr lvl <> 0 -> SizeT.decr lvl <> lvl ->
  ndebug || marks_checks (pass_marks lvl h ixs) (pages h) = true ->
  mark_pass_from lvl ixs done h
    = Ok (Out (done && bool_decide (pass_marks lvl h ixs = []))
              (set_pages (fun _ => apply_marks lvl (pass_marks lvl h ixs)
                                     (pages h)) h) []).
Proof.
  induction ixs as [|[i j] ixs IH]; intros done h Hd0 Hd Hc.
  - cbn. rewrite andb_true_r. now destruct h.
  - cbn [mark_pass_from]. erewrite bind_Ok_l by reflexivity.
    rewrite pass_marks_cons in *.
    destruct (lookup_record i j (pages h)) as [r|] eqn:E; cbn [mbind];
      [|now apply IH].
    destruct (level r =? SizeT.decr lvl) eqn:El; [|now apply IH].
    erewrite bind_Ok_l by reflexivity.
    set (x := get (nr_p r) h) in *.
    assert (Hc1 : ndebug || marks_checks (pass_marks lvl h ixs) (pages h)
                  = true).
    { destruct ndebug; [done|]. cbn in *. now apply andb_true_iff in Hc. }
    rewrite andb_false_r.
    destruct (Z.eqb_spec x null) as [Ex|Nx].
    + unfold mark. apply Z.eqb_eq in Ex. rewrite Ex.
      erewrite bind_Ok_l by reflexivity. rewrite IH by done.
      rewrite andb_false_l. unfold apply_marks. cbn [foldl].
      now rewrite Ex.
    + set (h1 := set_pages (fun _ => mark_effect x lvl (pages h)) h).
      assert (Hm : mark x lvl h = Ok (Out tt h1 [])).
      { apply mark_run; [done|]. destruct ndebug; [done|]. cbn in *.
        apply andb_true_iff in Hc as [Hc _].
        apply orb_true_iff in Hc as [Hc|Hc]; [|done].
        apply Z.eqb_eq in Hc. done. }
      erewrite bind_Ok_l by exact Hm.
      assert (Hrel : heap_rel (eq lvl) h h1)
        by (now apply mark_Ok in Hm as [_ ?]).
      assert (Hpm : pass_marks lvl h1 ixs = pass_marks lvl h ixs)
        by (now apply pass_marks_rel).
      assert (Hsh : same_shape (pages h) (pages h1))
        by (eapply heap_rel_shape; eauto).
      rewrite IH; [|done|done|].
      * rewrite Hpm, andb_false_l. subst h1. unfold apply_marks.
        cbn [foldl]. apply Z.eqb_neq in Nx. rewrite Nx.
        now destruct h.
      * now rewrite Hpm, (marks_checks_shape _ _ _ Hsh).
Qed.


Lemma mark_checks_of_Ok x lvl h o :
  mark x lvl h = Ok o -> ndebug || ((x =? null) || mark_checks x (pages h)) = true.
Proof.
  intros Hm. destruct (Z.eqb_spec x null) as [->|Nx];
    [now rewrite orb_true_r|].
  now apply mark_inv in Hm as [? _].
Qed.

Lemma marks_checks_cons x xs pgs :
  ndebug || ((x =? null) || mark_checks x pgs) = true ->
  ndebug || marks_checks xs pgs = true ->
  ndebug || marks_checks (x :: xs) pgs = true.
Proof.
  destruct ndebug; [done|]. cbn [orb]. intros Hx Hxs.
  unfold marks_checks in *. cbn [forallb]. now rewrite Hx, Hxs.
Qed.

(** A pass that returns has passed the assertions of its calls of [mark]. *)
Lemma mark_pass_from_checks lvl ixs : forall done h o,
  SizeT.decr lvl <> 0 -> SizeT.decr lvl <> lvl ->
  mark_pass_from lvl ixs done h = Ok o ->
  ndebug || marks_checks (pass_marks lvl h ixs) (pages h) = true.
Proof.
  induction ixs as [|[i j] ixs IH]; intros done h o Hd0 Hd Hm.
  - now rewrite orb_true_r.
  - cbn [mark_pass_from] in Hm. erewrite bind_Ok_l in Hm by reflexivity.
    rewrite pass_marks_cons.
    destruct (lookup_record i j (pages h)) as [r|] eqn:E; [|eauto].
    destruct (level r =? SizeT.decr lvl) eqn:El; [|eauto].
    erewrite bind_Ok_l in Hm by reflexivity.
    destruct (mark (get (nr_p r) h) lvl h) as [[[] h1 l1]| |] eqn:Em;
      try (exfalso; revert Hm; unfold mbind, M_bind; rewrite Em;
           discriminate).
    pose proof (mark_checks_of_Ok _ _ _ _ Em) as Hc.
    apply mark_Ok in Em as Hrel. cbn in Hrel. destruct Hrel as [-> Hrel].
    erewrite bind_Ok_l in Hm by exact Em.
    apply IH in Hm; [|done|done].
    rewrite (pass_marks_rel lvl h h1) in Hm by done.
    rewrite (marks_checks_shape (pages h) (pages h1)) in Hm
      by (eapply heap_rel_shape; eauto).
    now apply marks_checks_cons.
Qed.

(** the pointers held by the roots, in the order of the loop over
    [roots] *)
Definition root_marks (h : deferred_heap) (tps : list addr) : list addr :=
  (fun tp => get tp h) <$> tps.

Lemma root_marks_rel P h h1 tps :
  heap_rel P h h1 -> root_marks h1 tps = root_marks h tps.
Proof.
  intros Hrel. apply list_fmap_ext. intros _ tp _.
  eapply heap_rel_get; eauto.
Qed.

Lemma mark_list_run lvl tps : forall h,
  ndebug || marks_checks (root_marks h tps) (pages h) = true ->
  for_each tps (fun tp => x ← gets (get tp); mark x lvl) h
    = Ok (Out tt (set_pages (fun _ => apply_marks lvl (root_marks h tps)
                                        (pages h)) h) []).
Proof.
  induction tps as [|tp tps IH]; intros h Hc.
  - cbn. now destruct h.
  - cbn [for_each]. set (x := get tp h).
    assert (Hc1 : ndebug || marks_checks (root_marks h tps) (pages h) = true).
    { destruct ndebug; [done|]. cbn in *. now apply andb_true_iff in Hc. }
    assert (Hcx : ndebug || ((x =? null) || mark_checks x (pages h)) = true).
    { destruct ndebug; [done|]. cbn in *. now apply andb_true_iff in Hc. }
    destruct (Z.eqb_spec x null) as [Ex|Nx].
    + assert (Hm : (x ← gets (get tp); mark x lvl) h = Ok (Out tt h [])).
      { erewrite bind_Ok_l by reflexivity. fold x. unfold mark.
        apply Z.eqb_eq in Ex. now rewrite Ex. }
      erewrite bind_Ok_l by exact Hm. rewrite IH by done.
      unfold apply_marks. cbn [root_marks fmap list_fmap foldl]. fold x.
      apply Z.eqb_eq in Ex. now rewrite Ex.
    + set (h1 := set_pages (fun _ => mark_effect x lvl (pages h)) h).
      assert (Hm1 : mark x lvl h = Ok (Out tt h1 [])).
      { apply mark_run; [done|]. exact Hcx. }
      assert (Hm : (x ← gets (get tp); mark x lvl) h = Ok (Out tt h1 []))
        by (erewrite bind_Ok_l by reflexivity; exact Hm1).
      assert (Hrel : heap_rel (eq lvl) h h1)
        by (now apply mark_Ok in Hm1 as [_ ?]).
      erewrite bind_Ok_l by exact Hm.
      rewrite IH.
      * rewrite (root_marks_rel _ h h1) by done. subst h1.
        unfold apply_marks. cbn [root_marks fmap list_fmap foldl]. fold x.
        apply Z.eqb_neq in Nx. rewrite Nx. now destruct h.
      * rewrite (root_marks_rel _ h h1) by done.
        rewrite (marks_checks_shape (pages h) (pages h1)); [done|].
        eapply heap_rel_shape; eauto.
Qed.

Lemma mark_list_checks lvl tps : forall h o,
  for_each tps (fun tp => x ← gets (get tp); mark x lvl) h = Ok o ->
  ndebug || marks_checks (root_marks h tps) (pages h) = true.
Proof.
  induction tps as [|tp tps IH]; intros h o Hm.
  - now rewrite orb_true_r.
  - cbn [for_each] in Hm.
    destruct (mark (get tp h) lvl h) as [[[] h1 l1]| |] eqn:Em;
      try (exfalso; revert Hm; unfold mbind, M_bind, gets; cbn; rewrite Em;
           discriminate).
    pose proof (mark_checks_of_Ok _ _ _ _ Em) as Hc.
    apply mark_Ok in Em as Hrel. cbn in Hrel. destruct Hrel as [-> Hrel].
    assert (Hb : (x ← gets (get tp); mark x lvl) h = Ok (Out tt h1 []))
      by (erewrite bind_Ok_l by reflexivity; exact Em).
    erewrite bind_Ok_l in Hm by exact Hb.
    apply IH in Hm.
    rewrite (root_marks_rel _ h h1) in Hm by done.
    rewrite (marks_checks_shape (pages h) (pages h1)) in Hm
      by (eapply heap_rel_shape; eauto).
    now apply marks_checks_cons.
Qed.


(** ** What a series of marks does to one page *)

(** the start locations in page [i] that the marks [xs] hit, in order *)
Definition hits_of (xs : list addr) (pgs : list dhpage) (i : nat)
  : list nat :=
  omap (fun x => if x =? null then None
                 else match target x pgs with
                      | Some (i', s) => if decide (i' = i) then Some s
                                        else None
                      | None => None
                      end) xs.

Definition page_after (lvl : Z) (ss : list nat) (pg : dhpage) : dhpage :=
  foldl (fun pg s => mark_page_at s lvl pg) pg ss.

Lemma hits_of_cons x xs pgs i :
  hits_of (x :: xs) pgs i
  = if x =? null then hits_of xs pgs i
    else match target x pgs with
         | Some (i', s) => if decide (i' = i) then s :: hits_of xs pgs i
                           else hits_of xs pgs i
         | None => hits_of xs pgs i
         end.
Proof.
  unfold hits_of. cbn. destruct (x =? null); [reflexivity|].
  destruct (target x pgs) as [[i' s]|]; [|reflexivity].
  now destruct (decide (i' = i)).
Qed.

Lemma hits_of_shape xs pgs pgs' i :
  same_shape pgs pgs' -> hits_of xs pgs' i = hits_of xs pgs i.
Proof.
  intros Hsh. induction xs as [|x xs IH]; [reflexivity|].
  now rewrite !hits_of_cons, IH, (target_shape _ _ x Hsh).
Qed.

Lemma elem_of_hits_of xs pgs i s :
  s ∈ hits_of xs pgs i <->
  exists x, x ∈ xs /\ x <> null /\ target x pgs = Some (i, s).
Proof.
  unfold hits_of. rewrite list_elem_of_omap. split.
  - intros (x & Hx & Hs). exists x. split; [done|].
    destruct (Z.eqb_spec x null); [done|].
    destruct (target x pgs) as [[i' s']|]; [|done].
    destruct (decide (i' = i)) as [->|]; [|done]. now injection Hs as ->.
  - intros (x & Hx & Nx & Ht). exists x. split; [done|].
    apply Z.eqb_neq in Nx. rewrite Nx, Ht. now rewrite decide_True.
Qed.

Lemma mark_effect_lookup x lvl pgs i pg :
  pgs !! i = Some pg ->
  mark_effect x lvl pgs !! i
  = Some (match target x pgs with
          | Some (i', s) => if decide (i' = i) then mark_page_at s lvl pg
                            else pg
          | None => pg
          end).
Proof.
  intros Hi. unfold mark_effect.
  destruct (target x pgs) as [[i' s]|]; [|done].
  destruct (decide (i' = i)) as [->|Hne].
  - now rewrite list_lookup_alter_eq, Hi.
  - now rewrite list_lookup_alter_ne.
Qed.

Lemma apply_marks_lookup lvl xs : forall pgs i pg,
  pgs !! i = Some pg ->
  apply_marks lvl xs pgs !! i = Some (page_after lvl (hits_of xs pgs i) pg).
Proof.
  induction xs as [|x xs IH]; intros pgs i pg Hi; [done|].
  rewrite hits_of_cons.
  change (apply_marks lvl (x :: xs) pgs)
    with (apply_marks lvl xs
            (if x =? null then pgs else mark_effect x lvl pgs)).
  destruct (x =? null); [now apply IH|].
  pose proof (mark_effect_lookup x lvl pgs i pg Hi) as Hl.
  pose proof (mark_effect_shape x lvl pgs) as Hsh.
  rewrite (IH _ _ _ Hl), (hits_of_shape _ _ _ _ Hsh).
  destruct (target x pgs) as [[i' s]|]; [|done].
  now destruct (decide (i' = i)).
Qed.

Lemma apply_marks_length lvl xs : forall pgs,
  length (apply_marks lvl xs pgs) = length pgs.
Proof.
  induction xs as [|x xs IH]; intros pgs; [done|].
  unfold apply_marks in *. cbn [foldl]. destruct (x =? null); [apply IH|].
  rewrite IH. unfold mark_effect.
  destruct (target x pgs) as [[i s]|]; [|done]. apply length_alter.
Qed.

Lemma page_after_page lvl ss : forall pg,
  page (page_after lvl ss pg) = page pg.
Proof.
  induction ss as [|s ss IH]; intros pg; [done|].
  unfold page_after in *. cbn [foldl]. now rewrite IH.
Qed.

Lemma page_after_bits lvl ss : forall pg k,
  live_starts (page_after lvl ss pg) !! k
  = if decide (k ∈ ss)
    then (if decide (k < length (live_starts pg))%nat then Some true
          else None)
    else live_starts pg !! k.
Proof.
  induction ss as [|s ss IH]; intros pg k.
  - cbn. rewrite decide_False; [done|]. apply not_elem_of_nil.
  - unfold page_after in *. cbn [foldl]. rewrite IH.
    cbn [mark_page_at live_starts]. rewrite length_insert.
    destruct (decide (k ∈ ss)) as [Hin|Hnin],
             (decide (k ∈ s :: ss)) as [Hin'|Hnin']; [done| | |].
    + exfalso. apply Hnin'. now apply list_elem_of_further.
    + apply elem_of_cons in Hin' as [->|?]; [|done].
      destruct (decide (s < length (live_starts pg))%nat) as [Hlt|Hge].
      * now apply list_lookup_insert_eq.
      * rewrite list_insert_ge by lia. apply lookup_ge_None. lia.
    + apply list_lookup_insert_ne. intros ->. apply Hnin'.
      apply list_elem_of_here.
Qed.

Lemma page_after_ptrs lvl ss : forall pg,
  lvl <> 0 ->
  deferred_ptrs (page_after lvl ss pg)
  = (fun r => if (level r =? 0) && bool_decide (home pg r ∈ ss)
              then set_level lvl r else r) <$> deferred_ptrs pg.
Proof.
  induction ss as [|s ss IH]; intros pg Hl.
  - cbn. rewrite <- (list_fmap_id (deferred_ptrs pg)) at 1.
    apply list_fmap_ext. intros _ r _. cbn.
    rewrite bool_decide_eq_false_2 by apply not_elem_of_nil.
    now rewrite andb_false_r.
  - unfold page_after in *. cbn [foldl]. rewrite IH by done.
    cbn [mark_page_at deferred_ptrs]. rewrite <- list_fmap_compose.
    apply list_fmap_ext. intros _ r _. cbn.
    unfold home. cbn [page mark_page_at]. fold (home pg r).
    destruct (decide (home pg r = s)) as [Hs|Hs].
    + rewrite (bool_decide_eq_true_2 (home pg r = s)) by done.
      rewrite (bool_decide_eq_true_2 (home pg r ∈ s :: ss))
        by (rewrite Hs; now left).
      destruct (Z.eqb_spec (level r) 0) as [E0|N0]; cbn.
      * apply Z.eqb_neq in Hl. now rewrite Hl.
      * apply Z.eqb_neq in N0. now rewrite N0.
    + rewrite (bool_decide_eq_false_2 (home pg r = s)) by done. cbn.
      destruct (level r =? 0); [|done]. cbn.
      destruct (decide (home pg r ∈ ss)) as [Hin|Hnin].
      * rewrite !bool_decide_eq_true_2; [done| |done]. now right.
      * rewrite !bool_decide_eq_false_2; [done| |done].
        intros [?|?]%elem_of_cons; done.
Qed.


(** ** Two heaps marked side by side *)

(** Two versions of a page agree on the marks: the same bits, and the
    same level for records of the same allocation. *)
Definition sim_page (pgA pgB : dhpage) : Prop :=
  live_starts pgB = live_starts pgA /\
  forall rA rB, rA ∈ deferred_ptrs pgA -> rB ∈ deferred_ptrs pgB ->
    home pgA rA = home pgB rB -> level rA = level rB.

Lemma home_set_level pg pg' lvl r :
  page pg' = page pg -> home pg' (set_level lvl r) = home pg r.
Proof. unfold home. now intros ->. Qed.

Lemma elem_of_page_after lvl ss pg r' :
  lvl <> 0 ->
  r' ∈ deferred_ptrs (page_after lvl ss pg) ->
  exists r, r ∈ deferred_ptrs pg /\
    home (page_after lvl ss pg) r' = home pg r /\
    level r' = if (level r =? 0) && bool_decide (home pg r ∈ ss)
               then lvl else level r.
Proof.
  intros Hl. rewrite page_after_ptrs by done.
  intros (r & -> & Hr)%list_elem_of_fmap. exists r. split; [done|].
  unfold home. rewrite page_after_page. fold (home pg r).
  now destruct (_ && _).
Qed.

Lemma sim_page_after lvl ssA ssB pgA pgB :
  lvl <> 0 -> sim_page pgA pgB -> (forall s, s ∈ ssA <-> s ∈ ssB) ->
  sim_page (page_after lvl ssA pgA) (page_after lvl ssB pgB).
Proof.
  intros Hl [Hbits Hlev] Hss. split.
  - apply list_eq. intros k. rewrite !page_after_bits, Hbits.
    destruct (decide (k ∈ ssA)) as [HA|HA], (decide (k ∈ ssB)) as [HB|HB];
      try done; exfalso; apply Hss in HA || apply Hss in HB; done.
  - intros rA' rB' HA HB Hh.
    apply elem_of_page_after in HA as (rA & HA & HhA & ->); [|done].
    apply elem_of_page_after in HB as (rB & HB & HhB & ->); [|done].
    rewrite HhA, HhB in Hh. rewrite (Hlev rA rB HA HB Hh), Hh.
    destruct (level rB =? 0); [|done]. cbn.
    destruct (decide (home pgB rB ∈ ssA)) as [Hin|Hnin].
    + rewrite !bool_decide_eq_true_2; [done| |done]. now apply Hss.
    + rewrite !bool_decide_eq_false_2; [done| |done]. now rewrite <- Hss.
Qed.

Lemma sim_apply_marks lvl xsA xsB pgsA pgsB :
  lvl <> 0 -> Forall2 sim_page pgsA pgsB ->
  (forall i s, s ∈ hits_of xsA pgsA i <-> s ∈ hits_of xsB pgsB i) ->
  Forall2 sim_page (apply_marks lvl xsA pgsA) (apply_marks lvl xsB pgsB).
Proof.
  intros Hl Hsim Hhits.
  apply Forall2_same_length_lookup_2.
  - rewrite !apply_marks_length. eapply Forall2_length; eauto.
  - intros i pgA' pgB' HA HB.
    destruct (pgsA !! i) as [pgA|] eqn:EA.
    2:{ apply lookup_ge_None in EA. apply lookup_lt_Some in HA.
        rewrite apply_marks_length in HA. lia. }
    destruct (pgsB !! i) as [pgB|] eqn:EB.
    2:{ apply lookup_ge_None in EB. apply lookup_lt_Some in HB.
        rewrite apply_marks_length in HB. lia. }
    rewrite (apply_marks_lookup _ _ _ _ _ EA) in HA.
    rewrite (apply_marks_lookup _ _ _ _ _ EB) in HB.
    injection HA as <-. injection HB as <-.
    apply sim_page_after; [done| |apply Hhits].
    eapply Forall2_lookup_lr; eauto.
Qed.

Lemma hits_agree xsA xsB pgsA pgsB :
  (forall x, x <> null -> (x ∈ xsA <-> x ∈ xsB)) ->
  (forall x, x ∈ xsB -> x <> null -> target x pgsB = target x pgsA) ->
  forall i s, s ∈ hits_of xsA pgsA i <-> s ∈ hits_of xsB pgsB i.
Proof.
  intros Hxs Ht i s. rewrite !elem_of_hits_of. split.
  - intros (x & Hx & Nx & Hx'). exists x. apply Hxs in Hx; [|done].
    repeat split; [done|done|]. now rewrite Ht.
  - intros (x & Hx & Nx & Hx'). exists x. rewrite Ht in Hx' by done.
    repeat split; [|done|done]. now apply Hxs.
Qed.


(** the record [r] is in the list of page [i] *)
Definition in_page (pgs : list dhpage) (i : nat) (r : nonroot) : Prop :=
  exists pg, pgs !! i = Some pg /\ r ∈ deferred_ptrs pg.

Lemma in_page_lookup pgs i r :
  in_page pgs i r <-> exists j, lookup_record i j pgs = Some r.
Proof.
  unfold in_page, lookup_record. split.
  - intros (pg & Hi & [j Hj]%list_elem_of_lookup). exists j.
    now rewrite Hi.
  - intros [j Hj]. destruct (pgs !! i) as [pg|]; [|discriminate].
    exists pg. split; [done|]. eapply list_elem_of_lookup_2; eauto.
Qed.

Lemma elem_of_pass_marks lvl h x :
  x ∈ pass_marks lvl h (record_indices (pages h)) <->
  exists i r, in_page (pages h) i r /\ level r = SizeT.decr lvl /\
              x = get (nr_p r) h.
Proof.
  unfold pass_marks. rewrite list_elem_of_omap. split.
  - intros ([i j] & _ & Hf). cbn in Hf.
    destruct (lookup_record i j (pages h)) as [r|] eqn:E; [|discriminate].
    cbn in Hf. destruct (Z.eqb_spec (level r) (SizeT.decr lvl)); [|discriminate].
    injection Hf as <-. exists i, r. split; [|done].
    apply in_page_lookup. eauto.
  - intros (i & r & [j Hj]%in_page_lookup & Hl & ->). exists (i, j).
    split; [eapply record_indices_complete; eauto|]. cbn. rewrite Hj. cbn.
    apply Z.eqb_eq in Hl. now rewrite Hl.
Qed.

Lemma pass_marks_nil lvl h :
  pass_marks lvl h (record_indices (pages h)) = [] <->
  forall i r, in_page (pages h) i r -> level r <> SizeT.decr lvl.
Proof.
  split.
  - intros Hn i r Hin Hl.
    assert (Hx : get (nr_p r) h ∈ pass_marks lvl h (record_indices (pages h)))
      by (apply elem_of_pass_marks; eauto).
    rewrite Hn in Hx. now apply not_elem_of_nil in Hx.
  - intros Hno.
    destruct (pass_marks lvl h (record_indices (pages h))) as [|x l] eqn:E;
      [done|exfalso].
    assert (Hx : x ∈ pass_marks lvl h (record_indices (pages h)))
      by (rewrite E; apply list_elem_of_here).
    apply elem_of_pass_marks in Hx as (i & r & Hin & Hl & _).
    eapply Hno; eauto.
Qed.

Lemma same_shape_sym pgs pgs' : same_shape pgs pgs' -> same_shape pgs' pgs.
Proof.
  intros Hs. apply Forall2_flip. eapply Forall2_impl; [exact Hs|].
  intros pg pg' (? & ? & ?). repeat split; congruence.
Qed.

Lemma same_shape_in_page pgs pgs' i r :
  same_shape pgs pgs' -> in_page pgs i r ->
  exists r', in_page pgs' i r' /\ nr_p r' = nr_p r.
Proof.
  intros Hs (pg & Hi & Hr).
  destruct (Forall2_lookup_l _ _ _ _ _ Hs Hi) as (pg' & Hi' & _ & _ & Hn).
  assert (Hin : nr_p r ∈ nr_p <$> deferred_ptrs pg')
    by (rewrite Hn; apply list_elem_of_fmap; eauto).
  apply list_elem_of_fmap in Hin as (r' & Hp & Hr').
  exists r'. split; [|done]. exists pg'. done.
Qed.

Lemma same_shape_page pgs pgs' i pg pg' :
  same_shape pgs pgs' -> pgs !! i = Some pg -> pgs' !! i = Some pg' ->
  page pg' = page pg.
Proof.
  intros Hs Hi Hi'.
  now destruct (Forall2_lookup_lr _ _ _ _ _ _ Hs Hi Hi') as (? & _).
Qed.

(** two heaps that differ in levels and bits only *)
Definition same_skel (X Y : deferred_heap) : Prop :=
  roots Y = roots X /\ memory Y = memory X /\ same_shape (pages X) (pages Y).

Lemma same_skel_refl X : same_skel X X.
Proof. repeat split. apply same_shape_refl. Qed.

Lemma same_skel_trans X Y Z :
  same_skel X Y -> same_skel Y Z -> same_skel X Z.
Proof.
  intros (? & ? & ?) (? & ? & ?). repeat split; try congruence.
  eapply same_shape_trans; eauto.
Qed.

Lemma same_skel_sym X Y : same_skel X Y -> same_skel Y X.
Proof.
  intros (? & ? & ?). repeat split; try congruence.
  now apply same_shape_sym.
Qed.

Lemma heap_rel_skel P h h' : heap_rel P h h' -> same_skel h h'.
Proof.
  intros Hrel. repeat split.
  - eapply heap_rel_roots; eauto.
  - eapply heap_rel_memory; eauto.
  - eapply heap_rel_shape; eauto.
Qed.

Lemma same_skel_get X Y tp : same_skel X Y -> get tp Y = get tp X.
Proof. intros (_ & Hm & _). unfold get. now rewrite Hm. Qed.

Lemma same_skel_set_pages X pgs' :
  same_shape (pages X) pgs' -> same_skel X (set_pages (fun _ => pgs') X).
Proof. intros Hs. repeat split. exact Hs. Qed.

Lemma apply_marks_shape lvl xs : forall pgs,
  same_shape pgs (apply_marks lvl xs pgs).
Proof.
  induction xs as [|x xs IH]; intros pgs; [apply same_shape_refl|].
  change (apply_marks lvl (x :: xs) pgs)
    with (apply_marks lvl xs
            (if x =? null then pgs else mark_effect x lvl pgs)).
  destruct (x =? null); [apply IH|].
  eapply same_shape_trans; [apply mark_effect_shape|apply IH].
Qed.

Lemma mark_pass_unfold lvl h :
  mark_pass lvl h = mark_pass_from lvl (record_indices (pages h)) true h.
Proof. unfold mark_pass. now erewrite bind_Ok_l by reflexivity. Qed.

(** One pass of the marking loop in closed form. *)
Lemma mark_pass_run lvl h :
  SizeT.decr lvl <> 0 -> SizeT.decr lvl <> lvl ->
  let xs := pass_marks lvl h (record_indices (pages h)) in
  ndebug || marks_checks xs (pages h) = true ->
  mark_pass lvl h
    = Ok (Out (bool_decide (xs = []))
              (set_pages (fun _ => apply_marks lvl xs (pages h)) h) []).
Proof.
  intros Hd0 Hd xs Hc. rewrite mark_pass_unfold.
  now rewrite mark_pass_from_run.
Qed.

Lemma mark_pass_closed lvl h o :
  SizeT.decr lvl <> 0 -> SizeT.decr lvl <> lvl ->
  mark_pass lvl h = Ok o ->
  let xs := pass_marks lvl h (record_indices (pages h)) in
  o = Out (bool_decide (xs = []))
          (set_pages (fun _ => apply_marks lvl xs (pages h)) h) [].
Proof.
  intros Hd0 Hd Hp xs. pose proof Hp as Hp'.
  rewrite mark_pass_unfold in Hp'.
  apply mark_pass_from_checks in Hp'; [|done|done].
  rewrite mark_pass_run in Hp by done. now injection Hp as <-.
Qed.


(** ** A heap after its sweep *)

(** the pointers that marking follows in [h]: those held by the roots
    and by the records *)
Definition live_values (h : deferred_heap) : list addr :=
  root_marks h (elements (roots h))
  ++ ((fun r => get (nr_p r) h) <$> records (pages h)).

(** [page_swept hA h1 pgA pg1]: [pg1] is the marked page [pgA] once it
    has been swept and nothing else has happened to it. The bits are
    those of [pgA]; the records are those of [pgA] that were reached,
    with the pointers they held; and no allocation is left without its
    bit. *)
Definition page_swept (hA h1 : deferred_heap) (pgA pg1 : dhpage) : Prop :=
  live_starts pg1 = live_starts pgA /\
  Forall (fun r1 => r1 ∈ deferred_ptrs pgA /\ level r1 <> 0 /\
                    get (nr_p r1) h1 = get (nr_p r1) hA /\
                    home pg1 r1 = home pgA r1)
         (deferred_ptrs pg1) /\
  Forall (fun rA => level rA <> 0 -> rA ∈ deferred_ptrs pg1)
         (deferred_ptrs pgA) /\
  Forall (fun s => is_start (page_location_info (page pg1) s) = true ->
                   live_bit pg1 s = true)
         (seq 0 (page_locations (page pg1))).

(** [swept hA h1]: [h1] is the marked heap [hA] after such a sweep. The
    roots and what they hold are as in [hA], every page is
    [page_swept], and a pointer that is still followed finds the
    allocation it found in [hA], under the assertions of [mark]. *)
Definition swept (hA h1 : deferred_heap) : Prop :=
  roots h1 = roots hA /\
  Forall (fun tp => get tp h1 = get tp hA) (elements (roots h1)) /\
  Forall (fun x => x <> null ->
                   target x (pages h1) = target x (pages hA) /\
                   ndebug || mark_checks x (pages h1) = true)
         (live_values h1) /\
  Forall2 (page_swept hA h1) (pages hA) (pages h1).

Section twice.
Variables hA h1 : deferred_heap.
Hypothesis Hsw : swept hA h1.

Lemma sw_in_page i r1 :
  in_page (pages h1) i r1 ->
  in_page (pages hA) i r1 /\ level r1 <> 0 /\
  get (nr_p r1) h1 = get (nr_p r1) hA.
Proof.
  destruct Hsw as (_ & _ & _ & Hp). intros (pg1 & Hi & Hr).
  destruct (Forall2_lookup_r _ _ _ _ _ Hp Hi) as (pgA & HiA & _ & Hf & _).
  rewrite Forall_forall in Hf. destruct (Hf _ Hr) as (? & ? & ? & _).
  split; [|done]. exists pgA. done.
Qed.

Lemma sw_home i pgA pg1 r1 :
  pages hA !! i = Some pgA -> pages h1 !! i = Some pg1 ->
  r1 ∈ deferred_ptrs pg1 -> home pg1 r1 = home pgA r1.
Proof.
  destruct Hsw as (_ & _ & _ & Hp). intros HiA Hi Hr.
  destruct (Forall2_lookup_lr _ _ _ _ _ _ Hp HiA Hi) as (_ & Hf & _).
  rewrite Forall_forall in Hf. now destruct (Hf _ Hr) as (_ & _ & _ & ?).
Qed.

Lemma sw_survivor i rA :
  in_page (pages hA) i rA -> level rA <> 0 -> in_page (pages h1) i rA.
Proof.
  destruct Hsw as (_ & _ & _ & Hp). intros (pgA & Hi & Hr) Hl.
  destruct (Forall2_lookup_l _ _ _ _ _ Hp Hi) as (pg1 & Hi1 & _ & _ & Hf & _).
  rewrite Forall_forall in Hf. exists pg1. split; [done|]. now apply Hf.
Qed.

Lemma sw_live x :
  x ∈ live_values h1 -> x <> null ->
  target x (pages h1) = target x (pages hA) /\
  ndebug || mark_checks x (pages h1) = true.
Proof.
  destruct Hsw as (_ & _ & Hl & _). rewrite Forall_forall in Hl.
  intros Hx Nx. now apply Hl.
Qed.

Lemma sw_record_live i r1 :
  in_page (pages h1) i r1 -> get (nr_p r1) h1 ∈ live_values h1.
Proof.
  intros [j Hj]%in_page_lookup. unfold live_values.
  apply elem_of_app. right.
  apply list_elem_of_fmap. exists r1. split; [done|].
  eapply lookup_record_records; eauto.
Qed.

Lemma sw_root_live tp :
  tp ∈ roots h1 -> get tp h1 ∈ live_values h1.
Proof.
  intros Ht. unfold live_values, root_marks. apply elem_of_app. left.
  apply list_elem_of_fmap. exists tp. split; [done|].
  now apply elem_of_elements.
Qed.

Lemma sw_length : length (pages h1) = length (pages hA).
Proof.
  destruct Hsw as (_ & _ & _ & Hp). symmetry. eapply Forall2_length; eauto.
Qed.

End twice.


Lemma marks_checks_intro xs pgs :
  (forall x, x ∈ xs -> x <> null -> ndebug || mark_checks x pgs = true) ->
  ndebug || marks_checks xs pgs = true.
Proof.
  induction xs as [|x xs IH]; intros Hall; [now rewrite orb_true_r|].
  apply marks_checks_cons.
  - destruct (Z.eqb_spec x null) as [->|Nx]; [now rewrite orb_true_r|].
    apply Hall; [apply list_elem_of_here|done].
  - apply IH. intros y Hy. apply Hall. now apply list_elem_of_further.
Qed.

(** The two heaps in the course of their marking: [XA] on its way to the
    marked heap [hA], [XB] a marking of the swept heap [h1]. *)
Section state.
Variables hA h1 XA XB : deferred_heap.
Hypothesis Hsw : swept hA h1.
Hypothesis HrelA : heap_rel (fun _ => True) XA hA.
Hypothesis HskB : same_skel XB h1.
Hypothesis Hsim : Forall2 sim_page (pages XA) (pages XB).

Lemma corr i rA rB :
  in_page (pages XA) i rA -> in_page (pages XB) i rB ->
  nr_p rA = nr_p rB -> level rA = level rB.
Proof.
  intros (pgA & HiA & HrA) (pgB & HiB & HrB) Hn.
  destruct (Forall2_lookup_lr _ _ _ _ _ _ Hsim HiA HiB) as [_ Hlev].
  apply Hlev; [done|done|].
  destruct HskB as (_ & _ & HshB).
  destruct (Forall2_lookup_l _ _ _ _ _ HshB HiB)
    as (pg1 & Hi1 & Hg1 & _ & Hn1).
  assert (Hin : nr_p rB ∈ nr_p <$> deferred_ptrs pg1)
    by (rewrite Hn1; apply list_elem_of_fmap; eauto).
  apply list_elem_of_fmap in Hin as (r1 & Hp1 & Hr1).
  pose proof (heap_rel_shape _ _ _ HrelA) as HshA.
  destruct (Forall2_lookup_l _ _ _ _ _ HshA HiA) as (pgF & HiF & HgF & _).
  pose proof (sw_home _ _ Hsw _ _ _ _ HiF Hi1 Hr1) as Hh.
  unfold home in *. rewrite <- HgF, Hn, Hp1, <- Hg1. now symmetry.
Qed.

Lemma corr_B i rB :
  in_page (pages XB) i rB ->
  exists rA, in_page (pages XA) i rA /\ level rA = level rB /\
    get (nr_p rA) XA = get (nr_p rB) XB /\
    get (nr_p rB) XB ∈ live_values h1.
Proof.
  intros HB. destruct HskB as (Hr & Hm & HshB).
  destruct (same_shape_in_page _ _ _ _ HshB HB) as (r1 & H1 & Hn1).
  destruct (sw_in_page _ _ Hsw _ _ H1) as (HF & _ & Hg).
  pose proof (heap_rel_shape _ _ _ HrelA) as HshA.
  destruct (same_shape_in_page _ _ _ _ (same_shape_sym _ _ HshA) HF)
    as (rA & HA & HnA).
  exists rA. split; [done|]. split; [|split].
  - apply corr with i; [done|done|congruence].
  - rewrite <- (heap_rel_get _ _ _ (nr_p rA) HrelA).
    rewrite <- (same_skel_get _ _ (nr_p rB) HskB). congruence.
  - rewrite <- (same_skel_get _ _ (nr_p rB) HskB), <- Hn1.
    eapply sw_record_live; eauto.
Qed.

Lemma corr_A i rA :
  in_page (pages XA) i rA -> level rA <> 0 ->
  exists rB, in_page (pages XB) i rB /\ level rB = level rA /\
    get (nr_p rB) XB = get (nr_p rA) XA.
Proof.
  intros HA Hl. pose proof HA as [j Hj]%in_page_lookup.
  destruct (heap_rel_lookup_l _ _ _ _ _ _ HrelA Hj) as (rF & HjF & Hn & Hlv).
  assert (HlF : level rF = level rA) by (destruct Hlv as [?|[? _]]; done).
  assert (HF : in_page (pages hA) i rF) by (apply in_page_lookup; eauto).
  assert (H1 : in_page (pages h1) i rF)
    by (eapply sw_survivor; eauto; congruence).
  destruct (sw_in_page _ _ Hsw _ _ H1) as (_ & _ & Hg).
  destruct HskB as (Hr & Hm & HshB).
  destruct (same_shape_in_page _ _ _ _ (same_shape_sym _ _ HshB) H1)
    as (rB & HB & HnB).
  exists rB. split; [done|]. split.
  - symmetry. apply corr with i; [done|done|congruence].
  - rewrite <- (heap_rel_get _ _ _ (nr_p rA) HrelA).
    rewrite <- (same_skel_get _ _ (nr_p rB) HskB). congruence.
Qed.

Lemma live_agree x :
  x ∈ live_values h1 -> x <> null ->
  target x (pages XB) = target x (pages XA) /\
  ndebug || mark_checks x (pages XB) = true.
Proof.
  intros Hx Nx. destruct (sw_live _ _ Hsw x Hx Nx) as [Ht Hc].
  destruct HskB as (_ & _ & HshB).
  pose proof (heap_rel_shape _ _ _ HrelA) as HshA.
  split.
  - rewrite (target_shape _ _ x HshB) in Ht.
    now rewrite (target_shape _ _ x HshA) in Ht.
  - now rewrite (mark_checks_shape _ _ x HshB) in Hc.
Qed.

Lemma sim_step lvl xsA xsB :
  lvl <> 0 -> (forall x, x ∈ xsA <-> x ∈ xsB) ->
  (forall x, x ∈ xsB -> x ∈ live_values h1) ->
  Forall2 sim_page (apply_marks lvl xsA (pages XA))
                   (apply_marks lvl xsB (pages XB)) /\
  ndebug || marks_checks xsB (pages XB) = true.
Proof.
  intros Hl Hxs Hlive. split.
  - apply sim_apply_marks; [done|done|]. apply hits_agree.
    + intros x _. apply Hxs.
    + intros x Hx Nx. now apply live_agree; [apply Hlive|].
  - apply marks_checks_intro. intros x Hx Nx.
    now apply live_agree; [apply Hlive|].
Qed.

Lemma pass_agree lvl :
  SizeT.decr lvl <> 0 ->
  let xsA := pass_marks lvl XA (record_indices (pages XA)) in
  let xsB := pass_marks lvl XB (record_indices (pages XB)) in
  (forall x, x ∈ xsA <-> x ∈ xsB) /\
  (forall x, x ∈ xsB -> x ∈ live_values h1).
Proof.
  intros Hd xsA xsB. subst xsA xsB. split.
  - intros x. rewrite !elem_of_pass_marks. split.
    + intros (i & rA & HA & Hl & ->).
      destruct (corr_A i rA HA) as (rB & HB & Hlv & Hg); [congruence|].
      exists i, rB. split; [done|]. split; congruence.
    + intros (i & rB & HB & Hl & ->).
      destruct (corr_B i rB HB) as (rA & HA & Hlv & Hg & _).
      exists i, rA. split; [done|]. split; congruence.
  - intros x (i & rB & HB & _ & ->)%elem_of_pass_marks.
    now destruct (corr_B i rB HB) as (_ & _ & _ & _ & ?).
Qed.

End state.


(** ** Collecting twice *)

Lemma nil_iff {A} (l1 l2 : list A) :
  (forall x, x ∈ l1 <-> x ∈ l2) ->
  bool_decide (l1 = []) = bool_decide (l2 = []).
Proof.
  intros Hl. destruct l1 as [|a l1], l2 as [|b l2]; [done| | |done].
  - exfalso. eapply not_elem_of_nil. apply Hl. apply list_elem_of_here.
  - exfalso. eapply not_elem_of_nil. apply Hl. apply list_elem_of_here.
Qed.

Lemma level_steps lvl fuel :
  1 <= lvl -> lvl + Z.of_nat (S fuel) < SizeT.modulus ->
  SizeT.incr lvl = lvl + 1 /\
  SizeT.decr (lvl + 1) <> 0 /\ SizeT.decr (lvl + 1) <> lvl + 1.
Proof.
  intros Hl Hb. split; [apply incr_small; lia|].
  rewrite decr_small by lia. lia.
Qed.

Lemma mark_loop_rel fuel : forall lvl h o,
  1 <= lvl -> lvl + Z.of_nat fuel < SizeT.modulus ->
  mark_loop fuel lvl h = Ok o ->
  heap_rel (fun _ => True) h (post o).
Proof.
  induction fuel as [|fuel IH]; intros lvl h o Hl Hb Hrun; [discriminate|].
  destruct (level_steps lvl fuel Hl Hb) as (HL & Hd0 & Hd).
  cbn [mark_loop] in Hrun. rewrite HL in Hrun.
  apply bind_Ok in Hrun as (oP & o2 & EP & Hrest & ->). cbn [post].
  apply mark_pass_Ok in EP as (_ & Hrel & _); [|done|done|lia].
  apply (heap_rel_weaken _ (fun _ => True)) in Hrel; [|done].
  destruct (val oP).
  - apply ret_Ok in Hrest as ->. exact Hrel.
  - apply bind_Ok in Hrest as (oT & o3 & ET & Hret & ->).
    apply ret_Ok in Hret as ->. cbn [post].
    eapply heap_rel_trans; [exact Hrel|].
    eapply IH; [| |exact ET]; lia.
Qed.

(** The marking loop on the swept heap goes through the passes of the
    loop that marked [hA], and ends with the same marks. *)
Lemma lockstep hA h1 (Hsw : swept hA h1) fuel : forall lvl XA XB oA,
  1 <= lvl -> lvl + Z.of_nat fuel < SizeT.modulus ->
  mark_loop fuel lvl XA = Ok oA -> post oA = hA ->
  same_skel XB h1 ->
  Forall2 sim_page (pages XA) (pages XB) ->
  exists XB',
    mark_loop fuel lvl XB = Ok (Out (val oA) XB' []) /\
    same_skel XB' h1 /\
    Forall2 sim_page (pages hA) (pages XB').
Proof.
  induction fuel as [|fuel IH]; intros lvl XA XB oA Hl Hb Hrun HoA HskB Hsim;
    [discriminate|].
  destruct (level_steps lvl fuel Hl Hb) as (HL & Hd0 & Hd).
  assert (HrelA : heap_rel (fun _ => True) XA hA)
    by (rewrite <- HoA; eapply mark_loop_rel; eauto).
  cbn [mark_loop] in *. rewrite HL in *.
  apply bind_Ok in Hrun as (oP & o2 & EP & Hrest & ->). cbn [post val] in *.
  pose proof (mark_pass_closed _ _ _ Hd0 Hd EP) as HoP. cbn zeta in HoP.
  destruct (pass_agree hA h1 XA XB Hsw HrelA HskB Hsim (lvl + 1) Hd0)
    as [Hxs Hlive].
  destruct (sim_step hA h1 XA XB Hsw HrelA HskB Hsim (lvl + 1) _ _
              ltac:(lia) Hxs Hlive) as [Hsim' HcB].
  pose proof (mark_pass_run (lvl + 1) XB Hd0 Hd HcB) as EB.
  erewrite bind_Ok_l by exact EB.
  rewrite <- (nil_iff _ _ Hxs).
  set (XB' := set_pages _ XB) in *.
  assert (HskB' : same_skel XB' h1).
  { eapply same_skel_trans; [|exact HskB]. apply same_skel_sym.
    apply same_skel_set_pages, apply_marks_shape. }
  subst oP. cbn [val post] in *.
  destruct (bool_decide _).
  - apply ret_Ok in Hrest as ->. cbn [val post] in *. subst hA.
    exists XB'. split; [reflexivity|]. split; [done|]. exact Hsim'.
  - apply bind_Ok in Hrest as (oT & o3 & ET & Hret & ->).
    apply ret_Ok in Hret as ->. cbn [val post] in *.
    destruct (IH (lvl + 1) _ XB' oT ltac:(lia) ltac:(lia) ET HoA HskB' Hsim')
      as (XB'' & ERun & Hsk'' & Hsim'').
    exists XB''. split; [|done].
    erewrite bind_Ok_l by exact ERun. reflexivity.
Qed.


Lemma reset_shape pgs : same_shape pgs (reset_marks <$> pgs).
Proof.
  induction pgs as [|pg pgs IH]; constructor; [|exact IH].
  cbn. repeat split; [apply length_replicate|].
  rewrite <- list_fmap_compose. now apply list_fmap_ext.
Qed.

Lemma reset_sim pgs pgs' :
  Forall2 (fun pg pg' => length (live_starts pg') = length (live_starts pg))
          pgs pgs' ->
  Forall2 sim_page (reset_marks <$> pgs) (reset_marks <$> pgs').
Proof.
  intros Hf. apply Forall2_fmap. eapply Forall2_impl; [exact Hf|].
  intros pg pg' Hlen. split; cbn.
  - now rewrite Hlen.
  - intros rA rB (? & -> & _)%list_elem_of_fmap (? & -> & _)%list_elem_of_fmap.
    done.
Qed.

Lemma records_eq (l l' : list nonroot) :
  nr_p <$> l = nr_p <$> l' ->
  (forall r r', r ∈ l -> r' ∈ l' -> nr_p r = nr_p r' -> level r = level r') ->
  l = l'.
Proof.
  revert l'. induction l as [|r l IH]; intros [|r' l'] Hn Hl;
    try discriminate; [reflexivity|].
  injection Hn as Hr Hn. f_equal.
  - assert (Hlv : level r = level r')
      by (apply Hl; [apply list_elem_of_here|apply list_elem_of_here|done]).
    destruct r, r'. cbn in *. now f_equal.
  - apply IH; [done|]. intros ? ? ? ?. apply Hl; now apply list_elem_of_further.
Qed.

(** Marks that agree with those of [hA] are those of the swept heap. *)
Lemma marked_again hA h1 XB :
  swept hA h1 -> same_skel XB h1 ->
  Forall2 sim_page (pages hA) (pages XB) ->
  pages XB = pages h1.
Proof.
  intros Hsw HskB Hsim. pose proof HskB as (_ & _ & Hsh).
  apply list_eq_same_length with (length (pages XB));
    [symmetry; eapply Forall2_length; eauto|done|].
  intros i pgB pg1 _ HiB Hi1.
  destruct (Forall2_lookup_lr _ _ _ _ _ _ Hsh HiB Hi1) as (Hg & _ & Hn).
  destruct (Forall2_lookup_r _ _ _ _ _ Hsim HiB) as (pgF & HiF & Hbits & _).
  pose proof Hsw as (_ & _ & _ & Hp).
  destruct (Forall2_lookup_lr _ _ _ _ _ _ Hp HiF Hi1) as (Hb1 & _).
  destruct pgB as [gB bB rsB], pg1 as [g1 b1 rs1]. cbn in *.
  f_equal; [congruence|congruence|].
  apply records_eq; [done|]. intros rB r1 HrB Hr1 Hnr.
  assert (H1 : in_page (pages h1) i r1) by (eexists; split; [exact Hi1|done]).
  destruct (sw_in_page _ _ Hsw _ _ H1) as (HF & _).
  symmetry.
  apply (corr hA h1 hA XB Hsw (heap_rel_refl _ _) HskB Hsim i r1 rB);
    [done| |done].
  eexists; split; [exact HiB|done].
Qed.

Lemma unreached_nil pgs :
  (forall i r, in_page pgs i r -> level r <> 0) -> unreached pgs = [].
Proof.
  intros Hall. unfold unreached.
  destruct (pgs ≫= _) as [|a l] eqn:E; [done|exfalso].
  assert (Ha : a ∈ pgs ≫= fun pg =>
            nr_p <$> filter (fun dp => level dp = 0) (deferred_ptrs pg))
    by (rewrite E; apply list_elem_of_here).
  apply list_elem_of_bind in Ha as (pg & Ha & [i Hi]%list_elem_of_lookup).
  apply list_elem_of_fmap in Ha as (r & _ & Hr).
  apply list_elem_of_filter in Hr as [Hl Hr].
  apply (Hall i r); [|done]. exists pg. done.
Qed.

Lemma for_each_skip {A} (l : list A) (body : A -> M unit) h :
  (forall a, a ∈ l -> body a h = Ok (Out tt h [])) ->
  for_each l body h = Ok (Out tt h []).
Proof.
  induction l as [|a l IH]; intros Hb; [reflexivity|].
  cbn [for_each]. erewrite bind_Ok_l by (apply Hb, list_elem_of_here).
  apply IH. intros b Hin. apply Hb. now apply list_elem_of_further.
Qed.

(** Phase 4 on a heap in which every allocation has its bit *)
Lemma sweep_pages_skip h fuel : forall pi,
  (forall i pg s, pages h !! i = Some pg ->
     (s < page_locations (page pg))%nat ->
     is_start (page_location_info (page pg) s) = true ->
     live_bit pg s = true) ->
  (length (pages h) - pi < fuel)%nat ->
  sweep_pages fuel pi h = Ok (Out tt h []).
Proof.
  induction fuel as [|fuel IH]; intros pi Hall Hf; [lia|].
  cbn [sweep_pages]. erewrite bind_Ok_l by reflexivity.
  destruct (pages h !! pi) as [pg|] eqn:Ei; [|reflexivity].
  apply lookup_lt_Some in Ei as Hlt.
  erewrite bind_Ok_l; [apply IH; [done|lia]|].
  apply for_each_skip. intros s Hs. apply elem_of_seq in Hs.
  unfold sweep_location. erewrite bind_Ok_l by reflexivity. rewrite Ei.
  destruct (is_start (page_location_info (page pg) s)) eqn:Es; [|reflexivity].
  specialize (Hall pi pg s Ei ltac:(lia) Es). unfold live_bit in Hall.
  now rewrite Hall.
Qed.


(** Phases 1 and 2 on the swept heap leave it as it is, after as many
    passes as the marking of [h] has made. *)
Lemma collect_mark_twice fuel h oA h1 :
  Z.of_nat fuel + 2 < SizeT.modulus ->
  collect_mark fuel h = Ok oA -> swept (post oA) h1 ->
  collect_mark fuel h1 = Ok (Out (val oA) h1 []).
Proof.
  intros Hb Hrun Hsw. unfold collect_mark in *.
  apply bind_Ok in Hrun as (o0 & o1 & Hmod & Hrun & ->).
  apply modify_Ok in Hmod as ->. cbn [val post log] in *.
  apply bind_Ok in Hrun as (oR & oL & HR & HL & ->). cbn [val post log] in *.
  set (hR := set_pages (fmap reset_marks) h) in *.
  set (hA := post oL) in *.
  unfold mark_roots in HR. erewrite bind_Ok_l in HR by reflexivity.
  pose proof (mark_roots_from _ _ _ HR) as (_ & HrelR & _).
  pose proof (mark_list_checks _ _ _ _ HR) as HcA.
  rewrite (mark_list_run _ _ _ HcA) in HR. injection HR as <-.
  cbn [val post log] in *.
  set (xsA := root_marks hR (elements (roots hR))) in *.
  set (XA := set_pages (fun _ => apply_marks 1 xsA (pages hR)) hR) in *.
  assert (HrelL : heap_rel (fun _ => True) XA hA)
    by (eapply mark_loop_rel; [| |exact HL]; lia).
  assert (HrelA : heap_rel (fun _ => True) hR hA).
  { eapply heap_rel_trans; [|exact HrelL].
    eapply heap_rel_weaken; [|exact HrelR]. done. }
  (* the swept heap, reset *)
  erewrite bind_Ok_l by reflexivity.
  set (h1R := set_pages (fmap reset_marks) h1).
  assert (HskR : same_skel h1R h1)
    by (apply same_skel_sym, same_skel_set_pages, reset_shape).
  assert (HsimR : Forall2 sim_page (pages hR) (pages h1R)).
  { apply reset_sim. apply Forall2_same_length_lookup_2.
    - destruct HrelA as [_ Hf]. apply Forall2_length in Hf.
      rewrite (sw_length _ _ Hsw), <- Hf. cbn. now rewrite length_fmap.
    - intros i pg pg1 Hi Hi1.
      assert (HiR : pages hR !! i = Some (reset_marks pg))
        by (cbn; now rewrite list_lookup_fmap, Hi).
      destruct HrelA as [_ Hf].
      destruct (Forall2_lookup_l _ _ _ _ _ Hf HiR) as (pgA & HiA & _ & Hlen & _).
      destruct Hsw as (_ & _ & _ & Hp).
      destruct (Forall2_lookup_lr _ _ _ _ _ _ Hp HiA Hi1) as (Hbits & _).
      rewrite Hbits, Hlen. cbn. apply length_replicate. }
  (* the roots *)
  set (xsB := root_marks h1R (elements (roots h1R))).
  assert (Exs : xsB = xsA).
  { subst xsA xsB. unfold root_marks.
    pose proof Hsw as (Hr & Hg & _).
    replace (roots hR) with (roots h1R)
      by (cbn; rewrite Hr; exact (heap_rel_roots _ _ _ HrelA)).
    apply list_fmap_ext. intros _ tp Htp%list_elem_of_lookup_2.
    rewrite Forall_forall in Hg. specialize (Hg tp Htp).
    change (get tp h1R) with (get tp h1). rewrite Hg.
    eapply heap_rel_get; eauto. }
  destruct (sim_step hA h1 hR h1R Hsw HrelA HskR HsimR 1 xsA xsB)
    as [Hsim1 HcB]; [done|now rewrite Exs| |].
  { intros x (tp & -> & Htp)%list_elem_of_fmap.
    change (get tp h1R) with (get tp h1). apply sw_root_live.
    now apply elem_of_elements in Htp. }
  set (XB := set_pages (fun _ => apply_marks 1 xsB (pages h1R)) h1R) in *.
  assert (ER : mark_roots h1R = Ok (Out tt XB [])).
  { unfold mark_roots. erewrite bind_Ok_l by reflexivity.
    now apply mark_list_run. }
  erewrite bind_Ok_l by exact ER.
  assert (HskB : same_skel XB h1).
  { eapply same_skel_trans; [|exact HskR]. apply same_skel_sym.
    apply same_skel_set_pages, apply_marks_shape. }
  destruct (lockstep hA h1 Hsw fuel 1 XA XB oL) as (XB' & ERun & Hsk' & Hsim');
    [lia|lia|done|done|done|exact Hsim1|].
  rewrite ERun. do 2 f_equal.
  pose proof (marked_again _ _ _ Hsw Hsk' Hsim') as Hpages.
  apply mark_loop_rel in ERun as [E _]; [|lia|lia]. cbn [post] in E.
  rewrite Hpages in E. rewrite E. subst XB h1R. now destruct h1.
Qed.



(** * More of the code

    ** A tracked pointer that comes and goes *)

Lemma rfind_app_last tp l r :
  nr_p r = tp -> rfind tp (l ++ [r]) = Some (length l).
Proof.
  intros Hr. induction l as [|a l IH]; cbn.
  - rewrite Hr, Z.eqb_refl. reflexivity.
  - now rewrite IH.
Qed.

Lemma swap_remove_app_last l r : swap_remove (length l) (l ++ [r]) = l.
Proof.
  unfold swap_remove. rewrite last_snoc, length_app. cbn [length].
  replace (length l + 1 - 1)%nat with (length l) by lia.
  rewrite insert_app_r_alt by lia. rewrite Nat.sub_diag. cbn.
  apply take_app_length.
Qed.

Lemma rfind_absent tp l :
  (forall r, r ∈ l -> nr_p r <> tp) -> rfind tp l = None.
Proof.
  induction l as [|a l IH]; intros Hl; [reflexivity|].
  cbn. rewrite IH by (intros r Hr; apply Hl; now right).
  destruct (Z.eqb_spec (nr_p a) tp) as [E|NE]; [|reflexivity].
  exfalso. apply (Hl a); [left|exact E].
Qed.

Lemma deregister_scan_absent tp pgs :
  (forall pg r, pg ∈ pgs -> r ∈ deferred_ptrs pg -> nr_p r <> tp) ->
  deregister_scan tp pgs = None.
Proof.
  induction pgs as [|pg pgs IH]; intros Hl; [reflexivity|].
  cbn. rewrite rfind_absent by (intros r Hr; eapply Hl; [left|exact Hr]).
  rewrite IH; [reflexivity|].
  intros pg' r Hpg Hr. eapply Hl; [right; exact Hpg|exact Hr].
Qed.

(** the record that [enregister] has just appended to page [i] is the one
    that [deregister] finds and removes *)
Lemma deregister_scan_appended tp pgs : forall i pg,
  pgs !! i = Some pg ->
  (forall pg' r, pg' ∈ pgs -> r ∈ deferred_ptrs pg' -> nr_p r <> tp) ->
  deregister_scan tp
    (alter (set_deferred_ptrs (fun l => l ++ [mk_nonroot tp])) i pgs)
  = Some pgs.
Proof.
  induction pgs as [|pg0 pgs IH]; intros i pg Hi Hl; [discriminate|].
  destruct i as [|i]; cbn.
  - rewrite rfind_app_last by reflexivity.
    destruct pg0 as [g bits l]. unfold set_deferred_ptrs. cbn.
    now rewrite swap_remove_app_last.
  - rewrite rfind_absent by (intros r Hr; eapply Hl; [left|exact Hr]).
    cbn in Hi. erewrite IH; [reflexivity|exact Hi|].
    intros pg' r Hpg Hr. eapply Hl; [right; exact Hpg|exact Hr].
Qed.

Lemma not_registered_lists h tp :
  ~ registered h tp ->
  (tp ∉ roots h) /\
  forall pg r, pg ∈ pages h -> r ∈ deferred_ptrs pg -> nr_p r <> tp.
Proof.
  intros Hn. split.
  - intros Hr. apply Hn. now left.
  - intros pg r Hpg Hr E. apply Hn. right. exists r. split; [|exact E].
    unfold records. apply list_elem_of_bind. eauto.
Qed.

Lemma set_roots_id h : set_roots (fun r => r) h = h.
Proof. now destruct h. Qed.

Lemma set_pages_id h : set_pages (fun _ => pages h) h = h.
Proof. now destruct h. Qed.

(** [enregister] then, whatever has been written to tracked pointers in
    between, [deregister]: the heap is registered as before *)
Lemma enregister_deregister tp h f :
  is_destroying h = false -> ~ registered h tp ->
  exists h1,
    enregister tp h = Ok (Out tt h1 []) /\
    memory h1 = memory h /\
    deregister tp (set_memory f h1) = Ok (Out tt (set_memory f h) []).
Proof.
  intros Hd Hn. destruct (not_registered_lists _ _ Hn) as [Hroot Hlist].
  unfold enregister.
  erewrite bind_Ok_l by reflexivity.
  erewrite bind_Ok_l
    by (unfold assert; rewrite Hd; cbn; rewrite orb_true_r; reflexivity).
  erewrite bind_Ok_l by reflexivity.
  assert (Hdiff : forall r : gset Z, tp ∉ r -> r ∖ {[tp]} = r).
  { intros r Hr. apply set_eq. intros x.
    rewrite elem_of_difference, elem_of_singleton. split; [tauto|].
    intros Hx. split; [done|]. now intros ->. }
  assert (Hadd : forall r : gset Z, tp ∉ r -> ({[tp]} ∪ r) ∖ {[tp]} = r).
  { intros r Hr. apply set_eq. intros x.
    rewrite elem_of_difference, elem_of_union, elem_of_singleton.
    split; [tauto|]. intros Hx. split; [tauto|]. now intros ->. }
  destruct (find_dhpage_of tp (pages h)) as [i|] eqn:Ef.
  - eexists. split; [reflexivity|]. split; [reflexivity|].
    apply find_dhpage_of_Some in Ef as (pg & Hi & _).
    unfold deregister.
    erewrite bind_Ok_l by reflexivity. cbn [is_destroying set_memory set_pages].
    rewrite Hd.
    erewrite bind_Ok_l by reflexivity. cbn [roots set_memory set_pages].
    rewrite decide_False by exact Hroot.
    erewrite bind_Ok_l by reflexivity.
    erewrite bind_Ok_l by apply assert_true.
    cbn [Z.ltb Z.compare].
    erewrite bind_Ok_l by reflexivity.
    cbn [pages set_roots set_memory set_pages].
    rewrite (deregister_scan_appended tp (pages h) i pg Hi Hlist).
    unfold modify. do 3 f_equal.
    destruct h as [pgs rs ds dg cbe m]. unfold set_pages, set_roots, set_memory.
    cbn in *. now rewrite Hdiff.
  - eexists. split; [reflexivity|]. split; [reflexivity|].
    unfold deregister.
    erewrite bind_Ok_l by reflexivity. cbn [is_destroying set_memory set_roots].
    rewrite Hd.
    erewrite bind_Ok_l by reflexivity. cbn [roots set_memory set_roots].
    rewrite decide_True
      by (apply elem_of_union; left; now apply elem_of_singleton).
    erewrite bind_Ok_l by reflexivity.
    erewrite bind_Ok_l by apply assert_true.
    cbn [Z.ltb Z.compare]. unfold mret, M_ret. do 3 f_equal.
    destruct h as [pgs rs ds dg cbe m]. unfold set_roots, set_memory.
    cbn in *. now rewrite Hadd.
Qed.

(** X1. A tracked pointer that is constructed and then destroyed (a
    temporary, a local variable) leaves the heap as it found it: the root
    set, every page and the non-root list of every page, in their order,
    are those of before; only the pointer's own cell has been written. *)
Theorem temporary_leaves_registration (tp p : addr) (h : deferred_heap) :
  is_destroying h = false -> ~ registered h tp ->
  (deferred_ptr_ctor tp p;; deferred_ptr_dtor tp) h
  = Ok (Out tt (set_memory (insert tp p) h) []).
Proof.
  intros Hd Hn.
  destruct (enregister_deregister tp (set_memory (insert tp p) h) (fun m => m)
              Hd Hn) as (h1 & E1 & _ & E2).
  unfold deferred_ptr_ctor, deferred_ptr_dtor, set.
  assert (Ec : (modify (set_memory (insert tp p));; enregister tp) h
               = Ok (Out tt h1 [])).
  { erewrite bind_Ok_l by reflexivity. exact E1. }
  rewrite (bind_Ok_l _ _ _ _ _ Ec).
  replace h1 with (set_memory (fun m => m) h1) by now destruct h1.
  rewrite E2. reflexivity.
Qed.

(** ** What [deregister] takes away *)

Lemma rfind_lt tp l j : rfind tp l = Some j -> (j < length l)%nat.
Proof.
  intros Hj. apply rfind_Some in Hj as (r & Hr & _).
  now apply lookup_lt_Some in Hr.
Qed.

Lemma insert_Permutation {A} (l : list A) j a b :
  l !! j = Some a -> <[j := b]> l ≡ₚ b :: delete j l.
Proof.
  revert j. induction l as [|x l IH]; intros [|j] Hj; try discriminate.
  - reflexivity.
  - cbn in *. rewrite (IH j Hj). apply Permutation_swap.
Qed.

(** [*j = back(); pop_back();] takes the record at [j] away and keeps the
    others, the last one in the place of the one removed *)
Lemma swap_remove_Permutation l j r :
  l !! j = Some r -> l ≡ₚ r :: swap_remove j l.
Proof.
  intros Hj. destruct l as [|b l' _] using rev_ind; [discriminate|].
  unfold swap_remove. rewrite last_snoc, length_app. cbn [length].
  replace (length l' + 1 - 1)%nat with (length l') by lia.
  destruct (decide (j < length l')%nat) as [Hlt|Hge].
  - rewrite insert_app_l by exact Hlt.
    rewrite take_app_length' by (now rewrite length_insert).
    rewrite lookup_app_l in Hj by exact Hlt.
    rewrite (insert_Permutation _ _ _ b Hj).
    transitivity ((r :: delete j l') ++ [b]).
    { apply Permutation_app_tail, delete_Permutation, Hj. }
    cbn. constructor. symmetry. apply Permutation_cons_append.
  - assert (Hlen : j = length l').
    { apply lookup_lt_Some in Hj. rewrite length_app in Hj. cbn in Hj. lia. }
    subst j. rewrite insert_app_r_alt by lia. rewrite Nat.sub_diag. cbn.
    rewrite take_app_length.
    rewrite lookup_app_r, Nat.sub_diag in Hj by lia. injection Hj as <-.
    symmetry. apply Permutation_cons_append.
Qed.

Lemma deregister_scan_Permutation tp pgs pgs' :
  deregister_scan tp pgs = Some pgs' ->
  exists r, nr_p r = tp /\ records pgs ≡ₚ r :: records pgs'.
Proof.
  revert pgs'. induction pgs as [|pg pgs IH]; intros pgs' Hs; [discriminate|].
  cbn in Hs. destruct (rfind tp (deferred_ptrs pg)) as [j|] eqn:Ej.
  - injection Hs as <-. apply rfind_Some in Ej as (r & Hj & Hr).
    exists r. split; [exact Hr|]. unfold records. cbn.
    now rewrite (swap_remove_Permutation _ _ _ Hj) at 1.
  - destruct (deregister_scan tp pgs) as [pgs0|]; [|discriminate].
    injection Hs as <-. destruct (IH _ eq_refl) as (r & Hr & Hp).
    exists r. split; [exact Hr|]. unfold records in *. cbn.
    rewrite Hp. symmetry. apply Permutation_middle.
Qed.

Lemma deregister_scan_None tp pgs :
  deregister_scan tp pgs = None ->
  forall r, r ∈ records pgs -> nr_p r <> tp.
Proof.
  induction pgs as [|pg pgs IH]; intros Hs r Hr.
  - inversion Hr.
  - cbn in Hs. destruct (rfind tp (deferred_ptrs pg)) eqn:Ej; [discriminate|].
    destruct (deregister_scan tp pgs); [discriminate|].
    unfold records in Hr. cbn in Hr. apply elem_of_app in Hr as [Hr|Hr].
    + eapply rfind_None; eauto.
    + now apply IH.
Qed.

(** X2. [deregister(p)] on a heap that is not being destroyed, whenever
    it returns. If [p] is a root it leaves the root set and nothing else
    changes. Otherwise, if some page has [p] on its list, exactly one
    record for [p] is taken away: the records left are those of before
    less that one, as a multiset (the last record of the list moves into
    the place of the one removed), and the roots, the pages themselves
    and their mark bits are as before. Tracked pointers and the registry
    of destructors are never written. *)
Theorem deregister_takes_one (tp : addr) (h : deferred_heap) (o : out unit) :
  is_destroying h = false ->
  deregister tp h = Ok o ->
  log o = [] /\ memory (post o) = memory h /\ dtors (post o) = dtors h /\
  (tp ∈ roots h ->
   post o = set_roots (fun r => r ∖ {[tp]}) h) /\
  (tp ∉ roots h ->
   (exists r, r ∈ records (pages h) /\ nr_p r = tp) ->
   roots (post o) = roots h /\
   Forall2 (fun pg pg' => page pg' = page pg /\
                          live_starts pg' = live_starts pg)
           (pages h) (pages (post o)) /\
   exists r, nr_p r = tp /\
             records (pages h) ≡ₚ r :: records (pages (post o))).
Proof.
  intros Hd Hr. unfold deregister in Hr. inv_M. rewrite Hd in *.
  inv_M. cbn [roots pages set_roots] in *.
  destruct (decide (tp ∈ roots h)) as [Hin|Hnin].
  - cbn [Z.ltb Z.compare] in *. inv_M. cbn.
    split_and!; [done..|intros Hc; contradiction].
  - cbn [Z.ltb Z.compare] in *. inv_M. cbn [pages set_roots] in *.
    assert (Hdiff : roots h ∖ {[tp]} = roots h).
    { apply set_eq. intros x.
      rewrite elem_of_difference, elem_of_singleton. split; [tauto|].
      intros Hx. split; [done|]. now intros ->. }
    destruct (deregister_scan tp (pages h)) as [pgs'|] eqn:Es; inv_M; cbn.
    + split_and!; [done..|intros Hc; contradiction|].
      intros _ _. split_and!.
      * exact Hdiff.
      * apply deregister_scan_Some in Es.
        eapply Forall2_impl; [exact Es|]. cbn. intros ? ? (? & ? & _). auto.
      * now apply deregister_scan_Permutation.
    + split_and!; [done..|intros Hc; contradiction|].
      intros _ (r & Hr & Hp).
      exfalso. exact (deregister_scan_None _ _ Es r Hr Hp).
Qed.

(** X3. [deregister(p)] for a tracked pointer the heap has no record of,
    neither as a root nor on a page: a debug build stops at "attempt to
    deregister an unregistered deferred_ptr", a release build returns and
    leaves the heap as it is. *)
Theorem deregister_unregistered (tp : addr) (h : deferred_heap) :
  is_destroying h = false -> ~ registered h tp ->
  deregister tp h
  = if ndebug then Ok (Out tt h [])
    else Fatal "attempt to deregister an unregistered deferred_ptr".
Proof.
  intros Hd Hn. destruct (not_registered_lists _ _ Hn) as [Hroot Hlist].
  unfold deregister.
  erewrite bind_Ok_l by reflexivity. rewrite Hd.
  erewrite bind_Ok_l by reflexivity.
  rewrite decide_False by exact Hroot.
  erewrite bind_Ok_l by reflexivity.
  erewrite bind_Ok_l by apply assert_true.
  cbn [Z.ltb Z.compare].
  erewrite bind_Ok_l by reflexivity. cbn [pages set_roots].
  rewrite (deregister_scan_absent tp (pages h) Hlist).
  assert (Hs : set_roots (fun r => r ∖ {[tp]}) h = h).
  { destruct h as [pgs rs ds dg cbe m]. unfold set_roots. cbn in *.
    f_equal. apply set_eq. intros x.
    rewrite elem_of_difference, elem_of_singleton. split; [tauto|].
    intros Hx. split; [done|]. now intros ->. }
  rewrite Hs. unfold assert. destruct ndebug; reflexivity.
Qed.

(** ** Which page a raw pointer is taken to lie in *)

Lemma find_dhpage_info_gen x pgs : forall n ret,
  find_dhpage_info x pgs n ret
  = match find_dhpage_info x pgs 0 None with
    | Some (k, info) => Some ((n + k)%nat, info)
    | None => ret
    end.
Proof.
  induction pgs as [|pg pgs IH]; intros n ret; [reflexivity|].
  cbn [find_dhpage_info]. rewrite (IH (S n)), (IH 1%nat).
  destruct (find_dhpage_info x pgs 0 None) as [[k info]|].
  - f_equal. f_equal. lia.
  - destruct (decide (found (page_contains_info (page pg) x) = not_in_range));
      [reflexivity|]. f_equal. f_equal. lia.
Qed.

Lemma find_dhpage_info_cons x pg pgs :
  find_dhpage_info x (pg :: pgs) 0 None
  = match find_dhpage_info x pgs 0 None with
    | Some (k, info) => Some (S k, info)
    | None =>
        if decide (found (page_contains_info (page pg) x) = not_in_range)
        then None else Some (0%nat, page_contains_info (page pg) x)
    end.
Proof.
  cbn [find_dhpage_info]. rewrite find_dhpage_info_gen.
  destruct (find_dhpage_info x pgs 0 None) as [[k info]|]; reflexivity.
Qed.

Lemma find_dhpage_info_None x pgs :
  find_dhpage_info x pgs 0 None = None <->
  forall pg, pg ∈ pgs -> found (page_contains_info (page pg) x) = not_in_range.
Proof.
  induction pgs as [|pg pgs IH].
  - split; [|done]. intros _ pg Hpg. inversion Hpg.
  - rewrite find_dhpage_info_cons.
    destruct (find_dhpage_info x pgs 0 None) as [[k info]|].
    + split; [discriminate|]. intros Hall.
      assert (Hn : @None (nat * contains_info_ret) = None) by reflexivity.
      destruct IH as [_ IH]. discriminate IH.
      intros pg' Hpg'. apply Hall. now right.
    + destruct (decide (found (page_contains_info (page pg) x) = not_in_range))
        as [E|NE].
      * split; [|done]. intros _ pg' Hpg'.
        apply elem_of_cons in Hpg' as [->|Hpg']; [exact E|].
        now apply IH.
      * split; [discriminate|]. intros Hall. exfalso. apply NE, Hall. left.
Qed.

Lemma find_dhpage_info_Some x pgs : forall i info,
  find_dhpage_info x pgs 0 None = Some (i, info) <->
  exists pg, pgs !! i = Some pg /\
    info = page_contains_info (page pg) x /\
    found info <> not_in_range /\
    forall k pg', (i < k)%nat -> pgs !! k = Some pg' ->
      found (page_contains_info (page pg') x) = not_in_range.
Proof.
  induction pgs as [|pg pgs IH]; intros i info.
  - cbn. split; [discriminate|]. intros (pg & Hpg & _). discriminate.
  - rewrite find_dhpage_info_cons.
    destruct (find_dhpage_info x pgs 0 None) as [[k info0]|] eqn:Ef.
    + split.
      * intros [= <- <-]. destruct (proj1 (IH k info0) eq_refl)
          as (pg0 & Hk & Hi & Hf & Hlater).
        exists pg0. repeat split; auto.
        intros [|k'] pg' Hlt Hk'; [lia|]. cbn in Hk'.
        apply (Hlater k'); [lia|exact Hk'].
      * intros (pg0 & Hi & -> & Hf & Hlater). destruct i as [|i].
        -- exfalso. destruct (proj1 (IH k info0) eq_refl)
             as (pgk & Hk & -> & Hfk & _).
           apply Hfk. apply (Hlater (S k)); [lia|exact Hk].
        -- cbn in Hi.
           assert (Hi' : Some (k, info0)
                         = Some (i, page_contains_info (page pg0) x)).
           { apply IH. exists pg0. repeat split; auto.
             intros k' pg' Hlt Hk'. apply (Hlater (S k')); [lia|exact Hk']. }
           now injection Hi' as -> ->.
    + pose proof (proj1 (find_dhpage_info_None x pgs) Ef) as Hnone.
      destruct (decide (found (page_contains_info (page pg) x) = not_in_range))
        as [E|NE].
      * split; [discriminate|]. intros (pg0 & Hi & -> & Hf & _).
        exfalso. apply Hf. destruct i as [|i].
        -- cbn in Hi. now injection Hi as <-.
        -- cbn in Hi. apply Hnone. eapply list_elem_of_lookup_2; eauto.
      * split.
        -- intros [= <- <-]. exists pg. repeat split; auto.
           intros [|k'] pg' Hlt Hk'; [lia|]. cbn in Hk'.
           apply Hnone. eapply list_elem_of_lookup_2; eauto.
        -- intros (pg0 & Hi & -> & Hf & _). destruct i as [|i].
           ++ cbn in Hi. now injection Hi as <-.
           ++ exfalso. cbn in Hi. apply Hf, Hnone.
              eapply list_elem_of_lookup_2; eauto.
Qed.

(** X4. [find_dhpage_info(p)], which the checked pointer arithmetic
    relies on, has no [break] in its loop: it answers with the last page
    whose [contains_info(p)] is in range, and with that page's
    information; it answers "no page" exactly when every page says
    [not_in_range]. ([find_dhpage_of] and [mark] stop at the first page
    instead.) *)
Theorem find_dhpage_info_last (x : addr) (pgs : list dhpage) :
  (forall i info,
     find_dhpage_info x pgs 0 None = Some (i, info) <->
     exists pg, pgs !! i = Some pg /\
       info = page_contains_info (page pg) x /\
       found info <> not_in_range /\
       forall k pg', (i < k)%nat -> pgs !! k = Some pg' ->
         found (page_contains_info (page pg') x) = not_in_range) /\
  (find_dhpage_info x pgs 0 None = None <->
   forall pg, pg ∈ pgs ->
     found (page_contains_info (page pg) x) = not_in_range).
Proof.
  split; [apply find_dhpage_info_Some|apply find_dhpage_info_None].
Qed.

(** ** The rest of [deferred_ptr<T>] *)

(** the conversion of a [size_t] to [int] *)
Definition to_int (x : Z) : Z := (x + 2 ^ 31) mod 2 ^ 32 - 2 ^ 31.

(** [operator-=(offset)] *)
Definition sub_assign (T : ctype) (tp : addr) (offset : Z) : M unit :=
  add_assign T tp (- offset).

(** [operator++()]; [operator++(int)] has the same body *)
Definition pre_increment (T : ctype) (tp : addr) : M unit := add_assign T tp 1.

(** [operator--()] *)
Definition pre_decrement (T : ctype) (tp : addr) : M unit :=
  add_assign T tp (-1).

(** [operator+(offset)]: [auto ret = *this; ret += offset; return ret;],
    the result being the object [ret] *)
Definition op_add (T : ctype) (tp : addr) (offset : Z) (ret : addr)
  : M unit :=
  deferred_ptr_copy ret tp;;
  add_assign T ret offset.

(** [operator-(offset)] *)
Definition op_sub (T : ctype) (tp : addr) (offset : Z) (ret : addr)
  : M unit :=
  op_add T tp (- offset) ret.

(** [operator[](offset)], the value being the address of the element. A
    debug build goes through a temporary tracked pointer, [tmp], and
    [operator+=], whose parameter is an [int]; a release build adds to
    the raw pointer. *)
Definition subscript (T : ctype) (tp : addr) (offset : Z) (tmp : addr)
  : M addr :=
  if ndebug then
    x ← gets (get tp);
    mret (x + offset * sizeof T)
  else
    deferred_ptr_copy tmp tp;;
    add_assign T tmp (to_int offset);;
    x ← gets (get tmp);
    deferred_ptr_dtor tmp;;
    mret x.

(** [operator-(that)], the difference of two tracked pointers in
    elements. The early return and the checks are compiled in a debug
    build only. *)
Definition difference (T : ctype) (tp that : addr) : M Z :=
  x ← gets (get tp);
  y ← gets (get that);
  if negb ndebug && (x =? y) then mret 0
  else
    assert (negb (x =? null) && negb (y =? null))
      "bad deferred_ptr arithmetic: can't subtract pointers when one is null";;
    pgs ← gets pages;
    let this_info := find_dhpage_info x pgs 0 None in
    let that_info := find_dhpage_info y pgs 0 None in
    assert (bool_decide (is_Some this_info) && bool_decide (is_Some that_info))
      "corrupt non-null deferred_ptr, not pointing into deferred heap";;
    assert (is_allocated (found (info_of that_info)))
      "corrupt non-null deferred_ptr, pointing to unallocated space";;
    assert (bool_decide (fst <$> that_info = fst <$> this_info))
      "bad deferred_ptr arithmetic: attempt to leave dhpage";;
    assert ((bool_decide (found (info_of that_info) = in_range_allocated_start)
             && (x =? y + sizeof T))
            || (bool_decide (start_location (info_of that_info)
                             = start_location (info_of this_info))
                && is_allocated (found (info_of this_info))))
      "bad deferred_ptr arithmetic: attempt to go outside the allocation";;
    mret ((x - y) `quot` sizeof T).

(** [operator->()] *)
Definition arrow (tp : addr) : M addr :=
  x ← gets (get tp);
  assert (negb (x =? null)) "attempt to dereference null";;
  mret x.

(** [compare3(that)] *)
Definition compare3 (tp that : addr) (h : deferred_heap) : Z :=
  if get tp h <? get that h then -1
  else if get tp h =? get that h then 0 else 1.

Lemma assert_holds c msg h : c = true -> assert c msg h = Ok (Out tt h []).
Proof. intros ->. apply assert_true. Qed.

Lemma find_dhpage_info_only x pgs i pg :
  pgs !! i = Some pg ->
  found (page_contains_info (page pg) x) <> not_in_range ->
  (forall k pg', k <> i -> pgs !! k = Some pg' ->
     found (page_contains_info (page pg') x) = not_in_range) ->
  find_dhpage_info x pgs 0 None = Some (i, page_contains_info (page pg) x).
Proof.
  intros Hi Hf Hothers. apply find_dhpage_info_Some.
  exists pg. repeat split; auto.
  intros k pg' Hlt Hk. apply (Hothers k); [lia|exact Hk].
Qed.

Lemma mark_checks_unallocated x pgs : forall i pg,
  pgs !! i = Some pg ->
  found (page_contains_info (page pg) x) = in_range_unallocated ->
  (forall k pg', (k < i)%nat -> pgs !! k = Some pg' ->
     found (page_contains_info (page pg') x) = not_in_range) ->
  mark_checks x pgs = false.
Proof.
  induction pgs as [|pg0 pgs IH]; intros i pg Hi Hf Hbefore; [discriminate|].
  destruct i as [|i]; cbn in Hi |- *.
  - injection Hi as <-. rewrite Hf. reflexivity.
  - assert (E0 : found (page_contains_info (page pg0) x) = not_in_range)
      by (apply (Hbefore 0%nat); [lia|reflexivity]).
    rewrite E0. cbn. apply (IH i pg Hi Hf).
    intros k pg' Hlt Hk. apply (Hbefore (S k)); [lia|exact Hk].
Qed.

(** a root that points to a location its page has not allocated stops
    the marking of the roots in a debug build *)
Lemma mark_roots_dangling h tp :
  ndebug = false -> tp ∈ roots h -> get tp h <> null ->
  mark_checks (get tp h) (pages h) = false ->
  exists msg, mark_roots h = Fatal msg.
Proof.
  intros Hd Hin Hx Hc. destruct (mark_roots h) as [o|msg|] eqn:Em.
  - exfalso. unfold mark_roots in Em. inv_M.
    match goal with
    | Hf : for_each _ _ _ = Ok _ |- _ => apply mark_list_checks in Hf
    end.
    rewrite Hd in *. cbn [orb] in *.
    unfold marks_checks in *.
    match goal with
    | Hf : forallb _ _ = true |- _ =>
        rewrite forallb_forall in Hf;
          specialize (Hf (get tp h))
    end.
    assert (Hi : In (get tp h) (root_marks h (elements (roots h)))).
    { apply list_elem_of_In. unfold root_marks.
      apply list_elem_of_fmap. exists tp. split; [done|].
      now apply elem_of_elements. }
    match goal with
    | Hf : In _ _ -> _ |- _ => specialize (Hf Hi); rewrite Hc in Hf
    end.
    destruct (Z.eqb_spec (get tp h) null); [contradiction|discriminate].
  - eauto.
  - now apply mark_roots_not_Timeout in Em.
Qed.

(** X5. In a debug build, checked arithmetic lets a tracked pointer at
    the start of an allocation step one element forward without looking
    at what lies there ("it's always legal to form a pointer to the
    following element"). When that location is free and the pointer is a
    root, the next [collect()] cannot get past the assertions of [mark]:
    the two checks disagree on what a valid tracked pointer is. (Stated
    for raw values that one page only claims.) *)
Theorem one_past_the_end_fails_collect (T : ctype) (tp : addr)
    (h : deferred_heap) (i : nat) (pg : dhpage) (fuel : nat) :
  ndebug = false ->
  tp ∈ roots h ->
  let x := get tp h in
  let x' := x + 1 * sizeof T in
  x <> null -> x' <> null ->
  pages h !! i = Some pg ->
  found (page_contains_info (page pg) x) = in_range_allocated_start ->
  found (page_contains_info (page pg) x') = in_range_unallocated ->
  (forall k pg', k <> i -> pages h !! k = Some pg' ->
     found (page_contains_info (page pg') x) = not_in_range /\
     found (page_contains_info (page pg') x') = not_in_range) ->
  add_assign T tp 1 h = Ok (Out tt (set_memory (insert tp x') h) []) /\
  exists msg, collect fuel (set_memory (insert tp x') h) = Fatal msg.
Proof.
  intros Hd Hroot x x' Hx Hx' Hi Hstart Hfree Hothers.
  assert (Ex : find_dhpage_info x (pages h) 0 None
               = Some (i, page_contains_info (page pg) x)).
  { apply find_dhpage_info_only; auto.
    - rewrite Hstart. discriminate.
    - intros k pg' Hk Hl. now apply (Hothers k pg'). }
  assert (Ex' : find_dhpage_info x' (pages h) 0 None
                = Some (i, page_contains_info (page pg) x')).
  { apply find_dhpage_info_only; auto.
    - rewrite Hfree. discriminate.
    - intros k pg' Hk Hl. now apply (Hothers k pg'). }
  split.
  - unfold add_assign.
    erewrite bind_Ok_l by reflexivity. fold x.
    erewrite bind_Ok_l
      by (apply assert_holds; destruct (Z.eqb_spec x null); done).
    erewrite bind_Ok_l by reflexivity.
    fold x'. cbn zeta. rewrite Ex, Ex'. cbn [info_of fmap option_fmap option_map fst].
    erewrite bind_Ok_l by (apply assert_holds; apply bool_decide_eq_true; eauto).
    erewrite bind_Ok_l
      by (apply assert_holds; rewrite Hstart; reflexivity).
    erewrite bind_Ok_l
      by (apply assert_holds; apply bool_decide_eq_true; reflexivity).
    erewrite bind_Ok_l
      by (apply assert_holds; rewrite Hstart; reflexivity).
    reflexivity.
  - set (h' := set_memory (insert tp x') h).
    assert (Hget : get tp h' = x').
    { unfold get, h'. cbn. apply lookup_total_insert_eq. }
    destruct (mark_roots_dangling (set_pages (fmap reset_marks) h') tp)
      as [msg Hm]; auto.
    + change (get tp (set_pages (fmap reset_marks) h')) with (get tp h').
      now rewrite Hget.
    + change (get tp (set_pages (fmap reset_marks) h')) with (get tp h').
      rewrite Hget. cbn [pages set_pages set_memory h'].
      apply (mark_checks_unallocated _ _ i (reset_marks pg)).
      * rewrite list_lookup_fmap, Hi. reflexivity.
      * exact Hfree.
      * intros k pg' Hlt Hk. rewrite list_lookup_fmap in Hk.
        destruct (pages h !! k) as [pgk|] eqn:Ek; [|discriminate].
        injection Hk as <-. cbn. apply (Hothers k pgk); [lia|exact Ek].
    + exists msg. unfold collect, collect_mark.
      apply bind_Fatal_l.
      erewrite bind_Ok_l by reflexivity.
      now apply bind_Fatal_l.
Qed.

Lemma to_int_small x : 0 <= x < 2 ^ 31 -> to_int x = x.
Proof.
  intros Hx. unfold to_int. rewrite Z.mod_small; lia.
Qed.

Lemma add_assign_Ok T tp offset h o :
  add_assign T tp offset h = Ok o ->
  o = Out tt (set_memory (insert tp (get tp h + offset * sizeof T)) h) [].
Proof.
  unfold add_assign, set. intros Ha. inv_M. reflexivity.
Qed.

Lemma add_assign_release T tp offset h :
  ndebug = true ->
  add_assign T tp offset h
  = Ok (Out tt (set_memory (insert tp (get tp h + offset * sizeof T)) h) []).
Proof.
  intros Hd. unfold add_assign, assert. rewrite Hd. cbn [orb]. reflexivity.
Qed.

Lemma deferred_ptr_copy_Ok tp that h o :
  deferred_ptr_copy tp that h = Ok o ->
  log o = [] /\
  enregister tp (set_memory (insert tp (get that h)) h)
    = Ok (Out tt (post o) []).
Proof.
  unfold deferred_ptr_copy, deferred_ptr_ctor, set. intros Hc. inv_M.
  match goal with
  | He : enregister _ _ = Ok ?o1 |- _ =>
      pose proof (enregister_Ok _ _ _ He) as (Hl & _); destruct o1 as [[] ? ?];
        cbn in *; subst; split; [reflexivity|exact He]
  end.
Qed.

(** X6. Pointer arithmetic and pointer difference agree: whenever
    [q = p + k] and then [q - p] both return, the difference is [k]
    (elements of a non-empty type, [q] and [p] distinct objects). In a
    release build both always return. *)
Theorem difference_of_sum (T : ctype) (tp ret : addr) (k : Z)
    (h : deferred_heap) :
  0 < sizeof T -> ret <> tp ->
  (forall o1 o2,
     op_add T tp k ret h = Ok o1 ->
     difference T ret tp (post o1) = Ok o2 ->
     val o2 = k /\ get ret (post o1) = get tp h + k * sizeof T /\
     post o2 = post o1) /\
  (ndebug = true ->
   exists o1 o2, op_add T tp k ret h = Ok o1 /\
                 difference T ret tp (post o1) = Ok o2).
Proof.
  intros Hs Hne. split.
  - intros o1 o2 H1 H2. unfold op_add in H1. inv_M.
    match goal with
    | Hc : deferred_ptr_copy _ _ _ = Ok _ |- _ =>
        apply deferred_ptr_copy_Ok in Hc as (Hl & He);
          apply enregister_Ok in He as (_ & Hm & _)
    end.
    match goal with
    | Ha : add_assign _ _ _ _ = Ok _ |- _ => apply add_assign_Ok in Ha as ->
    end.
    cbn [post val log] in *.
    match goal with
    | |- context [set_memory _ (post ?oc)] => set (hc := post oc) in *
    end.
    assert (Hret : get ret hc = get tp h).
    { unfold get. rewrite Hm. cbn. apply lookup_total_insert_eq. }
    assert (Htp : get tp hc = get tp h).
    { unfold get. rewrite Hm. cbn. now apply lookup_total_insert_ne. }
    set (h2 := set_memory (insert ret (get ret hc + k * sizeof T)) hc) in *.
    assert (Hret2 : get ret h2 = get tp h + k * sizeof T).
    { unfold get, h2. cbn. rewrite lookup_total_insert_eq.
      fold (get ret hc). now rewrite Hret. }
    assert (Htp2 : get tp h2 = get tp h).
    { unfold get, h2. cbn. rewrite lookup_total_insert_ne by done. exact Htp. }
    unfold difference in H2. inv_M. rewrite Hret2, Htp2 in *.
    destruct (negb ndebug && (get tp h + k * sizeof T =? get tp h)) eqn:Eq.
    + inv_M. cbn. split; [|done].
      apply andb_true_iff in Eq as [_ Eq]. apply Z.eqb_eq in Eq. nia.
    + inv_M. cbn. split; [|done].
      replace (get tp h + k * sizeof T - get tp h) with (k * sizeof T) by lia.
      apply Z.quot_mul. lia.
  - intros Hd.
    destruct (enregister_run ret (set_memory (insert ret (get tp h)) h))
      as (hc & Ec & Hm & _); [now left|].
    assert (E1 : op_add T tp k ret h
                 = Ok (Out tt (set_memory
                                 (insert ret (get ret hc + k * sizeof T)) hc)
                           [])).
    { unfold op_add, deferred_ptr_copy, deferred_ptr_ctor, set.
      erewrite bind_Ok_l; cycle 1.
      { erewrite bind_Ok_l by reflexivity.
        erewrite bind_Ok_l by reflexivity. exact Ec. }
      now apply add_assign_release. }
    eexists _, _. split; [exact E1|]. cbn [post].
    unfold difference, assert. rewrite Hd. cbn [negb andb orb].
    reflexivity.
Qed.

(** X7. [operator[]] leaves the heap as it found it in either build: the
    temporary of the debug build is registered and deregistered again,
    and no other tracked pointer is written. The element it designates
    is number [offset] in a release build but number [(int)offset] in a
    debug build, where the index passes through the [int] parameter of
    [operator+=]: the two builds agree for indices below [2^31]. *)
Theorem subscript_element (T : ctype) (tp tmp : addr) (offset : Z)
    (h : deferred_heap) (o : out addr) :
  is_destroying h = false -> ~ registered h tmp ->
  subscript T tp offset tmp h = Ok o ->
  val o = get tp h + (if ndebug then offset else to_int offset) * sizeof T /\
  (0 <= offset < 2 ^ 31 -> val o = get tp h + offset * sizeof T) /\
  log o = [] /\
  roots (post o) = roots h /\ pages (post o) = pages h /\
  dtors (post o) = dtors h /\
  forall a, a <> tmp -> get a (post o) = get a h.
Proof.
  intros Hdes Hn Hs. unfold subscript in Hs.
  assert (Hgoal :
    val o = get tp h + (if ndebug then offset else to_int offset) * sizeof T /\
    log o = [] /\
    roots (post o) = roots h /\ pages (post o) = pages h /\
    dtors (post o) = dtors h /\
    forall a, a <> tmp -> get a (post o) = get a h).
  { destruct ndebug eqn:Hd.
    - inv_M. cbn. repeat split; auto.
    - unfold deferred_ptr_copy, deferred_ptr_ctor, deferred_ptr_dtor, set in Hs.
      destruct (enregister_deregister tmp
                  (set_memory (insert tmp (get tp h)) h)
                  (insert tmp (get tp h + to_int offset * sizeof T))
                  Hdes Hn)
        as (h1 & E1 & Hm & E2).
      inv_M. cbn [val post log] in *.
      match goal with
      | He : enregister _ _ = Ok ?oe |- _ =>
          rewrite E1 in He; injection He as <-
      end.
      cbn [val post log] in *.
      match goal with
      | Ha : add_assign _ _ _ _ = Ok _ |- _ => apply add_assign_Ok in Ha as ->
      end.
      cbn [val post log] in *.
      assert (Hg1 : get tmp h1 = get tp h).
      { unfold get. rewrite Hm. cbn. apply lookup_total_insert_eq. }
      rewrite Hg1 in *.
      match goal with
      | Hdr : deregister _ _ = Ok _ |- _ => rewrite E2 in Hdr; injection Hdr as <-
      end.
      cbn [val post log]. split.
      { unfold get. cbn. apply lookup_total_insert_eq. }
      repeat split; auto.
      intros a Ha. unfold get. cbn.
      now rewrite !lookup_total_insert_ne by done. }
  destruct Hgoal as (Hv & Hrest). split; [exact Hv|]. split; [|exact Hrest].
  intros Ho. rewrite Hv. destruct ndebug; [reflexivity|].
  now rewrite to_int_small.
Qed.

(** ** The end of the heap *)

Definition set_is_destroying (b : bool) (h : deferred_heap) : deferred_heap :=
  {| pages := pages h; roots := roots h; dtors := dtors h;
     is_destroying := b;
     collect_before_expand := collect_before_expand h;
     memory := memory h |}.

(** [~deferred_heap()], up to the destruction of the members (which gives
    the pages back) *)
Definition heap_dtor : M unit :=
  modify (set_is_destroying true);;
  rs ← gets roots;
  for_each (elements rs) (fun tp => reset tp;; emit (EvReset tp));;
  pgs ← gets pages;
  for_each pgs (fun pg =>
    for_each (deferred_ptrs pg) (fun dp =>
      reset (nr_p dp);; emit (EvReset (nr_p dp))));;
  run_all.

(** [get_collect_before_expand()] *)
Definition get_collect_before_expand : M bool := gets collect_before_expand.

Lemma bind_Ok_log {A B} (m : M A) (f : A -> M B) h a h' l :
  m h = Ok (Out a h' l) ->
  (m ≫= f) h
  = match f a h' with
    | Ok o => Ok (Out (val o) (post o) (l ++ log o))
    | Fatal s => Fatal s
    | Timeout => Timeout
    end.
Proof. unfold mbind, M_bind. now intros ->. Qed.

Lemma reset_all_run l : forall h,
  for_each l (fun tp => reset tp;; emit (EvReset tp)) h
  = Ok (Out tt (null_all l h) (EvReset <$> l)).
Proof.
  induction l as [|a l IH]; intros h; cbn [for_each].
  - now rewrite null_all_nil.
  - erewrite bind_Ok_intro; [|reflexivity|apply IH].
    reflexivity.
Qed.

Lemma reset_records_run dps h :
  for_each dps (fun dp => reset (nr_p dp);; emit (EvReset (nr_p dp))) h
  = Ok (Out tt (null_all (nr_p <$> dps) h) (EvReset <$> (nr_p <$> dps))).
Proof.
  revert h. induction dps as [|dp dps IH]; intros h; cbn [for_each].
  - now rewrite null_all_nil.
  - erewrite bind_Ok_intro; [|reflexivity|apply IH].
    reflexivity.
Qed.

Lemma reset_pages_run pgs : forall h,
  for_each pgs (fun pg =>
    for_each (deferred_ptrs pg) (fun dp =>
      reset (nr_p dp);; emit (EvReset (nr_p dp)))) h
  = Ok (Out tt (null_all (nr_p <$> records pgs) h)
            (EvReset <$> (nr_p <$> records pgs))).
Proof.
  induction pgs as [|pg pgs IH]; intros h; cbn [for_each].
  - now rewrite null_all_nil.
  - erewrite bind_Ok_intro; [|apply reset_records_run|apply IH].
    cbn [val post log]. unfold records. cbn.
    now rewrite !fmap_app, null_all_app.
Qed.

(** the tracked pointers the heap has on record, roots first *)
Definition recorded (h : deferred_heap) : list addr :=
  elements (roots h) ++ (nr_p <$> records (pages h)).

Lemma elem_of_recorded h tp : tp ∈ recorded h <-> registered h tp.
Proof.
  unfold recorded, registered. rewrite elem_of_app, elem_of_elements.
  rewrite list_elem_of_fmap. split.
  - intros [Hr|(r & -> & Hr)]; [now left|right; eauto].
  - intros [Hr|(r & Hr & <-)]; [now left|right; eauto].
Qed.

(** X8. The destructor of the heap, whenever it returns, has taken
    these steps and no others, in this order: the reset of every root,
    the reset of every non-root tracked pointer on record, and then, for
    every entry of the registry in registry order, the destructor call
    on each of its elements. So every tracked pointer the heap knows of
    reads null before the first destructor runs, and its heap is marked
    as being destroyed; the registry is empty at the end. And the
    destructor of the heap returns when the destructors of the objects
    do. (Entries that fit the address space; destructors that leave the
    registry itself alone, which the loop of [run_all] walks while they
    run.) *)
Theorem heap_dtor_resets_then_destroys (h : deferred_heap) :
  Forall fits (dtors h) ->
  (forall f x h1 h2, destroy_body f x h1 = Ok h2 -> dtors h2 = dtors h1) ->
  let h1 := null_all (recorded h) (set_is_destroying true h) in
  (forall tp, registered h tp -> get tp h1 = null) /\
  is_destroying h1 = true /\
  (forall o, heap_dtor h = Ok o ->
     exists l,
       log o = (EvReset <$> recorded h) ++ l /\
       Forall is_destroy l /\
       destroy_calls l = dtors h ≫= calls_of /\
       (forall f x before, EvDestroy f x before ∈ take 1 l -> before = h1) /\
       dtors (post o) = []) /\
  ((forall f x h', exists h'', destroy_body f x h' = Ok h'') ->
   exists o, heap_dtor h = Ok o).
Proof.
  intros Hfit _ h1.
  assert (Erun :
            heap_dtor h
            = match for_each (dtors h) destroy_elements h1 with
              | Ok o => Ok (Out tt (set_dtors (fun _ => []) (post o))
                                (((EvReset <$> recorded h) ++ log o) ++ []))
              | Fatal s => Fatal s
              | Timeout => Timeout
              end).
  { unfold heap_dtor.
    erewrite bind_Ok_l by reflexivity.
    erewrite bind_Ok_l by reflexivity.
    rewrite (bind_Ok_log _ _ _ _ _ _ (reset_all_run _ _)).
    erewrite bind_Ok_l by reflexivity.
    rewrite (bind_Ok_log _ _ _ _ _ _ (reset_pages_run _ _)).
    change (pages (null_all _ _)) with (pages h).
    change (roots (set_is_destroying true h)) with (roots h).
    rewrite <- null_all_app. fold (recorded h). fold h1.
    unfold run_all. erewrite bind_Ok_l by reflexivity.
    change (dtors h1) with (dtors h).
    unfold mbind, M_bind, modify.
    destruct (for_each (dtors h) destroy_elements h1) as [o1| |];
      cbn [val post log]; [|reflexivity..].
    do 2 f_equal. unfold recorded. rewrite fmap_app, <- !app_assoc.
    reflexivity. }
  split; [|split; [reflexivity|split]].
  - intros tp Hreg. unfold h1. rewrite get_null_all.
    rewrite decide_True; [reflexivity|]. now apply elem_of_recorded.
  - intros o Ho. rewrite Erun in Ho.
    destruct (for_each (dtors h) destroy_elements h1) as [o1| |] eqn:E1;
      try discriminate.
    injection Ho as <-. cbn [log post].
    apply for_each_destroy_elements in E1 as (Hc & Hd & Hf); [|exact Hfit].
    exists (log o1). rewrite app_nil_r. split_and!; auto.
    intros f x before Hin. destruct (log o1) as [|e l]; [inversion Hin|].
    cbn in Hin. apply list_elem_of_singleton in Hin. subst e. exact Hf.
  - intros Hret. rewrite Erun.
    destruct (for_each_returns (dtors h) destroy_elements) with (h := h1)
      as [o1 E1].
    { intros d h0. unfold destroy_elements. apply for_each_returns.
      intros i h2. apply call_destroy_returns. exact Hret. }
    rewrite E1. eauto.
Qed.

Lemma allocate_while_destroying fuel T n slot h :
  ndebug = false -> collect_before_expand h = false ->
  is_destroying h = true ->
  allocate fuel T n slot h
    = Fatal "failed to allocate but didn't throw an exception" \/
  allocate fuel T n slot h
    = Fatal "cannot allocate new objects on a deferred_heap that is being destroyed".
Proof.
  intros Hd Hcbe Hdes. unfold allocate.
  destruct (allocate_from_existing_pages_run T n h) as (p0 & pgs0 & E0 & _).
  rewrite (bind_Ok_l _ _ _ _ _ E0).
  erewrite bind_Ok_l by reflexivity.
  cbn [collect_before_expand set_pages]. rewrite Hcbe, andb_false_r.
  erewrite bind_Ok_l by reflexivity.
  assert (Hthird : exists p2 pgs2,
            (if p0 =? null then allocate_from_new_page T n else mret p0)
              (set_pages (fun _ => pgs0) h)
            = Ok (Out p2 (set_pages (fun _ => pgs2) h) [])).
  { destruct (p0 =? null).
    - destruct (allocate_from_new_page_run T n
                  (set_pages (fun _ => pgs0) h)) as (p1 & pgs1 & E1 & _).
      exists p1, pgs1. exact E1.
    - exists p0, pgs0. reflexivity. }
  destruct Hthird as (p2 & pgs2 & E2).
  rewrite (bind_Ok_l _ _ _ _ _ E2).
  destruct (p2 =? null) eqn:Ep2.
  { left. apply bind_Fatal_l. unfold assert. now rewrite Hd. }
  erewrite bind_Ok_l by apply assert_true.
  unfold deferred_ptr_ctor, set.
  erewrite bind_Ok_l by reflexivity.
  right. unfold enregister. erewrite bind_Ok_l by reflexivity.
  apply bind_Fatal_l. cbn. rewrite Hdes. unfold assert. now rewrite Hd.
Qed.

(** X9. On a heap that is being destroyed (inside the destructors that
    [~deferred_heap()] runs), the destructor of a tracked pointer does
    nothing, registered or not; and in a debug build no tracked pointer
    can be constructed and nothing can be allocated: [enregister] stops
    at its assertion, and so do [make] and [make_array], unless
    [allocate] has already stopped at its own
    ([collect_before_expand] off). *)
Theorem nothing_new_while_destroying (h : deferred_heap) :
  is_destroying h = true ->
  (forall tp, deferred_ptr_dtor tp h = Ok (Out tt h [])) /\
  (ndebug = false ->
   (forall tp p,
      deferred_ptr_ctor tp p h
      = Fatal "cannot allocate new objects on a deferred_heap that is being destroyed") /\
   (collect_before_expand h = false ->
    forall fuel T slot,
      let stops (r : result (out unit)) :=
        r = Fatal "failed to allocate but didn't throw an exception" \/
        r = Fatal "cannot allocate new objects on a deferred_heap that is being destroyed" in
      stops (make fuel T slot h) /\
      forall n, stops (make_array fuel T n slot h))).
Proof.
  intros Hdes. split.
  - intros tp. unfold deferred_ptr_dtor, deregister.
    erewrite bind_Ok_l by reflexivity. now rewrite Hdes.
  - intros Hd. split.
    + intros tp p. unfold deferred_ptr_ctor, set, enregister.
      erewrite bind_Ok_l by reflexivity.
      erewrite bind_Ok_l by reflexivity.
      apply bind_Fatal_l. cbn. rewrite Hdes. unfold assert. now rewrite Hd.
    + intros Hcbe fuel T slot stops. split.
      * unfold stops, make.
        destruct (allocate_while_destroying fuel T 1 slot h Hd Hcbe Hdes)
          as [E|E]; [left|right]; now apply bind_Fatal_l.
      * intros n. unfold stops, make_array.
        destruct (allocate_while_destroying fuel T n slot h Hd Hcbe Hdes)
          as [E|E]; [left|right]; now apply bind_Fatal_l.
Qed.

(** ** The registry after a construction *)

Lemma for_each_keeps {A B} (g : deferred_heap -> B) (l : list A)
    (body : A -> M unit) :
  (forall a h o, body a h = Ok o -> g (post o) = g h) ->
  forall h o, for_each l body h = Ok o -> g (post o) = g h.
Proof.
  intros Hb. induction l as [|a l IH]; intros h o Hr.
  - rewrite for_each_nil in Hr. now injection Hr as <-.
  - apply for_each_cons_Ok in Hr as (o1 & o2 & H1 & H2 & ->). cbn [post].
    rewrite (IH _ _ H2). eauto.
Qed.

Lemma destroy_elements_keeps_dtors d h o :
  (forall f x h1 h2, destroy_body f x h1 = Ok h2 -> dtors h2 = dtors h1) ->
  destroy_elements d h = Ok o -> dtors (post o) = dtors h.
Proof.
  intros Hk. unfold destroy_elements. apply for_each_keeps.
  intros i h0 o0 Hc. inv_M. eauto.
Qed.

Lemma filter_out_in begin end_ (ds : list destructor) :
  filter (fun d => in_range begin end_ d = true)
         (filter (fun d => in_range begin end_ d = false) ds) = [].
Proof.
  induction ds as [|d ds IH]; [reflexivity|].
  rewrite (filter_cons (fun d => in_range begin end_ d = false)).
  destruct (decide (in_range begin end_ d = false)) as [E|NE]; [|exact IH].
  rewrite filter_cons, decide_False by congruence. exact IH.
Qed.

(** X10. [construct<T>(p)] replaces what the registry of destructors
    held for the bytes of the new object. Whenever it returns (the
    destructors and the constructor it runs leaving the registry alone):
    the registry is the old one less the entries whose base lies in
    [[p, p + sizeof(T))], in their order, followed by the entry
    [{p, sizeof(T), 1}] of the new object unless [T] is trivially
    destructible; so exactly that one entry has its base in these
    bytes, and [destroy(p)] on the new object passes its assertion (and
    does nothing, destruction being deferred). *)
Theorem construct_replaces_entries (T : ctype) (p : addr)
    (h : deferred_heap) (o : out unit) :
  (forall f x h1 h2, destroy_body f x h1 = Ok h2 -> dtors h2 = dtors h1) ->
  (forall T' x h1 h2, construct_body T' x h1 = Ok h2 -> dtors h2 = dtors h1) ->
  0 < sizeof T ->
  construct T p h = Ok o ->
  let new := {| d_p := p; d_size := sizeof T; d_n := 1;
                d_destroy := dtor T |} in
  let here d := in_range p (p + sizeof T) d in
  dtors (post o)
    = filter (fun d => here d = false) (dtors h)
      ++ (if trivially_destructible T then [] else [new]) /\
  filter (fun d => here d = true) (dtors (post o))
    = (if trivially_destructible T then [] else [new]) /\
  destroy T p (post o) = Ok (Out tt (post o) []).
Proof.
  intros Hkd Hkc Hs Hc new here.
  assert (Hd : dtors (post o)
               = filter (fun d => here d = false) (dtors h)
                 ++ (if trivially_destructible T then [] else [new])).
  { unfold construct, destroy_objects, run in Hc. inv_M.
    match goal with
    | Hk : context [run_scan] |- _ => rewrite run_scan_filter in Hk
    end.
    inv_M.
    match goal with
    | Hf : for_each _ destroy_elements _ = Ok ?o1 |- _ =>
        pose proof (for_each_keeps dtors _ destroy_elements
                      (fun d h0 o0 Hd0 =>
                         destroy_elements_keeps_dtors d h0 o0 Hkd Hd0)
                      _ _ Hf) as Hrun;
          cbn [dtors set_dtors] in Hrun
    end.
    match goal with
    | Hcc : construct_body _ _ _ = Ok ?h2 |- _ => apply Hkc in Hcc; rename Hcc into Hcon
    end.
    unfold store in *. inv_M.
    destruct (trivially_destructible T); inv_M; cbn [dtors set_dtors post];
      rewrite Hcon, Hrun; [now rewrite app_nil_r|reflexivity]. }
  split; [exact Hd|]. split.
  - rewrite Hd, filter_app. unfold here at 1 2. rewrite filter_out_in.
    destruct (trivially_destructible T); [reflexivity|]. cbn [app].
    rewrite filter_cons, decide_True; [reflexivity|].
    unfold here, in_range, new. cbn.
    apply andb_true_iff. split; [apply Z.leb_le|apply Z.ltb_lt]; lia.
  - unfold destroy. erewrite bind_Ok_l by reflexivity.
    apply assert_holds. unfold is_stored, id. rewrite Hd.
    destruct (trivially_destructible T); [now rewrite orb_true_r|].
    apply orb_true_iff. right. apply orb_true_iff. right.
    rewrite existsb_app. apply orb_true_iff. right. cbn.
    now rewrite Z.eqb_refl.
Qed.

(** ** What marking reaches *)

(** [reachable h i s]: the allocation that starts at location [s] of
    page [i] is reached from a root through tracked pointers that are
    not null. A root reaches the allocation it points into; a tracked
    pointer on the list of a page, lying in a reached allocation of that
    page, reaches the allocation it points into. Where a pointer points
    to ([target]) and where a tracked pointer lies ([home]) are as [mark]
    finds them. *)
Inductive reachable (h : deferred_heap) : nat -> nat -> Prop :=
| reach_root tp i s :
    tp ∈ roots h -> get tp h <> null ->
    target (get tp h) (pages h) = Some (i, s) ->
    reachable h i s
| reach_step i s pg r i' s' :
    reachable h i s ->
    pages h !! i = Some pg -> r ∈ deferred_ptrs pg -> home pg r = s ->
    get (nr_p r) h <> null ->
    target (get (nr_p r) h) (pages h) = Some (i', s') ->
    reachable h i' s'.

(** the marks that [pgs] carries are on allocations reachable in [h0] *)
Definition reached_only (h0 : deferred_heap) (pgs : list dhpage) : Prop :=
  forall i pg, pgs !! i = Some pg ->
    (forall s, live_starts pg !! s = Some true -> reachable h0 i s) /\
    (forall r, r ∈ deferred_ptrs pg -> level r <> 0 ->
               reachable h0 i (home pg r)).

Lemma reachable_via h hc i r i' s' :
  same_skel h hc -> reached_only h (pages hc) ->
  in_page (pages hc) i r -> level r <> 0 ->
  get (nr_p r) hc <> null ->
  target (get (nr_p r) hc) (pages hc) = Some (i', s') ->
  reachable h i' s'.
Proof.
  intros Hsk Hro (pgc & Hic & Hrc) Hl Hx Ht.
  destruct (Hro i pgc Hic) as [_ Hrec]. specialize (Hrec r Hrc Hl).
  pose proof (same_skel_get _ _ (nr_p r) Hsk) as Hget.
  destruct Hsk as (_ & _ & Hsh).
  destruct (same_shape_in_page _ _ i r (same_shape_sym _ _ Hsh))
    as (r0 & (pg0 & Hi0 & Hr0) & Hn); [exists pgc; done|].
  pose proof (same_shape_page _ _ _ _ _ Hsh Hi0 Hic) as Hpage.
  rewrite (target_shape _ _ _ Hsh), Hget in Ht. rewrite Hget in Hx.
  apply (reach_step h i (home pgc r) pg0 r0); auto.
  - unfold home. now rewrite Hn, Hpage.
  - now rewrite Hn.
  - now rewrite Hn.
Qed.

Lemma reached_apply_marks h hc lvl xs :
  lvl <> 0 -> reached_only h (pages hc) ->
  (forall x i s, x ∈ xs -> x <> null ->
     target x (pages hc) = Some (i, s) -> reachable h i s) ->
  reached_only h (apply_marks lvl xs (pages hc)).
Proof.
  intros Hl Hro Hxs i pg' Hi'.
  assert (Hlt : (i < length (pages hc))%nat).
  { rewrite <- (apply_marks_length lvl xs). eapply lookup_lt_Some; eauto. }
  destruct (lookup_lt_is_Some_2 _ _ Hlt) as [pg Hi].
  rewrite (apply_marks_lookup _ _ _ _ _ Hi) in Hi'. injection Hi' as <-.
  destruct (Hro i pg Hi) as [Hbits Hrecs]. split.
  - intros s Hs. rewrite page_after_bits in Hs.
    destruct (decide (s ∈ hits_of xs (pages hc) i)) as [Hin|Hnin]; [|auto].
    apply elem_of_hits_of in Hin as (x & Hx & Hnz & Ht). eauto.
  - intros r' Hr' Hlvl.
    apply elem_of_page_after in Hr' as (r & Hr & Hhome & Hlev); [|done].
    rewrite Hhome.
    destruct ((level r =? 0)
              && bool_decide (home pg r ∈ hits_of xs (pages hc) i)) eqn:E.
    + apply andb_true_iff in E as [_ E]. apply bool_decide_eq_true in E.
      apply elem_of_hits_of in E as (x & Hx & Hnz & Ht). eauto.
    + apply Hrecs; [done|]. congruence.
Qed.

Lemma mark_roots_closed h o :
  mark_roots h = Ok o ->
  o = Out tt (set_pages (fun _ => apply_marks 1 (root_marks h (elements (roots h)))
                                    (pages h)) h) [].
Proof.
  unfold mark_roots. intros Hm.
  rewrite (bind_Ok_l _ _ _ _ _ (eq_refl : gets roots h = Ok (Out (roots h) h [])))
    in Hm.
  pose proof (mark_list_checks _ _ _ _ Hm) as Hc.
  rewrite (mark_list_run _ _ _ Hc) in Hm. now injection Hm as <-.
Qed.

Lemma mark_loop_reached h fuel : forall lvl hc o,
  1 <= lvl -> lvl + Z.of_nat fuel < SizeT.modulus ->
  mark_loop fuel lvl hc = Ok o ->
  same_skel h hc -> reached_only h (pages hc) ->
  same_skel h (post o) /\ reached_only h (pages (post o)).
Proof.
  induction fuel as [|fuel IH]; intros lvl hc o Hl Hb Hrun Hsk Hro;
    [discriminate|].
  destruct (level_steps lvl fuel Hl Hb) as (HL & Hd0 & Hd).
  cbn [mark_loop] in Hrun. rewrite HL in Hrun.
  apply bind_Ok in Hrun as (oP & o2 & EP & Hrest & ->). cbn [post].
  apply mark_pass_closed in EP; [|done|done]. cbn zeta in EP. subst oP.
  cbn [val post] in Hrest.
  set (xs := pass_marks (lvl + 1) hc (record_indices (pages hc))) in *.
  set (hc' := set_pages (fun _ => apply_marks (lvl + 1) xs (pages hc)) hc) in *.
  assert (Hsk' : same_skel h hc').
  { eapply same_skel_trans; [exact Hsk|].
    apply same_skel_set_pages, apply_marks_shape. }
  assert (Hro' : reached_only h (pages hc')).
  { apply reached_apply_marks; [lia|exact Hro|].
    intros x i s Hx Hnz Ht.
    apply elem_of_pass_marks in Hx as (i0 & r & Hin & Hlv & ->).
    apply (reachable_via h hc i0 r i s Hsk Hro Hin);
      [congruence|exact Hnz|exact Ht]. }
  destruct (bool_decide (xs = [])).
  - apply ret_Ok in Hrest as ->. auto.
  - apply bind_Ok in Hrest as (oT & o3 & ET & Hret & ->).
    apply ret_Ok in Hret as ->. cbn [post].
    eapply IH; [| |exact ET|exact Hsk'|exact Hro']; lia.
Qed.

Lemma reached_only_reset h :
  reached_only h (reset_marks <$> pages h).
Proof.
  intros i pg Hi. rewrite list_lookup_fmap in Hi.
  destruct (pages h !! i) as [pg0|]; [|discriminate]. injection Hi as <-.
  split.
  - intros s Hs. cbn in Hs. apply lookup_replicate in Hs as [? _].
    discriminate.
  - intros r Hr Hl. cbn in Hr. apply list_elem_of_fmap in Hr as (r0 & -> & _).
    now cbn in Hl.
Qed.

Lemma collect_mark_reached fuel h o :
  Z.of_nat fuel + 1 < SizeT.modulus ->
  collect_mark fuel h = Ok o ->
  same_skel h (post o) /\ reached_only h (pages (post o)).
Proof.
  intros Hb Hc. unfold collect_mark in Hc.
  apply bind_Ok in Hc as (o0 & o1 & E0 & Hc & ->). apply modify_Ok in E0 as ->.
  cbn [val post] in Hc.
  apply bind_Ok in Hc as (oR & o2 & ER & EL & ->). cbn [post].
  apply mark_roots_closed in ER as ->. cbn [val post] in EL.
  set (h0 := set_pages (fmap reset_marks) h) in *.
  assert (Hsk0 : same_skel h h0).
  { apply same_skel_set_pages, reset_shape. }
  set (xs := root_marks h0 (elements (roots h0))) in *.
  set (hR := set_pages (fun _ => apply_marks 1 xs (pages h0)) h0) in *.
  assert (HskR : same_skel h hR).
  { eapply same_skel_trans; [exact Hsk0|].
    apply same_skel_set_pages, apply_marks_shape. }
  assert (HroR : reached_only h (pages hR)).
  { apply reached_apply_marks; [lia|apply reached_only_reset|].
    intros x i s Hx Hnz Ht. unfold xs, root_marks in Hx.
    apply list_elem_of_fmap in Hx as (tp & -> & Htp).
    apply elem_of_elements in Htp.
    change (get tp h0) with (get tp h) in *.
    change (pages h0) with (reset_marks <$> pages h) in Ht.
    rewrite (target_shape _ _ _ (reset_shape (pages h))) in Ht.
    eapply reach_root; eauto. }
  eapply mark_loop_reached; [| |exact EL|exact HskR|exact HroR]; lia.
Qed.

(** what [collect_mark] leaves for an allocation it has reached *)
Definition marked_at (h : deferred_heap) (i s : nat) : Prop :=
  exists pg, pages h !! i = Some pg /\
    ((s < length (live_starts pg))%nat -> live_starts pg !! s = Some true) /\
    (forall r, r ∈ deferred_ptrs pg -> home pg r = s -> level r <> 0).

Lemma collect_mark_reaches fuel h o i s :
  Z.of_nat (nonroot_count h) + 2 < SizeT.modulus ->
  (nonroot_count h < fuel)%nat ->
  collect_mark fuel h = Ok o ->
  reachable h i s -> marked_at (post o) i s.
Proof.
  intros Hb Hfuel Hc Hreach.
  destruct (collect_mark_spec fuel h Hb Hfuel) as [_ Hspec].
  destruct (Hspec _ Hc) as (_ & _ & Hrel & Hroots & Hrecs).
  assert (Hsh : same_shape (pages h) (pages (post o))).
  { eapply same_shape_trans; [apply reset_shape|].
    apply (heap_rel_shape _ _ _ Hrel). }
  assert (Hget : forall tp, get tp (post o) = get tp h).
  { intros tp. now rewrite (heap_rel_get _ _ _ tp Hrel). }
  induction Hreach as [tp i s Htp Hnz Ht|i s pg r i' s' _ IH Hi Hr Hhome Hnz Ht].
  - destruct (Hroots tp Htp) as [Hnull|Hm]; [contradiction|].
    apply Hm. now rewrite (target_shape _ _ _ Hsh).
  - destruct IH as (pg' & Hi' & _ & Hlev).
    assert (Hin : in_page (pages h) i r) by (exists pg; done).
    destruct (same_shape_in_page _ _ i r Hsh Hin)
      as (r' & (pg'' & Hi'' & Hr') & Hn).
    rewrite Hi' in Hi''. injection Hi'' as <-.
    pose proof (same_shape_page _ _ _ _ _ Hsh Hi Hi') as Hpage.
    assert (Hl' : level r' <> 0).
    { apply Hlev; [exact Hr'|]. unfold home in *. now rewrite Hn, Hpage. }
    assert (Hlk : exists j, lookup_record i j (pages (post o)) = Some r')
      by (apply in_page_lookup; exists pg'; done).
    destruct Hlk as [j Hlk].
    destruct (Hrecs i j r' Hlk Hl') as [Hnull|Hm].
    + rewrite Hget, Hn in Hnull. contradiction.
    + apply Hm. rewrite Hget, Hn. now rewrite (target_shape _ _ _ Hsh).
Qed.

(** X11. Marking reaches every reachable allocation. After phases 1
    and 2 of [collect()], an allocation that can be reached from a root
    through tracked pointers has its bit in [live_starts] set, and every
    tracked pointer on record that lies in it has a level other than 0:
    phase 3 will not reset a tracked pointer of a reachable object, and
    (the bitmaps having the size of their pages) phase 4 will not take
    the allocation for one to destroy and deallocate. *)
Theorem marking_reaches_all (fuel : nat) (h : deferred_heap)
    (o : out nat) (i s : nat) :
  Z.of_nat (nonroot_count h) + 2 < SizeT.modulus ->
  (nonroot_count h < fuel)%nat ->
  collect_mark fuel h = Ok o ->
  reachable h i s ->
  (exists pg, pages (post o) !! i = Some pg /\
     ((s < length (live_starts pg))%nat ->
      live_starts pg !! s = Some true) /\
     (forall r, r ∈ deferred_ptrs pg -> home pg r = s -> level r <> 0)) /\
  (bitmaps_sized h -> ~ condemned (post o) i s).
Proof.
  intros Hb Hfuel Hc Hreach.
  pose proof (collect_mark_reaches fuel h o i s Hb Hfuel Hc Hreach)
    as (pg & Hi & Hbit & Hlev).
  split.
  - exists pg. auto.
  - intros Hsz (pg' & Hi' & Hs & _ & Hbit').
    rewrite Hi in Hi'. injection Hi' as <-.
    destruct (collect_mark_spec fuel h Hb Hfuel) as [_ Hspec].
    destruct (Hspec _ Hc) as (_ & _ & Hrel & _).
    assert (Hsz2 : bitmaps_sized (post o)).
    { eapply bitmaps_sized_rel; [exact Hrel|]. now apply bitmaps_sized_reset. }
    unfold bitmaps_sized in Hsz2. rewrite Forall_forall in Hsz2.
    assert (Hlen : length (live_starts pg) = page_locations (page pg))
      by (apply Hsz2; eapply list_elem_of_lookup_2; eauto).
    unfold live_bit in Hbit'. rewrite Hbit in Hbit' by lia. discriminate.
Qed.

(** X12. Marking reaches nothing else. After phases 1 and 2 of
    [collect()], a bit of [live_starts] is set only for an allocation
    that can be reached from a root, and a tracked pointer on record has
    a level other than 0 only if it lies in one: an allocation that
    nothing reachable points to, a cycle of garbage included, is left
    for phase 4 to destroy and deallocate. *)
Theorem marking_reaches_only (fuel : nat) (h : deferred_heap)
    (o : out nat) (i : nat) (pg : dhpage) :
  Z.of_nat fuel + 1 < SizeT.modulus ->
  collect_mark fuel h = Ok o ->
  pages (post o) !! i = Some pg ->
  (forall s, live_starts pg !! s = Some true -> reachable h i s) /\
  (forall r, r ∈ deferred_ptrs pg -> level r <> 0 ->
             reachable h i (home pg r)) /\
  (forall s, (s < page_locations (page pg))%nat ->
     is_start (page_location_info (page pg) s) = true ->
     ~ reachable h i s -> condemned (post o) i s).
Proof.
  intros Hb Hc Hi.
  destruct (collect_mark_reached fuel h o Hb Hc) as [_ Hro].
  destruct (Hro i pg Hi) as [Hbits Hrecs].
  split; [exact Hbits|]. split; [exact Hrecs|].
  intros s Hs Hst Hn. exists pg. split; [exact Hi|].
  split; [exact Hs|]. split; [exact Hst|].
  unfold live_bit. destruct (live_starts pg !! s) as [[|]|] eqn:E;
    [|reflexivity..].
  exfalso. now apply Hn, Hbits.
Qed.

(** X13. [collect()] resets exactly the tracked pointers of unreachable
    objects. Whenever it returns, the tracked pointers it has reset are
    those on the list of a page that lie in an allocation no root
    reaches, and no others: no tracked pointer is reset for being a
    root or for lying in a reachable allocation. *)
Theorem collect_resets_unreachable (fuel : nat) (h : deferred_heap)
    (o : out unit) (tp : addr) :
  Z.of_nat fuel + 1 < SizeT.modulus ->
  Z.of_nat (nonroot_count h) + 2 < SizeT.modulus ->
  (nonroot_count h < fuel)%nat ->
  collect fuel h = Ok o ->
  (EvReset tp ∈ log o <->
   exists i pg r, pages h !! i = Some pg /\ r ∈ deferred_ptrs pg /\
                  nr_p r = tp /\ ~ reachable h i (home pg r)).
Proof.
  intros Hbf Hb Hfuel Hc. unfold collect in Hc.
  apply bind_Ok in Hc as (om & o1 & Hmark & Hc & ->).
  apply bind_Ok in Hc as (on & os & Hnull & Hsweep & ->).
  apply null_unreached_Ok in Hnull as [Hp3 Hl3].
  destruct (collect_mark_spec fuel h Hb Hfuel) as [_ Hspec].
  destruct (Hspec _ Hmark) as (Hl & _ & Hrel & _).
  apply (sweep_pages_inv (fun _ => True)) in Hsweep as [_ Hsw]; auto.
  cbn [log]. rewrite Hl, Hl3. cbn [app].
  assert (Hsh : same_shape (pages h) (pages (post om))).
  { eapply same_shape_trans; [apply reset_shape|].
    apply (heap_rel_shape _ _ _ Hrel). }
  destruct (collect_mark_reached fuel h om Hbf Hmark) as [_ Hro].
  assert (Hin : EvReset tp ∈ (EvReset <$> unreached (pages (post om)))
                              ++ log os
                <-> tp ∈ unreached (pages (post om))).
  { rewrite elem_of_app. split.
    - intros [Hx|Hx].
      + apply list_elem_of_fmap in Hx as (tp' & [= ->] & Hx). exact Hx.
      + exfalso. unfold sweep_steps in Hsw. rewrite Forall_forall in Hsw.
        exact (Hsw _ Hx).
    - intros Hx. left. apply list_elem_of_fmap. eauto. }
  rewrite Hin, elem_of_unreached. split.
  - intros (r' & Hr' & Hl0 & Hn').
    apply records_lookup in Hr' as (i & j & Hlk).
    assert (Hin' : in_page (pages (post om)) i r')
      by (apply in_page_lookup; eauto).
    destruct (same_shape_in_page _ _ i r' (same_shape_sym _ _ Hsh) Hin')
      as (r & (pg & Hi & Hr) & Hn).
    exists i, pg, r. split; [exact Hi|]. split; [exact Hr|].
    split; [congruence|]. intros Hreach.
    destruct (collect_mark_reaches fuel h om i _ Hb Hfuel Hmark Hreach)
      as (pg' & Hi' & _ & Hlev).
    destruct Hin' as (pg'' & Hi'' & Hr'').
    rewrite Hi' in Hi''. injection Hi'' as <-.
    apply (Hlev r' Hr''); [|exact Hl0].
    pose proof (same_shape_page _ _ _ _ _ Hsh Hi Hi') as Hpage.
    unfold home. now rewrite Hpage, Hn.
  - intros (i & pg & r & Hi & Hr & Hn & Hnr).
    assert (Hin' : in_page (pages h) i r) by (exists pg; done).
    destruct (same_shape_in_page _ _ i r Hsh Hin')
      as (r' & (pg' & Hi' & Hr') & Hn').
    exists r'. split.
    { unfold records. apply list_elem_of_bind. exists pg'. split; [exact Hr'|].
      eapply list_elem_of_lookup_2; eauto. }
    split; [|congruence].
    destruct (decide (level r' = 0)) as [E|NE]; [exact E|exfalso].
    apply Hnr. destruct (Hro i pg' Hi') as [_ Hrecs].
    pose proof (same_shape_page _ _ _ _ _ Hsh Hi Hi') as Hpage.
    replace (home pg r) with (home pg' r').
    + now apply Hrecs.
    + unfold home. now rewrite Hpage, Hn'.
Qed.

(** ** Which page serves an allocation *)

(** page [pg] cannot serve [allocate<T>(n)] *)
Definition refuses (T : ctype) (n : Z) (pg : dhpage) : Prop :=
  (page_allocate (page pg) T n).1 = null.

Lemma allocate_from_pages_length T n pgs :
  length (allocate_from_pages T n pgs).2 = length pgs.
Proof.
  induction pgs as [|pg pgs IH]; [reflexivity|].
  cbn [allocate_from_pages].
  destruct (page_allocate (page pg) T n) as [p g].
  destruct (p =? null); [|reflexivity].
  destruct (allocate_from_pages T n pgs) as [p' rest']. cbn in *.
  now rewrite IH.
Qed.

Lemma allocate_from_pages_refused T n pgs :
  (forall pg, pg ∈ pgs -> refuses T n pg) ->
  (allocate_from_pages T n pgs).1 = null.
Proof.
  induction pgs as [|pg pgs IH]; intros Hr; [reflexivity|].
  cbn [allocate_from_pages].
  pose proof (Hr pg ltac:(left)) as Hpg. unfold refuses in Hpg.
  destruct (page_allocate (page pg) T n) as [p g]. cbn in Hpg. subst p.
  cbn. specialize (IH (fun pg' Hin => Hr pg' ltac:(right; exact Hin))).
  now destruct (allocate_from_pages T n pgs).
Qed.

(** the loop of [allocate_from_existing_pages] stops at the first page
    that serves the request, and does not visit the pages after it *)
Lemma allocate_from_pages_first T n pgs : forall i pg,
  pgs !! i = Some pg -> ~ refuses T n pg ->
  (forall k pg', (k < i)%nat -> pgs !! k = Some pg' -> refuses T n pg') ->
  (allocate_from_pages T n pgs).1 = (page_allocate (page pg) T n).1 /\
  (allocate_from_pages T n pgs).2 !! i
    = Some (set_page (fun _ => (page_allocate (page pg) T n).2) pg) /\
  forall k, (i < k)%nat -> (allocate_from_pages T n pgs).2 !! k = pgs !! k.
Proof.
  induction pgs as [|pg0 pgs IH]; intros i pg Hi Hserve Hbefore;
    [discriminate|].
  destruct i as [|i]; cbn [allocate_from_pages].
  - cbn in Hi. injection Hi as ->. unfold refuses in Hserve.
    destruct (page_allocate (page pg) T n) as [p g]. cbn in *.
    apply Z.eqb_neq in Hserve. rewrite Hserve. cbn.
    split; [reflexivity|]. split; [reflexivity|].
    intros [|k] Hk; [lia|reflexivity].
  - cbn in Hi.
    pose proof (Hbefore 0%nat pg0 ltac:(lia) eq_refl) as H0.
    unfold refuses in H0.
    destruct (page_allocate (page pg0) T n) as [p0 g0]. cbn in H0. subst p0.
    cbn [Z.eqb null].
    destruct (IH i pg Hi Hserve) as (Hp & Hl & Hlater).
    { intros k pg' Hlt Hk. apply (Hbefore (S k)); [lia|exact Hk]. }
    destruct (allocate_from_pages T n pgs) as [p' rest']. cbn in *.
    split; [exact Hp|]. split; [exact Hl|].
    intros [|k] Hk; [lia|]. cbn. apply Hlater. lia.
Qed.


(** the end of [allocate]: the assertion, and the tracked pointer built
    from the raw pointer *)
Lemma allocate_end slot p hX o :
  (assert (negb (p =? null))
     "failed to allocate but didn't throw an exception";;
   deferred_ptr_ctor slot p) hX = Ok o ->
  log o = [] /\ registered (post o) slot /\ dtors (post o) = dtors hX /\
  get slot (post o) = p /\
  length (pages (post o)) = length (pages hX) /\
  page <$> pages (post o) = page <$> pages hX.
Proof.
  intros Ha. apply bind_Ok in Ha as (oa & oc & Eas & Ector & ->).
  apply assert_Ok in Eas as [-> _]. cbn [val post log] in *.
  unfold deferred_ptr_ctor, set in Ector.
  erewrite bind_Ok_l in Ector by reflexivity.
  pose proof (enregister_Ok _ _ _ Ector) as (Hl & Hm & Hd & _).
  pose proof (enregister_registers _ _ _ Ector) as (Hreg & Hpg).
  cbn [pages dtors memory set_pages set_memory] in *.
  split; [exact Hl|]. split; [exact Hreg|]. split; [exact Hd|]. split.
  { unfold get. rewrite Hm. apply lookup_total_insert_eq. }
  split; [symmetry; eapply Forall2_length; eauto|].
  clear -Hpg. induction Hpg as [|pg pg' l l' E _ IH]; [reflexivity|].
  cbn. now rewrite E, IH.
Qed.

(** X14. [allocate<T>(n)] takes the pages in order and is served by the
    first one that can serve it: the pages after that one are not
    touched, no page is added, and no collection is started, whatever
    [collect_before_expand] says. A page is added, one, only when every
    page present has refused (here with [collect_before_expand] off).
    Whenever [allocate] returns, the tracked pointer it has built is on
    record. *)
Theorem allocate_first_fit (fuel : nat) (T : ctype) (n : Z) (slot : addr)
    (h : deferred_heap) (o : out unit) :
  allocate fuel T n slot h = Ok o ->
  registered (post o) slot /\
  (collect_before_expand h = false ->
   (forall pg, pg ∈ pages h -> refuses T n pg) ->
   log o = [] /\ dtors (post o) = dtors h /\
   length (pages (post o)) = S (length (pages h))) /\
  (forall i pg,
     pages h !! i = Some pg -> ~ refuses T n pg ->
     (forall k pg', (k < i)%nat -> pages h !! k = Some pg' ->
                    refuses T n pg') ->
     log o = [] /\ dtors (post o) = dtors h /\
     length (pages (post o)) = length (pages h) /\
     get slot (post o) = (page_allocate (page pg) T n).1 /\
     (page <$> pages (post o)) !! i = Some (page_allocate (page pg) T n).2 /\
     forall k, (i < k)%nat ->
       (page <$> pages (post o)) !! k = (page <$> pages h) !! k).
Proof.
  intros Ha. unfold allocate in Ha.
  set (r := allocate_from_pages T n (pages h)) in *.
  assert (E0 : allocate_from_existing_pages T n h
               = Ok (Out r.1 (set_pages (fun _ => r.2) h) [])).
  { unfold allocate_from_existing_pages. fold r. now destruct r. }
  rewrite (bind_Ok_l _ _ _ _ _ E0) in Ha.
  erewrite bind_Ok_l in Ha by reflexivity.
  cbn [collect_before_expand set_pages] in Ha.
  set (h1 := set_pages (fun _ => r.2) h) in *.
  destruct (Z.eqb_spec r.1 null) as [E|NE].
  - (* every page has refused *)
    split; [|split].
    + apply bind_Ok in Ha as (o1 & o2 & _ & Ha & ->).
      apply bind_Ok in Ha as (o3 & o4 & _ & Ha & ->).
      now apply allocate_end in Ha as (_ & Hreg & _).
    + intros Hcbe _. rewrite Hcbe in Ha. cbn [andb] in Ha.
      erewrite bind_Ok_l in Ha by reflexivity.
      rewrite E in Ha. cbn [Z.eqb null] in Ha.
      assert (E1 : exists p g,
                allocate_from_new_page T n h1
                = Ok (Out p (set_pages (fun _ => r.2 ++ [g]) h) [])).
      { unfold allocate_from_new_page.
        destruct (page_allocate (page (dhpage_ctor T n h1)) T n) as [p g].
        eexists _, _. reflexivity. }
      destruct E1 as (p & g & E1).
      rewrite (bind_Ok_l _ _ _ _ _ E1) in Ha.
      apply allocate_end in Ha as (Hl & _ & Hd & _ & Hlen & _).
      cbn [pages dtors set_pages] in *.
      split; [exact Hl|]. split; [exact Hd|].
      rewrite Hlen, length_app. cbn.
      unfold r. rewrite allocate_from_pages_length. lia.
    + intros i pg Hi Hserve Hbefore. exfalso.
      destruct (allocate_from_pages_first T n (pages h) i pg Hi Hserve Hbefore)
        as (Hp & _). fold r in Hp. apply Hserve. unfold refuses. congruence.
  - (* some page has served *)
    cbn [andb] in Ha.
    erewrite bind_Ok_l in Ha by reflexivity.
    rewrite (proj2 (Z.eqb_neq _ _) NE) in Ha.
    erewrite bind_Ok_l in Ha by reflexivity.
    apply allocate_end in Ha as (Hl & Hreg & Hd & Hget & Hlen & Hpages).
    cbn [pages dtors set_pages h1] in *.
    split; [exact Hreg|]. split.
    + intros _ Hall. exfalso. apply NE.
      now apply allocate_from_pages_refused.
    + intros i pg Hi Hserve Hbefore.
      destruct (allocate_from_pages_first T n (pages h) i pg Hi Hserve Hbefore)
        as (Hp & Hat & Hlater). fold r in Hp, Hat, Hlater.
      split; [exact Hl|]. split; [exact Hd|].
      split; [rewrite Hlen; apply allocate_from_pages_length|].
      split; [congruence|]. rewrite Hpages. split.
      * rewrite list_lookup_fmap, Hat. reflexivity.
      * intros k Hk. now rewrite !list_lookup_fmap, Hlater.
Qed.

(** ** The order of the roots *)

Lemma dhpage_eq (a b : dhpage) :
  page a = page b -> live_starts a = live_starts b ->
  deferred_ptrs a = deferred_ptrs b -> a = b.
Proof. destruct a, b. cbn. now intros -> -> ->. Qed.

Lemma page_after_ext lvl ss ss' pg :
  lvl <> 0 -> (forall s, s ∈ ss <-> s ∈ ss') ->
  page_after lvl ss pg = page_after lvl ss' pg.
Proof.
  intros Hl Hss. apply dhpage_eq.
  - now rewrite !page_after_page.
  - apply list_eq. intros k. rewrite !page_after_bits.
    destruct (decide (k ∈ ss)) as [Hin|Hnin],
             (decide (k ∈ ss')) as [Hin'|Hnin']; try reflexivity.
    + exfalso. apply Hnin'. now apply Hss.
    + exfalso. apply Hnin. now apply Hss.
  - rewrite !page_after_ptrs by done. apply list_fmap_ext.
    intros j r _. destruct (decide (home pg r ∈ ss)) as [Hin|Hnin].
    + rewrite !bool_decide_eq_true_2; [reflexivity| |exact Hin].
      now apply Hss.
    + rewrite !bool_decide_eq_false_2; [reflexivity| |exact Hnin].
      now rewrite <- Hss.
Qed.

(** what a series of marks leaves depends on which pointers are marked,
    not on their order nor on how often each one is *)
Lemma apply_marks_ext lvl xs ys pgs :
  lvl <> 0 -> (forall x, x <> null -> (x ∈ xs <-> x ∈ ys)) ->
  apply_marks lvl xs pgs = apply_marks lvl ys pgs.
Proof.
  intros Hl Hxs. apply list_eq. intros i.
  destruct (pgs !! i) as [pg|] eqn:Hi.
  - rewrite !(apply_marks_lookup _ _ _ _ _ Hi). f_equal.
    apply page_after_ext; [exact Hl|].
    apply hits_agree; [exact Hxs|reflexivity].
  - apply lookup_ge_None in Hi.
    rewrite !(proj2 (lookup_ge_None _ _)); [reflexivity|..];
      now rewrite apply_marks_length.
Qed.

Lemma marks_checks_elem xs pgs x :
  ndebug || marks_checks xs pgs = true -> x ∈ xs -> x <> null ->
  ndebug || mark_checks x pgs = true.
Proof.
  intros Hc Hx Hnz. destruct ndebug; [reflexivity|]. cbn in *.
  unfold marks_checks in Hc. rewrite forallb_forall in Hc.
  specialize (Hc x (proj1 (list_elem_of_In _ _) Hx)).
  destruct (Z.eqb_spec x null); [contradiction|exact Hc].
Qed.

(** X15. The marking of the roots does not depend on the order in which
    the root set is gone through (the order of the addresses of the
    tracked pointers), nor on a root being visited more than once:
    whenever phase 2 has marked from every root, marking from the roots
    in any other order leaves the same bits and the same levels. *)
Theorem mark_roots_any_order (h : deferred_heap) (o : out unit)
    (tps : list addr) :
  mark_roots h = Ok o ->
  (forall tp, tp ∈ tps <-> tp ∈ roots h) ->
  for_each tps (fun tp => x ← gets (get tp); mark x 1) h = Ok o.
Proof.
  intros Hm Htps.
  pose proof (mark_roots_closed _ _ Hm) as ->.
  unfold mark_roots in Hm.
  rewrite (bind_Ok_l _ _ _ _ _
             (eq_refl : gets roots h = Ok (Out (roots h) h []))) in Hm.
  pose proof (mark_list_checks _ _ _ _ Hm) as Hc.
  assert (Hmem : forall x, x ∈ root_marks h tps
                           <-> x ∈ root_marks h (elements (roots h))).
  { intros x. unfold root_marks. rewrite !list_elem_of_fmap.
    split; intros (tp & -> & Htp); exists tp; (split; [reflexivity|]).
    - apply elem_of_elements. now apply Htps.
    - apply Htps. now apply elem_of_elements in Htp. }
  rewrite mark_list_run.
  - rewrite (apply_marks_ext 1 (root_marks h tps)
               (root_marks h (elements (roots h)))); [reflexivity|lia|].
    intros x _. apply Hmem.
  - apply marks_checks_intro. intros x Hx Hnz.
    eapply marks_checks_elem; [exact Hc| |exact Hnz]. now apply Hmem.
Qed.

(** ** [collect()] returns *)

Lemma for_each_returns_inv {A} (I : deferred_heap -> Prop) (l : list A)
    (body : A -> M unit) :
  (forall a h, I h -> exists o, body a h = Ok o /\ I (post o)) ->
  forall h, I h -> exists o, for_each l body h = Ok o /\ I (post o).
Proof.
  intros Hb. induction l as [|a l IH]; intros h Hi.
  - eexists. split; [reflexivity|exact Hi].
  - cbn [for_each]. destruct (Hb a h Hi) as (o1 & H1 & Hi1).
    destruct (IH (post o1) Hi1) as (o2 & H2 & Hi2).
    eexists. split; [apply (bind_Ok_intro _ _ _ _ _ H1 H2)|exact Hi2].
Qed.

Section returns.
Hypothesis Hrelease : ndebug = true.
Variable len : nat.
Hypothesis Hret :
  forall f x h, exists h',
    destroy_body f x h = Ok h' /\ length (pages h') = length (pages h).

Lemma run_returns_len begin end_ h :
  length (pages h) = len ->
  exists o, run begin end_ h = Ok o /\ length (pages (post o)) = len.
Proof.
  intros Hlen. unfold run.
  erewrite bind_Ok_l by (unfold assert; rewrite Hrelease; reflexivity).
  erewrite bind_Ok_l by reflexivity.
  destruct (run_scan begin end_ (dtors h)) as [[kept to_destroy] ret].
  erewrite bind_Ok_l by reflexivity.
  destruct (for_each_returns_inv (fun h0 => length (pages h0) = len)
              to_destroy destroy_elements) with
    (h := set_dtors (fun _ => kept) h) as (o1 & E1 & Hl1); [|exact Hlen|].
  { intros d h0 Hh0. unfold destroy_elements.
    apply (for_each_returns_inv (fun h0 => length (pages h0) = len));
      [|exact Hh0].
    intros i h1 Hh1. unfold call_destroy.
    destruct (Hret (d_destroy d) (d_p d + SizeT.mul (d_size d) i) h1)
      as (h2 & E2 & Hl2).
    rewrite E2. eexists. split; [reflexivity|]. cbn. congruence. }
  eexists. split; [eapply bind_Ok_intro; [exact E1|reflexivity]|exact Hl1].
Qed.

Lemma sweep_location_returns pi i h :
  length (pages h) = len ->
  exists o, sweep_location pi i h = Ok o /\ length (pages (post o)) = len.
Proof.
  intros Hlen. unfold sweep_location.
  erewrite bind_Ok_l by reflexivity.
  destruct (pages h !! pi) as [pg|]; [|eexists; split; [reflexivity|exact Hlen]].
  destruct (is_start _ && _); [|eexists; split; [reflexivity|exact Hlen]].
  unfold destroy_objects.
  match goal with
  | |- context [run ?b ?e] =>
      destruct (run_returns_len b e h Hlen) as (o1 & E1 & Hl1)
  end.
  eexists. split.
  - eapply bind_Ok_intro; [exact E1|].
    eapply bind_Ok_intro; reflexivity.
  - cbn. now rewrite length_alter.
Qed.

Lemma sweep_pages_returns fuel : forall pi h,
  length (pages h) = len -> (len - pi < fuel)%nat ->
  exists o, sweep_pages fuel pi h = Ok o.
Proof.
  induction fuel as [|fuel IH]; intros pi h Hlen Hf; [lia|].
  cbn [sweep_pages]. erewrite bind_Ok_l by reflexivity.
  destruct (pages h !! pi) as [pg|] eqn:Hpi; [|eexists; reflexivity].
  assert (Hlt : (pi < len)%nat)
    by (rewrite <- Hlen; eapply lookup_lt_Some; eauto).
  destruct (for_each_returns_inv (fun h0 => length (pages h0) = len)
              (seq 0 (page_locations (page pg))) (sweep_location pi))
    with (h := h) as (o1 & E1 & Hl1); [|exact Hlen|].
  { intros i h0 Hh0. now apply sweep_location_returns. }
  destruct (IH (S pi) (post o1) Hl1 ltac:(lia)) as (o2 & E2).
  eexists. apply (bind_Ok_intro _ _ _ _ _ E1 E2).
Qed.

Lemma mark_loop_release fuel : forall lvl h,
  1 <= lvl -> lvl + Z.of_nat fuel < SizeT.modulus ->
  mark_loop fuel lvl h = Timeout \/ exists o, mark_loop fuel lvl h = Ok o.
Proof.
  induction fuel as [|fuel IH]; intros lvl h Hl Hb; [now left|].
  destruct (level_steps lvl fuel Hl Hb) as (HL & Hd0 & Hd).
  cbn [mark_loop]. rewrite HL.
  pose proof (mark_pass_run (lvl + 1) h Hd0 Hd) as Hp. cbn zeta in Hp.
  rewrite Hrelease in Hp. specialize (Hp eq_refl).
  rewrite (bind_Ok_l _ _ _ _ _ Hp).
  destruct (bool_decide _); [right; eexists; reflexivity|].
  set (h1 := set_pages _ h).
  destruct (IH (lvl + 1) h1 ltac:(lia) ltac:(lia)) as [Et|[o Eo]].
  - left. unfold mbind, M_bind. now rewrite Et.
  - right. eexists. eapply bind_Ok_intro; [exact Eo|reflexivity].
Qed.

Lemma collect_mark_returns fuel h :
  Z.of_nat fuel + 1 < SizeT.modulus ->
  Z.of_nat (nonroot_count h) + 2 < SizeT.modulus ->
  (nonroot_count h < fuel)%nat ->
  exists o, collect_mark fuel h = Ok o.
Proof.
  intros Hfb Hb Hfuel.
  destruct (collect_mark_spec fuel h Hb Hfuel) as [Hnt _].
  unfold collect_mark in *.
  erewrite bind_Ok_l in Hnt |- * by reflexivity.
  assert (Er : exists hR, mark_roots (set_pages (fmap reset_marks) h)
                          = Ok (Out tt hR [])).
  { unfold mark_roots. erewrite bind_Ok_l by reflexivity.
    rewrite mark_list_run; [eauto|]. now rewrite Hrelease. }
  destruct Er as (hR & Er).
  rewrite (bind_Ok_l _ _ _ _ _ Er) in Hnt |- *.
  destruct (mark_loop_release fuel 1 hR ltac:(lia) ltac:(lia)) as [Et|Eo];
    [contradiction|exact Eo].
Qed.

End returns.

(** X16. In a release build [collect()] returns: given fuel for more
    passes than the heap has non-root records and for more pages than it
    has, and destructors that return and add no page, the call ends with
    a result (no assertion is compiled in, and each of its loops
    ends). *)
Theorem collect_returns_release (fuel : nat) (h : deferred_heap) :
  ndebug = true ->
  Z.of_nat fuel + 1 < SizeT.modulus ->
  Z.of_nat (nonroot_count h) + 2 < SizeT.modulus ->
  (nonroot_count h < fuel)%nat ->
  (length (pages h) < fuel)%nat ->
  (forall f x h0, exists h',
     destroy_body f x h0 = Ok h' /\ length (pages h') = length (pages h0)) ->
  exists o, collect fuel h = Ok o.
Proof.
  intros Hd Hfb Hb Hfuel Hpages Hret.
  destruct (collect_mark_returns Hd fuel h Hfb Hb Hfuel) as (om & Em).
  destruct (collect_mark_spec fuel h Hb Hfuel) as [_ Hspec].
  destruct (Hspec _ Em) as (_ & _ & Hrel & _).
  assert (Hlen : length (pages (post om)) = length (pages h)).
  { destruct Hrel as [_ Hf]. apply Forall2_length in Hf. cbn in Hf.
    rewrite length_fmap in Hf. congruence. }
  destruct (sweep_pages_returns Hd (length (pages h)) Hret fuel 0
              (null_all (unreached (pages (post om))) (post om)))
    as (os & Es); [exact Hlen|lia|].
  unfold collect. eexists.
  eapply bind_Ok_intro; [exact Em|].
  eapply bind_Ok_intro; [apply null_unreached_run|exact Es].
Qed.

(** ** What [make] does when it succeeds *)

Lemma allocate_registered fuel T n slot h o :
  allocate fuel T n slot h = Ok o -> registered (post o) slot.
Proof.
  unfold allocate. intros Ha.
  apply bind_Ok in Ha as (o1 & o2 & _ & Ha & ->).
  apply bind_Ok in Ha as (o3 & o4 & _ & Ha & ->).
  apply bind_Ok in Ha as (o5 & o6 & _ & Ha & ->).
  apply bind_Ok in Ha as (o7 & o8 & _ & Ha & ->).
  now apply allocate_end in Ha as (_ & Hreg & _).
Qed.

(** X17. [make<T>()], whenever it returns ([collect_before_expand]
    off): the tracked pointer that [allocate] has built is on record and,
    in a debug build, not null. When it is not null, [make] has run the
    destructors of what the registry held for the bytes of the new
    object, then one constructor, at the address the pointer holds, then
    has registered the one entry [{p, sizeof(T), 1}] (unless [T] is
    trivially destructible), and nothing else. When it is null (a release
    build whose pages are full) nothing is constructed or registered. *)
Theorem make_builds_one (fuel : nat) (T : ctype) (slot : addr)
    (h : deferred_heap) (o : out unit) :
  collect_before_expand h = false ->
  make fuel T slot h = Ok o ->
  exists oa l,
    allocate fuel T 1 slot h = Ok oa /\ log oa = [] /\
    registered (post oa) slot /\
    let p := get slot (post oa) in
    (ndebug = false -> p <> null) /\
    (p = null -> o = Out tt (post oa) []) /\
    (p <> null ->
     Forall is_destroy l /\
     log o = l ++ EvConstruct T p
               :: (if trivially_destructible T then []
                   else [EvStore {| d_p := p; d_size := sizeof T; d_n := 1;
                                    d_destroy := dtor T |}]) /\
     constructed (log o) = [p]).
Proof.
  intros Hcbe Hm. unfold make in Hm.
  apply bind_Ok in Hm as (oa & o1 & Ha & Hm & ->).
  apply bind_Ok in Hm as (og & o2 & Hg & Hm & ->).
  apply gets_Ok in Hg as ->. cbn [val post log] in *.
  pose proof (allocate_Ok _ _ _ _ _ _ Ha) as (Hnn & _ & Hlog).
  specialize (Hlog Hcbe).
  pose proof (allocate_registered _ _ _ _ _ _ Ha) as Hreg.
  destruct (Z.eqb_spec (get slot (post oa)) null) as [E|NE].
  - exists oa, []. split; [exact Ha|]. split; [exact Hlog|].
    split; [exact Hreg|]. cbn zeta. split; [|split].
    + intros Hd. destruct Hnn as [Hn|Hn]; [congruence|exact Hn].
    + intros _. apply ret_Ok in Hm as ->. cbn. rewrite Hlog.
      destruct oa as [[] ha la]. reflexivity.
    + intros Hc. contradiction.
  - unfold construct, destroy_objects in Hm.
    apply bind_Ok in Hm as (o3 & o4 & Has & Hm & ->).
    apply assert_Ok in Has as [-> _]. cbn [val post log] in *.
    apply bind_Ok in Hm as (orun & o5 & Hrun & Hm & ->).
    apply bind_Ok in Hm as (oc & os & Hcon & Hst & ->).
    apply run_log in Hrun. apply call_construct_Ok in Hcon as (hc & _ & ->).
    apply store_log in Hst. cbn [val post log] in *.
    exists oa, (log orun). split; [exact Ha|]. split; [exact Hlog|].
    split; [exact Hreg|]. cbn zeta. split; [|split].
    + intros _. exact NE.
    + intros Hc. contradiction.
    + intros _. split; [exact Hrun|].
      rewrite Hlog, Hst. cbn [app]. split; [reflexivity|].
      rewrite constructed_app, (constructed_destroys _ Hrun).
      cbn. now destruct (trivially_destructible T).
Qed.

(** ** When the memory of a new page is refused

    [pages.emplace_back(hint, n)] asks the operating system for memory:
    the node of the [std::list], and in the constructor of [gpage] the
    bytes of the page. [operator new] answers a refusal by throwing
    [std::bad_alloc]; [allocate] and [make] have no handler, so the
    exception leaves them, and the assertion that follows the call says
    as much ("failed to allocate but didn't throw an exception"). The
    functions [allocate] and [make] above are the case where the memory
    is granted. Here a call has the value [Some v] when it returns [v],
    and [None] when an exception leaves it; only the memory of a page is
    in question. *)

Section refusal.

(** whether the memory for a page of this total size and chunk size is
    granted, the heap being what it is *)
Variable os_grants : deferred_heap -> Z -> Z -> bool.

(** an exception leaves the call *)
Definition throw {A} : M (option A) := mret None.

(** [pages.emplace_back(hint, n); p = pages.back().page.allocate<T>(n);] *)
Definition allocate_from_new_page_exn (T : ctype) (n : Z)
  : M (option addr) :=
  granted ← gets (fun h =>
               os_grants h (dhpage_total_size T n) (dhpage_min_alloc T));
  if (granted : bool)
  then p ← allocate_from_new_page T n; mret (Some p)
  else throw.

(** [allocate<T>(n)] *)
Definition allocate_exn (fuel : nat) (T : ctype) (n : Z) (slot : addr)
  : M (option unit) :=
  p ← allocate_from_existing_pages T n;
  cbe ← gets collect_before_expand;
  p ← (if (p =? null) && cbe
       then collect fuel;; allocate_from_existing_pages T n
       else mret p);
  r ← (if p =? null then allocate_from_new_page_exn T n else mret (Some p));
  match r with
  | None => throw
  | Some p =>
      assert (negb (p =? null))
        "failed to allocate but didn't throw an exception";;
      deferred_ptr_ctor slot p;;
      mret (Some tt)
  end.

(** [make<T>(args...)] *)
Definition make_exn (fuel : nat) (T : ctype) (slot : addr)
  : M (option unit) :=
  r ← allocate_exn fuel T 1 slot;
  match r with
  | None => throw
  | Some _ =>
      p ← gets (get slot);
      (if p =? null then mret tt else construct T p);;
      mret (Some tt)
  end.

Lemma bind_ext {A B} (m : M A) (f g : A -> M B) h :
  (forall a h', f a h' = g a h') -> (m ≫= f) h = (m ≫= g) h.
Proof.
  intros E. unfold mbind, M_bind. destruct (m h) as [o| |]; [|done..].
  now rewrite E.
Qed.

Lemma bind_ext_l {A B} (m m' : M A) (f : A -> M B) h :
  m h = m' h -> (m ≫= f) h = (m' ≫= f) h.
Proof. unfold mbind, M_bind. now intros ->. Qed.

Lemma bind_assoc {A B C} (m : M A) (f : A -> M B) (g : B -> M C) h :
  ((m ≫= f) ≫= g) h = (m ≫= (fun a => f a ≫= g)) h.
Proof.
  unfold mbind, M_bind. destruct (m h) as [o| |]; [|done..].
  destruct (f (val o) (post o)) as [o'| |]; [|done..]. cbn [val post log].
  destruct (g (val o') (post o')) as [o''| |]; [|done..]. cbn [val post log].
  now rewrite app_assoc.
Qed.

Lemma bind_ret_l {A B} (a : A) (f : A -> M B) h : (mret a ≫= f) h = f a h.
Proof. now apply bind_Ok_l. Qed.

(** With the memory granted, a call has the value [Some] of what the
    function above returns, and does to the heap what that one does. *)
Lemma allocate_exn_granted fuel T n slot h :
  (forall h' total min_alloc, os_grants h' total min_alloc = true) ->
  allocate_exn fuel T n slot h
  = (allocate fuel T n slot ≫= (fun _ => mret (Some tt))) h.
Proof.
  intros Hg. unfold allocate_exn, allocate.
  rewrite bind_assoc. apply bind_ext. intros p0 h0.
  rewrite bind_assoc. apply bind_ext. intros cbe h1.
  rewrite bind_assoc. apply bind_ext. intros p2 h2.
  rewrite bind_assoc.
  destruct (p2 =? null).
  - unfold allocate_from_new_page_exn.
    rewrite bind_assoc.
    erewrite bind_Ok_l by reflexivity. rewrite Hg.
    rewrite bind_assoc. apply bind_ext. intros p3 h3.
    rewrite bind_ret_l. now rewrite bind_assoc.
  - rewrite !bind_ret_l. now rewrite bind_assoc.
Qed.

Lemma make_exn_granted fuel T slot h :
  (forall h' total min_alloc, os_grants h' total min_alloc = true) ->
  make_exn fuel T slot h
  = (make fuel T slot ≫= (fun _ => mret (Some tt))) h.
Proof.
  intros Hg. unfold make_exn, make.
  rewrite (bind_ext_l _ _ _ _ (allocate_exn_granted fuel T 1 slot h Hg)).
  rewrite !bind_assoc. apply bind_ext. intros [] h0.
  rewrite bind_ret_l. now rewrite bind_assoc.
Qed.

(** With the memory refused, [allocate] returns only what a page at hand
    has served. *)
Lemma allocate_exn_refused fuel T n slot h o :
  (forall h' total min_alloc, os_grants h' total min_alloc = false) ->
  allocate_exn fuel T n slot h = Ok o ->
  val o = None \/
  val o = Some tt /\ get slot (post o) <> null /\ registered (post o) slot.
Proof.
  intros Hr Ha. unfold allocate_exn in Ha.
  apply bind_Ok in Ha as (o1 & o2 & _ & Ha & ->).
  apply bind_Ok in Ha as (o3 & o4 & _ & Ha & ->).
  apply bind_Ok in Ha as (o5 & o6 & _ & Ha & ->).
  apply bind_Ok in Ha as (o7 & o8 & H4 & Ha & ->). cbn [val post log].
  destruct (Z.eqb_spec (val o5) null) as [E|NE].
  - unfold allocate_from_new_page_exn in H4.
    erewrite bind_Ok_l in H4 by reflexivity. rewrite Hr in H4.
    apply ret_Ok in H4 as ->. cbn [val post] in Ha.
    apply ret_Ok in Ha as ->. now left.
  - apply ret_Ok in H4 as ->. cbn [val post] in Ha.
    apply bind_Ok in Ha as (oa & ob & Has & Ha & ->).
    apply bind_Ok in Ha as (oc & od & Hc & Hret & ->).
    apply ret_Ok in Hret as ->. cbn [val post log].
    pose proof (bind_Ok_intro _ (fun _ => deferred_ptr_ctor slot (val o5))
                  _ _ _ Has Hc) as Hend.
    apply allocate_end in Hend as (_ & Hreg & _ & Hget & _).
    cbn [post] in *. right. split; [reflexivity|].
    split; [congruence|exact Hreg].
Qed.

(** C5. When the memory for a new page is refused, [make<T>()] hands no
    null pointer to its caller, in a debug build or a release build.
    Whenever it returns, [allocate] has returned a tracked pointer that
    is not null, and [make] has gone on to construct the object there:
    the branch of [make] for a null pointer is not taken. And when no
    page at hand serves the request ([collect_before_expand] off), the
    exception leaves [make]: no tracked pointer has been built or
    registered, nothing has been constructed, and no assertion has
    stopped the program. *)
Theorem make_throws_when_refused (fuel : nat) (T : ctype) (slot : addr)
    (h : deferred_heap) :
  (forall h' total min_alloc, os_grants h' total min_alloc = false) ->
  (forall o, make_exn fuel T slot h = Ok o ->
     val o = None \/
     exists oa,
       allocate_exn fuel T 1 slot h = Ok oa /\ val oa = Some tt /\
       get slot (post oa) <> null /\ registered (post oa) slot /\
       EvConstruct T (get slot (post oa)) ∈ log o) /\
  (collect_before_expand h = false ->
   (forall pg, pg ∈ pages h -> refuses T 1 pg) ->
   make_exn fuel T slot h
   = Ok (Out None
           (set_pages (fun _ => (allocate_from_pages T 1 (pages h)).2) h)
           [])).
Proof.
  intros Hr. split.
  - intros o Hm. unfold make_exn in Hm.
    apply bind_Ok in Hm as (oa & o1 & Ha & Hm & ->). cbn [val post log].
    destruct (allocate_exn_refused _ _ _ _ _ _ Hr Ha)
      as [Hn|(Hs & Hnz & Hreg)].
    + rewrite Hn in Hm. apply ret_Ok in Hm as ->. now left.
    + rewrite Hs in Hm. right. exists oa.
      split; [exact Ha|]. split; [exact Hs|]. split; [exact Hnz|].
      split; [exact Hreg|].
      apply bind_Ok in Hm as (og & o2 & Hg & Hm & ->).
      apply gets_Ok in Hg as ->. cbn [val post log] in *.
      apply Z.eqb_neq in Hnz. rewrite Hnz in Hm.
      apply bind_Ok in Hm as (oc & o3 & Hc & _ & ->). cbn [log].
      unfold construct in Hc.
      apply bind_Ok in Hc as (o4 & o5 & _ & Hc & ->).
      apply bind_Ok in Hc as (o6 & o7 & _ & Hc & ->).
      apply bind_Ok in Hc as (o8 & o9 & Hcon & _ & ->).
      apply call_construct_Ok in Hcon as (hc & _ & ->). cbn [log].
      rewrite !elem_of_app, !elem_of_cons. tauto.
  - intros Hcbe Hall. unfold make_exn, allocate_exn.
    set (r := allocate_from_pages T 1 (pages h)).
    assert (E0 : allocate_from_existing_pages T 1 h
                 = Ok (Out r.1 (set_pages (fun _ => r.2) h) [])).
    { unfold allocate_from_existing_pages. fold r. now destruct r. }
    assert (Hnull : r.1 = null) by now apply allocate_from_pages_refused.
    rewrite !bind_assoc.
    rewrite (bind_Ok_l _ _ _ _ _ E0).
    rewrite bind_assoc. erewrite bind_Ok_l by reflexivity.
    cbn [collect_before_expand set_pages]. rewrite Hcbe, andb_false_r.
    rewrite bind_assoc, bind_ret_l. rewrite Hnull. cbn [Z.eqb null].
    unfold allocate_from_new_page_exn.
    rewrite !bind_assoc. erewrite bind_Ok_l by reflexivity. rewrite Hr.
    unfold throw. rewrite !bind_ret_l. reflexivity.
Qed.

End refusal.

End heap.

Arguments Out {page_ops A} val post log.
Arguments val {page_ops A} o.
Arguments post {page_ops A} o.
Arguments log {page_ops A} o.

(** * Deciding [swept] *)

Global Instance nonroot_eq_dec : EqDecision nonroot.
Proof. solve_decision. Defined.

Global Instance swept_dec `{page_ops : gpage_ops} nd hA h1 :
  Decision (swept nd hA h1).
Proof. unfold swept, page_swept. apply _. Defined.

(** * Concrete runs *)

Module Demo.

Abbreviation heap := (@deferred_heap SpecPage.ops).

(** constructors and destructors that leave the heap alone *)
Definition no_destroy : nat -> Z -> heap -> result heap := fun _ _ h => Ok h.

Definition no_construct : ctype -> Z -> heap -> result heap :=
  fun _ _ h => Ok h.

(** an operating system that hands out storage at multiples of 64K *)
Definition os (h : heap) (total_size min_alloc : Z) : SpecPage.t :=
  SpecPage.ctor (65536 * (1 + Z.of_nat (length (pages h)))) total_size
                min_alloc.

(** an object type of 16 bytes with a destructor *)
Definition Node : ctype :=
  {| sizeof := 16; trivially_destructible := false; dtor := 1%nat |}.

(** what a call returns, and the heap it leaves *)
Definition outcome {A} (r : result (@out SpecPage.ops A))
  : option (A * heap) :=
  match r with
  | Ok o => Some (val o, post o)
  | _ => None
  end.

(** running a piece of the heap's own code inside a destructor *)
Definition lift {A} (m : @M SpecPage.ops A) : heap -> result heap :=
  fun h => match m h with
           | Ok o => Ok (post o)
           | Fatal s => Fatal s
           | Timeout => Timeout
           end.

(** [~Node()]: the tracked pointer that is the first member of a [Node]
    is destroyed *)
Definition node_destroy : nat -> Z -> heap -> result heap :=
  fun _ x => lift (deferred_ptr_dtor false x).

Definition page_of (cs : list SpecPage.chunk) : SpecPage.t :=
  {| SpecPage.base := 65536; SpecPage.min_alloc := 16; SpecPage.chunks := cs |}.

Definition node_at (x : Z) : destructor :=
  {| d_p := x; d_size := 16; d_n := 1; d_destroy := 1%nat |}.

(** *** [make_array] *)

(** the registry once [make_array<Node>(2)] has built its array at
    [65536], and what [construct_array] has done for it *)
Definition two_nodes : heap :=
  set_dtors (fun _ => [ {| d_p := 65536; d_size := 16; d_n := 2;
                           d_destroy := 1%nat |} ])
            empty_heap.

Definition two_nodes_log : list (@event SpecPage.ops) :=
  [EvConstruct Node 65536; EvConstruct Node 65536;
   EvStore {| d_p := 65536; d_size := 16; d_n := 2; d_destroy := 1%nat |}].

Lemma construct_two_nodes :
  construct_array (page_ops := SpecPage.ops) false no_destroy no_construct
                  Node 65536 2 empty_heap
  = Ok (Out tt two_nodes two_nodes_log).
Proof. exact eq_refl. Qed.

(** where a call has put the object it has made for the tracked pointer at
    [slot], and where it has run constructors *)
Definition built {A} (slot : addr) (r : result (@out SpecPage.ops A))
  : option (addr * list addr) :=
  match r with
  | Ok o => Some (get slot (post o), constructed (log o))
  | _ => None
  end.

Lemma make_array_two_nodes :
  built 8 (make_array false no_destroy no_construct os 5 Node 2 8 empty_heap)
  = Some (65536, [65536; 65536]).
Proof.
  vm_cast_no_check
    (@eq_refl _ (built 8 (make_array false no_destroy no_construct os 5
                                     Node 2 8 empty_heap))).
Qed.

(** [make_array<Node>(2)] on the empty heap puts its array at [65536] and
    runs both constructors there, none at [65552]. *)
Lemma make_array_of_two :
  built 8 (make_array false no_destroy no_construct os 5 Node 2 8 empty_heap)
    = Some (65536, [65536; 65536]) /\
  construct_array (page_ops := SpecPage.ops) false no_destroy no_construct
                  Node 65536 2 empty_heap
    = Ok (Out tt two_nodes two_nodes_log) /\
  constructed two_nodes_log = [65536; 65536] /\
  constructed two_nodes_log <> [65536; 65536 + sizeof Node].
Proof.
  split; [exact make_array_two_nodes|].
  split; [exact construct_two_nodes|].
  destruct (construct_array_constructs_at_p (page_ops := SpecPage.ops)
              false no_destroy no_construct Node 65536 2 empty_heap _
              construct_two_nodes) as (l & _ & _ & Hc).
  split; [exact Hc|]. discriminate.
Defined.


(** *** The registry *)

Definition registry : heap :=
  set_dtors (fun _ => [ {| d_p := 100; d_size := 8; d_n := 2;
                           d_destroy := 1%nat |};
                        {| d_p := 200; d_size := 8; d_n := 1;
                           d_destroy := 1%nat |} ])
            empty_heap.

Definition registry_after : heap :=
  set_dtors (fun _ => [ {| d_p := 200; d_size := 8; d_n := 1;
                           d_destroy := 1%nat |} ])
            empty_heap.

Definition registry_log : list (@event SpecPage.ops) :=
  [EvDestroy 1 100 registry_after; EvDestroy 1 108 registry_after].

Lemma run_registry :
  run false no_destroy 100 150 registry
  = Ok (Out true registry_after registry_log).
Proof. exact eq_refl. Qed.


(** *** The size of a new page *)

(** the page made for a thousand [Node]s: 41920 bytes, 2.62 times the
    16000 of the request *)
Lemma page_for_1000_nodes :
  0 <= 1000 /\ 0 <= sizeof Node /\ sizeof Node * 1000 < 2 ^ 51 /\
  dhpage_total_size Node 1000 = 41920 /\
  4096 <= dhpage_total_size Node 1000 /\
  2620 * sizeof Node <= dhpage_total_size Node 1000 /\
  dhpage_min_alloc Node = 16.
Proof.
  assert (H1 : 0 <= 1000) by lia.
  assert (H2 : 0 <= sizeof Node) by (cbn; lia).
  assert (H3 : sizeof Node * 1000 < 2 ^ 51) by (cbn; lia).
  assert (H45 : sizeof Node * 1000 < 2 ^ 45) by (cbn; lia).
  destruct (dhpage_ctor_sizes (page_ops := SpecPage.ops) os Node 1000
              empty_heap H1 H2 H3) as (_ & Hmin & _ & Hobj & Hexact & Hchunk).
  split; [exact H1|]. split; [exact H2|]. split; [exact H3|].
  split; [exact (Hexact H45)|]. split; [exact Hmin|].
  split; [exact Hobj|exact Hchunk].
Defined.

Definition Word : ctype :=
  {| sizeof := 4; trivially_destructible := true; dtor := 0%nat |}.

(** The page made for 1021 objects of 4 bytes has 10700 bytes, 4 short of
    [⌈2.62 · 1021⌉ = 2676] objects. *)
Lemma page_for_1021_words :
  dhpage_total_size Word 1021 = 10700 /\
  SpecPage.total_size (page (dhpage_ctor (page_ops := SpecPage.ops) os Word
                                         1021 empty_heap)) = 10700 /\
  ceil_2_62 1021 = 2676 /\
  ceil_2_62 1021 * sizeof Word = 10704 /\
  dhpage_total_size Word 1021 < ceil_2_62 1021 * sizeof Word.
Proof. repeat split; exact eq_refl. Qed.

Definition Byte : ctype :=
  {| sizeof := 1; trivially_destructible := true; dtor := 0%nat |}.

(** Above [2 ^ 45] bytes the rounding of the product shows: the page made
    for [2 ^ 51 - 2] bytes has one byte more than [⌊2.62 · bytes⌋]. *)
Lemma page_for_2_51_bytes :
  dhpage_total_size Byte (2 ^ 51 - 2) = 5899715511855345 /\
  262 * (sizeof Byte * (2 ^ 51 - 2)) / 100 = 5899715511855344.
Proof. split; exact eq_refl. Qed.

(** *** No memory for a new page *)

(** an operating system that refuses the memory of every new page *)
Definition refusing : heap -> Z -> Z -> bool := fun _ _ _ => false.

(** [make<Node>()] on the empty heap when the memory for its page is
    refused: the exception leaves [make], in a debug build and in a
    release build; no tracked pointer, null or not, is returned *)
Lemma make_without_memory :
  (forall h total min_alloc, refusing h total min_alloc = false) /\
  make_exn (page_ops := SpecPage.ops) false no_destroy no_construct os
           refusing 5 Node 8 empty_heap
    = Ok (Out None empty_heap []) /\
  make_exn (page_ops := SpecPage.ops) true no_destroy no_construct os
           refusing 5 Node 8 empty_heap
    = Ok (Out None empty_heap []).
Proof.
  assert (Hr : forall h total min_alloc, refusing h total min_alloc = false)
    by reflexivity.
  assert (Hnone : forall pg : @dhpage SpecPage.ops,
             pg ∈ pages (empty_heap (page_ops := SpecPage.ops)) ->
             refuses Node 1 pg).
  { intros pg Hin. destruct (not_elem_of_nil _ Hin). }
  split; [exact Hr|]. split.
  - destruct (make_throws_when_refused (page_ops := SpecPage.ops) false
                no_destroy no_construct os refusing 5 Node 8 empty_heap Hr)
      as [_ H].
    exact (H eq_refl Hnone).
  - destruct (make_throws_when_refused (page_ops := SpecPage.ops) true
                no_destroy no_construct os refusing 5 Node 8 empty_heap Hr)
      as [_ H].
    exact (H eq_refl Hnone).
Defined.

(** *** [pointer_to] *)

(** the empty heap once [pointer_to] has wrapped the address [12345] of
    an object that is not on the heap, in a tracked pointer at [8] *)
Definition h_wild : heap :=
  set_roots (fun r => {[ 8 ]} ∪ r)
            (set_memory (insert 8 12345) empty_heap).

Lemma pointer_to_wild :
  pointer_to (page_ops := SpecPage.ops) false 8 12345 empty_heap
  = Ok (Out tt h_wild []).
Proof. exact eq_refl. Qed.

(** [pointer_to] on an object outside the heap, and [operator+=] on the
    tracked pointer it returns *)
Lemma pointer_to_stack_object :
  pointer_to (page_ops := SpecPage.ops) false 8 12345 empty_heap
    = Ok (Out tt h_wild []) /\
  get 8 h_wild = 12345 /\
  ~ raws_valid h_wild /\
  add_assign false Node 8 0 h_wild
    = Fatal "corrupt non-null deferred_ptr, not pointing into deferred heap"%string.
Proof.
  destruct (pointer_to_any_object (page_ops := SpecPage.ops) false 8 12345
              empty_heap) as (h' & Hp & _ & Hg & _ & Hr).
  - discriminate.
  - intros (pg & Hin & _). cbn in Hin. now apply not_elem_of_nil in Hin.
  - reflexivity.
  - rewrite pointer_to_wild in Hp. injection Hp as <-.
    split; [exact pointer_to_wild|]. split; [exact Hg|].
    split; [exact Hr|]. exact eq_refl.
Defined.

(** *** A rooted object, and a cycle that nothing points to *)

Definition heap_of (cs : list SpecPage.chunk) (bits : list bool)
    (rs : list nonroot) (rts : gset Z) (ds : list destructor)
    (mem : gmap Z Z) : heap :=
  {| pages := [ @Build_dhpage SpecPage.ops (page_of cs) bits rs ];
     roots := rts; dtors := ds; is_destroying := false;
     collect_before_expand := false; memory := mem |}.

(** Three [Node]s in one page. The root at [8] points to the first,
    whose member points to the object itself; the members of the second
    and the third point to each other. *)
Definition h_tree : heap :=
  heap_of [SpecPage.Start; SpecPage.Start; SpecPage.Start; SpecPage.Free]
          [false; false; false; false]
          [mk_nonroot 65536; mk_nonroot 65552; mk_nonroot 65568]
          {[ 8 ]}
          [node_at 65536; node_at 65552; node_at 65568]
          (<[8 := 65536]> (<[65536 := 65536]>
             (<[65552 := 65568]> (<[65568 := 65552]> ∅)))).

(** [h_tree] when phase 2 of [collect()] has ended *)
Definition h_tree_marked : heap :=
  heap_of [SpecPage.Start; SpecPage.Start; SpecPage.Start; SpecPage.Free]
          [true; false; false; false]
          [ {| nr_p := 65536; level := 1 |}; mk_nonroot 65552;
            mk_nonroot 65568 ]
          {[ 8 ]}
          [node_at 65536; node_at 65552; node_at 65568]
          (<[8 := 65536]> (<[65536 := 65536]>
             (<[65552 := 65568]> (<[65568 := 65552]> ∅)))).

(** [h_tree] when [collect()] has returned *)
Definition h_tree_swept : heap :=
  heap_of [SpecPage.Start; SpecPage.Free; SpecPage.Free; SpecPage.Free]
          [true; false; false; false]
          [ {| nr_p := 65536; level := 1 |} ]
          {[ 8 ]}
          [node_at 65536]
          (<[8 := 65536]> (<[65536 := 65536]>
             (<[65552 := 0]> (<[65568 := 0]> ∅)))).

Lemma h_tree_mark :
  collect_mark false 5 h_tree = Ok (Out 2%nat h_tree_marked []).
Proof. vm_cast_no_check (@eq_refl _ (collect_mark false 5 h_tree)). Qed.

Lemma h_tree_outcome :
  outcome (collect false node_destroy 5 h_tree) = Some (tt, h_tree_swept).
Proof.
  vm_cast_no_check (@eq_refl _ (outcome (collect false node_destroy 5 h_tree))).
Qed.

Lemma h_tree_collect :
  exists l, collect false node_destroy 5 h_tree = Ok (Out tt h_tree_swept l).
Proof.
  pose proof h_tree_outcome as H.
  destruct (collect false node_destroy 5 h_tree) as [[[] h l]| |];
    try discriminate H.
  injection H as ->. now exists l.
Qed.

Lemma h_tree_is_swept : swept false h_tree_marked h_tree_swept.
Proof.
  apply (bool_decide_eq_true_1 (swept false h_tree_marked h_tree_swept)).
  vm_cast_no_check (@eq_refl bool true).
Qed.


Lemma node_destroy_severed h3 f x hb ha :
  severed h3 hb -> node_destroy f x hb = Ok ha -> severed h3 ha.
Proof.
  intros Hs Hd. unfold node_destroy, lift, deferred_ptr_dtor in Hd.
  destruct (deregister false x hb) as [o| |] eqn:E; try discriminate.
  injection Hd as <-. eapply deregister_severed; eauto.
Qed.

(** [collect()] on [h_tree]: the two pointers of the cycle are reset,
    then the sweep calls the destructors, each on a heap in which no
    tracked pointer points into the cycle. *)
Lemma collect_severs_cycle :
  bitmaps_sized h_tree /\
  exists l sweep,
    collect false node_destroy 5 h_tree = Ok (Out tt h_tree_swept l) /\
    l = (EvReset <$> [65552; 65568]) ++ sweep /\
    sweep_steps (severed (null_all [65552; 65568] h_tree_marked)) sweep.
Proof.
  assert (Hs : bitmaps_sized h_tree) by (repeat constructor).
  split; [exact Hs|].
  destruct h_tree_collect as [l Hc]. exists l.
  destruct (collect_severs_before_destroying false node_destroy 5 h_tree
              (Out tt h_tree_swept l) Hs) as (o2 & sweep & Hm & H);
    [reflexivity|vm_compute; lia|exact Hc|].
  rewrite h_tree_mark in Hm. injection Hm as <-.
  cbv zeta in H. destruct H as (Hl & _ & _ & _ & Hsw).
  exists sweep. split; [exact Hc|]. split; [exact Hl|].
  apply Hsw. intros f x hb ha. apply node_destroy_severed.
Defined.


(** *** A destructor that publishes a raw pointer *)

Definition Keeper : ctype :=
  {| sizeof := 16; trivially_destructible := false; dtor := 3%nat |}.

Definition Plain : ctype :=
  {| sizeof := 16; trivially_destructible := false; dtor := 4%nat |}.

(** A [Keeper] holds the plain address [far] of an object that lies 32
    bytes after it. [~Keeper()] runs
    [keep = deferred_ptr<Plain>::pointer_to( *far )], with [keep] the
    tracked pointer at [8] and the temporary at [24]; [~Plain()] does
    nothing. *)
Definition keep_destroy : nat -> Z -> heap -> result heap :=
  fun f x =>
    match f with
    | 3%nat => lift (pointer_to false 24 (x + 32);;
                     deferred_ptr_assign 8 24;;
                     deferred_ptr_dtor false 24)
    | _ => Ok
    end.

(** A [Keeper] and two [Plain]s that no tracked pointer points to; the
    root at [8] is null. *)
Definition h_trio : heap :=
  heap_of [SpecPage.Start; SpecPage.Start; SpecPage.Start; SpecPage.Free]
          [false; false; false; false]
          []
          {[ 8 ]}
          [ {| d_p := 65536; d_size := 16; d_n := 1; d_destroy := 3%nat |};
            {| d_p := 65552; d_size := 16; d_n := 1; d_destroy := 4%nat |};
            {| d_p := 65568; d_size := 16; d_n := 1; d_destroy := 4%nat |} ]
          (<[8 := 0]> ∅).

(** the heap handed to the destructor that is called on [x], with the
    destructor *)
Definition handed (x : addr) (l : list (@event SpecPage.ops))
  : option (nat * heap) :=
  head (omap (fun e => match e with
                       | EvDestroy f y before =>
                           if y =? x then Some (f, before) else None
                       | _ => None
                       end) l).

Lemma handed_elem x l f hb :
  handed x l = Some (f, hb) -> EvDestroy f x hb ∈ l.
Proof.
  unfold handed. intros Hh. apply head_Some_elem_of in Hh.
  apply list_elem_of_omap in Hh as (e & He & Hf).
  destruct e as [| g y before | | |]; try discriminate.
  destruct (Z.eqb_spec y x) as [->|]; [|discriminate].
  now injection Hf as -> ->.
Qed.

(** what the destructor of the second object is called with: the root
    at [8] holds the address of the third, which is still allocated *)
Lemma keeper_seen :
  match collect false keep_destroy 5 h_trio with
  | Ok o => match handed 65552 (log o) with
            | Some (f, hb) =>
                Some (f, bool_decide (8 ∈ roots hb), get 8 hb,
                      (fun pg : @dhpage SpecPage.ops =>
                         found (page_contains_info (page pg) 65568))
                      <$> head (pages hb))
            | None => None
            end
  | _ => None
  end = Some (4%nat, true, 65568, Some in_range_allocated_start).
Proof.
  vm_cast_no_check
    (@eq_refl _ (Some (4%nat, true, 65568, Some in_range_allocated_start))).
Qed.

(** [collect()] on [h_trio]: the destructor of the second object is
    called with the root at [8] pointing to the third, which is
    condemned. *)
Lemma resurrecting_destructor :
  collect_mark false 5 h_trio = Ok (Out 1%nat h_trio []) /\
  null_all (unreached (pages h_trio)) h_trio = h_trio /\
  condemned h_trio 0 2 /\
  exists o hb,
    collect false keep_destroy 5 h_trio = Ok o /\
    EvDestroy 4 65552 hb ∈ log o /\
    registered hb 8 /\ get 8 hb = 65568 /\
    points_to_allocated hb 65568 /\
    target 65568 (pages h_trio) = Some (0%nat, 2%nat) /\
    ~ severed h_trio hb.
Proof.
  assert (Hc : condemned h_trio 0 2).
  { eexists. split; [reflexivity|]. split; [cbn; lia|]. split; reflexivity. }
  assert (Ht : target 65568 (pages h_trio) = Some (0%nat, 2%nat))
    by reflexivity.
  split; [vm_cast_no_check (@eq_refl _ (collect_mark false 5 h_trio))|].
  split; [vm_cast_no_check (@eq_refl _ h_trio)|]. split; [exact Hc|].
  pose proof keeper_seen as Hk.
  destruct (collect false keep_destroy 5 h_trio) as [o| |];
    try discriminate Hk.
  destruct (handed 65552 (log o)) as [[f hb]|] eqn:Eh; try discriminate Hk.
  injection Hk as -> Hr Hg Ha. apply bool_decide_eq_true_1 in Hr.
  apply handed_elem in Eh.
  destruct (head (pages hb)) as [pg|] eqn:Ep; [|discriminate Ha].
  injection Ha as Ha. apply head_Some_elem_of in Ep.
  exists o, hb. split; [reflexivity|]. split; [exact Eh|].
  split; [now left|]. split; [exact Hg|].
  split; [exists pg; split; [exact Ep|]|].
  { change (page_contains_info (page pg) 65568)
      with (SpecPage.contains_info (page pg) 65568).
    now rewrite Ha. }
  split; [exact Ht|].
  intros Hs. specialize (Hs 8 0%nat 2%nat). rewrite Hg in Hs.
  specialize (Hs (or_introl Hr) Ht Hc). discriminate Hs.
Qed.

(** *** An object that points to itself *)

(** One [Node], to which the root at [8] and its own member point. *)
Definition h_self : heap :=
  heap_of [SpecPage.Start; SpecPage.Free; SpecPage.Free; SpecPage.Free]
          [false; false; false; false]
          [mk_nonroot 65536]
          {[ 8 ]}
          [node_at 65536]
          (<[8 := 65536]> (<[65536 := 65536]> ∅)).

(** [h_self] once the roots have been marked; the marking loop does not
    change it any more. *)
Definition h_self_marked : heap :=
  heap_of [SpecPage.Start; SpecPage.Free; SpecPage.Free; SpecPage.Free]
          [true; false; false; false]
          [ {| nr_p := 65536; level := 1 |} ]
          {[ 8 ]}
          [node_at 65536]
          (<[8 := 65536]> (<[65536 := 65536]> ∅)).

Lemma h_self_mark :
  collect_mark false 5 h_self = Ok (Out 2%nat h_self_marked []).
Proof. vm_cast_no_check (@eq_refl _ (collect_mark false 5 h_self)). Qed.

(** the marking loop on [h_self] *)
Lemma marking_self_cycle :
  Z.of_nat (nonroot_count h_self) + 2 < SizeT.modulus /\
  (nonroot_count h_self < 5)%nat /\
  collect_mark false 5 h_self = Ok (Out 2%nat h_self_marked []) /\
  (1 <= 2 <= nonroot_count h_self + 1)%nat.
Proof.
  assert (H1 : Z.of_nat (nonroot_count h_self) + 2 < SizeT.modulus)
    by reflexivity.
  assert (H2 : (nonroot_count h_self < 5)%nat) by (vm_compute; lia).
  destruct (mark_loop_terminates false 5 h_self H1 H2) as [[_ Hb] _].
  split; [exact H1|]. split; [exact H2|]. split; [exact h_self_mark|].
  apply (Hb _ h_self_mark).
Defined.

(** One object in a cycle, one record: the loop makes two passes, and
    the first of them, which is not the last, changes nothing. *)
Lemma self_cycle_two_passes :
  nonroot_count h_self = 1%nat /\
  mark_roots false (set_pages (fmap reset_marks) h_self)
    = Ok (Out tt h_self_marked []) /\
  mark_pass false 2 h_self_marked = Ok (Out false h_self_marked []) /\
  mark_pass false 3 h_self_marked = Ok (Out true h_self_marked []) /\
  collect_mark false 5 h_self = Ok (Out 2%nat h_self_marked []).
Proof.
  split; [reflexivity|]. split; [|split; [|split]].
  - vm_cast_no_check
      (@eq_refl _ (mark_roots false (set_pages (fmap reset_marks) h_self))).
  - vm_cast_no_check (@eq_refl _ (mark_pass false 2 h_self_marked)).
  - vm_cast_no_check (@eq_refl _ (mark_pass false 3 h_self_marked)).
  - exact h_self_mark.
Qed.

(** *** Registration *)

Definition h_root : heap := set_roots (fun r => {[ 8 ]} ∪ r) empty_heap.

Definition h_page : heap :=
  set_pages (fun pgs => pgs ++ [ @Build_dhpage SpecPage.ops
                                   (SpecPage.ctor 65536 64 16)
                                   [false; false; false; false] [] ])
            h_root.

Definition h_member : heap :=
  set_pages (alter (set_deferred_ptrs (fun l => l ++ [mk_nonroot 65536])) 0%nat)
            h_page.

Lemma three_steps :
  steps false (empty_heap, ∅) (h_member, {[ 65536 ]} ∪ ({[ 8 ]} ∪ ∅)).
Proof.
  apply (steps_cons false _ (h_page, {[ 8 ]} ∪ ∅)).
  - apply (steps_cons false _ (h_root, {[ 8 ]} ∪ ∅)).
    + apply (steps_cons false _ (empty_heap, ∅)); [apply steps_nil|].
      apply (step_enregister false 8 empty_heap ∅ (Out tt h_root [])).
      exact eq_refl.
    + apply (step_new_page false (SpecPage.ctor 65536 64 16 : @gpage SpecPage.ops)
               [false; false; false; false] h_root).
      intros x Hc. split.
      * intros [Hin|Hin]%elem_of_union.
        -- apply elem_of_singleton in Hin. subst x. discriminate Hc.
        -- now apply not_elem_of_empty in Hin.
      * intros pg Hin. now apply not_elem_of_nil in Hin.
  - apply (step_enregister false 65536 h_page _ (Out tt h_member [])).
    exact eq_refl.
Qed.

(** a root, a page, a tracked pointer inside the page *)
Lemma registration_after_three_steps :
  steps false (empty_heap, ∅) (h_member, {[ 65536 ]} ∪ ({[ 8 ]} ∪ ∅)) /\
  recorded_once (h_member, {[ 65536 ]} ∪ ({[ 8 ]} ∪ ∅)).
Proof.
  split; [exact three_steps|].
  exact (registration_complete false _ _ three_steps).
Defined.

(** *** A destructor that allocates *)

Definition Leaf : ctype :=
  {| sizeof := 16; trivially_destructible := true; dtor := 0%nat |}.

Definition Spawner : ctype :=
  {| sizeof := 16; trivially_destructible := false; dtor := 2%nat |}.

(** [~Spawner()] calls [make<Leaf>()] and drops the tracked pointer it
    gets, a temporary at [24]. *)
Definition spawn_destroy : nat -> Z -> heap -> result heap :=
  fun _ _ =>
    lift (make false no_destroy no_construct os 5 Leaf 24;;
          deferred_ptr_dtor false 24).

(** A [Leaf] and a [Spawner] are made, held by the roots at [8] and
    [16]; the first root is reset, [collect()] frees the [Leaf]; then
    the second root is reset. *)
Definition setup : @M SpecPage.ops unit :=
  make false spawn_destroy no_construct os 5 Leaf 8;;
  make false spawn_destroy no_construct os 5 Spawner 16;;
  reset 8;;
  collect false spawn_destroy 5;;
  reset 16.

Definition spawn_heap (first second : SpecPage.chunk) (second_bit : bool)
    (ds : list destructor) (mem : gmap Z Z) : heap :=
  {| pages := [ @Build_dhpage SpecPage.ops
                  {| SpecPage.base := 65536; SpecPage.min_alloc := 16;
                     SpecPage.chunks :=
                       first :: second :: replicate 254 SpecPage.Free |}
                  (false :: second_bit :: replicate 254 false) [] ];
     roots := {[ 8; 16 ]}; dtors := ds; is_destroying := false;
     collect_before_expand := false; memory := mem |}.

Definition h_spawn : heap :=
  spawn_heap SpecPage.Free SpecPage.Start true
             [ {| d_p := 65552; d_size := 16; d_n := 1; d_destroy := 2%nat |} ]
             (<[8 := 0]> (<[16 := 0]> ∅)).

Definition h_spawn_once : heap :=
  spawn_heap SpecPage.Start SpecPage.Free false []
             (<[8 := 0]> (<[16 := 0]> (<[24 := 65536]> ∅))).

Definition h_spawn_twice : heap :=
  spawn_heap SpecPage.Free SpecPage.Free false []
             (<[8 := 0]> (<[16 := 0]> (<[24 := 65536]> ∅))).


(** [h_spawn] as phase 2 of the first call marks it *)
Definition h_spawn_marked : heap :=
  spawn_heap SpecPage.Free SpecPage.Start false
             [ {| d_p := 65552; d_size := 16; d_n := 1; d_destroy := 2%nat |} ]
             (<[8 := 0]> (<[16 := 0]> ∅)).

(** The heap between the two calls is not [swept]: the [Leaf] has no
    bit. *)
Lemma spawner_not_swept :
  collect_mark false 5 h_spawn = Ok (Out 1%nat h_spawn_marked []) /\
  ~ swept false h_spawn_marked h_spawn_once.
Proof.
  split; [vm_cast_no_check (@eq_refl _ (collect_mark false 5 h_spawn))|].
  apply (bool_decide_eq_false_1 (swept false h_spawn_marked h_spawn_once)).
  vm_cast_no_check (@eq_refl bool false).
Qed.

(** *** Tracked pointers that come and go *)

Lemma h_tree_not_registered tp :
  tp <> 8 -> tp <> 65536 -> tp <> 65552 -> tp <> 65568 ->
  ~ registered h_tree tp.
Proof.
  intros H1 H2 H3 H4 [Hr|(r & Hr & Hp)].
  - change (tp ∈ ({[ 8 ]} : gset Z)) in Hr.
    apply elem_of_singleton in Hr. contradiction.
  - cbn in Hr. rewrite !elem_of_cons in Hr.
    destruct Hr as [->|[->|[->|Hr]]]; cbn in Hp; try congruence.
    inversion Hr.
Qed.

(** a temporary at [65544], inside the first object of [h_tree]: it goes
    on the list of the page, and leaves it again *)
Lemma temporary_in_tree :
  is_destroying h_tree = false /\ ~ registered h_tree 65544 /\
  outcome (deferred_ptr_ctor false 65544 65536 h_tree)
    = Some (tt, set_memory (insert 65544 65536)
                  (set_pages (fmap (set_deferred_ptrs
                                      (fun l => l ++ [mk_nonroot 65544])))
                             h_tree)) /\
  (deferred_ptr_ctor false 65544 65536;; deferred_ptr_dtor false 65544) h_tree
  = Ok (Out tt (set_memory (insert 65544 65536) h_tree) []).
Proof.
  assert (Hn : ~ registered h_tree 65544)
    by (apply h_tree_not_registered; lia).
  split; [reflexivity|]. split; [exact Hn|].
  split; [vm_cast_no_check
            (@eq_refl _ (outcome (deferred_ptr_ctor false 65544 65536 h_tree)))|].
  exact (temporary_leaves_registration false os 65544 65536 h_tree eq_refl Hn).
Defined.

(** [h_tree] once the tracked pointer at [65552] has been destroyed *)
Definition h_tree_less : heap :=
  heap_of [SpecPage.Start; SpecPage.Start; SpecPage.Start; SpecPage.Free]
          [false; false; false; false]
          [mk_nonroot 65536; mk_nonroot 65568]
          {[ 8 ]}
          [node_at 65536; node_at 65552; node_at 65568]
          (<[8 := 65536]> (<[65536 := 65536]>
             (<[65552 := 65568]> (<[65568 := 65552]> ∅)))).

Lemma h_tree_deregister :
  deregister false 65552 h_tree = Ok (Out tt h_tree_less []).
Proof. vm_cast_no_check (@eq_refl _ (deregister false 65552 h_tree)). Qed.

(** the record of the second object leaves the list of [h_tree], the
    third takes its place *)
Lemma deregister_in_tree :
  is_destroying h_tree = false /\
  deregister false 65552 h_tree = Ok (Out tt h_tree_less []) /\
  (65552 ∉ roots h_tree) /\
  (exists r, r ∈ records (pages h_tree) /\ nr_p r = 65552) /\
  exists r, nr_p r = 65552 /\
    records (pages h_tree) ≡ₚ r :: records (pages h_tree_less).
Proof.
  assert (Hroot : 65552 ∉ roots h_tree).
  { intros Hr. change (65552 ∈ ({[ 8 ]} : gset Z)) in Hr.
    apply elem_of_singleton in Hr. discriminate. }
  assert (Hrec : exists r, r ∈ records (pages h_tree) /\ nr_p r = 65552).
  { exists (mk_nonroot 65552). split; [|reflexivity].
    cbn. rewrite !elem_of_cons. auto. }
  split; [reflexivity|]. split; [exact h_tree_deregister|].
  split; [exact Hroot|]. split; [exact Hrec|].
  destruct (deregister_takes_one false os 65552 h_tree _ eq_refl
              h_tree_deregister) as (_ & _ & _ & _ & Hlist).
  destruct (Hlist Hroot Hrec) as (_ & _ & Hperm). exact Hperm.
Defined.

(** the destructor of a tracked pointer at [16], which [h_tree] has never
    heard of, in a debug build *)
Lemma deregister_stranger :
  is_destroying h_tree = false /\ ~ registered h_tree 16 /\
  deregister false 16 h_tree
  = Fatal "attempt to deregister an unregistered deferred_ptr".
Proof.
  assert (Hn : ~ registered h_tree 16) by (apply h_tree_not_registered; lia).
  split; [reflexivity|]. split; [exact Hn|].
  exact (deregister_unregistered false 16 h_tree eq_refl Hn).
Defined.

(** *** Pointer arithmetic *)

(** one [Node] at the start of a page, free space behind it, and a root
    at [8] that points to the object *)
Definition h_one : heap :=
  heap_of [SpecPage.Start; SpecPage.Free; SpecPage.Free; SpecPage.Free]
          [false; false; false; false]
          []
          {[ 8 ]}
          [node_at 65536]
          (<[8 := 65536]> ∅).

Lemma h_one_collect :
  collect false no_destroy 5 (set_memory (insert 8 65552) h_one)
  = Fatal "must not point to unallocated memory".
Proof.
  vm_cast_no_check
    (@eq_refl _ (collect false no_destroy 5
                   (set_memory (insert 8 65552) h_one))).
Qed.

(** [++p] on the root of [h_one] in a debug build, and [collect()] after
    it *)
Lemma one_past_the_end_of_one :
  8 ∈ roots h_one /\ get 8 h_one = 65536 /\
  add_assign false Node 8 1 h_one
    = Ok (Out tt (set_memory (insert 8 65552) h_one) []) /\
  (exists msg, collect false no_destroy 5 (set_memory (insert 8 65552) h_one)
               = Fatal msg) /\
  collect false no_destroy 5 (set_memory (insert 8 65552) h_one)
    = Fatal "must not point to unallocated memory".
Proof.
  assert (Hroot : 8 ∈ roots h_one).
  { change (8 ∈ ({[ 8 ]} : gset Z)). now apply elem_of_singleton. }
  split; [exact Hroot|]. split; [reflexivity|].
  destruct (one_past_the_end_fails_collect false no_destroy Node 8 h_one 0
              (@Build_dhpage SpecPage.ops
                 (page_of [SpecPage.Start; SpecPage.Free; SpecPage.Free;
                           SpecPage.Free])
                 [false; false; false; false] []) 5 eq_refl Hroot)
    as [Hadd Hcol].
  - discriminate.
  - discriminate.
  - reflexivity.
  - reflexivity.
  - reflexivity.
  - intros [|k] pg' Hk Hl; [contradiction|discriminate].
  - split; [exact Hadd|]. split; [exact Hcol|exact h_one_collect].
Defined.

(** [h_tree] with [q = p + 1] built at [16] from the root [p] at [8] *)
Definition h_tree_sum : heap :=
  set_memory (insert 16 65552)
    (set_roots (fun r => {[ 16 ]} ∪ r) (set_memory (insert 16 65536) h_tree)).

Lemma h_tree_add :
  op_add false Node 8 1 16 h_tree = Ok (Out tt h_tree_sum []).
Proof. vm_cast_no_check (@eq_refl _ (op_add false Node 8 1 16 h_tree)). Qed.

Lemma h_tree_difference :
  difference false Node 16 8 h_tree_sum = Ok (Out 1 h_tree_sum []).
Proof. vm_cast_no_check (@eq_refl _ (difference false Node 16 8 h_tree_sum)). Qed.

(** [(p + 1) - p] on [h_tree], in a debug build *)
Lemma difference_of_sum_in_tree :
  0 < sizeof Node /\ 16 <> 8 /\
  op_add false Node 8 1 16 h_tree = Ok (Out tt h_tree_sum []) /\
  difference false Node 16 8 h_tree_sum = Ok (Out 1 h_tree_sum []) /\
  get 16 h_tree_sum = get 8 h_tree + 1 * sizeof Node.
Proof.
  assert (Hs : 0 < sizeof Node) by (cbn; lia).
  assert (Hne : 16 <> 8) by lia.
  split; [exact Hs|]. split; [exact Hne|].
  split; [exact h_tree_add|]. split; [exact h_tree_difference|].
  destruct (difference_of_sum false Node 8 16 1 h_tree Hs Hne) as [Hval _].
  destruct (Hval _ _ h_tree_add h_tree_difference) as (_ & Hget & _).
  exact Hget.
Defined.

(** an array of three [Node]s at the start of a page, and a root at [8]
    that points to it *)
Definition h_array : heap :=
  heap_of [SpecPage.Start; SpecPage.Middle; SpecPage.Middle; SpecPage.Free]
          [false; false; false; false]
          []
          {[ 8 ]}
          [ {| d_p := 65536; d_size := 16; d_n := 3; d_destroy := 1%nat |} ]
          (<[8 := 65536]> ∅).

Lemma h_array_not_registered : ~ registered h_array 16.
Proof.
  intros [Hr|(r & Hr & _)].
  - change (16 ∈ ({[ 8 ]} : gset Z)) in Hr.
    apply elem_of_singleton in Hr. discriminate.
  - inversion Hr.
Qed.

Lemma h_array_subscript :
  subscript false Node 8 2 16 h_array
  = Ok (Out 65568 (set_memory (insert 16 65568)
                     (set_memory (insert 16 65536) h_array)) []).
Proof. vm_cast_no_check (@eq_refl _ (subscript false Node 8 2 16 h_array)). Qed.

(** the value of a subscript, the heap apart *)
Definition element (r : result (@out SpecPage.ops Z)) : option Z :=
  match r with
  | Ok o => Some (val o)
  | _ => None
  end.

(** [p[2]] on the array, in a debug build; and [p[2^32 + 2]], which a
    debug build takes for [p[2]] and a release build does not *)
Lemma subscript_in_array :
  is_destroying h_array = false /\ ~ registered h_array 16 /\
  0 <= 2 < 2 ^ 31 /\
  element (subscript false Node 8 2 16 h_array)
    = Some (get 8 h_array + 2 * sizeof Node) /\
  element (subscript false Node 8 (2 ^ 32 + 2) 16 h_array) = Some 65568 /\
  element (subscript true Node 8 (2 ^ 32 + 2) 16 h_array)
    = Some (65536 + (2 ^ 32 + 2) * 16).
Proof.
  assert (Hr : 0 <= 2 < 2 ^ 31) by lia.
  split; [reflexivity|]. split; [exact h_array_not_registered|].
  split; [exact Hr|]. split; [|split].
  - destruct (subscript_element false os Node 8 16 2 h_array _ eq_refl
                h_array_not_registered h_array_subscript)
      as (_ & Hv & _).
    rewrite h_array_subscript. exact (f_equal Some (Hv Hr)).
  - vm_cast_no_check
      (@eq_refl _ (element (subscript false Node 8 (2 ^ 32 + 2) 16 h_array))).
  - vm_cast_no_check
      (@eq_refl _ (element (subscript true Node 8 (2 ^ 32 + 2) 16 h_array))).
Defined.

(** *** The end of the heap *)

Lemma ok_of {A} (r : result A) : is_ok r = true -> exists a, r = Ok a.
Proof. destruct r; try discriminate. eauto. Qed.

Lemma no_destroy_returns f x (h : heap) : exists h', no_destroy f x h = Ok h'.
Proof. now exists h. Qed.

Lemma no_destroy_keeps_dtors f x (h1 h2 : heap) :
  no_destroy f x h1 = Ok h2 -> dtors h2 = dtors h1.
Proof. now intros [= <-]. Qed.

(** the heap [h_tree] is destroyed *)
Lemma heap_dtor_on_tree :
  Forall fits (dtors h_tree) /\
  recorded h_tree = [8; 65536; 65552; 65568] /\
  exists o l,
    heap_dtor no_destroy h_tree = Ok o /\
    log o = (EvReset <$> [8; 65536; 65552; 65568]) ++ l /\
    destroy_calls l = [(1%nat, 65536); (1%nat, 65552); (1%nat, 65568)] /\
    dtors (post o) = [].
Proof.
  assert (Hf : Forall fits (dtors h_tree)).
  { repeat constructor; cbn; lia. }
  assert (Hrec : recorded h_tree = [8; 65536; 65552; 65568]).
  { vm_cast_no_check (@eq_refl _ (recorded h_tree)). }
  split; [exact Hf|]. split; [exact Hrec|].
  destruct (heap_dtor_resets_then_destroys no_destroy h_tree Hf
              no_destroy_keeps_dtors) as (_ & _ & Hspec & Hret).
  destruct (Hret no_destroy_returns) as [o Ho].
  destruct (Hspec o Ho) as (l & Hl & _ & Hc & _ & Hd).
  exists o, l. split; [exact Ho|]. rewrite Hrec in Hl.
  split; [exact Hl|]. split; [exact Hc|exact Hd].
Defined.

(** [h_tree] while it is being destroyed *)
Definition h_tree_dying : heap := set_is_destroying true h_tree.

Lemma h_tree_dying_make :
  make false no_destroy no_construct os 5 Node 16 h_tree_dying
  = Fatal "cannot allocate new objects on a deferred_heap that is being destroyed".
Proof.
  vm_cast_no_check
    (@eq_refl _ (make false no_destroy no_construct os 5 Node 16 h_tree_dying)).
Qed.

(** inside a destructor that the destructor of the heap runs, in a debug
    build: a tracked pointer is destroyed, another is constructed, an
    object is made *)
Lemma while_tree_is_destroyed :
  is_destroying h_tree_dying = true /\
  deferred_ptr_dtor false 65536 h_tree_dying = Ok (Out tt h_tree_dying []) /\
  deferred_ptr_ctor false 16 0 h_tree_dying
    = Fatal "cannot allocate new objects on a deferred_heap that is being destroyed" /\
  make false no_destroy no_construct os 5 Node 16 h_tree_dying
    = Fatal "cannot allocate new objects on a deferred_heap that is being destroyed".
Proof.
  destruct (nothing_new_while_destroying false no_destroy no_construct os
              h_tree_dying eq_refl) as [Hdtor Hnew].
  destruct (Hnew eq_refl) as [Hctor _].
  split; [reflexivity|]. split; [apply Hdtor|]. split; [apply Hctor|].
  exact h_tree_dying_make.
Defined.

(** *** Constructing over an old object *)

Lemma no_construct_keeps_dtors T x (h1 h2 : heap) :
  no_construct T x h1 = Ok h2 -> dtors h2 = dtors h1.
Proof. now intros [= <-]. Qed.

(** what [construct<Node>(65536)] does where the registry holds the
    array of [two_nodes] *)
Definition construct_over_log : list (@event SpecPage.ops) :=
  [EvDestroy 1%nat 65536 empty_heap; EvDestroy 1%nat 65552 empty_heap;
   EvConstruct Node 65536; EvStore (node_at 65536)].

Lemma construct_over_two_nodes :
  construct (page_ops := SpecPage.ops) false no_destroy no_construct
            Node 65536 two_nodes
  = Ok (Out tt (set_dtors (fun _ => [node_at 65536]) empty_heap)
            construct_over_log).
Proof.
  vm_cast_no_check
    (@eq_refl _ (construct (page_ops := SpecPage.ops) false no_destroy
                           no_construct Node 65536 two_nodes)).
Qed.

(** the entry of the array goes, the entry of the new object comes *)
Lemma construct_over_array :
  0 < sizeof Node /\
  construct (page_ops := SpecPage.ops) false no_destroy no_construct
            Node 65536 two_nodes
  = Ok (Out tt (set_dtors (fun _ => [node_at 65536]) empty_heap)
            construct_over_log) /\
  destroy_calls construct_over_log = [(1%nat, 65536); (1%nat, 65552)] /\
  filter (fun d => in_range 65536 (65536 + sizeof Node) d = true)
         [node_at 65536]
    = [ {| d_p := 65536; d_size := sizeof Node; d_n := 1;
           d_destroy := dtor Node |} ] /\
  destroy (page_ops := SpecPage.ops) false Node 65536
          (set_dtors (fun _ => [node_at 65536]) empty_heap)
    = Ok (Out tt (set_dtors (fun _ => [node_at 65536]) empty_heap) []).
Proof.
  assert (Hs : 0 < sizeof Node) by (cbn; lia).
  split; [exact Hs|]. split; [exact construct_over_two_nodes|].
  split; [reflexivity|].
  destruct (construct_replaces_entries false no_destroy no_construct Node
              65536 two_nodes _ no_destroy_keeps_dtors
              no_construct_keeps_dtors Hs construct_over_two_nodes)
    as (_ & Hin & Hdes).
  split; [exact Hin|exact Hdes].
Defined.

(** *** What marking reaches in [h_tree] *)

Lemma h_tree_root : 8 ∈ roots h_tree.
Proof. change (8 ∈ ({[ 8 ]} : gset Z)). now apply elem_of_singleton. Qed.

(** the first object of [h_tree] is reachable *)
Lemma h_tree_first_reachable : reachable h_tree 0 0.
Proof.
  apply (reach_root h_tree 8 0 0); [exact h_tree_root|discriminate|].
  vm_cast_no_check (@eq_refl _ (Some (0%nat, 0%nat))).
Qed.

(** and it is the only one *)
Lemma h_tree_reachable i s : reachable h_tree i s -> i = 0%nat /\ s = 0%nat.
Proof.
  induction 1 as [tp i s Htp _ Ht|i s pg r i' s' _ IH Hi Hr Hhome _ Ht].
  - change (tp ∈ ({[ 8 ]} : gset Z)) in Htp.
    apply elem_of_singleton in Htp. subst tp.
    vm_compute in Ht. now injection Ht as <- <-.
  - destruct IH as [-> ->]. cbn in Hi. injection Hi as <-.
    cbn [deferred_ptrs] in Hr. rewrite !elem_of_cons in Hr.
    destruct Hr as [->|[->|[->|Hr]]].
    + vm_compute in Ht. now injection Ht as <- <-.
    + vm_compute in Hhome. discriminate.
    + vm_compute in Hhome. discriminate.
    + inversion Hr.
Qed.

Lemma h_tree_page :
  pages h_tree_marked !! 0%nat
  = Some (@Build_dhpage SpecPage.ops
            (page_of [SpecPage.Start; SpecPage.Start; SpecPage.Start;
                      SpecPage.Free])
            [true; false; false; false]
            [ {| nr_p := 65536; level := 1 |}; mk_nonroot 65552;
              mk_nonroot 65568 ]).
Proof. reflexivity. Qed.

(** marking [h_tree]: the first object keeps its bit and the level of
    its member, and is not condemned *)
Lemma marking_reaches_first :
  Z.of_nat (nonroot_count h_tree) + 2 < SizeT.modulus /\
  (nonroot_count h_tree < 5)%nat /\
  collect_mark false 5 h_tree = Ok (Out 2%nat h_tree_marked []) /\
  reachable h_tree 0 0 /\ bitmaps_sized h_tree /\
  ~ condemned h_tree_marked 0 0.
Proof.
  assert (Hb : Z.of_nat (nonroot_count h_tree) + 2 < SizeT.modulus)
    by reflexivity.
  assert (Hf : (nonroot_count h_tree < 5)%nat) by (vm_compute; lia).
  assert (Hs : bitmaps_sized h_tree) by (repeat constructor).
  split; [exact Hb|]. split; [exact Hf|]. split; [exact h_tree_mark|].
  split; [exact h_tree_first_reachable|]. split; [exact Hs|].
  destruct (marking_reaches_all false 5 h_tree _ 0 0 Hb Hf h_tree_mark
              h_tree_first_reachable) as [_ Hnot].
  exact (Hnot Hs).
Defined.

(** marking [h_tree]: the two objects of the cycle are condemned *)
Lemma marking_condemns_cycle :
  Z.of_nat 5 + 1 < SizeT.modulus /\
  collect_mark false 5 h_tree = Ok (Out 2%nat h_tree_marked []) /\
  ~ reachable h_tree 0 1 /\ ~ reachable h_tree 0 2 /\
  condemned h_tree_marked 0 1 /\ condemned h_tree_marked 0 2.
Proof.
  assert (Hb : Z.of_nat 5 + 1 < SizeT.modulus) by reflexivity.
  assert (H1 : ~ reachable h_tree 0 1).
  { intros Hr. apply h_tree_reachable in Hr as [_ Hr]. discriminate. }
  assert (H2 : ~ reachable h_tree 0 2).
  { intros Hr. apply h_tree_reachable in Hr as [_ Hr]. discriminate. }
  split; [exact Hb|]. split; [exact h_tree_mark|].
  split; [exact H1|]. split; [exact H2|].
  destruct (marking_reaches_only false node_destroy os 5 h_tree _ 0 _ Hb
              h_tree_mark h_tree_page) as (_ & _ & Hcond).
  split; apply Hcond; try reflexivity; try assumption; cbn; lia.
Defined.

(** [collect()] on [h_tree] resets the tracked pointer at [65552], in
    the cycle, and not the one at [65536] *)
Lemma collect_resets_cycle :
  Z.of_nat 5 + 1 < SizeT.modulus /\
  Z.of_nat (nonroot_count h_tree) + 2 < SizeT.modulus /\
  (nonroot_count h_tree < 5)%nat /\
  exists l,
    collect false node_destroy 5 h_tree = Ok (Out tt h_tree_swept l) /\
    EvReset 65552 ∈ l /\ EvReset 65536 ∉ l.
Proof.
  assert (Hbf : Z.of_nat 5 + 1 < SizeT.modulus) by reflexivity.
  assert (Hb : Z.of_nat (nonroot_count h_tree) + 2 < SizeT.modulus)
    by reflexivity.
  assert (Hf : (nonroot_count h_tree < 5)%nat) by (vm_compute; lia).
  split; [exact Hbf|]. split; [exact Hb|]. split; [exact Hf|].
  destruct h_tree_collect as [l Hc]. exists l. split; [exact Hc|].
  pose proof (fun tp => collect_resets_unreachable false node_destroy os 5
                          h_tree _ tp Hbf Hb Hf Hc) as Hres.
  cbn [log] in Hres. split.
  - apply Hres. eexists 0%nat, _, (mk_nonroot 65552).
    split; [reflexivity|]. split; [cbn; rewrite !elem_of_cons; auto|].
    split; [reflexivity|].
    intros Hr. apply h_tree_reachable in Hr as [_ Hr].
    vm_compute in Hr. discriminate.
  - intros Hin. apply Hres in Hin as (i & pg & r & Hi & Hr & Hn & Hnr).
    destruct i as [|i]; [|discriminate]. cbn in Hi. injection Hi as <-.
    cbn [deferred_ptrs] in Hr. rewrite !elem_of_cons in Hr.
    destruct Hr as [->|[->|[->|Hr]]].
    + apply Hnr. exact h_tree_first_reachable.
    + discriminate Hn.
    + discriminate Hn.
    + inversion Hr.
Defined.

(** *** Which page serves *)

Lemma h_tree_allocate_ok :
  is_ok (allocate false node_destroy os 5 Node 1 16 h_tree) = true.
Proof. vm_cast_no_check (@eq_refl bool true). Qed.

Lemma empty_allocate_ok :
  is_ok (allocate false node_destroy os 5 Node 1 16 empty_heap) = true.
Proof. vm_cast_no_check (@eq_refl bool true). Qed.

(** [allocate<Node>(1)] on [h_tree], whose page has one location left,
    and on the empty heap, which gets its first page *)
Lemma allocate_in_tree :
  (exists o,
     allocate false node_destroy os 5 Node 1 16 h_tree = Ok o /\
     length (pages (post o)) = 1%nat /\ get 16 (post o) = 65584 /\
     registered (post o) 16) /\
  (exists o,
     allocate false node_destroy os 5 Node 1 16 empty_heap = Ok o /\
     length (pages (post o)) = 1%nat /\ log o = []).
Proof.
  split.
  - destruct (ok_of _ h_tree_allocate_ok) as [o Ho]. exists o.
    split; [exact Ho|].
    destruct (allocate_first_fit false node_destroy os 5 Node 1 16 h_tree o Ho)
      as (Hreg & _ & Hserved).
    destruct (Hserved 0%nat
                (@Build_dhpage SpecPage.ops
                   (page_of [SpecPage.Start; SpecPage.Start; SpecPage.Start;
                             SpecPage.Free])
                   [false; false; false; false]
                   [mk_nonroot 65536; mk_nonroot 65552; mk_nonroot 65568])
                eq_refl)
      as (_ & _ & Hlen & Hget & _).
    + intros Hr. vm_compute in Hr. discriminate.
    + intros k pg' Hk. lia.
    + split; [exact Hlen|]. split; [|exact Hreg].
      rewrite Hget. vm_cast_no_check (@eq_refl Z 65584).
  - destruct (ok_of _ empty_allocate_ok) as [o Ho]. exists o.
    split; [exact Ho|].
    destruct (allocate_first_fit false node_destroy os 5 Node 1 16 empty_heap
                o Ho) as (_ & Hnew & _).
    destruct (Hnew eq_refl) as (Hl & _ & Hlen).
    + intros pg Hpg. inversion Hpg.
    + split; [exact Hlen|exact Hl].
Defined.

(** *** The order of the roots *)

(** [h_tree] with a second root, at [16], that points to the second
    object *)
Definition h_two_roots : heap :=
  set_roots (fun r => {[ 16 ]} ∪ r) (set_memory (insert 16 65552) h_tree).

Lemma h_two_roots_ok : is_ok (mark_roots false h_two_roots) = true.
Proof. vm_cast_no_check (@eq_refl bool true). Qed.

(** the roots of [h_two_roots] marked as the root set gives them, in the
    other order, and with one of them twice *)
Lemma roots_in_any_order :
  exists o,
    mark_roots false h_two_roots = Ok o /\
    for_each [16; 8] (fun tp => x ← gets (get tp); mark false x 1) h_two_roots
      = Ok o /\
    for_each [8; 16; 8] (fun tp => x ← gets (get tp); mark false x 1)
             h_two_roots = Ok o.
Proof.
  destruct (ok_of _ h_two_roots_ok) as [o Ho]. exists o.
  split; [exact Ho|].
  assert (Hroots : forall tp, tp ∈ roots h_two_roots <-> tp = 16 \/ tp = 8).
  { intros tp. change (tp ∈ ({[ 16 ]} ∪ {[ 8 ]} : gset Z) <-> tp = 16 \/ tp = 8).
    now rewrite elem_of_union, !elem_of_singleton. }
  split; apply (mark_roots_any_order false h_two_roots o _ Ho); intros tp;
    rewrite Hroots, !elem_of_cons, elem_of_nil; tauto.
Defined.

(** *** [collect()] in a release build *)

Lemma no_destroy_keeps_pages f x (h : heap) :
  exists h', no_destroy f x h = Ok h' /\ length (pages h') = length (pages h).
Proof. now exists h. Qed.

Lemma collect_returns_on_tree :
  Z.of_nat 5 + 1 < SizeT.modulus /\
  Z.of_nat (nonroot_count h_tree) + 2 < SizeT.modulus /\
  (nonroot_count h_tree < 5)%nat /\ (length (pages h_tree) < 5)%nat /\
  exists o, collect true no_destroy 5 h_tree = Ok o.
Proof.
  assert (Hbf : Z.of_nat 5 + 1 < SizeT.modulus) by reflexivity.
  assert (Hb : Z.of_nat (nonroot_count h_tree) + 2 < SizeT.modulus)
    by reflexivity.
  assert (Hf : (nonroot_count h_tree < 5)%nat) by (vm_compute; lia).
  assert (Hp : (length (pages h_tree) < 5)%nat) by (cbn; lia).
  split; [exact Hbf|]. split; [exact Hb|]. split; [exact Hf|].
  split; [exact Hp|].
  exact (collect_returns_release true no_destroy os 5 h_tree eq_refl Hbf Hb
           Hf Hp no_destroy_keeps_pages).
Defined.

(** *** [make] *)

Lemma make_node_ok :
  is_ok (make false no_destroy no_construct os 5 Node 8 empty_heap) = true.
Proof. vm_cast_no_check (@eq_refl bool true). Qed.

Lemma allocate_node_at :
  built 8 (allocate false no_destroy os 5 Node 1 8 empty_heap)
  = Some (65536, []).
Proof.
  vm_cast_no_check
    (@eq_refl _ (built 8 (allocate false no_destroy os 5 Node 1 8 empty_heap))).
Qed.

(** [make<Node>()] on the empty heap, in a debug build: one [Node] is
    constructed, at [65536] *)
Lemma make_one_node :
  collect_before_expand (page_ops := SpecPage.ops) empty_heap = false /\
  exists o,
    make false no_destroy no_construct os 5 Node 8 empty_heap = Ok o /\
    constructed (log o) = [65536].
Proof.
  split; [reflexivity|].
  destruct (ok_of _ make_node_ok) as [o Ho]. exists o. split; [exact Ho|].
  destruct (make_builds_one false no_destroy no_construct os 5 Node 8
              empty_heap o eq_refl Ho) as (oa & l & Ha & _ & _ & Hp).
  cbn zeta in Hp. destruct Hp as (_ & _ & Hlog).
  pose proof allocate_node_at as Hb. rewrite Ha in Hb. cbn [built] in Hb.
  injection Hb as Hget _.
  destruct Hlog as (_ & _ & Hc); [rewrite Hget; discriminate|].
  rewrite Hc, Hget. reflexivity.
Defined.

End Demo.
